(** * Image to Design Tokens: the colour pipeline of [assets/js/app.js]

    A shallow embedding of the colour utilities, the median-cut quantizer,
    the de-duplicator, the two accent passes, the palette assembly of
    [processImage] and [generateTokens], followed by the properties the
    specification states about them.  It goes on to the rest of the
    program's state: the pixels read from the canvas, the background
    candidates and the contrast report of the previews, the saved
    palettes, and the session with its three locks; and to further
    properties of the whole.

    Conventions of the embedding.
    - A JavaScript number is a rational [Q].  The channel values of a
      colour are integers ([Z]), as the pipeline only ever stores
      [Math.round]ed values and parsed hex digits there.
    - Hue, saturation and lightness are computed as the program computes
      them, in IEEE doubles: every sum, difference, product and quotient
      on the way is rounded to the nearest double ([+!], [-!], [*!],
      [/!], built on [JS.fl]), and a decimal of the program text that
      such a number is compared with or multiplied by is the double
      nearest to it ([JS.lit]).  Comparisons, [Math.floor], [Math.round],
      [Math.abs], [Math.max] and [Math.min] are exact on doubles.
    - The other arithmetic is exact.  Sums of channels, the terms of
      [colorDistance] and population times boost are doubles as they
      stand.  A quotient of integers that is rounded to an integer at
      once, the share [length * 0.05] and the difference a [sort]
      compares give on doubles the same integer and the same order (see
      "Where the embedding divides exactly").  Luminance, contrast ratio
      and the scores built on them go through [Math.pow] and [Math.log],
      whose last bits the language leaves to the engine: there a
      comparison can differ from the one of an engine only where the two
      sides agree to within rounding error.
    - [Math.sqrt] and [Math.pow(x, 2.4)] are the real functions rounded
      down to a multiple of 2^-64; [Math.log] is a parameter (a section
      variable), as no property below depends on its values.
    - The definitions follow the program on pixels and swatches whose
      channels lie in 0..255, the data model of the specification.  There
      no division by zero, square root of a negative number or logarithm
      of a non-positive number occurs; outside, where JavaScript would
      produce [Infinity] or [NaN], the embedding is not meant to agree.
    - A string is a [string] of Latin-1 code units.
    - A [TypeError] (reading a property of [null]) is [None] in the
      [option] monad. *)

From Stdlib Require Import ZArith QArith Qround Qabs Qminmax Qpower.
From Stdlib Require Import String Ascii List Bool Lia Lqa Permutation.
Import ListNotations.

Set Implicit Arguments.
Local Open Scope string_scope.
Local Open Scope list_scope.
Local Open Scope Z_scope.
Local Open Scope Q_scope.

(* ================================================================== *)
(** ** The JavaScript run-time the program relies on *)
(* ================================================================== *)

Module JS.

(** Comparisons of numbers, as booleans. *)
Definition ltb (x y : Q) : bool := negb (Qle_bool y x).
Definition leb (x y : Q) : bool := Qle_bool x y.
Definition gtb (x y : Q) : bool := ltb y x.
Definition geb (x y : Q) : bool := leb y x.
Definition eqb (x y : Q) : bool := Qeq_bool x y.

(** [Math.round]: nearest integer, ties towards plus infinity. *)
Definition Math_round (x : Q) : Z := Qfloor (x + 0.5).
Definition Math_floor (x : Q) : Z := Qfloor x.
Definition Math_abs (x : Q) : Q := Qabs x.
Definition Math_max (x y : Q) : Q := Qmax x y.
Definition Math_min (x y : Q) : Q := Qmin x y.

(** *** Doubles

    A finite double is a rational [m * 2^e] with [|m| < 2^53].  Every
    sum, difference, product and quotient of doubles is the exact result
    rounded to the nearest double, a tie going to the even significand
    (IEEE 754, round to nearest even).  The exponent range is left out:
    the numbers rounded here lie between 2^-1022 and 2^1024 in absolute
    value, or are zero. *)

(** [floor (log2 |x|)] for [x <> 0]. *)
Definition ilog2 (x : Q) : Z :=
  let c := (Z.log2 (Z.abs (Qnum x)) - Z.log2 (Zpos (Qden x)))%Z in
  if Qle_bool (2 ^ c) (Qabs x) then c else (c - 1)%Z.

(** The nearest integer, a tie going to the even one. *)
Definition nearestEven (x : Q) : Z :=
  let f := Qfloor x in
  match Qcompare (x - inject_Z f) (1 # 2) with
  | Lt => f
  | Gt => (f + 1)%Z
  | Eq => if Z.even f then f else (f + 1)%Z
  end.

(** [fl x]: the double nearest to [x], as a fraction in lowest terms. *)
Definition fl (x : Q) : Q :=
  if Qeq_bool x 0 then 0
  else
    let e := (ilog2 x - 52)%Z in
    Qred (inject_Z (nearestEven (x * 2 ^ (- e))) * 2 ^ e).

(** The arithmetic of doubles. *)
Definition add (x y : Q) : Q := fl (x + y).
Definition sub (x y : Q) : Q := fl (x - y).
Definition mul (x y : Q) : Q := fl (x * y).
Definition div (x y : Q) : Q := fl (x / y).

(** A decimal literal of the program text: the double nearest to it. *)
Definition lit (x : Q) : Q := fl x.

(** Number of fractional bits kept by the two irrational functions. *)
Definition prec : Z := 64.

(** [iroot k n]: the largest [x >= 0] with [x ^ k <= n], found bit by
    bit from the top. *)
Fixpoint iroot_bits (k n : Z) (bits : nat) (acc : Z) : Z :=
  match bits with
  | O => acc
  | S bits' =>
      let cand := (acc + 2 ^ Z.of_nat bits')%Z in
      iroot_bits k n bits' (if (cand ^ k <=? n)%Z then cand else acc)
  end.

Definition iroot (k n : Z) : Z :=
  iroot_bits k n (S (Z.to_nat (Z.log2 n / k))) 0.

(** [Math.sqrt x], rounded down to a multiple of 2^-prec. *)
Definition Math_sqrt (x : Q) : Q :=
  if Qle_bool x 0 then 0
  else Qred (Z.sqrt ((Qnum x * 2 ^ (2 * prec)) / Zpos (Qden x))
             # Pos.pow 2 (Z.to_pos prec)).

(** [Math.pow(x, 2.4)]: the fifth root of [x ^ 12], rounded down to a
    multiple of 2^-prec. *)
Definition Math_pow_2_4 (x : Q) : Q :=
  if Qle_bool x 0 then 0
  else Qred (iroot 5 ((Qnum x ^ 12 * 2 ^ (5 * prec)) / Zpos (Qden x) ^ 12)
             # Pos.pow 2 (Z.to_pos prec)).

(** Truthiness of a string: every string but the empty one. *)
Definition truthy (s : string) : bool :=
  match s with EmptyString => false | _ => true end.

(** [String.prototype.toLowerCase] on Latin-1 code units. *)
Definition lowerChar (c : ascii) : ascii :=
  let n := nat_of_ascii c in
  if ((65 <=? n) && (n <=? 90))%nat
     || ((192 <=? n) && (n <=? 222) && negb (n =? 215))%nat
  then ascii_of_nat (n + 32) else c.

Fixpoint toLowerCase (s : string) : string :=
  match s with
  | EmptyString => EmptyString
  | String c s' => String (lowerChar c) (toLowerCase s')
  end.

(** [Array.prototype.sort] with a comparator: a stable sort, here by
    insertion.  [cmp x y] negative or zero keeps [x] before [y]. *)
Section Sort.
Variable A : Type.
Variable cmp : A -> A -> Q.

Fixpoint insert (x : A) (l : list A) : list A :=
  match l with
  | [] => [x]
  | y :: l' => if Qle_bool (cmp x y) 0 then x :: l else y :: insert x l'
  end.

Definition sort (l : list A) : list A := fold_right insert [] l.
End Sort.

(** [Array.prototype.slice(0, n)] and [slice(n)]. *)
Definition slice_to {A} (n : nat) (l : list A) : list A := firstn n l.
Definition slice_from {A} (n : nat) (l : list A) : list A := skipn n l.

(** The error monad: [None] is a thrown [TypeError]. *)
Definition bind {A B} (m : option A) (k : A -> option B) : option B :=
  match m with Some a => k a | None => None end.

End JS.

Notation "x <- m ;; k" := (JS.bind m (fun x => k))
  (at level 61, m at next level, right associativity).

Infix "<?" := JS.ltb : Q_scope.
Infix "<=?" := JS.leb : Q_scope.
Infix ">?" := JS.gtb : Q_scope.
Infix ">=?" := JS.geb : Q_scope.
Infix "=?" := JS.eqb : Q_scope.

(** Double arithmetic is written with a [!]; the plain signs are exact. *)
Infix "+!" := JS.add (at level 50, left associativity) : Q_scope.
Infix "-!" := JS.sub (at level 50, left associativity) : Q_scope.
Infix "*!" := JS.mul (at level 40, left associativity) : Q_scope.
Infix "/!" := JS.div (at level 40, left associativity) : Q_scope.

(* ================================================================== *)
(** ** Data model *)
(* ================================================================== *)

(** A pixel, and the r, g, b part of every colour object. *)
Record Rgb : Type := mkRgb { r : Z; g : Z; b : Z }.

(** A palette entry.  A flag the object does not carry is [false]. *)
Record Swatch : Type := mkSwatch {
  rgb :> Rgb;
  population : Z;
  isVibrant : bool;
  isBrandColor : bool
}.

(** An entry of [analyzed]: the swatch spread, plus three fields. *)
Record Analyzed : Type := mkAnalyzed {
  swatch :> Swatch;
  hex : string;
  luminance : Q;
  saturation : Q
}.

Record Hsl : Type := mkHsl { h : Q; s : Q; l : Q }.

(** The eight tokens of one mode. *)
Record TokenSet : Type := mkTokenSet {
  bg : string;
  surface : string;
  border : string;
  text : string;
  heading : string;
  mutedText : string;
  primary : string;
  onPrimary : string
}.

(** Channels of a pixel or swatch as the pixel source delivers them. *)
Definition channel_ok (x : Z) : Prop := (0 <= x <= 255)%Z.
Definition rgb_ok (c : Rgb) : Prop :=
  channel_ok c.(r) /\ channel_ok c.(g) /\ channel_ok c.(b).
Definition swatch_ok (c : Swatch) : Prop :=
  rgb_ok c /\ (0 <= c.(population))%Z.
Definition palette_ok (p : list Swatch) : Prop := Forall swatch_ok p.

(* ================================================================== *)
(** ** Colour utility functions *)
(* ================================================================== *)

(** One hexadecimal digit, [0 <= d < 16]. *)
Definition hexChar (d : Z) : ascii :=
  if (d <? 10)%Z then ascii_of_nat (Z.to_nat d + 48)
  else ascii_of_nat (Z.to_nat d + 87).

(** Digits of a positive number in base 16, most significant first. *)
Fixpoint hexDigits (fuel : nat) (n : Z) (acc : string) : string :=
  match fuel with
  | O => acc
  | S fuel' =>
      let acc' := String (hexChar (n mod 16)) acc in
      if (n / 16 =? 0)%Z then acc' else hexDigits fuel' (n / 16) acc'
  end.

(** [n.toString(16)] for an integer [n]. *)
Definition toString16 (n : Z) : string :=
  if (n <? 0)%Z
  then String "-" (hexDigits (S (Z.to_nat (Z.log2 (- n)))) (- n) EmptyString)
  else hexDigits (S (Z.to_nat (Z.log2 n))) n EmptyString.

(** The callback of [rgbToHex]; [Math.round] is the identity on the
    integer it receives. *)
Definition hexPair (x : Z) : string :=
  let hex := toString16 x in
  if (String.length hex =? 1)%nat then String "0" hex else hex.

Definition rgbToHex (r g b : Z) : string :=
  String "#" (hexPair r ++ hexPair g ++ hexPair b)%string.

(** The character class [[a-f\d]] under the [i] flag, with its value. *)
Definition hexValue (c : ascii) : option Z :=
  let n := Z.of_nat (nat_of_ascii c) in
  if ((48 <=? n) && (n <=? 57))%Z then Some (n - 48)%Z
  else if ((97 <=? n) && (n <=? 102))%Z then Some (n - 87)%Z
  else if ((65 <=? n) && (n <=? 70))%Z then Some (n - 55)%Z
  else None.

(** [parseInt] of a two-character group, base 16. *)
Definition parsePair (c1 c2 : ascii) : option Z :=
  d1 <- hexValue c1 ;; d2 <- hexValue c2 ;; Some (16 * d1 + d2)%Z.

(** [/^#?([a-f\d]{2})([a-f\d]{2})([a-f\d]{2})$/i]: an optional [#], then
    exactly six hexadecimal digits. *)
Definition hexToRgb (hex : string) : option Rgb :=
  let body := match hex with String "#" rest => rest | _ => hex end in
  match body with
  | String c1 (String c2 (String c3 (String c4 (String c5 (String c6
      EmptyString))))) =>
      r <- parsePair c1 c2 ;; g <- parsePair c3 c4 ;; b <- parsePair c5 c6 ;;
      Some (mkRgb r g b)
  | _ => None
  end.

(** Relative luminance per WCAG 2.1. *)
Definition linearize (c : Z) : Q :=
  let c := inject_Z c / 255 in
  if c <=? 0.03928 then c / 12.92
  else JS.Math_pow_2_4 ((c + 0.055) / 1.055).

Definition getLuminance (r g b : Z) : Q :=
  0.2126 * linearize r + 0.7152 * linearize g + 0.0722 * linearize b.

Definition getContrastRatio (rgb1 rgb2 : Rgb) : Q :=
  let l1 := getLuminance rgb1.(r) rgb1.(g) rgb1.(b) in
  let l2 := getLuminance rgb2.(r) rgb2.(g) rgb2.(b) in
  let lighter := JS.Math_max l1 l2 in
  let darker := JS.Math_min l1 l2 in
  (lighter + 0.05) / (darker + 0.05).

Definition getSaturation (r g b : Z) : Q :=
  let max := inject_Z (Z.max (Z.max r g) b) /! 255 in
  let min := inject_Z (Z.min (Z.min r g) b) /! 255 in
  let l := (max +! min) /! 2 in
  if max =? min then 0
  else
    let d := max -! min in
    if l >? 0.5 then d /! (2 -! max -! min) else d /! (max +! min).

Definition rgbToHsl (r g b : Z) : Hsl :=
  let r := inject_Z r /! 255 in
  let g := inject_Z g /! 255 in
  let b := inject_Z b /! 255 in
  let max := JS.Math_max (JS.Math_max r g) b in
  let min := JS.Math_min (JS.Math_min r g) b in
  let l := (max +! min) /! 2 in
  if max =? min then mkHsl (0 *! 360) 0 l
  else
    let d := max -! min in
    let s := if l >? 0.5 then d /! (2 -! max -! min) else d /! (max +! min) in
    let h :=
      if max =? r then ((g -! b) /! d +! (if g <? b then 6 else 0)) /! 6
      else if max =? g then ((b -! r) /! d +! 2) /! 6
      else ((r -! g) /! d +! 4) /! 6 in
    mkHsl (h *! 360) s l.

Definition isSimilarHue (hsl1 hsl2 : Hsl) (threshold : Q) : bool :=
  let diff := JS.Math_abs (hsl1.(h) -! hsl2.(h)) in
  let diff := if diff >? 180 then 360 -! diff else diff in
  diff <? threshold.

Definition colorDistance (c1 c2 : Rgb) : Q :=
  let rMean := (inject_Z c1.(r) + inject_Z c2.(r)) / 2 in
  let dr := inject_Z (c1.(r) - c2.(r)) in
  let dg := inject_Z (c1.(g) - c2.(g)) in
  let db := inject_Z (c1.(b) - c2.(b)) in
  JS.Math_sqrt
    ((2 + rMean / 256) * dr * dr + 4 * dg * dg
     + (2 + (255 - rMean) / 256) * db * db).

(* ================================================================== *)
(** ** Median cut *)
(* ================================================================== *)

Inductive Channel : Type := Cr | Cg | Cb.

(** [p[channel]] *)
Definition chan (ch : Channel) (p : Rgb) : Z :=
  match ch with Cr => p.(r) | Cg => p.(g) | Cb => p.(b) end.

(** The running [{min, max}] of one channel, from [{min: 255, max: 0}]. *)
Definition rangeOf (ch : Channel) (pixels : list Rgb) : Z * Z :=
  fold_left
    (fun acc p => (Z.min (fst acc) (chan ch p), Z.max (snd acc) (chan ch p)))
    pixels (255, 0)%Z.

Definition findLargestRange (pixels : list Rgb) : Channel :=
  let step (acc : Z * Channel) (channel : Channel) :=
    let range := (snd (rangeOf channel pixels) - fst (rangeOf channel pixels))%Z in
    if (range >? fst acc)%Z then (range, channel) else acc in
  snd (fold_left step [Cr; Cg; Cb] (0%Z, Cr)).

(** The [forEach] that looks for the largest bucket: the first bucket of
    maximal length wins.  Returns [(maxBucketIndex, maxBucketSize)]. *)
Fixpoint largestBucket (buckets : list (list Rgb))
    (index maxBucketIndex maxBucketSize : nat) : nat * nat :=
  match buckets with
  | [] => (maxBucketIndex, maxBucketSize)
  | bucket :: rest =>
      if (maxBucketSize <? length bucket)%nat
      then largestBucket rest (S index) index (length bucket)
      else largestBucket rest (S index) maxBucketIndex maxBucketSize
  end.

(** [buckets.splice(i, 1, bucket1, bucket2)] *)
Definition splice2 {A} (i : nat) (x y : A) (l : list A) : list A :=
  firstn i l ++ x :: y :: skipn (S i) l.

(** [bucket.sort((a, b) => a[channel] - b[channel])] *)
Definition sortByChannel (channel : Channel) (bucket : list Rgb) : list Rgb :=
  JS.sort (fun a b => inject_Z (chan channel a - chan channel b)) bucket.

(** The [while] loop of [medianCut].  Every turn that does not leave the
    loop adds one bucket, so [targetColors] turns are enough
    ([splitLoop_exits] below). *)
Fixpoint splitLoop (fuel : nat) (targetColors : Z)
    (buckets : list (list Rgb)) : list (list Rgb) :=
  match fuel with
  | O => buckets
  | S fuel' =>
      if (Z.of_nat (length buckets) <? targetColors)%Z then
        let '(maxBucketIndex, maxBucketSize) := largestBucket buckets 0 0 0 in
        if (maxBucketSize <=? 1)%nat then buckets
        else
          let bucket := nth maxBucketIndex buckets [] in
          let channel := findLargestRange bucket in
          let bucket := sortByChannel channel bucket in
          let median := (length bucket / 2)%nat in
          let bucket1 := JS.slice_to median bucket in
          let bucket2 := JS.slice_from median bucket in
          splitLoop fuel' targetColors
            (splice2 maxBucketIndex bucket1 bucket2 buckets)
      else buckets
  end.

(** The callback that turns a bucket into a colour, [None] for [null]. *)
Definition bucketColor (bucket : list Rgb) : option Swatch :=
  if (length bucket =? 0)%nat then None
  else
    let sum := fold_left
      (fun acc p => mkRgb (acc.(r) + p.(r)) (acc.(g) + p.(g)) (acc.(b) + p.(b)))
      bucket (mkRgb 0 0 0) in
    let n := inject_Z (Z.of_nat (length bucket)) in
    Some (mkSwatch
            (mkRgb (JS.Math_round (inject_Z sum.(r) / n))
                   (JS.Math_round (inject_Z sum.(g) / n))
                   (JS.Math_round (inject_Z sum.(b) / n)))
            (Z.of_nat (length bucket)) false false).

(** [.filter(c => c !== null)] *)
Fixpoint dropNull {A} (l : list (option A)) : list A :=
  match l with
  | [] => []
  | Some x :: l' => x :: dropNull l'
  | None :: l' => dropNull l'
  end.

Definition medianCut (pixels : list Rgb) (targetColors : Z) : list Swatch :=
  if (length pixels =? 0)%nat then []
  else
    let buckets := splitLoop (Z.to_nat targetColors) targetColors [pixels] in
    dropNull (map bucketColor buckets).

(** The first bucket is the caller's array itself, and [sort] works in
    place: after [medianCut] the caller's [pixels] is ordered by the
    channel of the first split (later buckets are copies made by
    [slice]). *)
Definition pixelsAfterMedianCut (pixels : list Rgb) (targetColors : Z)
  : list Rgb :=
  if (length pixels =? 0)%nat then pixels
  else if (1 <? targetColors)%Z && (1 <? length pixels)%nat
  then sortByChannel (findLargestRange pixels) pixels
  else pixels.

(* ================================================================== *)
(** ** Near-duplicate removal *)
(* ================================================================== *)

(** [l[i] = x] for an index inside the array. *)
Fixpoint setNth {A} (i : nat) (x : A) (l : list A) : list A :=
  match l, i with
  | [], _ => []
  | _ :: l', O => x :: l'
  | y :: l', S i' => y :: setNth i' x l'
  end.

(** The inner [forEach]: index of the first entry at minimal distance.
    [minDist = None] is [Infinity]. *)
Fixpoint closest (color : Rgb) (filtered : list Swatch)
    (index : nat) (minDist : option Q) (closestIndex : nat) : nat :=
  match filtered with
  | [] => closestIndex
  | existing :: rest =>
      let dist := colorDistance color existing in
      if match minDist with None => true | Some m => dist <? m end
      then closest color rest (S index) (Some dist) index
      else closest color rest (S index) minDist closestIndex
  end.

(** One turn of the outer [forEach]. *)
Definition dedupStep (threshold : Q) (filtered : list Swatch)
    (color : Swatch) : list Swatch :=
  let isDuplicate :=
    existsb (fun existing : Swatch => colorDistance color existing <? threshold)
            filtered in
  if negb isDuplicate then filtered ++ [color]
  else
    let closestIndex := closest color filtered 0 None 0 in
    match nth_error filtered closestIndex with
    | Some existing =>
        let existingSat :=
          getSaturation existing.(r) existing.(g) existing.(b) in
        let newSat := getSaturation color.(r) color.(g) color.(b) in
        if newSat >? existingSat then
          let combinedPopulation :=
            (existing.(population) + color.(population))%Z in
          setNth closestIndex
            (mkSwatch color combinedPopulation
                      color.(isVibrant) color.(isBrandColor))
            filtered
        else
          setNth closestIndex
            (mkSwatch existing (existing.(population) + color.(population))%Z
                      existing.(isVibrant) existing.(isBrandColor))
            filtered
    | None => filtered (* not reached: a duplicate exists, see [closest_lt] *)
    end.

(** The merged population is written into the entry in place; the entry
    is an object of the input array, which no caller reads again. *)
Definition removeDuplicates (colors : list Swatch) (threshold : Q)
  : list Swatch :=
  fold_left (dedupStep threshold) colors [].

(* ================================================================== *)
(** ** Accent passes *)
(* ================================================================== *)

(** A pixel spread with its [hsl] and [sat]. *)
Record HuePixel : Type := mkHuePixel {
  pixel :> Rgb;
  hsl : Hsl;
  sat : Q
}.

(** [buckets[i].push(x)] *)
Fixpoint pushAt {A} (i : nat) (x : A) (buckets : list (list A))
  : list (list A) :=
  match buckets, i with
  | [], _ => []
  | bk :: rest, O => (bk ++ [x]) :: rest
  | bk :: rest, S i' => bk :: pushAt i' x rest
  end.

(** [Math.round(topPixels.reduce((s, p) => s + p[ch], 0) / topPixels.length)] *)
Definition averageChannel (ch : Channel) (topPixels : list HuePixel) : Z :=
  JS.Math_round
    (inject_Z (fold_left (fun s (p : HuePixel) => (s + chan ch p)%Z)
                         topPixels 0%Z)
     / inject_Z (Z.of_nat (length topPixels))).

(** [bucket.sort((a, b) => b.sat - a.sat)] *)
Definition sortBySat (bucket : list HuePixel) : list HuePixel :=
  JS.sort (fun a b : HuePixel => b.(sat) - a.(sat)) bucket.

(** The [some] callback of the vibrant pass. *)
Definition vibrantIsDuplicate (existingPalette : list Swatch) (avg : Swatch)
  : bool :=
  existsb (fun existing : Swatch =>
    let dist := colorDistance avg existing in
    if dist <? 35 then true
    else
      let existingHsl := rgbToHsl existing.(r) existing.(g) existing.(b) in
      let avgHsl := rgbToHsl avg.(r) avg.(g) avg.(b) in
      if isSimilarHue existingHsl avgHsl 25
      then avgHsl.(s) <=? existingHsl.(s) *! JS.lit 1.15
      else false) existingPalette.

(** The first [forEach] of the vibrant pass: fill the 18 hue buckets. *)
Definition vibrantBuckets (pixels : list Rgb) : list (list HuePixel) :=
  fold_left (fun hueBuckets p =>
    let sat := getSaturation p.(r) p.(g) p.(b) in
    if sat <? 0.25 then hueBuckets
    else
      let hsl := rgbToHsl p.(r) p.(g) p.(b) in
      if (hsl.(l) <? JS.lit 0.10) || (hsl.(l) >? JS.lit 0.90) then hueBuckets
      else
        let bucketIndex := Z.rem (JS.Math_floor (hsl.(h) /! 20)) 18 in
        pushAt (Z.to_nat bucketIndex) (mkHuePixel p hsl sat) hueBuckets)
    pixels (repeat [] 18).

(** The candidate colour of one hue bucket. *)
Definition vibrantCandidate (bucket : list HuePixel) : Swatch :=
  let bucket := sortBySat bucket in
  let topCount :=
    Z.max 5 (JS.Math_floor (inject_Z (Z.of_nat (length bucket)) * 0.05)) in
  let topPixels := JS.slice_to (Z.to_nat topCount) bucket in
  mkSwatch (mkRgb (averageChannel Cr topPixels)
                  (averageChannel Cg topPixels)
                  (averageChannel Cb topPixels))
           (Z.of_nat (length bucket)) true false.

(** One turn of the second [forEach]: the colours it pushes. *)
Definition vibrantOfBucket (existingPalette : list Swatch)
    (bucket : list HuePixel) : list Swatch :=
  if (length bucket <? 5)%nat then []
  else
    let avg := vibrantCandidate bucket in
    let isDuplicate := vibrantIsDuplicate existingPalette avg in
    if negb isDuplicate
       && (getSaturation avg.(r) avg.(g) avg.(b) >? JS.lit 0.35)
    then [avg] else [].

Definition extractVibrantColors (pixels : list Rgb)
    (existingPalette : list Swatch) : list Swatch :=
  flat_map (vibrantOfBucket existingPalette) (vibrantBuckets pixels).

(** One of the seven hue ranges, with the pixels collected so far. *)
Record HueRange : Type := mkHueRange {
  name : string;
  min : Q;
  max : Q;
  pixels : list HuePixel
}.

Definition hueRanges : list HueRange :=
  [ mkHueRange "red" 0 30 [];
    mkHueRange "orange" 30 60 [];
    mkHueRange "yellow" 60 90 [];
    mkHueRange "green" 90 180 [];
    mkHueRange "blue" 180 270 [];
    mkHueRange "purple" 270 330 [];
    mkHueRange "red2" 330 360 [] ].

(** [range.pixels.push(x)] on the first range whose interval holds [h];
    nothing when [find] returns [undefined]. *)
Fixpoint pushRange (hue : Q) (x : HuePixel) (ranges : list HueRange)
  : list HueRange :=
  match ranges with
  | [] => []
  | rg :: rest =>
      if (hue >=? rg.(min)) && (hue <? rg.(max))
      then mkHueRange rg.(name) rg.(min) rg.(max) (rg.(pixels) ++ [x]) :: rest
      else rg :: pushRange hue x rest
  end.

Definition brandRanges (pixels : list Rgb) : list HueRange :=
  fold_left (fun ranges p =>
    let sat := getSaturation p.(r) p.(g) p.(b) in
    if sat <? JS.lit 0.45 then ranges
    else
      let hsl := rgbToHsl p.(r) p.(g) p.(b) in
      if (hsl.(l) <? JS.lit 0.12) || (hsl.(l) >? JS.lit 0.88) then ranges
      else pushRange hsl.(h) (mkHuePixel p hsl sat) ranges)
    pixels hueRanges.

Definition brandIsDuplicate (existingPalette : list Swatch) (avg : Swatch)
  : bool :=
  existsb (fun existing : Swatch =>
    let dist := colorDistance avg existing in
    if dist <? 30 then true
    else
      let existingHsl := rgbToHsl existing.(r) existing.(g) existing.(b) in
      let avgHsl := rgbToHsl avg.(r) avg.(g) avg.(b) in
      if isSimilarHue existingHsl avgHsl 20
      then existingHsl.(s) >=? avgHsl.(s)
      else false) existingPalette.

Definition brandOfRange (existingPalette : list Swatch) (range : HueRange)
  : list Swatch :=
  if (length range.(pixels) =? 0)%nat then []
  else
    let sorted := sortBySat range.(pixels) in
    let topPixels := JS.slice_to 3 sorted in
    let avg :=
      mkSwatch (mkRgb (averageChannel Cr topPixels)
                      (averageChannel Cg topPixels)
                      (averageChannel Cb topPixels))
               (Z.of_nat (length range.(pixels))) true true in
    let isDuplicate := brandIsDuplicate existingPalette avg in
    if negb isDuplicate
       && (getSaturation avg.(r) avg.(g) avg.(b) >? JS.lit 0.40)
    then [avg] else [].

Definition extractBrandColors (pixels : list Rgb)
    (existingPalette : list Swatch) : list Swatch :=
  flat_map (brandOfRange existingPalette) (brandRanges pixels).

(** An [{r, g, b}] literal seen as a swatch: no population, no flags. *)
Definition plain (c : Rgb) : Swatch := mkSwatch c 0 false false.

Definition findMostVibrantVariant (color : Rgb) (palette : list Swatch)
  : Swatch :=
  let colorHsl := rgbToHsl color.(r) color.(g) color.(b) in
  fst (fold_left (fun (acc : Swatch * Q) (p : Swatch) =>
         let pHsl := rgbToHsl p.(r) p.(g) p.(b) in
         if isSimilarHue colorHsl pHsl 35
            && ((pHsl.(s) >? snd acc) && (pHsl.(l) >? 0.25)
                && (pHsl.(l) <? 0.75))
         then (p, pHsl.(s)) else acc)
       palette (plain color, colorHsl.(s))).

(* ================================================================== *)
(** ** Token mapping: [generateTokens] *)
(* ================================================================== *)

(** A candidate spread with the score it is sorted by
    ([textScore], [mutedScore], [primaryScore]). *)
Record Scored : Type := mkScored { cand :> Analyzed; score : Q }.

(** The value [generateTokens] returns. *)
Record Tokens : Type := mkTokens {
  light : TokenSet;
  dark : TokenSet;
  warnings : list string
}.

Definition white : Rgb := mkRgb 255 255 255.
Definition black : Rgb := mkRgb 0 0 0.

(** A lock argument in a condition: [null], absent and the empty string
    are falsy. *)
Definition isSet (locked : option string) : option string :=
  match locked with
  | Some lock => if JS.truthy lock then Some lock else None
  | None => None
  end.

(** [hex1 || hex2] on strings. *)
Definition orElse (hex1 hex2 : string) : string :=
  if JS.truthy hex1 then hex1 else hex2.

(** The callback of [palette.map] that builds [analyzed]. *)
Definition analyze (c : Swatch) : Analyzed :=
  mkAnalyzed c (rgbToHex c.(r) c.(g) c.(b))
             (getLuminance c.(r) c.(g) c.(b))
             (getSaturation c.(r) c.(g) c.(b)).

(** [{...rgb, hex, luminance, saturation}] for a parsed lock or a
    fallback literal. *)
Definition ofRgb (c : Rgb) (hex : string) : Analyzed :=
  mkAnalyzed (plain c) hex
             (getLuminance c.(r) c.(g) c.(b))
             (getSaturation c.(r) c.(g) c.(b)).

Definition findBest (analyzed : list Analyzed) (filter : Analyzed -> bool)
  : option Analyzed :=
  let matches := List.filter filter analyzed in
  if (length matches =? 0)%nat then None
  else nth_error
         (JS.sort (fun a b : Analyzed =>
                     inject_Z (b.(population) - a.(population))) matches) 0.

Definition useColor (color : option Analyzed) (fallbackHex : string) : string :=
  match color with Some c => c.(hex) | None => fallbackHex end.

(** [getLuminance(...Object.values(hexToRgb(hex)))]; [Object.values(null)]
    throws. *)
Definition hexLuminance (hex : string) : option Q :=
  c <- hexToRgb hex ;; Some (getLuminance c.(r) c.(g) c.(b)).

Definition ensureContrast (candidateHex : option string) (backgroundRgb : Rgb)
    (minContrast : Q) (fallbackLight fallbackDark : string) : option string :=
  let fallbacks :=
    lightRgb <- hexToRgb fallbackLight ;;
    darkRgb <- hexToRgb fallbackDark ;;
    let lightContrast := getContrastRatio lightRgb backgroundRgb in
    let darkContrast := getContrastRatio darkRgb backgroundRgb in
    if lightContrast >=? minContrast then Some fallbackLight
    else if darkContrast >=? minContrast then Some fallbackDark
    else Some (if lightContrast >? darkContrast
               then fallbackLight else fallbackDark) in
  match candidateHex with
  | Some candidate =>
      if JS.truthy candidate then
        candidateRgb <- hexToRgb candidate ;;
        if getContrastRatio candidateRgb backgroundRgb >=? minContrast
        then Some candidate else fallbacks
      else fallbacks
  | None => fallbacks
  end.

(** The lock resolution written out four times in the source (light bg,
    light primary, dark bg, dark primary): the palette entry of that hex,
    else the parsed lock, else nothing. *)
Definition resolveLocked (analyzed : list Analyzed) (locked : string)
  : option Analyzed :=
  match find (fun c : Analyzed =>
                String.eqb (JS.toLowerCase c.(hex)) (JS.toLowerCase locked))
             analyzed with
  | Some c => Some c
  | None =>
      match hexToRgb locked with
      | Some rgb => Some (ofRgb rgb locked)
      | None => None
      end
  end.

(** [candidates[0]?.hex] *)
Definition firstHex (l : list Scored) : option string :=
  option_map (fun c : Scored => c.(hex)) (nth_error l 0).

(** [c.hex !== candidate?.hex] *)
Definition differs (c : Scored) (candidate : option Scored) : bool :=
  match candidate with
  | Some x => negb (String.eqb c.(hex) x.(hex))
  | None => true
  end.

(** [surfaceRgb || fallback] *)
Definition rgbOr (c : option Rgb) (fallback : Rgb) : Rgb :=
  match c with Some x => x | None => fallback end.

(** [sort((a, b) => b.score - a.score)] *)
Definition sortByScore (l : list Scored) : list Scored :=
  JS.sort (fun a b : Scored => b.(score) - a.(score)) l.

(** [usedTextColors.includes(c.hex)] *)
Definition includes (l : list string) (x : string) : bool :=
  existsb (String.eqb x) l.

(** The three contrast tests a background has to pass; a token that does
    not parse is skipped. *)
Definition failsOn (tokenHex : string) (bgRgb : Rgb) (minContrast : Q) : bool :=
  match hexToRgb tokenHex with
  | Some tokenRgb => getContrastRatio tokenRgb bgRgb <? minContrast
  | None => false
  end.

Section TokenMapping.

(** The engine's [Math.log]. *)
Variable Math_log : Q -> Q.

(** *** Light mode *)

Definition lightBgCandidate (analyzed : list Analyzed)
    (lockedLightBg : option string) : option Analyzed :=
  match isSet lockedLightBg with
  | Some lock => resolveLocked analyzed lock
  | None =>
      findBest analyzed (fun c =>
        (c.(luminance) >? 0.75) && (c.(saturation) <? JS.lit 0.20))
  end.

Definition lightSurface (analyzed : list Analyzed)
    (lightBgCandidate : option Analyzed) (bg : string) : string :=
  let lightSurfaceCandidate :=
    findBest analyzed (fun c =>
      (c.(luminance) >? 0.85) && (c.(saturation) <? JS.lit 0.12)
      && match lightBgCandidate with
         | None => true
         | Some bgc => negb (String.eqb c.(hex) bgc.(hex))
         end) in
  let surface := useColor lightSurfaceCandidate "#ffffff" in
  if String.eqb surface bg then "#ffffff" else surface.

Definition lightBorder (analyzed : list Analyzed)
    (lightSurfaceLuminance : Q) (bg surface : string) : string :=
  useColor
    (findBest analyzed (fun c =>
       (c.(luminance) <? lightSurfaceLuminance)
       && (c.(luminance) >? 0.5) && (c.(luminance) <? 0.95)
       && (c.(saturation) <? JS.lit 0.15)
       && negb (String.eqb c.(hex) bg)
       && negb (String.eqb c.(hex) surface)))
    "#e0e0e0".

Definition lightHeadingCandidates (analyzed : list Analyzed)
    (surfaceRgb : option Rgb) : list Scored :=
  sortByScore
    (map (fun c : Analyzed =>
            mkScored c ((1 - c.(luminance)) * 2 - c.(saturation) * 2))
       (List.filter (fun c : Analyzed =>
          if c.(saturation) >? 0.25 then false
          else match surfaceRgb with
               | None => c.(luminance) <? 0.2
               | Some surfaceRgb => getContrastRatio c surfaceRgb >=? 4.5
               end) analyzed)).

(** Heading and text, up to and including the two fix-ups.  Returns
    [(heading, text)]. *)
Definition lightHeadingText (analyzed : list Analyzed)
    (surfaceRgb : option Rgb) : option (string * string) :=
  let candidates := lightHeadingCandidates analyzed surfaceRgb in
  let lightHeadingCandidate := nth_error candidates 0 in
  heading <- ensureContrast (firstHex candidates) (rgbOr surfaceRgb white)
               4.5 "#1a1a1a" "#000000" ;;
  let lightTextCandidate :=
    match find (fun c => differs c lightHeadingCandidate) candidates with
    | Some c => Some c
    | None => lightHeadingCandidate
    end in
  text <- ensureContrast
            (option_map (fun c : Scored => c.(hex)) lightTextCandidate)
            (rgbOr surfaceRgb white) 4.5 "#333333" "#111111" ;;
  swapped <-
    (if JS.truthy text && JS.truthy heading then
       textLum <- hexLuminance text ;;
       headingLum <- hexLuminance heading ;;
       Some (if textLum <? headingLum then (text, heading)
             else (heading, text))
     else Some (heading, text)) ;;
  let '(heading, text) := swapped in
  if String.eqb heading text then Some ("#1a1a1a", "#444444")
  else Some (heading, text).

Definition lightMutedCandidates (analyzed : list Analyzed)
    (surfaceRgb : option Rgb) (textLuminance : Q) (heading text : string)
  : list Scored :=
  sortByScore
    (map (fun c : Analyzed =>
            mkScored c ((1 - JS.Math_abs (c.(luminance) - 0.4))
                        - c.(saturation)))
       (List.filter (fun c : Analyzed =>
          if c.(saturation) >? 0.25 then false
          else match surfaceRgb with
               | None => (c.(luminance) >? 0.2) && (c.(luminance) <? 0.5)
               | Some surfaceRgb =>
                   let contrast := getContrastRatio c surfaceRgb in
                   (contrast >=? 4) && (contrast <? 7)
                   && (c.(luminance) >? textLuminance)
                   && negb (String.eqb c.(hex) heading)
                   && negb (String.eqb c.(hex) text)
               end) analyzed)).

Definition lightMutedText (analyzed : list Analyzed)
    (surfaceRgb : option Rgb) (heading text : string) : option string :=
  textLuminance <- (if JS.truthy text then hexLuminance text else Some 0) ;;
  ensureContrast
    (firstHex (lightMutedCandidates analyzed surfaceRgb textLuminance
                 heading text))
    (rgbOr surfaceRgb white) 5.5 "#555555" "#444444".

(** The validation of [bg] against the three text tokens, and its
    replacement. *)
Definition lightBgValidated (analyzed : list Analyzed)
    (lockedLightBg : option string) (bg heading text mutedText : string)
  : string :=
  let lightBgNeedsReplacement :=
    match hexToRgb bg, isSet lockedLightBg with
    | Some lightBgRgb, None =>
        failsOn heading lightBgRgb 4.5 || failsOn text lightBgRgb 4.5
        || failsOn mutedText lightBgRgb 3.0
    | _, _ => false
    end in
  if lightBgNeedsReplacement then
    let validLightBgCandidates :=
      JS.sort (fun a b : Analyzed => b.(luminance) - a.(luminance))
        (List.filter (fun c : Analyzed =>
           if c.(luminance) <? 0.65 then false
           else if failsOn heading c 4.5 then false
           else if failsOn text c 4.5 then false
           else if failsOn mutedText c 3.0 then false
           else true) analyzed) in
    match validLightBgCandidates with
    | c :: _ => c.(hex)
    | [] => "#f7f7f7"
    end
  else bg.

(** [palette.find(p => rgbToHex(p.r, p.g, p.b).toLowerCase() ===
    c.hex.toLowerCase())?.isVibrant || false] *)
Definition vibrantFlag (palette : list Swatch) (c : Analyzed) : bool :=
  match find (fun p : Swatch =>
                String.eqb (JS.toLowerCase (rgbToHex p.(r) p.(g) p.(b)))
                           (JS.toLowerCase c.(hex))) palette with
  | Some p => p.(isVibrant)
  | None => false
  end.

(** [{...c, isVibrant}] *)
Definition withVibrant (c : Analyzed) (isVibrant : bool) : Analyzed :=
  mkAnalyzed (mkSwatch c c.(population) isVibrant c.(isBrandColor))
             c.(hex) c.(luminance) c.(saturation).

Definition lightPrimaryScore (palette : list Swatch) (surfaceRgb : Rgb)
    (c : Analyzed) : Scored :=
  let isVibrant := vibrantFlag palette c in
  let saturationScore := c.(saturation) * 4 in
  let vibrantBonus := if isVibrant then 2.5 else 0 in
  let luminanceScore := 1 - JS.Math_abs (c.(luminance) - 0.45) in
  let populationScore := Math_log (inject_Z c.(population) + 1) / 12 in
  let contrastVsSurface := getContrastRatio c surfaceRgb in
  let contrastBonus := JS.Math_min (contrastVsSurface / 10) 0.5 in
  let lightPenalty :=
    if c.(luminance) >? 0.85 then 2.0
    else if c.(luminance) >? 0.75 then 0.8
    else if c.(luminance) >? 0.65 then 0.3 else 0 in
  let darkPenalty :=
    if c.(luminance) <? 0.15 then 3.0
    else if c.(luminance) <? 0.25 then 1.0 else 0 in
  mkScored (withVibrant c isVibrant)
    (saturationScore + vibrantBonus + luminanceScore + populationScore
     + contrastBonus - lightPenalty - darkPenalty).

(** The relaxed filters of the fallback cascade, sorted by saturation. *)
Definition relaxedCandidates (analyzed : list Analyzed)
    (usedTextColors : list string) (surfaceRgb : Rgb)
    (minContrast lowLuminance highLuminance : Q) : list Analyzed :=
  JS.sort (fun a b : Analyzed => b.(saturation) - a.(saturation))
    (List.filter (fun c : Analyzed =>
       if c.(saturation) <? JS.lit 0.15 then false
       else if includes usedTextColors c.(hex) then false
       else if getContrastRatio c surfaceRgb <? minContrast then false
       else if (c.(luminance) <? lowLuminance)
               || (c.(luminance) >? highLuminance) then false
       else true) analyzed).

(** [a || b] on candidates. *)
Definition orCandidate (a b : option Analyzed) : option Analyzed :=
  match a with Some _ => a | None => b end.

(** The body of [if (!lightPrimary) { ... }]: the algorithmic choice.
    [lightSurfaceForPrimary] is read inside the callbacks; a [null]
    there would already have thrown when [lightSurfaceLuminance] was
    computed, so it is bound where it is declared. *)
Definition lightPrimaryAlgorithmic (palette : list Swatch)
    (analyzed : list Analyzed) (surface heading text mutedText : string)
  : option Analyzed :=
  let usedTextColors := List.filter JS.truthy [heading; text; mutedText] in
  lightSurfaceForPrimary <- hexToRgb (orElse surface "#ffffff") ;;
  let primaryCandidates :=
    sortByScore
      (map (lightPrimaryScore palette lightSurfaceForPrimary)
         (List.filter (fun c : Analyzed =>
            if c.(saturation) <? JS.lit 0.20 then false
            else if includes usedTextColors c.(hex) then false
            else if getContrastRatio c lightSurfaceForPrimary <? 2.5
                 then false
            else true) analyzed)) in
  let lightPrimary := option_map cand (nth_error primaryCandidates 0) in
  let lightPrimary :=
    orCandidate lightPrimary
      (nth_error (relaxedCandidates analyzed usedTextColors
                    lightSurfaceForPrimary 2.5 0.15 0.85) 0) in
  let lightPrimary :=
    orCandidate lightPrimary
      (nth_error (relaxedCandidates analyzed usedTextColors
                    lightSurfaceForPrimary 2.0 0.15 0.85) 0) in
  let lightPrimary :=
    match lightPrimary with
    | Some c => c
    | None => ofRgb (mkRgb 0 113 227) "#0071e3"
    end in
  if negb lightPrimary.(isVibrant)
     && negb (String.eqb lightPrimary.(hex) "#0071e3") then
    own <- hexToRgb lightPrimary.(hex) ;;
    let moreVibrant :=
      findMostVibrantVariant (mkRgb own.(r) own.(g) own.(b)) palette in
    if (getSaturation moreVibrant.(r) moreVibrant.(g) moreVibrant.(b)
        >? lightPrimary.(saturation) *! JS.lit 1.2)
       && (getContrastRatio moreVibrant lightSurfaceForPrimary >=? 3)
    then Some (analyze moreVibrant)
    else Some lightPrimary
  else Some lightPrimary.

(** [lightPrimary] as it stands before [if (lightPrimary) { ... }]. *)
Definition lightPrimarySelect (palette : list Swatch)
    (analyzed : list Analyzed) (lockedPrimary : option string)
    (surface heading text mutedText : string) : option (option Analyzed) :=
  let lightPrimary :=
    match isSet lockedPrimary with
    | Some lock => resolveLocked analyzed lock
    | None => None
    end in
  match lightPrimary with
  | Some c => Some (Some c)
  | None =>
      c <- lightPrimaryAlgorithmic palette analyzed surface heading text
             mutedText ;;
      Some (Some c)
  end.

(** [(primary, onPrimary)] of the light mode. *)
Definition lightPrimaryTokens (analyzed : list Analyzed)
    (lockedPrimary : option string) (lightPrimary : option Analyzed)
  : string * string :=
  match lightPrimary with
  | Some lightPrimary =>
      let contrastWithWhite := getContrastRatio lightPrimary white in
      let contrastWithBlack := getContrastRatio lightPrimary black in
      if contrastWithWhite >=? 4.5 then (lightPrimary.(hex), "#ffffff")
      else if contrastWithBlack >=? 4.5 then (lightPrimary.(hex), "#000000")
      else
        match isSet lockedPrimary with
        | None =>
            let betterPrimary :=
              find (fun c : Analyzed =>
                      let cWhite := getContrastRatio c white in
                      let cBlack := getContrastRatio c black in
                      ((cWhite >=? 4.5) || (cBlack >=? 4.5))
                      && (c.(saturation) >? JS.lit 0.2)) analyzed in
            match betterPrimary with
            | Some betterPrimary =>
                let cw := getContrastRatio betterPrimary white in
                (betterPrimary.(hex),
                 if cw >=? 4.5 then "#ffffff" else "#000000")
            | None => ("#0071e3", "#ffffff")
            end
        | Some _ =>
            (lightPrimary.(hex),
             if contrastWithWhite >? contrastWithBlack
             then "#ffffff" else "#000000")
        end
  | None => (useColor None "#0071e3", "#ffffff")
  end.

(** The light half of [generateTokens]; [lightPrimary] is handed on to
    the dark half. *)
Definition lightMode (palette : list Swatch) (analyzed : list Analyzed)
    (lockedPrimary lockedLightBg : option string)
  : option (TokenSet * option Analyzed) :=
  let bgCandidate := lightBgCandidate analyzed lockedLightBg in
  let bg := useColor bgCandidate "#f7f7f7" in
  lightBgLuminance <-
    (if JS.truthy bg then hexLuminance bg else Some 0.95) ;;
  let surface := lightSurface analyzed bgCandidate bg in
  lightSurfaceLuminance <-
    (if JS.truthy surface then hexLuminance surface else Some 1) ;;
  let border := lightBorder analyzed lightSurfaceLuminance bg surface in
  let surfaceRgb := hexToRgb (orElse surface "#ffffff") in
  ht <- lightHeadingText analyzed surfaceRgb ;;
  let '(heading, text) := ht in
  mutedText <- lightMutedText analyzed surfaceRgb heading text ;;
  let bg := lightBgValidated analyzed lockedLightBg bg heading text
              mutedText in
  lightPrimary <- lightPrimarySelect palette analyzed lockedPrimary
                    surface heading text mutedText ;;
  let '(primary, onPrimary) :=
    lightPrimaryTokens analyzed lockedPrimary lightPrimary in
  Some (mkTokenSet bg surface border text heading mutedText primary
          onPrimary, lightPrimary).

(** *** Dark mode *)

Definition darkBgCandidate (analyzed : list Analyzed)
    (lockedDarkBg : option string) : option Analyzed :=
  match isSet lockedDarkBg with
  | Some lock => resolveLocked analyzed lock
  | None =>
      findBest analyzed (fun c =>
        (c.(luminance) <? 0.06) && (c.(saturation) <? JS.lit 0.20))
  end.

Definition darkSurface (analyzed : list Analyzed)
    (darkBgCandidate : option Analyzed) (bgLuminance : Q) (bg : string)
  : string :=
  let darkSurfaceCandidate :=
    findBest analyzed (fun c =>
      (c.(luminance) >? bgLuminance) && (c.(luminance) <? 0.05)
      && (c.(saturation) <? JS.lit 0.15)
      && match darkBgCandidate with
         | None => true
         | Some bgc => negb (String.eqb c.(hex) bgc.(hex))
         end) in
  let surface := useColor darkSurfaceCandidate "#141414" in
  if String.eqb surface bg then "#141414" else surface.

Definition darkBorder (analyzed : list Analyzed) (surfaceLuminance : Q)
    (bg surface : string) : string :=
  useColor
    (findBest analyzed (fun c =>
       (c.(luminance) >? surfaceLuminance) && (c.(luminance) <? 0.35)
       && (c.(saturation) <? JS.lit 0.20)
       && negb (String.eqb c.(hex) bg)
       && negb (String.eqb c.(hex) surface)))
    "#2a2a2a".

Definition darkHeadingCandidates (analyzed : list Analyzed)
    (darkSurfaceRgb : option Rgb) : list Scored :=
  sortByScore
    (map (fun c : Analyzed =>
            mkScored c (c.(luminance) * 2 - c.(saturation) * 2))
       (List.filter (fun c : Analyzed =>
          if c.(saturation) >? 0.25 then false
          else match darkSurfaceRgb with
               | None => c.(luminance) >? 0.7
               | Some surfaceRgb => getContrastRatio c surfaceRgb >=? 4.5
               end) analyzed)).

Definition darkHeadingText (analyzed : list Analyzed)
    (darkSurfaceRgb : option Rgb) : option (string * string) :=
  let candidates := darkHeadingCandidates analyzed darkSurfaceRgb in
  let darkHeadingCandidate := nth_error candidates 0 in
  heading <- ensureContrast (firstHex candidates)
               (rgbOr darkSurfaceRgb (mkRgb 11 11 11))
               4.5 "#ffffff" "#e8e8e8" ;;
  let darkTextCandidate :=
    match find (fun c => differs c darkHeadingCandidate) candidates with
    | Some c => Some c
    | None => darkHeadingCandidate
    end in
  text <- ensureContrast
            (option_map (fun c : Scored => c.(hex)) darkTextCandidate)
            (rgbOr darkSurfaceRgb (mkRgb 11 11 11))
            4.5 "#f0f0f0" "#d4d4d4" ;;
  swapped <-
    (if JS.truthy text && JS.truthy heading then
       textLum <- hexLuminance text ;;
       headingLum <- hexLuminance heading ;;
       Some (if textLum >? headingLum then (text, heading)
             else (heading, text))
     else Some (heading, text)) ;;
  let '(heading, text) := swapped in
  if String.eqb heading text then Some ("#ffffff", "#c0c0c0")
  else Some (heading, text).

Definition darkMutedCandidates (analyzed : list Analyzed)
    (darkSurfaceRgb : option Rgb) (darkTextLuminance : Q)
    (heading text : string) : list Scored :=
  sortByScore
    (map (fun c : Analyzed =>
            mkScored c ((1 - JS.Math_abs (c.(luminance) - 0.5))
                        - c.(saturation)))
       (List.filter (fun c : Analyzed =>
          if c.(saturation) >? 0.25 then false
          else match darkSurfaceRgb with
               | None => (c.(luminance) >? 0.3) && (c.(luminance) <? 0.6)
               | Some surfaceRgb =>
                   let contrast := getContrastRatio c surfaceRgb in
                   (contrast >=? 4) && (contrast <? 10)
                   && (c.(luminance) <? darkTextLuminance)
                   && negb (String.eqb c.(hex) heading)
                   && negb (String.eqb c.(hex) text)
               end) analyzed)).

Definition darkMutedText (analyzed : list Analyzed)
    (darkSurfaceRgb : option Rgb) (heading text : string) : option string :=
  darkTextLuminance <-
    (if JS.truthy text then hexLuminance text else Some 1) ;;
  ensureContrast
    (firstHex (darkMutedCandidates analyzed darkSurfaceRgb
                 darkTextLuminance heading text))
    (rgbOr darkSurfaceRgb (mkRgb 11 11 11)) 5.5 "#d0d0d0" "#b8b8b8".

Definition darkBgValidated (analyzed : list Analyzed)
    (lockedDarkBg : option string) (bg heading text mutedText : string)
  : string :=
  let darkBgNeedsReplacement :=
    match hexToRgb bg, isSet lockedDarkBg with
    | Some darkBgRgb, None =>
        failsOn heading darkBgRgb 4.5 || failsOn text darkBgRgb 4.5
        || failsOn mutedText darkBgRgb 3.0
    | _, _ => false
    end in
  if darkBgNeedsReplacement then
    let validDarkBgCandidates :=
      JS.sort (fun a b : Analyzed => a.(luminance) - b.(luminance))
        (List.filter (fun c : Analyzed =>
           if c.(luminance) >? 0.15 then false
           else if failsOn heading c 4.5 then false
           else if failsOn text c 4.5 then false
           else if failsOn mutedText c 3.0 then false
           else true) analyzed) in
    match validDarkBgCandidates with
    | c :: _ => c.(hex)
    | [] => "#0b0b0b"
    end
  else bg.

Definition darkPrimaryScore (palette : list Swatch) (surfaceRgb : Rgb)
    (c : Analyzed) : Scored :=
  let isVibrant := vibrantFlag palette c in
  let saturationScore := c.(saturation) * 4 in
  let vibrantBonus := if isVibrant then 2.5 else 0 in
  let luminanceScore := 1 - JS.Math_abs (c.(luminance) - 0.45) in
  let populationScore := Math_log (inject_Z c.(population) + 1) / 12 in
  let contrastVsSurface := getContrastRatio c surfaceRgb in
  let contrastBonus := JS.Math_min (contrastVsSurface / 10) 0.5 in
  let darkPenalty :=
    if c.(luminance) <? 0.15 then 1.5
    else if c.(luminance) <? 0.25 then 0.5 else 0 in
  let lightPenalty :=
    if c.(luminance) >? 0.8 then 1.5
    else if c.(luminance) >? 0.7 then 0.5 else 0 in
  mkScored (withVibrant c isVibrant)
    (saturationScore + vibrantBonus + luminanceScore + populationScore
     + contrastBonus - darkPenalty - lightPenalty).

(** "Try 3": the light mode's primary, when it shows on the dark
    surface. *)
Definition reuseLightPrimary (lightPrimary : option Analyzed)
    (darkSurfaceForPrimary : Rgb) : option Analyzed :=
  match lightPrimary with
  | Some lp =>
      match hexToRgb lp.(hex) with
      | Some lpRgb =>
          if getContrastRatio lpRgb darkSurfaceForPrimary >=? 2.5
          then Some lp else None
      | None => None
      end
  | None => None
  end.

Definition darkPrimaryAlgorithmic (palette : list Swatch)
    (analyzed : list Analyzed) (lightPrimary : option Analyzed)
    (surface heading text mutedText : string) : option Analyzed :=
  let usedTextColors := List.filter JS.truthy [heading; text; mutedText] in
  darkSurfaceForPrimary <- hexToRgb (orElse surface "#141414") ;;
  let primaryCandidates :=
    sortByScore
      (map (darkPrimaryScore palette darkSurfaceForPrimary)
         (List.filter (fun c : Analyzed =>
            if c.(saturation) <? JS.lit 0.20 then false
            else if includes usedTextColors c.(hex) then false
            else if getContrastRatio c darkSurfaceForPrimary <? 2.5
                 then false
            else true) analyzed)) in
  let darkPrimary := option_map cand (nth_error primaryCandidates 0) in
  let darkPrimary :=
    orCandidate darkPrimary
      (nth_error (relaxedCandidates analyzed usedTextColors
                    darkSurfaceForPrimary 2.5 0.2 0.8) 0) in
  let darkPrimary :=
    orCandidate darkPrimary
      (nth_error (relaxedCandidates analyzed usedTextColors
                    darkSurfaceForPrimary 2.0 0.2 0.8) 0) in
  let darkPrimary :=
    orCandidate darkPrimary
      (reuseLightPrimary lightPrimary darkSurfaceForPrimary) in
  let darkPrimary :=
    match darkPrimary with
    | Some c => c
    | None => ofRgb (mkRgb 64 156 255) "#409cff"
    end in
  if negb darkPrimary.(isVibrant)
     && negb (String.eqb darkPrimary.(hex) "#409cff") then
    own <- hexToRgb darkPrimary.(hex) ;;
    let moreVibrant :=
      findMostVibrantVariant (mkRgb own.(r) own.(g) own.(b)) palette in
    if (getSaturation moreVibrant.(r) moreVibrant.(g) moreVibrant.(b)
        >? darkPrimary.(saturation) *! JS.lit 1.2)
       && ((getLuminance moreVibrant.(r) moreVibrant.(g) moreVibrant.(b)
            >? 0.2)
           && (getContrastRatio moreVibrant darkSurfaceForPrimary >=? 3))
    then Some (analyze moreVibrant)
    else Some darkPrimary
  else Some darkPrimary.

Definition darkPrimarySelect (palette : list Swatch)
    (analyzed : list Analyzed) (lockedPrimary : option string)
    (lightPrimary : option Analyzed)
    (surface heading text mutedText : string) : option (option Analyzed) :=
  let darkPrimary :=
    match isSet lockedPrimary with
    | Some lock => resolveLocked analyzed lock
    | None => None
    end in
  match darkPrimary with
  | Some c => Some (Some c)
  | None =>
      c <- darkPrimaryAlgorithmic palette analyzed lightPrimary surface
             heading text mutedText ;;
      Some (Some c)
  end.

Definition darkPrimaryTokens (darkPrimary : option Analyzed)
  : string * string :=
  match darkPrimary with
  | Some darkPrimary =>
      let contrastWithWhite := getContrastRatio darkPrimary white in
      let contrastWithBlack := getContrastRatio darkPrimary black in
      (darkPrimary.(hex),
       if contrastWithWhite >=? 4.5 then "#ffffff"
       else if contrastWithBlack >=? 4.5 then "#000000"
       else if contrastWithWhite >? contrastWithBlack
            then "#ffffff" else "#000000")
  | None => (useColor None "#409cff", "#000000")
  end.

Definition darkMode (palette : list Swatch) (analyzed : list Analyzed)
    (lockedPrimary lockedDarkBg : option string)
    (lightPrimary : option Analyzed) : option TokenSet :=
  let bgCandidate := darkBgCandidate analyzed lockedDarkBg in
  let bg := useColor bgCandidate "#0b0b0b" in
  bgLuminance <- (if JS.truthy bg then hexLuminance bg else Some 0.01) ;;
  let surface := darkSurface analyzed bgCandidate bgLuminance bg in
  surfaceLuminance <-
    (if JS.truthy surface then hexLuminance surface else Some 0.02) ;;
  let border := darkBorder analyzed surfaceLuminance bg surface in
  let darkSurfaceRgb := hexToRgb (orElse surface "#141414") in
  ht <- darkHeadingText analyzed darkSurfaceRgb ;;
  let '(heading, text) := ht in
  mutedText <- darkMutedText analyzed darkSurfaceRgb heading text ;;
  let bg := darkBgValidated analyzed lockedDarkBg bg heading text
              mutedText in
  darkPrimary <- darkPrimarySelect palette analyzed lockedPrimary
                   lightPrimary surface heading text mutedText ;;
  let '(primary, onPrimary) := darkPrimaryTokens darkPrimary in
  Some (mkTokenSet bg surface border text heading mutedText primary
          onPrimary).

Definition generateTokens (palette : list Swatch)
    (lockedPrimary lockedLightBg lockedDarkBg : option string)
  : option Tokens :=
  let analyzed := map analyze palette in
  lm <- lightMode palette analyzed lockedPrimary lockedLightBg ;;
  let '(lightTokens, lightPrimary) := lm in
  darkTokens <- darkMode palette analyzed lockedPrimary lockedDarkBg
                  lightPrimary ;;
  Some (mkTokens lightTokens darkTokens []).

End TokenMapping.

(** The palette assembly of [processImage]: quantize, de-duplicate, add
    the accents of both passes, rank, keep sixteen.  The accent passes
    read [pixels] after [medianCut] has sorted it. *)
Definition classBoost (c : Swatch) : Q :=
  if c.(isBrandColor) then 2.5 else if c.(isVibrant) then 2.0 else 1.

Definition assemblePalette (pixels : list Rgb) : list Swatch :=
  let palette := medianCut pixels 20 in
  let pixels := pixelsAfterMedianCut pixels 20 in
  let palette := removeDuplicates palette 30 in
  let vibrantColors := extractVibrantColors pixels palette in
  let palette :=
    if (0 <? length vibrantColors)%nat
    then removeDuplicates (palette ++ vibrantColors) 45 else palette in
  let brandColors := extractBrandColors pixels palette in
  let palette :=
    if (0 <? length brandColors)%nat
    then removeDuplicates (palette ++ brandColors) 40 else palette in
  let palette :=
    JS.sort (fun a b : Swatch =>
               inject_Z b.(population) * classBoost b
               - inject_Z a.(population) * classBoost a) palette in
  JS.slice_to 16 palette.

(* ================================================================== *)
(** ** Pixels of the canvas *)
(* ================================================================== *)

(** [imageData.data] holds four entries per pixel (r, g, b, a); pixels
    with [a < 128] are skipped.  A tail of fewer than four entries does
    not occur in an [ImageData] and ends the list here. *)
Fixpoint extractPixels (data : list Z) : list Rgb :=
  match data with
  | r :: g :: b :: a :: rest =>
      if (a <? 128)%Z then extractPixels rest
      else mkRgb r g b :: extractPixels rest
  | _ => []
  end.

(** The size of the processing canvas for an image of [width] by
    [height]: the longer side is brought down to [maxSize = 200]. *)
Definition canvasSize (width height : Z) : Z * Z :=
  let maxSize := 200 in
  let w := inject_Z width in
  let h := inject_Z height in
  let '(w, h) :=
    if w >? h then
      if w >? maxSize then (maxSize, (h * maxSize) / w) else (w, h)
    else
      if h >? maxSize then ((w * maxSize) / h, maxSize) else (w, h) in
  (JS.Math_round w, JS.Math_round h).

(* ================================================================== *)
(** ** Background candidates and contrast checks of the preview *)
(* ================================================================== *)

(** [tokens?.field ? hexToRgb(tokens.field) : null] *)
Definition tokenRgb (tokens : option TokenSet) (field : TokenSet -> string)
  : option Rgb :=
  match tokens with
  | Some t => if JS.truthy (field t) then hexToRgb (field t) else None
  | None => None
  end.

(** [tokenRgb && getContrastRatio(tokenRgb, bgRgb) < minContrast] *)
Definition tooLow (tokenRgb : option Rgb) (bgRgb : Rgb) (minContrast : Q)
  : bool :=
  match tokenRgb with
  | Some c => getContrastRatio c bgRgb <? minContrast
  | None => false
  end.

Definition isNull {A} (o : option A) : bool :=
  match o with Some _ => false | None => true end.

Definition filterLightBgCandidates (palette : list Analyzed)
    (lightTokens : option TokenSet) : list Analyzed :=
  let MIN_LUMINANCE := 0.65 in
  let MIN_CONTRAST := 4.5 in
  let MUTED_MIN_CONTRAST := 3.0 in
  let headingRgb := tokenRgb lightTokens heading in
  let textRgb := tokenRgb lightTokens text in
  let mutedRgb := tokenRgb lightTokens mutedText in
  let fallbackText := mkRgb 29 29 31 in
  JS.sort (fun a b : Analyzed => b.(luminance) - a.(luminance))
    (List.filter (fun c : Analyzed =>
       if c.(luminance) <? MIN_LUMINANCE then false
       else
         let bgRgb := mkRgb c.(r) c.(g) c.(b) in
         if tooLow headingRgb bgRgb MIN_CONTRAST then false
         else if tooLow textRgb bgRgb MIN_CONTRAST then false
         else if tooLow mutedRgb bgRgb MUTED_MIN_CONTRAST then false
         else if isNull headingRgb && isNull textRgb && isNull mutedRgb
              then getContrastRatio bgRgb fallbackText >=? MIN_CONTRAST
         else true) palette).

Definition filterDarkBgCandidates (palette : list Analyzed)
    (darkTokens : option TokenSet) : list Analyzed :=
  let MAX_LUMINANCE := 0.15 in
  let MIN_CONTRAST := 4.5 in
  let MUTED_MIN_CONTRAST := 3.0 in
  let headingRgb := tokenRgb darkTokens heading in
  let textRgb := tokenRgb darkTokens text in
  let mutedRgb := tokenRgb darkTokens mutedText in
  let fallbackText := mkRgb 245 245 247 in
  JS.sort (fun a b : Analyzed => a.(luminance) - b.(luminance))
    (List.filter (fun c : Analyzed =>
       if c.(luminance) >? MAX_LUMINANCE then false
       else
         let bgRgb := mkRgb c.(r) c.(g) c.(b) in
         if tooLow headingRgb bgRgb MIN_CONTRAST then false
         else if tooLow textRgb bgRgb MIN_CONTRAST then false
         else if tooLow mutedRgb bgRgb MUTED_MIN_CONTRAST then false
         else if isNull headingRgb && isNull textRgb && isNull mutedRgb
              then getContrastRatio bgRgb fallbackText >=? MIN_CONTRAST
         else true) palette).

Module Contrast.

(** One row of the contrast report; [warn] is [false] where the object
    has no such field. *)
Record check : Type := mkCheck {
  label : string;
  ratio : Q;
  required : Q;
  pass : bool;
  warn : bool
}.

End Contrast.

(** One [if (tokens.x && against) { ... checks.push(...) }] block of
    [getContrastChecks]; the unparsed token makes [getContrastRatio]
    throw. *)
Definition pushCheck (checks : list Contrast.check) (token : string)
    (against : option Rgb) (label : string) (required : Q) (warns : bool)
  : option (list Contrast.check) :=
  match against with
  | Some againstRgb =>
      if JS.truthy token then
        tokenRgb <- hexToRgb token ;;
        let ratio := getContrastRatio tokenRgb againstRgb in
        Some (checks ++
                [Contrast.mkCheck label ratio required (ratio >=? required)
                   (warns && ((ratio >=? 3.0) && (ratio <? 4.5)))])
      else Some checks
  | None => Some checks
  end.

Definition getContrastChecks (tokens : TokenSet)
  : option (list Contrast.check) :=
  let surface := hexToRgb tokens.(surface) in
  let bg := hexToRgb tokens.(bg) in
  let checks := [] in
  checks <- pushCheck checks tokens.(heading) bg "heading/bg" 4.5 false ;;
  checks <- pushCheck checks tokens.(text) bg "text/bg" 4.5 false ;;
  checks <- pushCheck checks tokens.(mutedText) bg "mutedText/bg" 3.0 true ;;
  checks <- pushCheck checks tokens.(heading) surface "heading/surface" 4.5
              false ;;
  checks <- pushCheck checks tokens.(text) surface "text/surface" 4.5 false ;;
  if JS.truthy tokens.(primary) && JS.truthy tokens.(onPrimary) then
    primaryRgb <- hexToRgb tokens.(primary) ;;
    onPrimaryRgb <- hexToRgb tokens.(onPrimary) ;;
    let ratio := getContrastRatio primaryRgb onPrimaryRgb in
    Some (checks ++
            [Contrast.mkCheck "onPrimary/primary" ratio 4.5 (ratio >=? 4.5)
               false])
  else Some checks.

(* ================================================================== *)
(** ** Saved palettes *)
(* ================================================================== *)

Module Storage.

Record SavedPalette : Type := mkSaved {
  id : string;
  name : string;
  timestamp : Z;
  palette : list Swatch;
  tokens : option Tokens
}.

(** The item of [localStorage] under [STORAGE_KEY]: the list whose JSON
    text it holds (what [JSON.parse] returns is taken to be the value
    that was stringified), or [None] when the key is missing or the text
    does not parse. *)
Definition Store : Type := option (list SavedPalette).

Definition MAX_SAVED : nat := 5.

Definition getSavedPalettes (store : Store) : list SavedPalette :=
  match store with Some palettes => palettes | None => [] end.

(** [setItem] can throw (quota, private mode); the error is caught and
    the item keeps its old value.  [accepted] says which case it is. *)
Definition savePalettes (accepted : bool) (palettes : list SavedPalette)
    (store : Store) : Store :=
  if accepted then Some palettes else store.

(** The callback of [palette.map] in [savePalette]. *)
Definition savedSwatch (c : Swatch) : Swatch :=
  mkSwatch (mkRgb c.(r) c.(g) c.(b)) c.(population)
           (c.(isVibrant) || false) false.

(** [newId], [now] and [defaultName] stand for [generateId()],
    [Date.now()] and ['Palette ' + new Date().toLocaleString()];
    [tokens] is [currentTokens], [None] while it is [null].  Returns the
    new record and the store. *)
Definition savePalette (newId : string) (now : Z) (defaultName : string)
    (accepted : bool) (name : string) (palette : list Swatch)
    (tokens : option Tokens) (store : Store) : SavedPalette * Store :=
  let palettes := getSavedPalettes store in
  let newPalette :=
    mkSaved newId (orElse name defaultName) now (map savedSwatch palette)
            tokens in
  let palettes := newPalette :: palettes in
  let palettes :=
    if (MAX_SAVED <? length palettes)%nat
    then firstn MAX_SAVED palettes else palettes in
  (newPalette, savePalettes accepted palettes store).

(** [palettes.findIndex(p => p.id === id)], [None] for [-1]. *)
Fixpoint findIndex (id0 : string) (palettes : list SavedPalette)
  : option nat :=
  match palettes with
  | [] => None
  | p :: rest =>
      if String.eqb p.(id) id0 then Some 0%nat
      else option_map S (findIndex id0 rest)
  end.

(** [palettes.splice(index, 1)] *)
Definition removeAt {A} (index : nat) (l : list A) : list A :=
  firstn index l ++ skipn (S index) l.

Definition deletePalette (accepted : bool) (id0 : string) (store : Store)
  : Store :=
  let palettes := getSavedPalettes store in
  match findIndex id0 palettes with
  | Some index => savePalettes accepted (removeAt index palettes) store
  | None => store
  end.

End Storage.

(* ================================================================== *)
(** ** The session: palette, locks and current tokens *)
(* ================================================================== *)

(** The module-level variables of the UI. *)
Record Session : Type := mkSession {
  extractedPalette : list Swatch;
  lockedPrimaryHex : option string;
  lockedLightBgHex : option string;
  lockedDarkBgHex : option string;
  currentTokens : option Tokens
}.

(** [locked === hex ? null : hex], the toggle of the click handlers. *)
Definition toggleLock (locked : option string) (hex : string)
  : option string :=
  match locked with
  | Some current => if String.eqb current hex then None else Some hex
  | None => Some hex
  end.

Section SessionSteps.

Variable Math_log : Q -> Q.

(** The state part of [computeAndRender]: nothing for an empty palette,
    else the tokens, then the report of each preview.  [None] is a
    [TypeError] that escapes. *)
Definition computeAndRender (s : Session) : option Session :=
  if (length s.(extractedPalette) =? 0)%nat then Some s
  else
    result <- generateTokens Math_log s.(extractedPalette)
                s.(lockedPrimaryHex) s.(lockedLightBgHex)
                s.(lockedDarkBgHex) ;;
    _ <- getContrastChecks result.(light) ;;
    _ <- getContrastChecks result.(dark) ;;
    Some (mkSession s.(extractedPalette) s.(lockedPrimaryHex)
            s.(lockedLightBgHex) s.(lockedDarkBgHex) (Some result)).

(** The hex a palette swatch carries in [data-hex]. *)
Definition swatchHex (c : Swatch) : string := rgbToHex c.(r) c.(g) c.(b).

(** Click on a palette swatch. *)
Definition clickSwatch (hex : string) (s : Session) : option Session :=
  computeAndRender
    (mkSession s.(extractedPalette) (toggleLock s.(lockedPrimaryHex) hex)
       s.(lockedLightBgHex) s.(lockedDarkBgHex) s.(currentTokens)).

(** Click on a background swatch of the light ([true]) or dark preview. *)
Definition clickBgSwatch (lightMode : bool) (hex : string) (s : Session)
  : option Session :=
  computeAndRender
    (if lightMode then
       mkSession s.(extractedPalette) s.(lockedPrimaryHex)
         (toggleLock s.(lockedLightBgHex) hex) s.(lockedDarkBgHex)
         s.(currentTokens)
     else
       mkSession s.(extractedPalette) s.(lockedPrimaryHex)
         s.(lockedLightBgHex) (toggleLock s.(lockedDarkBgHex) hex)
         s.(currentTokens)).

Definition loadPalette (saved : Storage.SavedPalette) (s : Session)
  : option Session :=
  computeAndRender
    (mkSession saved.(Storage.palette) None None None s.(currentTokens)).

(** The state part of [img.onload] in [processImage], from the pixel
    data of the processing canvas. *)
Definition processImage (data : list Z) (s : Session) : option Session :=
  computeAndRender
    (mkSession (assemblePalette (extractPixels data)) None None None
       s.(currentTokens)).

End SessionSteps.

(* ================================================================== *)
(** ** Notions used in the statements *)
(* ================================================================== *)

(** A token is a valid hex colour when the program's own parser reads it. *)
Definition validHex (hex : string) : Prop := hexToRgb hex <> None.

Definition validTokenSet (t : TokenSet) : Prop :=
  validHex t.(bg) /\ validHex t.(surface) /\ validHex t.(border)
  /\ validHex t.(text) /\ validHex t.(heading) /\ validHex t.(mutedText)
  /\ validHex t.(primary) /\ validHex t.(onPrimary).

(** [getContrastRatio(hexToRgb(a), hexToRgb(b))] of two tokens. *)
Definition tokenContrast (a b : string) : option Q :=
  x <- hexToRgb a ;; y <- hexToRgb b ;; Some (getContrastRatio x y).

(** [hexPair] writes a channel as two digits that read back as the
    channel and that [toLowerCase] leaves alone. *)
Definition pairRoundTrips (x : Z) : bool :=
  match hexPair x with
  | String c1 (String c2 EmptyString) =>
      match parsePair c1 c2 with
      | Some y => (y =? x)%Z
      | None => false
      end
      && Ascii.eqb (JS.lowerChar c1) c1 && Ascii.eqb (JS.lowerChar c2) c2
  | _ => false
  end.

(** No entry lies within [threshold] of an earlier entry, as
    [removeDuplicates] measures it. *)
Definition separated (threshold : Q) (colors : list Swatch) : Prop :=
  ForallOrdPairs
    (fun earlier later : Swatch =>
       (colorDistance later earlier <? threshold) = false) colors.

(** An analyzed colour whose channels are in range and whose [hex] reads
    back as its own channels. *)
Definition coherent (a : Analyzed) : Prop :=
  rgb_ok a /\ hexToRgb a.(hex) = Some (mkRgb a.(r) a.(g) a.(b)).

(** Luminance of a colour object. *)
Definition lum (c : Rgb) : Q := getLuminance c.(r) c.(g) c.(b).

(** A token that reads as a colour of contrast at least [q] against the
    colour [surfaceRgb]. *)
Definition contrastAtLeast (q : Q) (surfaceRgb : Rgb) (token : string) : Prop :=
  exists c, hexToRgb token = Some c /\ q <= getContrastRatio c surfaceRgb.

(** A stand-in for the engine's [Math.log], for closed examples. *)
Definition log2_floor (x : Q) : Q := inject_Z (Z.log2 (Qfloor x)).

(** The pixel of the mid-gray scenario, and a swatch of that colour. *)
Definition gray : Rgb := mkRgb 128 128 128.
Definition graySwatch (n : Z) : Swatch := mkSwatch gray n false false.

(** A small palette for closed examples: a near-white, a near-black and
    a brand red. *)
Definition examplePalette : list Swatch :=
  [ mkSwatch (mkRgb 250 250 250) 120 false false;
    mkSwatch (mkRgb 30 30 36) 40 false false;
    mkSwatch (mkRgb 255 0 0) 3 true true ].

(** Every earlier entry has a key at least that of every later one. *)
Definition descendingBy {A} (key : A -> Q) (l : list A) : Prop :=
  ForallOrdPairs (fun earlier later : A => key later <= key earlier) l.

(** The ranking key of [processImage]: population times class boost. *)
Definition rank (c : Swatch) : Q := inject_Z c.(population) * classBoost c.

(** The [data] array of an image given pixel by pixel, each with its
    alpha. *)
Definition rgbaData (image : list (Rgb * Z)) : list Z :=
  flat_map (fun pa : Rgb * Z =>
              [(fst pa).(r); (fst pa).(g); (fst pa).(b); snd pa]) image.

(** An analyzed colour, and a scored candidate, of a palette that went
    through [savePalette]. *)
Definition savedAnalyzed (a : Analyzed) : Analyzed :=
  mkAnalyzed (Storage.savedSwatch a) a.(hex) a.(luminance) a.(saturation).

Definition savedScored (x : Scored) : Scored :=
  mkScored (savedAnalyzed x) x.(score).

(** A pixel as the accent passes store it: with its [hsl] and [sat]. *)
Definition huePixel (p : Rgb) : HuePixel :=
  mkHuePixel p (rgbToHsl p.(r) p.(g) p.(b)) (getSaturation p.(r) p.(g) p.(b)).

(** Hue and lightness of a pixel. *)
Definition hue (p : Rgb) : Q := (rgbToHsl p.(r) p.(g) p.(b)).(h).
Definition lightness (p : Rgb) : Q := (rgbToHsl p.(r) p.(g) p.(b)).(l).

(** The pixels the vibrant pass and the brand pass look at: saturated
    enough, and neither too dark nor too light. *)
Definition vibrantAdmits (p : Rgb) : bool :=
  (getSaturation p.(r) p.(g) p.(b) >=? 0.25)
  && (lightness p >=? JS.lit 0.10) && (lightness p <=? JS.lit 0.90).

Definition brandAdmits (p : Rgb) : bool :=
  (getSaturation p.(r) p.(g) p.(b) >=? JS.lit 0.45)
  && (lightness p >=? JS.lit 0.12) && (lightness p <=? JS.lit 0.88).

(** The hues from [lo] up to, but not including, [hi]. *)
Definition hueWithin (lo hi : Q) (p : Rgb) : bool :=
  (lo <=? hue p) && (hue p <? hi).

(* ================================================================== *)
(** * Properties *)
(* ================================================================== *)

(** ** Hex strings *)

Lemma pairRoundTrips_all :
  forallb (fun n => pairRoundTrips (Z.of_nat n)) (seq 0 256) = true.
Proof. vm_compute. reflexivity. Qed.

Lemma hexPair_ok (x : Z) :
  channel_ok x ->
  exists c1 c2,
    hexPair x = String c1 (String c2 EmptyString)
    /\ parsePair c1 c2 = Some x
    /\ JS.lowerChar c1 = c1 /\ JS.lowerChar c2 = c2.
Proof.
  intros Hx.
  assert (Hc : pairRoundTrips x = true).
  { pose proof pairRoundTrips_all as Hall.
    rewrite forallb_forall in Hall.
    specialize (Hall (Z.to_nat x)).
    rewrite Z2Nat.id in Hall by (unfold channel_ok in Hx; lia).
    apply Hall, in_seq. unfold channel_ok in Hx. lia. }
  unfold pairRoundTrips in Hc.
  destruct (hexPair x) as [|c1 [|c2 [|]]]; try discriminate.
  exists c1, c2.
  destruct (parsePair c1 c2) as [y|]; try discriminate.
  apply andb_prop in Hc as [Hc H2]. apply andb_prop in Hc as [Hy H1].
  apply Z.eqb_eq in Hy. apply Ascii.eqb_eq in H1, H2. subst y. auto.
Qed.

Lemma rgbToHex_hexToRgb (x y z : Z) :
  channel_ok x -> channel_ok y -> channel_ok z ->
  hexToRgb (rgbToHex x y z) = Some (mkRgb x y z).
Proof.
  intros Hx Hy Hz.
  destruct (hexPair_ok Hx) as (a1 & a2 & Ea & Pa & _).
  destruct (hexPair_ok Hy) as (b1 & b2 & Eb & Pb & _).
  destruct (hexPair_ok Hz) as (c1 & c2 & Ec & Pc & _).
  unfold rgbToHex. rewrite Ea, Eb, Ec. cbn [append].
  unfold hexToRgb. rewrite Pa, Pb, Pc. reflexivity.
Qed.

Lemma rgbToHex_lower (x y z : Z) :
  channel_ok x -> channel_ok y -> channel_ok z ->
  JS.toLowerCase (rgbToHex x y z) = rgbToHex x y z.
Proof.
  intros Hx Hy Hz.
  destruct (hexPair_ok Hx) as (a1 & a2 & Ea & _ & La1 & La2).
  destruct (hexPair_ok Hy) as (b1 & b2 & Eb & _ & Lb1 & Lb2).
  destruct (hexPair_ok Hz) as (c1 & c2 & Ec & _ & Lc1 & Lc2).
  unfold rgbToHex. rewrite Ea, Eb, Ec. cbn [append JS.toLowerCase].
  rewrite La1, La2, Lb1, Lb2, Lc1, Lc2. reflexivity.
Qed.

(** C10. Hex round trip: for channels in 0..255, [hexToRgb] reads the
    string written by [rgbToHex] back to the same triple, and never
    returns [null] on it. *)
Theorem hex_round_trip (x y z : Z) :
  (0 <= x <= 255)%Z -> (0 <= y <= 255)%Z -> (0 <= z <= 255)%Z ->
  hexToRgb (rgbToHex x y z) = Some (mkRgb x y z)
  /\ hexToRgb (rgbToHex x y z) <> None.
Proof.
  intros Hx Hy Hz.
  rewrite (rgbToHex_hexToRgb Hx Hy Hz). split; [reflexivity | discriminate].
Qed.

Lemma hex_round_trip_witness :
  ((0 <= 0 <= 255)%Z /\ (0 <= 113 <= 255)%Z /\ (0 <= 227 <= 255)%Z)
  /\ hexToRgb (rgbToHex 0 113 227) = Some (mkRgb 0 113 227)
  /\ hexToRgb (rgbToHex 0 113 227) <> None.
Proof.
  split; [lia | apply (@hex_round_trip 0 113 227); lia].
Defined.

(** ** The run-time: comparisons *)

Lemma ltb_lt (x y : Q) : (x <? y) = true <-> x < y.
Proof.
  unfold JS.ltb. rewrite negb_true_iff, <- not_true_iff_false, Qle_bool_iff.
  split; [apply Qnot_le_lt | apply Qlt_not_le].
Qed.

Lemma ltb_ge (x y : Q) : (x <? y) = false <-> y <= x.
Proof.
  unfold JS.ltb. rewrite negb_false_iff. apply Qle_bool_iff.
Qed.

Lemma leb_le (x y : Q) : (x <=? y) = true <-> x <= y.
Proof. apply Qle_bool_iff. Qed.

Lemma geb_ge (x y : Q) : (x >=? y) = true <-> y <= x.
Proof. apply Qle_bool_iff. Qed.

Lemma gtb_gt (x y : Q) : (x >? y) = true <-> y < x.
Proof. apply ltb_lt. Qed.

Lemma ltb_negb (x y : Q) : negb (x <? y) = (x >=? y).
Proof. unfold JS.ltb, JS.geb, JS.leb. apply negb_involutive. Qed.

Lemma gtb_negb (x y : Q) : negb (x >? y) = (x <=? y).
Proof. unfold JS.gtb. apply ltb_negb. Qed.

Lemma geb_lt (x y : Q) : (x >=? y) = false <-> x < y.
Proof.
  unfold JS.geb, JS.leb. rewrite <- not_true_iff_false, Qle_bool_iff.
  split; [apply Qnot_le_lt | apply Qlt_not_le].
Qed.

Lemma leb_gt (x y : Q) : (x <=? y) = false <-> y < x.
Proof. apply geb_lt. Qed.

Lemma inject_Z_succ_le (a b : Z) : (a < b)%Z -> inject_Z a + 1 <= inject_Z b.
Proof.
  intros H. change 1 with (inject_Z 1).
  rewrite <- inject_Z_plus, <- Zle_Qle. lia.
Qed.

(** One turn of a [forEach] or [reduce], as an equation. *)
Lemma fold_left_cons {A B} (f : A -> B -> A) (x : B) (l : list B) (a : A) :
  fold_left f (x :: l) a = fold_left f l (f a x).
Proof. reflexivity. Qed.

(** ** The run-time: doubles *)

(** *** Powers of two *)

Lemma pow2_pos (e : Z) : 0 < 2 ^ e.
Proof. apply Qpower_0_lt. reflexivity. Qed.

Lemma pow2_plus (a b : Z) : 2 ^ (a + b) == 2 ^ a * 2 ^ b.
Proof. apply Qpower_plus. discriminate. Qed.

Lemma pow2_succ (a : Z) : 2 ^ (a + 1) == 2 * 2 ^ a.
Proof. rewrite pow2_plus. change (2 ^ 1) with 2. ring. Qed.

Lemma pow2_le (a b : Z) : (a <= b)%Z -> 2 ^ a <= 2 ^ b.
Proof. intros H. apply Qpower_le_compat_l; [exact H | discriminate]. Qed.

Lemma pow2_lt (a b : Z) : (a < b)%Z -> 2 ^ a < 2 ^ b.
Proof. intros H. apply Qpower_lt_compat_l; [exact H | reflexivity]. Qed.

Lemma pow2_cancel (a : Z) : 2 ^ a * 2 ^ (- a) == 1.
Proof. rewrite <- pow2_plus. now replace (a + - a)%Z with 0%Z by lia. Qed.

Lemma pow2_inject (n : Z) : (0 <= n)%Z -> inject_Z (2 ^ n) == 2 ^ n.
Proof. intros H. now rewrite Zpower_Qpower. Qed.

(** *** The binade of a number *)

Lemma Qabs_make (n : Z) (d : positive) :
  Qabs (n # d) == inject_Z (Z.abs n) / inject_Z (Zpos d).
Proof. rewrite <- Zabs_Qabs. apply Qmake_Qdiv. Qed.

Lemma ilog2_spec (x : Q) :
  ~ x == 0 -> 2 ^ JS.ilog2 x <= Qabs x /\ Qabs x < 2 ^ (JS.ilog2 x + 1).
Proof.
  intros Hx. unfold JS.ilog2.
  destruct x as [n d]. cbn [Qnum Qden].
  assert (Hn : (0 < Z.abs n)%Z).
  { destruct n; [|lia|lia]. exfalso. apply Hx. reflexivity. }
  set (a := Z.abs n) in *.
  set (la := Z.log2 a). set (ld := Z.log2 (Zpos d)).
  destruct (Z.log2_spec a Hn) as [A0 A1]. fold la in A0, A1.
  destruct (Z.log2_spec (Zpos d) ltac:(lia)) as [D0 D1]. fold ld in D0, D1.
  assert (Hla : (0 <= la)%Z) by apply Z.log2_nonneg.
  assert (Hld : (0 <= ld)%Z) by apply Z.log2_nonneg.
  rewrite Zle_Qle, pow2_inject in A0, D0 by lia.
  rewrite Zlt_Qlt, pow2_inject in A1, D1 by lia.
  unfold Z.succ in A1, D1. rewrite pow2_succ in A1, D1.
  assert (Hd : 0 < inject_Z (Zpos d)) by reflexivity.
  assert (U : Qabs (n # d) < 2 ^ (la - ld + 1)).
  { rewrite Qabs_make. fold a. apply Qlt_shift_div_r; [exact Hd|].
    rewrite pow2_succ.
    replace (la - ld)%Z with (la + - ld)%Z by lia. rewrite pow2_plus.
    pose proof (pow2_cancel ld) as C. pose proof (pow2_pos la) as Pa.
    pose proof (pow2_pos (- ld)) as Pd.
    set (A := 2 ^ la) in *. set (D := 2 ^ ld) in *. set (D' := 2 ^ (- ld)) in *.
    set (dd := inject_Z (Zpos d)) in *. set (aa := inject_Z a) in *.
    assert (E : 2 * (A * D') * dd == 2 * A * (D' * dd)) by ring. rewrite E.
    assert (1 <= D' * dd) by (rewrite <- C; rewrite (Qmult_comm D); apply Qmult_le_l; [exact Pd | exact D0]).
    nra. }
  assert (L : 2 ^ (la - ld - 1) <= Qabs (n # d)).
  { rewrite Qabs_make. fold a. apply Qle_shift_div_l; [exact Hd|].
    replace (la - ld - 1)%Z with (la + - (ld + 1))%Z by lia. rewrite pow2_plus.
    pose proof (pow2_cancel (ld + 1)) as C. rewrite pow2_succ in C.
    pose proof (pow2_pos la) as Pa.
    pose proof (pow2_pos (- (ld + 1))) as Pd.
    set (A := 2 ^ la) in *. set (D := 2 ^ ld) in *.
    set (D' := 2 ^ (- (ld + 1))) in *.
    set (dd := inject_Z (Zpos d)) in *. set (aa := inject_Z a) in *.
    assert (D' * dd <= 1).
    { rewrite <- C. rewrite (Qmult_comm (2 * D)). apply Qmult_le_l; [exact Pd | lra]. }
    assert (E : A * D' * dd == A * (D' * dd)) by ring. rewrite E. nra. }
  destruct (Qle_bool (2 ^ (la - ld)) (Qabs (n # d))) eqn:T.
  - apply Qle_bool_iff in T. split; assumption.
  - apply not_true_iff_false in T. rewrite Qle_bool_iff in T.
    apply Qnot_le_lt in T.
    replace (la - ld - 1 + 1)%Z with (la - ld)%Z by lia. split; assumption.
Qed.

Lemma ilog2_unique (x : Q) (k : Z) :
  2 ^ k <= Qabs x -> Qabs x < 2 ^ (k + 1) -> JS.ilog2 x = k.
Proof.
  intros L U.
  assert (Hx : ~ x == 0).
  { intros E. rewrite E in L. pose proof (pow2_pos k). cbn in L. lra. }
  destruct (ilog2_spec Hx) as [L' U'].
  set (j := JS.ilog2 x) in *.
  destruct (Z_lt_le_dec j k) as [H | H].
  - assert (2 ^ (j + 1) <= 2 ^ k) by (apply pow2_le; lia). lra.
  - destruct (Z_lt_le_dec k j) as [H' | H']; [|lia].
    assert (2 ^ (k + 1) <= 2 ^ j) by (apply pow2_le; lia). lra.
Qed.

Lemma ilog2_morph (x y : Q) : ~ x == 0 -> x == y -> JS.ilog2 x = JS.ilog2 y.
Proof.
  intros Hx E. symmetry. destruct (ilog2_spec Hx) as [L U].
  apply ilog2_unique; rewrite <- E; assumption.
Qed.

Lemma ilog2_le (x y : Q) :
  0 < x -> x <= y -> (JS.ilog2 x <= JS.ilog2 y)%Z.
Proof.
  intros Hx Hxy.
  destruct (@ilog2_spec x) as [L U]; [lra|].
  destruct (@ilog2_spec y) as [L' U']; [lra|].
  rewrite Qabs_pos in L, U, L', U' by lra.
  destruct (Z_lt_le_dec (JS.ilog2 y) (JS.ilog2 x)) as [H | H]; [|exact H].
  assert (2 ^ (JS.ilog2 y + 1) <= 2 ^ JS.ilog2 x) by (apply pow2_le; lia). lra.
Qed.

(** *** Rounding to the nearest integer *)

Lemma Qfloor_unique (x : Q) (k : Z) :
  inject_Z k <= x -> x < inject_Z (k + 1) -> Qfloor x = k.
Proof.
  intros L U.
  pose proof (Qfloor_le x) as L'. pose proof (Qlt_floor x) as U'.
  assert (A : inject_Z k < inject_Z (Qfloor x + 1)) by lra.
  assert (B : inject_Z (Qfloor x) < inject_Z (k + 1)) by lra.
  rewrite <- Zlt_Qlt in A, B. lia.
Qed.

Lemma nearestEven_morph (x y : Q) :
  x == y -> JS.nearestEven x = JS.nearestEven y.
Proof.
  intros E. unfold JS.nearestEven. rewrite (Qfloor_comp _ _ E).
  assert (C : (x - inject_Z (Qfloor y) ?= 1 # 2)
              = (y - inject_Z (Qfloor y) ?= 1 # 2)).
  { apply Qcompare_comp; [now rewrite E | reflexivity]. }
  now rewrite C.
Qed.

Lemma nearestEven_cases (x : Q) :
  let f := Qfloor x in
  let t := x - inject_Z f in
  (t < 1 # 2 /\ JS.nearestEven x = f)
  \/ ((1 # 2) < t /\ JS.nearestEven x = (f + 1)%Z)
  \/ (t == 1 # 2 /\ JS.nearestEven x = if Z.even f then f else (f + 1)%Z).
Proof.
  cbv zeta. unfold JS.nearestEven.
  destruct (Qcompare_spec (x - inject_Z (Qfloor x)) (1 # 2)) as [H | H | H];
    auto.
Qed.

Lemma nearestEven_near (x : Q) :
  inject_Z (JS.nearestEven x) - (1 # 2) <= x
  /\ x <= inject_Z (JS.nearestEven x) + (1 # 2).
Proof.
  pose proof (Qfloor_le x) as L. pose proof (Qlt_floor x) as U.
  rewrite inject_Z_plus in U. change (inject_Z 1) with 1 in U.
  destruct (nearestEven_cases x) as [[H E] | [[H E] | [H E]]]; rewrite E.
  - lra.
  - rewrite inject_Z_plus. change (inject_Z 1) with 1. lra.
  - destruct (Z.even (Qfloor x)).
    + lra.
    + rewrite inject_Z_plus. change (inject_Z 1) with 1. lra.
Qed.

Lemma nearestEven_Z (k : Z) : JS.nearestEven (inject_Z k) = k.
Proof.
  unfold JS.nearestEven. rewrite Qfloor_Z.
  destruct (Qcompare_spec (inject_Z k - inject_Z k) (1 # 2)) as [H | H | H];
    [exfalso; lra | reflexivity | exfalso; lra].
Qed.

Lemma nearestEven_le (x y : Q) :
  x <= y -> (JS.nearestEven x <= JS.nearestEven y)%Z.
Proof.
  intros Hxy.
  pose proof (Qfloor_resp_le _ _ Hxy) as F.
  destruct (Z.eq_dec (Qfloor x) (Qfloor y)) as [E | N].
  - destruct (nearestEven_cases x) as [[H Ex] | [[H Ex] | [H Ex]]];
      destruct (nearestEven_cases y) as [[H' Ey] | [[H' Ey] | [H' Ey]]];
      rewrite Ex, Ey, <- ?E; try lia;
      try (destruct (Z.even (Qfloor x)); lia);
      exfalso; rewrite <- E in H'; lra.
  - assert (A : (JS.nearestEven x <= Qfloor x + 1)%Z).
    { destruct (nearestEven_cases x) as [[_ Ex] | [[_ Ex] | [_ Ex]]];
        rewrite Ex; try lia. destruct (Z.even _); lia. }
    assert (B : (Qfloor y <= JS.nearestEven y)%Z).
    { destruct (nearestEven_cases y) as [[_ Ey] | [[_ Ey] | [_ Ey]]];
        rewrite Ey; try lia. destruct (Z.even _); lia. }
    lia.
Qed.

Lemma nearestEven_opp (x : Q) : JS.nearestEven (- x) = (- JS.nearestEven x)%Z.
Proof.
  pose proof (Qfloor_le x) as L. pose proof (Qlt_floor x) as U.
  rewrite inject_Z_plus in U. change (inject_Z 1) with 1 in U.
  set (f := Qfloor x) in *.
  destruct (Qeq_dec x (inject_Z f)) as [I | I].
  - rewrite (nearestEven_morph I).
    assert (I' : - x == inject_Z (- f)) by (rewrite inject_Z_opp, I; reflexivity).
    rewrite (nearestEven_morph I'), !nearestEven_Z. reflexivity.
  - assert (F : Qfloor (- x) = (- f - 1)%Z).
    { apply Qfloor_unique.
      - replace (- f - 1)%Z with (- (f + 1))%Z by lia.
        rewrite inject_Z_opp, inject_Z_plus. change (inject_Z 1) with 1. lra.
      - replace (- f - 1 + 1)%Z with (- f)%Z by lia.
        rewrite inject_Z_opp.
        assert (inject_Z f < x).
        { destruct (Qlt_le_dec (inject_Z f) x) as [H | H]; [exact H|].
          exfalso. apply I. apply Qle_antisym; assumption. }
        lra. }
    assert (T : - x - inject_Z (Qfloor (- x)) == 1 - (x - inject_Z f)).
    { rewrite F. replace (- f - 1)%Z with (- (f + 1))%Z by lia.
      rewrite inject_Z_opp, inject_Z_plus. change (inject_Z 1) with 1. ring. }
    destruct (nearestEven_cases x) as [[H Ex] | [[H Ex] | [H Ex]]];
      fold f in H, Ex; rewrite Ex;
      destruct (nearestEven_cases (- x)) as [[H' Ey] | [[H' Ey] | [H' Ey]]];
      rewrite T in H'; rewrite Ey, F; try lia; try (exfalso; lra).
    rewrite <- Z.negb_odd.
    replace (- f - 1)%Z with (- (f + 1))%Z by lia.
    rewrite Z.odd_opp, Z.odd_add. change (Z.odd 1) with true.
    rewrite <- Z.negb_even. destruct (Z.even f); cbn; lia.
Qed.

(** *** Rounding to a double *)

Lemma fl_zero (x : Q) : x == 0 -> JS.fl x = 0.
Proof.
  intros E. unfold JS.fl. apply Qeq_bool_iff in E. now rewrite E.
Qed.

Lemma fl_nonzero (x : Q) :
  ~ x == 0 ->
  JS.fl x
  = Qred (inject_Z (JS.nearestEven (x * 2 ^ (- (JS.ilog2 x - 52))))
          * 2 ^ (JS.ilog2 x - 52)).
Proof.
  intros N. unfold JS.fl.
  destruct (Qeq_bool x 0) eqn:E; [|reflexivity].
  apply Qeq_bool_iff in E. contradiction.
Qed.

Lemma fl_morph (x y : Q) : x == y -> JS.fl x = JS.fl y.
Proof.
  intros E. destruct (Qeq_dec x 0) as [Z | N].
  - rewrite (fl_zero Z). symmetry. apply fl_zero. now rewrite <- E.
  - assert (N' : ~ y == 0) by (now rewrite <- E).
    rewrite (fl_nonzero N), (fl_nonzero N'), (ilog2_morph N E).
    apply Qred_complete.
    assert (S : x * 2 ^ (- (JS.ilog2 y - 52))
                == y * 2 ^ (- (JS.ilog2 y - 52))) by (now rewrite E).
    now rewrite (nearestEven_morph S).
Qed.

Lemma scaled_bounds (x : Q) :
  0 < x ->
  2 ^ 52 <= x * 2 ^ (- (JS.ilog2 x - 52))
  /\ x * 2 ^ (- (JS.ilog2 x - 52)) < 2 ^ 53.
Proof.
  intros Hx. destruct (@ilog2_spec x) as [L U]; [lra|].
  rewrite Qabs_pos in L, U by lra.
  set (k := JS.ilog2 x) in *.
  pose proof (pow2_pos (- (k - 52))) as P.
  assert (A : 2 ^ 52 == 2 ^ k * 2 ^ (- (k - 52))).
  { rewrite <- pow2_plus. now replace (k + - (k - 52))%Z with 52%Z by lia. }
  assert (B : 2 ^ 53 == 2 ^ (k + 1) * 2 ^ (- (k - 52))).
  { rewrite <- pow2_plus. now replace (k + 1 + - (k - 52))%Z with 53%Z by lia. }
  rewrite A, B. split.
  - apply Qmult_le_r; assumption.
  - apply Qmult_lt_r; assumption.
Qed.

Lemma mantissa_bounds (x : Q) :
  0 < x ->
  (2 ^ 52 <= JS.nearestEven (x * 2 ^ (- (JS.ilog2 x - 52))) <= 2 ^ 53)%Z.
Proof.
  intros Hx. destruct (scaled_bounds Hx) as [L U].
  split.
  - rewrite <- (nearestEven_Z (2 ^ 52)). apply nearestEven_le.
    rewrite pow2_inject by lia. exact L.
  - rewrite <- (nearestEven_Z (2 ^ 53)). apply nearestEven_le.
    rewrite pow2_inject by lia. lra.
Qed.

Lemma fl_pos_bounds (x : Q) :
  0 < x -> 2 ^ JS.ilog2 x <= JS.fl x /\ JS.fl x <= 2 ^ (JS.ilog2 x + 1).
Proof.
  intros Hx. rewrite fl_nonzero by lra. rewrite Qred_correct.
  destruct (mantissa_bounds Hx) as [L U].
  set (m := JS.nearestEven _) in *. set (k := JS.ilog2 x) in *.
  rewrite Zle_Qle, pow2_inject in L, U by lia.
  pose proof (pow2_pos (k - 52)) as P.
  assert (A : 2 ^ k == 2 ^ 52 * 2 ^ (k - 52)).
  { rewrite <- pow2_plus. now replace (52 + (k - 52))%Z with k by lia. }
  assert (B : 2 ^ (k + 1) == 2 ^ 53 * 2 ^ (k - 52)).
  { rewrite <- pow2_plus. now replace (53 + (k - 52))%Z with (k + 1)%Z by lia. }
  rewrite A, B. split; apply Qmult_le_r; assumption.
Qed.

Lemma fl_pos (x : Q) : 0 < x -> 0 < JS.fl x.
Proof.
  intros Hx. destruct (fl_pos_bounds Hx) as [L _].
  pose proof (pow2_pos (JS.ilog2 x)). lra.
Qed.

Lemma fl_opp (x : Q) : JS.fl (- x) == - JS.fl x.
Proof.
  destruct (Qeq_dec x 0) as [Z | N].
  - rewrite (fl_zero Z). rewrite fl_zero; [reflexivity | now rewrite Z].
  - assert (N' : ~ - x == 0) by (intros E; apply N; lra).
    assert (K : JS.ilog2 (- x) = JS.ilog2 x).
    { destruct (ilog2_spec N) as [L U].
      apply ilog2_unique; rewrite Qabs_opp; assumption. }
    rewrite (fl_nonzero N), (fl_nonzero N'), K, !Qred_correct.
    set (e := (JS.ilog2 x - 52)%Z).
    assert (S : - x * 2 ^ (- e) == - (x * 2 ^ (- e))) by ring.
    rewrite (nearestEven_morph S), nearestEven_opp, inject_Z_opp. ring.
Qed.

Lemma fl_neg (x : Q) : x < 0 -> JS.fl x < 0.
Proof.
  intros Hx. assert (P : 0 < - x) by lra. apply fl_pos in P.
  rewrite fl_opp in P. lra.
Qed.

Lemma fl_le_pos (x y : Q) : 0 < x -> x <= y -> JS.fl x <= JS.fl y.
Proof.
  intros Hx Hxy. assert (Hy : 0 < y) by lra.
  pose proof (ilog2_le Hx Hxy) as K.
  destruct (Z.eq_dec (JS.ilog2 x) (JS.ilog2 y)) as [E | N].
  - rewrite !fl_nonzero by lra. rewrite !Qred_correct, E.
    set (e := (JS.ilog2 y - 52)%Z).
    apply Qmult_le_r; [apply pow2_pos|]. rewrite <- Zle_Qle.
    apply nearestEven_le. apply Qmult_le_r; [apply pow2_pos | exact Hxy].
  - destruct (fl_pos_bounds Hx) as [_ U]. destruct (fl_pos_bounds Hy) as [L _].
    assert (2 ^ (JS.ilog2 x + 1) <= 2 ^ JS.ilog2 y) by (apply pow2_le; lia).
    lra.
Qed.

(** [fl] is monotone. *)
Lemma fl_le (x y : Q) : x <= y -> JS.fl x <= JS.fl y.
Proof.
  intros Hxy.
  destruct (Qlt_le_dec 0 x) as [Hx | Hx]; [now apply fl_le_pos|].
  destruct (Qlt_le_dec 0 y) as [Hy | Hy].
  - apply fl_pos in Hy.
    destruct (Qeq_dec x 0) as [Z | N]; [rewrite (fl_zero Z); lra|].
    assert (X : x < 0).
    { destruct (Qlt_le_dec x 0) as [H | H]; [exact H|].
      exfalso. apply N. apply Qle_antisym; assumption. }
    apply fl_neg in X. lra.
  - destruct (Qeq_dec y 0) as [Z | N].
    + rewrite (fl_zero Z).
      destruct (Qeq_dec x 0) as [Z' | N']; [rewrite (fl_zero Z'); lra|].
      assert (X : x < 0) by (rewrite Z in Hxy;
        destruct (Qlt_le_dec x 0) as [H | H]; [exact H|];
        exfalso; apply N'; apply Qle_antisym; assumption).
      apply fl_neg in X. lra.
    + assert (Y : 0 < - y).
      { destruct (Qlt_le_dec y 0) as [H | H]; [lra|].
        exfalso. apply N. apply Qle_antisym; assumption. }
      assert (H : JS.fl (- y) <= JS.fl (- x)) by (apply fl_le_pos; lra).
      rewrite !fl_opp in H. lra.
Qed.

(** A number with a significand of at most 53 bits is a double. *)
Lemma fl_exact_pos (m e : Z) :
  (0 < m <= 2 ^ 53)%Z ->
  JS.fl (inject_Z m * 2 ^ e) == inject_Z m * 2 ^ e.
Proof.
  intros [M0 M1]. set (x := inject_Z m * 2 ^ e).
  assert (Q0 : 0 < inject_Z m) by (change 0 with (inject_Z 0); rewrite <- Zlt_Qlt; lia).
  assert (Hx : 0 < x) by (apply Qmult_lt_0_compat; [exact Q0 | apply pow2_pos]).
  rewrite fl_nonzero by lra. rewrite Qred_correct.
  destruct (@ilog2_spec x) as [L U]; [lra|].
  rewrite Qabs_pos in L, U by lra.
  set (k := JS.ilog2 x) in *.
  (* the scaled number is an integer *)
  assert (Hk : (e <= k - 52)%Z \/ (k - 52 < e)%Z) by lia.
  destruct Hk as [Hk | Hk].
  - (* m = 2^53 is the only possibility with e < k - 52, else e = k - 52 *)
    assert (B : x <= 2 ^ (53 + e)).
    { unfold x. rewrite pow2_plus. apply Qmult_le_r; [apply pow2_pos|].
      rewrite <- pow2_inject by lia. rewrite <- Zle_Qle. exact M1. }
    assert (K : (k <= 53 + e)%Z).
    { destruct (Z_lt_le_dec (53 + e) k) as [H | H]; [|exact H].
      assert (2 ^ (53 + e) < 2 ^ k) by (apply pow2_lt; lia). lra. }
    assert (Hk' : (k - 52 = e \/ k - 52 = e + 1)%Z) by lia.
    destruct Hk' as [Hk' | Hk'].
    + rewrite Hk'.
      assert (S : x * 2 ^ (- e) == inject_Z m).
      { unfold x. rewrite <- Qmult_assoc, pow2_cancel. ring. }
      rewrite (nearestEven_morph S), nearestEven_Z. reflexivity.
    + assert (K53 : k = (53 + e)%Z) by lia.
      assert (Em : m = (2 ^ 53)%Z).
      { assert (A : 2 ^ k <= x) by exact L.
        rewrite K53, pow2_plus in A. unfold x in A.
        apply Qmult_le_r in A; [|apply pow2_pos].
        rewrite <- pow2_inject, <- Zle_Qle in A by lia. lia. }
      rewrite Hk'.
      assert (S : x * 2 ^ (- (e + 1)) == inject_Z (2 ^ 52)).
      { unfold x. rewrite Em.
        replace (- (e + 1))%Z with (- e + - 1)%Z by lia.
        rewrite pow2_plus.
        assert (C := pow2_cancel e).
        rewrite !pow2_inject by lia.
        transitivity (2 ^ 53 * 2 ^ (- 1) * (2 ^ e * 2 ^ (- e))); [ring|].
        rewrite C. reflexivity. }
      rewrite (nearestEven_morph S), nearestEven_Z.
      unfold x. rewrite Em, pow2_succ, !pow2_inject by lia.
      change (2 ^ 53) with (2 * 2 ^ 52). ring.
  - assert (S : x * 2 ^ (- (k - 52)) == inject_Z (m * 2 ^ (e - (k - 52)))).
    { unfold x. rewrite inject_Z_mult, pow2_inject by lia.
      rewrite <- Qmult_assoc, <- pow2_plus.
      now replace (e + - (k - 52))%Z with (e - (k - 52))%Z by lia. }
    rewrite (nearestEven_morph S), nearestEven_Z.
    rewrite inject_Z_mult, pow2_inject by lia.
    rewrite <- Qmult_assoc, <- pow2_plus.
    now replace (e - (k - 52) + (k - 52))%Z with e by lia.
Qed.

Lemma fl_exact (m e : Z) :
  (Z.abs m <= 2 ^ 53)%Z ->
  JS.fl (inject_Z m * 2 ^ e) == inject_Z m * 2 ^ e.
Proof.
  intros M. destruct (Z.lt_trichotomy m 0) as [H | [H | H]].
  - assert (E : inject_Z m * 2 ^ e == - (inject_Z (- m) * 2 ^ e))
      by (rewrite inject_Z_opp; ring).
    rewrite (fl_morph E), fl_opp, fl_exact_pos by lia.
    rewrite inject_Z_opp. ring.
  - subst m. rewrite fl_zero; [|ring]. ring.
  - apply fl_exact_pos. lia.
Qed.

(** The result is a fraction in lowest terms. *)
Lemma fl_reduced (x : Q) : Qred (JS.fl x) = JS.fl x.
Proof.
  destruct (Qeq_dec x 0) as [Z | N].
  - now rewrite (fl_zero Z).
  - rewrite (fl_nonzero N). apply Qred_complete, Qred_correct.
Qed.

(** A double rounds to itself. *)
Lemma fl_idem (x : Q) : JS.fl (JS.fl x) = JS.fl x.
Proof.
  assert (P : forall y, 0 < y -> JS.fl (JS.fl y) == JS.fl y).
  { intros y Hy. rewrite (fl_nonzero (x := y)) by lra.
    destruct (mantissa_bounds Hy) as [L U].
    set (m := JS.nearestEven _) in *.
    rewrite (fl_morph (Qred_correct _)), Qred_correct.
    apply fl_exact_pos. lia. }
  assert (G : JS.fl (JS.fl x) == JS.fl x).
  { destruct (Qlt_le_dec 0 x) as [Hx | Hx]; [now apply P|].
    destruct (Qeq_dec x 0) as [Z | N].
    - rewrite (fl_zero Z). reflexivity.
    - assert (X : 0 < - x).
      { destruct (Qlt_le_dec x 0) as [H | H]; [lra|].
        exfalso. apply N. apply Qle_antisym; assumption. }
      pose proof (P _ X) as H.
      rewrite (fl_morph (fl_opp x)), !fl_opp in H. lra. }
  transitivity (Qred (JS.fl (JS.fl x))); [symmetry; apply fl_reduced|].
  transitivity (Qred (JS.fl x)); [now apply Qred_complete | apply fl_reduced].
Qed.

(** Between a number and the double nearest to it lies no double. *)
Lemma lit_lt_double (c x : Q) : JS.fl x = x -> JS.lit c < x -> c < x.
Proof.
  intros Hx H. destruct (Qlt_le_dec c x) as [L | L]; [exact L|].
  apply fl_le in L. rewrite Hx in L. unfold JS.lit in H. lra.
Qed.

Lemma double_lt_lit (c x : Q) : JS.fl x = x -> x < JS.lit c -> x < c.
Proof.
  intros Hx H. destruct (Qlt_le_dec x c) as [L | L]; [exact L|].
  apply fl_le in L. rewrite Hx in L. unfold JS.lit in H. lra.
Qed.

(** Rounding keeps a number between two doubles. *)
Lemma fl_between (a b x : Q) :
  JS.fl a == a -> JS.fl b == b -> a <= x -> x <= b ->
  a <= JS.fl x /\ JS.fl x <= b.
Proof.
  intros Ha Hb L U. split.
  - rewrite <- Ha. now apply fl_le.
  - rewrite <- Hb. now apply fl_le.
Qed.

Ltac double := apply Qeq_bool_eq; vm_compute; reflexivity.

Lemma ilog2_ge (x : Q) (j : Z) : 2 ^ j <= Qabs x -> (j <= JS.ilog2 x)%Z.
Proof.
  intros L.
  assert (Hx : ~ x == 0).
  { intros E. rewrite E in L. pose proof (pow2_pos j). cbn in L. lra. }
  destruct (ilog2_spec Hx) as [_ U].
  destruct (Z_lt_le_dec (JS.ilog2 x) j) as [H | H]; [|exact H].
  assert (2 ^ (JS.ilog2 x + 1) <= 2 ^ j) by (apply pow2_le; lia). lra.
Qed.

(** Rounding moves a number by at most half a unit in the last place. *)
Lemma fl_error (x : Q) :
  ~ x == 0 -> Qabs (JS.fl x - x) <= 2 ^ (JS.ilog2 x - 53).
Proof.
  intros N. rewrite (fl_nonzero N), Qred_correct.
  set (e := (JS.ilog2 x - 52)%Z).
  destruct (nearestEven_near (x * 2 ^ (- e))) as [L U].
  set (m := inject_Z (JS.nearestEven (x * 2 ^ (- e)))) in *.
  pose proof (pow2_pos e) as P.
  assert (C : 2 ^ e * 2 ^ (- e) == 1) by apply pow2_cancel.
  assert (X : x == x * 2 ^ (- e) * 2 ^ e).
  { rewrite <- Qmult_assoc, (Qmult_comm (2 ^ (- e))), C. ring. }
  assert (H : 2 ^ (JS.ilog2 x - 53) == (1 # 2) * 2 ^ e).
  { unfold e. replace (JS.ilog2 x - 53)%Z with (- 1 + (JS.ilog2 x - 52))%Z by lia.
    rewrite pow2_plus. reflexivity. }
  rewrite H. apply Qabs_Qle_condition.
  set (s := x * 2 ^ (- e)) in *.
  assert (E1 : m * 2 ^ e - x == (m - s) * 2 ^ e) by (rewrite X at 1; ring).
  rewrite E1. split; nra.
Qed.

(** A double is an integer multiple of the unit of its binade. *)
Lemma double_grid (x : Q) :
  JS.fl x = x -> ~ x == 0 ->
  exists m : Z, x == inject_Z m * 2 ^ (JS.ilog2 x - 52).
Proof.
  intros D N. exists (JS.nearestEven (x * 2 ^ (- (JS.ilog2 x - 52)))).
  rewrite <- D at 1. rewrite (fl_nonzero N). apply Qred_correct.
Qed.

Lemma fl_Z (k : Z) : (Z.abs k <= 2 ^ 53)%Z -> JS.fl (inject_Z k) == inject_Z k.
Proof.
  intros H. pose proof (@fl_exact k 0 H) as E.
  change (2 ^ 0) with 1 in E.
  assert (X : inject_Z k * 1 == inject_Z k) by ring.
  rewrite (fl_morph X) in E. rewrite E. ring.
Qed.

(** Dividing a double by 20 and rounding does not cross an integer. *)
Lemma floor_div20 (x : Q) :
  JS.fl x = x -> 0 <= x -> x <= 2 ^ 50 ->
  JS.Math_floor (x /! 20) = JS.Math_floor (x / 20).
Proof.
  intros D H0 H1. unfold JS.Math_floor, JS.div.
  set (k := Qfloor (x / 20)).
  pose proof (Qfloor_le (x / 20)) as L. pose proof (Qlt_floor (x / 20)) as U.
  fold k in L, U.
  assert (K0 : (0 <= k)%Z).
  { change 0%Z with (Qfloor 0). apply Qfloor_resp_le.
    apply Qle_shift_div_l; lra. }
  assert (K1 : (k <= 2 ^ 50)%Z).
  { rewrite Zle_Qle, pow2_inject by lia.
    apply Qle_trans with (x / 20); [exact L|].
    apply Qle_shift_div_r; lra. }
  assert (R0 : JS.fl (inject_Z k) == inject_Z k) by (apply fl_Z; lia).
  assert (R1 : JS.fl (inject_Z (k + 1)) == inject_Z (k + 1)) by (apply fl_Z; lia).
  assert (A : inject_Z k <= JS.fl (x / 20))
    by (rewrite <- R0; now apply fl_le).
  assert (B : JS.fl (x / 20) <= inject_Z (k + 1))
    by (rewrite <- R1; apply fl_le; lra).
  apply Qfloor_unique; [exact A|].
  destruct (Qlt_le_dec (JS.fl (x / 20)) (inject_Z (k + 1))) as [G | G];
    [exact G | exfalso].
  (* the quotient would round up to [k + 1] *)
  assert (Xpos : 0 < x).
  { destruct (Qlt_le_dec 0 x) as [P | P]; [exact P|].
    assert (Z : x / 20 == 0) by (assert (x == 0) by lra; rewrite H; reflexivity).
    rewrite (fl_zero Z) in G. rewrite inject_Z_plus in G.
    change (inject_Z 1) with 1 in G.
    assert (0 <= inject_Z k) by (change 0 with (inject_Z 0); rewrite <- Zle_Qle; lia).
    lra. }
  set (q := x / 20) in *.
  assert (Qpos : 0 < q) by (apply Qlt_shift_div_l; lra).
  assert (X20 : x == 20 * q) by (unfold q; field).
  pose proof (@fl_error q ltac:(lra)) as Err.
  apply Qabs_Qle_condition in Err. destruct Err as [_ Err].
  destruct (@ilog2_spec q ltac:(lra)) as [Lq _].
  rewrite Qabs_pos in Lq by lra.
  set (j := JS.ilog2 q) in *.
  assert (J : (j + 4 <= JS.ilog2 x)%Z).
  { apply ilog2_ge. rewrite Qabs_pos by lra. rewrite pow2_plus.
    change (2 ^ 4) with 16. lra. }
  assert (I : (JS.ilog2 x <= 50)%Z).
  { destruct (@ilog2_spec x ltac:(lra)) as [Lx _].
    rewrite Qabs_pos in Lx by lra.
    destruct (Z_lt_le_dec 50 (JS.ilog2 x)) as [T | T]; [|exact T].
    assert (2 ^ 50 < 2 ^ JS.ilog2 x) by (apply pow2_lt; lia). lra. }
  destruct (@double_grid x D ltac:(lra)) as [m Hm].
  set (e := (JS.ilog2 x - 52)%Z) in *.
  (* [20 (k + 1) - x] is a positive multiple of [2 ^ e] *)
  assert (M : inject_Z (20 * (k + 1)) - x
              == inject_Z (20 * (k + 1) * 2 ^ (- e) - m) * 2 ^ e).
  { unfold Zminus. rewrite inject_Z_plus, inject_Z_opp, !inject_Z_mult.
    rewrite pow2_inject by lia.
    assert (C : 2 ^ (- e) * 2 ^ e == 1)
      by (rewrite Qmult_comm; apply pow2_cancel).
    rewrite Hm at 1.
    transitivity (inject_Z 20 * inject_Z (k + 1) * (2 ^ (- e) * 2 ^ e)
                  - inject_Z m * 2 ^ e); [rewrite C; ring | ring]. }
  assert (Gap : 0 < inject_Z (20 * (k + 1)) - x).
  { rewrite inject_Z_mult. change (inject_Z 20) with 20. lra. }
  pose proof (pow2_pos e) as Pe.
  set (t := (20 * (k + 1) * 2 ^ (- e) - m)%Z) in *.
  assert (T : (1 <= t)%Z).
  { destruct (Z_lt_le_dec t 1) as [T | T]; [exfalso|exact T].
    assert (inject_Z t <= 0)
      by (change 0 with (inject_Z 0); rewrite <- Zle_Qle; lia).
    rewrite M in Gap. nra. }
  assert (T' : 1 <= inject_Z t)
    by (change 1 with (inject_Z 1); rewrite <- Zle_Qle; exact T).
  assert (G1 : 2 ^ e <= inject_Z (20 * (k + 1)) - x) by (rewrite M; nra).
  assert (G2 : 2 ^ (j - 48) <= 2 ^ e) by (apply pow2_le; unfold e; lia).
  assert (G3 : 2 ^ (j - 48) == 32 * 2 ^ (j - 53)).
  { replace (j - 48)%Z with (5 + (j - 53))%Z by lia. rewrite pow2_plus.
    reflexivity. }
  pose proof (pow2_pos (j - 53)) as Pj.
  rewrite inject_Z_mult in G1. change (inject_Z 20) with 20 in G1.
  lra.
Qed.

(** An integer less than 1/2 away is the nearest one. *)
Lemma nearestEven_unique (x : Q) (k : Z) :
  Qabs (inject_Z k - x) < 1 # 2 -> JS.nearestEven x = k.
Proof.
  intros H. apply Qabs_Qlt_condition in H. destruct H as [H0 H1].
  destruct (nearestEven_near x) as [L U].
  set (m := JS.nearestEven x) in *.
  assert (A : inject_Z m < inject_Z (k + 1))
    by (rewrite inject_Z_plus; change (inject_Z 1) with 1; lra).
  assert (B : inject_Z k < inject_Z (m + 1))
    by (rewrite inject_Z_plus; change (inject_Z 1) with 1; lra).
  rewrite <- Zlt_Qlt in A, B. lia.
Qed.

(** [fl x] is a double nearest to [x]: no double lies closer. *)
Lemma fl_nearest_pos (x y : Q) :
  0 < x -> JS.fl y == y -> Qabs (JS.fl x - x) <= Qabs (y - x).
Proof.
  intros Hx Dy.
  destruct (@ilog2_spec x ltac:(lra)) as [Lx Ux].
  rewrite Qabs_pos in Lx, Ux by lra.
  rewrite (fl_nonzero (x := x)) by lra. rewrite Qred_correct.
  set (k := JS.ilog2 x) in *. set (e := (k - 52)%Z).
  destruct (scaled_bounds Hx) as [S0 S1]. fold k e in S0, S1.
  destruct (nearestEven_near (x * 2 ^ (- e))) as [N0 N1].
  pose proof (pow2_pos e) as Pe. pose proof (pow2_pos (- e)) as Pe'.
  assert (C : 2 ^ e * 2 ^ (- e) == 1) by apply pow2_cancel.
  set (s := x * 2 ^ (- e)) in *. set (m := JS.nearestEven s) in *.
  set (t := y * 2 ^ (- e)).
  assert (X : x == s * 2 ^ e).
  { unfold s. rewrite <- Qmult_assoc, (Qmult_comm (2 ^ (- e))), C. ring. }
  assert (Y : y == t * 2 ^ e).
  { unfold t. rewrite <- Qmult_assoc, (Qmult_comm (2 ^ (- e))), C. ring. }
  assert (G : Qabs (inject_Z m - s) <= Qabs (t - s)).
  { destruct (Qlt_le_dec (Qabs (t - s)) (1 # 2)) as [Near | Far].
    2:{ apply Qle_trans with (1 # 2); [|exact Far].
        apply Qabs_Qle_condition. split; lra. }
    (* a double this close to [s] is an integer on the scale of [s] *)
    apply Qabs_Qlt_condition in Near. destruct Near as [T0 T1].
    assert (Ty : 0 < y) by (rewrite Y; nra).
    assert (exists T : Z, t == inject_Z T) as [T HT].
    { destruct (@ilog2_spec y ltac:(lra)) as [Ly Uy].
      rewrite Qabs_pos in Ly, Uy by lra.
      assert (Gy : y == inject_Z (JS.nearestEven
                                    (y * 2 ^ (- (JS.ilog2 y - 52))))
                        * 2 ^ (JS.ilog2 y - 52)).
      { rewrite <- Dy at 1. rewrite (fl_nonzero (x := y)) by lra.
        apply Qred_correct. }
      set (M := JS.nearestEven _) in Gy. set (j := JS.ilog2 y) in *.
      (* [j] is [k - 1], [k] or [k + 1] *)
      assert (J0 : (k - 1 <= j)%Z).
      { apply ilog2_ge. rewrite Qabs_pos by lra. rewrite Y.
        assert (E : 2 ^ (k - 1) == 2 ^ 51 * 2 ^ e).
        { rewrite <- pow2_plus. unfold e.
          now replace (51 + (k - 52))%Z with (k - 1)%Z by lia. }
        rewrite E. apply Qmult_le_r; [exact Pe|].
        assert (2 ^ 51 + (1 # 2) <= 2 ^ 52)
          by (apply Qle_bool_imp_le; reflexivity).
        lra. }
      assert (J1 : (j <= k + 1)%Z).
      { destruct (Z_lt_le_dec (k + 1) j) as [B | B]; [exfalso | exact B].
        assert (P : 2 ^ (k + 2) <= 2 ^ j) by (apply pow2_le; lia).
        assert (E : 2 ^ (k + 2) == 2 ^ 54 * 2 ^ e).
        { rewrite <- pow2_plus. unfold e.
          now replace (54 + (k - 52))%Z with (k + 2)%Z by lia. }
        rewrite E in P.
        assert (t * 2 ^ e < 2 ^ 54 * 2 ^ e).
        { apply Qmult_lt_r; [exact Pe|].
          assert (2 ^ 53 + (1 # 2) <= 2 ^ 54)
            by (apply Qle_bool_imp_le; reflexivity).
          lra. }
        rewrite <- Y in H. lra. }
      assert (Tm : t == inject_Z M * 2 ^ (j - 52) * 2 ^ (- e)).
      { unfold t. now rewrite Gy at 1. }
      assert (Hj : (j = k - 1 \/ j = k \/ j = k + 1)%Z) by lia.
      destruct Hj as [Hj | [Hj | Hj]].
      - (* the binade below: too far from [s] *)
        exfalso.
        assert (P2 : 2 ^ (j - 52) * 2 ^ (- e) == 1 # 2).
        { rewrite <- pow2_plus. unfold e.
          now replace (j - 52 + - (k - 52))%Z with (- 1)%Z by lia. }
        assert (Tm' : t == inject_Z M * (1 # 2)).
        { rewrite Tm, <- Qmult_assoc, P2. reflexivity. }
        assert (Mb : (M <= 2 ^ 53 - 1)%Z).
        { assert (UM : inject_Z M < inject_Z (2 ^ 53)).
          { rewrite pow2_inject by lia.
            assert (Uy' : y < 2 ^ k) by (rewrite Hj in Uy;
              now replace (k - 1 + 1)%Z with k in Uy by lia).
            rewrite Y in Uy'.
            assert (E : 2 ^ k == 2 ^ 52 * 2 ^ e).
            { rewrite <- pow2_plus. unfold e.
              now replace (52 + (k - 52))%Z with k by lia. }
            rewrite E in Uy'. apply Qmult_lt_r in Uy'; [|exact Pe].
            change (2 ^ 53) with (2 * 2 ^ 52). lra. }
          rewrite <- Zlt_Qlt in UM. lia. }
        rewrite Zle_Qle in Mb. unfold Zminus in Mb.
        rewrite inject_Z_plus, pow2_inject in Mb by lia.
        change (inject_Z (- (1))) with (- (1)) in Mb.
        change (2 ^ 53) with (2 * 2 ^ 52) in Mb. lra.
      - exists M. rewrite Tm, Hj. fold e.
        rewrite <- Qmult_assoc, C. ring.
      - exists (2 * M)%Z. rewrite Tm, inject_Z_mult.
        assert (P2 : 2 ^ (j - 52) * 2 ^ (- e) == 2).
        { rewrite <- pow2_plus. unfold e.
          now replace (j - 52 + - (k - 52))%Z with 1%Z by lia. }
        rewrite <- Qmult_assoc, P2. change (inject_Z 2) with 2. ring. }
    assert (Em : m = T).
    { apply nearestEven_unique. apply Qabs_Qlt_condition. rewrite <- HT.
      split; lra. }
    rewrite Em, <- HT. apply Qle_refl. }
  assert (E1 : inject_Z m * 2 ^ e - x == (inject_Z m - s) * 2 ^ e)
    by (rewrite X at 1; ring).
  assert (E2 : y - x == (t - s) * 2 ^ e)
    by (rewrite X at 1; rewrite Y at 1; ring).
  rewrite E1, E2, !Qabs_Qmult, (Qabs_pos (2 ^ e)) by lra.
  apply Qmult_le_r; [exact Pe | exact G].
Qed.

Lemma fl_nearest (x y : Q) :
  JS.fl y == y -> Qabs (JS.fl x - x) <= Qabs (y - x).
Proof.
  intros Dy.
  destruct (Qlt_le_dec 0 x) as [P | P]; [now apply fl_nearest_pos|].
  destruct (Qeq_dec x 0) as [Z | N].
  - rewrite (fl_zero Z), Z.
    assert (E : 0 - 0 == 0) by ring. rewrite E. apply Qabs_nonneg.
  - assert (X : 0 < - x).
    { destruct (Qlt_le_dec x 0) as [H | H]; [lra|].
      exfalso. apply N. apply Qle_antisym; assumption. }
    assert (Dy' : JS.fl (- y) == - y) by (rewrite fl_opp, Dy; reflexivity).
    pose proof (fl_nearest_pos X Dy') as H.
    rewrite fl_opp in H.
    assert (E1 : - JS.fl x - - x == - (JS.fl x - x)) by ring.
    assert (E2 : - y - - x == - (y - x)) by ring.
    now rewrite E1, E2, !Qabs_opp in H.
Qed.

(** ** The run-time: [sort] *)

Section SortFacts.
Variable A : Type.
Variable cmp : A -> A -> Q.

Lemma insert_perm (x : A) (l : list A) :
  Permutation (JS.insert cmp x l) (x :: l).
Proof.
  induction l as [|y l IH]; cbn.
  - reflexivity.
  - destruct (Qle_bool (cmp x y) 0).
    + reflexivity.
    + rewrite IH. apply perm_swap.
Qed.

Lemma sort_perm (l : list A) : Permutation (JS.sort cmp l) l.
Proof.
  induction l as [|x l IH]; cbn.
  - reflexivity.
  - rewrite insert_perm. now constructor.
Qed.

Lemma sort_length (l : list A) : length (JS.sort cmp l) = length l.
Proof. apply Permutation_length, sort_perm. Qed.

Lemma sort_In (x : A) (l : list A) : In x (JS.sort cmp l) <-> In x l.
Proof.
  split; apply Permutation_in; [| symmetry]; apply sort_perm.
Qed.

Lemma sort_head_In (x : A) (l : list A) :
  nth_error (JS.sort cmp l) 0 = Some x -> In x l.
Proof.
  intros H. apply sort_In. eapply nth_error_In, H.
Qed.

End SortFacts.

(** ** Median cut *)

Lemma largestBucket_spec (buckets : list (list Rgb)) :
  forall index mi ms i m,
    largestBucket buckets index mi ms = (i, m) ->
    (i = mi /\ m = ms)
    \/ ((index <= i < index + length buckets)%nat
        /\ length (nth (i - index) buckets []) = m /\ (ms < m)%nat).
Proof.
  induction buckets as [|bk rest IH]; intros index mi ms i m H;
    cbn [largestBucket] in H.
  - left. now inversion H.
  - destruct (ms <? length bk)%nat eqn:E.
    + apply Nat.ltb_lt in E.
      apply IH in H as [[-> ->] | (Hi & Hn & Hm)].
      * right. cbn [length]. rewrite Nat.sub_diag. cbn. repeat split; lia.
      * right. cbn [length]. repeat split; try lia.
        replace (i - index)%nat with (S (i - S index)) by lia. exact Hn.
    + apply IH in H as [[-> ->] | (Hi & Hn & Hm)].
      * now left.
      * right. cbn [length]. repeat split; try lia.
        replace (i - index)%nat with (S (i - S index)) by lia. exact Hn.
Qed.

Lemma largestBucket_top (buckets : list (list Rgb)) (i m : nat) :
  largestBucket buckets 0 0 0 = (i, m) ->
  (1 < m)%nat ->
  (i < length buckets)%nat /\ length (nth i buckets []) = m.
Proof.
  intros H Hm. apply largestBucket_spec in H as [[-> ->] | (Hi & Hn & _)].
  - lia.
  - rewrite Nat.sub_0_r in Hn. split; [lia | exact Hn].
Qed.

Lemma splice2_length {A} (i : nat) (x y : A) (l : list A) :
  (i < length l)%nat -> length (splice2 i x y l) = S (length l).
Proof.
  intros Hi. unfold splice2.
  rewrite length_app, length_firstn. cbn [length]. rewrite length_skipn. lia.
Qed.

Lemma splice2_concat {A} (x y : list A) (l : list (list A)) :
  forall i,
    (i < length l)%nat ->
    Permutation (x ++ y) (nth i l []) ->
    Permutation (concat (splice2 i x y l)) (concat l).
Proof.
  unfold splice2.
  induction l as [|z l IH]; intros [|i] Hi Hp; cbn in *; try lia.
  - rewrite app_assoc. now apply Permutation_app_tail.
  - apply Permutation_app_head. apply IH; [lia | assumption].
Qed.

Lemma splice2_Forall {A} (P : A -> Prop) (x y : A) (l : list A) :
  forall i, Forall P l -> P x -> P y -> Forall P (splice2 i x y l).
Proof.
  unfold splice2.
  induction l as [|z l IH]; intros [|i] Hl Hx Hy; cbn.
  - auto.
  - auto.
  - inversion Hl; subst. auto.
  - inversion Hl; subst. constructor; [assumption|]. now apply IH.
Qed.

(** What the loop keeps true of [buckets]. *)
Lemma splitLoop_invariant (fuel : nat) (targetColors : Z) :
  forall buckets pixels,
    Forall (fun bk : list Rgb => bk <> []) buckets ->
    Permutation (concat buckets) pixels ->
    (Z.of_nat (length buckets) <= Z.max targetColors 1)%Z ->
    let out := splitLoop fuel targetColors buckets in
    Forall (fun bk : list Rgb => bk <> []) out
    /\ Permutation (concat out) pixels
    /\ (Z.of_nat (length out) <= Z.max targetColors 1)%Z
    /\ (length buckets <= length out)%nat.
Proof.
  induction fuel as [|fuel IH]; intros buckets pixels Hne Hperm Hlen;
    cbn [splitLoop].
  - auto.
  - destruct (Z.of_nat (length buckets) <? targetColors)%Z eqn:Ec; [|auto].
    apply Z.ltb_lt in Ec.
    destruct (largestBucket buckets 0 0 0) as [i m] eqn:El.
    destruct (m <=? 1)%nat eqn:Em; [auto|].
    apply Nat.leb_gt in Em.
    destruct (largestBucket_top _ El Em) as [Hi Hn].
    set (sorted := sortByChannel (findLargestRange (nth i buckets []))
                     (nth i buckets [])).
    assert (Hs : length sorted = m).
    { unfold sorted, sortByChannel. now rewrite sort_length. }
    assert (Hdiv : (1 <= length sorted / 2 < length sorted)%nat).
    { split.
      - apply Nat.div_le_lower_bound; lia.
      - apply Nat.div_lt; lia. }
    specialize (IH (splice2 i (JS.slice_to (length sorted / 2) sorted)
                      (JS.slice_from (length sorted / 2) sorted) buckets)
                   pixels).
    cbn zeta in IH. rewrite splice2_length in IH by assumption.
    destruct IH as (H1 & H2 & H3 & H4).
    + apply splice2_Forall; [assumption | |].
      * intros E. apply (f_equal (@length _)) in E.
        unfold JS.slice_to in E. rewrite length_firstn in E. cbn [length] in E. lia.
      * intros E. apply (f_equal (@length _)) in E.
        unfold JS.slice_from in E. rewrite length_skipn in E. cbn [length] in E. lia.
    + rewrite splice2_concat; [assumption | assumption |].
      unfold JS.slice_to, JS.slice_from. rewrite firstn_skipn.
      apply sort_perm.
    + lia.
    + split; [exact H1 | split; [exact H2 | split; [exact H3 |]]].
      apply Nat.lt_le_incl. exact H4.
Qed.

(** The loop is left by its own condition or by its [break], not because
    the turns ran out. *)
Lemma splitLoop_exits (fuel : nat) (targetColors : Z) :
  forall buckets,
    (targetColors - Z.of_nat (length buckets) <= Z.of_nat fuel)%Z ->
    let out := splitLoop fuel targetColors buckets in
    (targetColors <= Z.of_nat (length out))%Z
    \/ (snd (largestBucket out 0 0 0) <= 1)%nat.
Proof.
  induction fuel as [|fuel IH]; intros buckets Hf; cbn [splitLoop].
  - left. cbn in Hf. lia.
  - destruct (Z.of_nat (length buckets) <? targetColors)%Z eqn:Ec.
    + destruct (largestBucket buckets 0 0 0) as [i m] eqn:El.
      destruct (m <=? 1)%nat eqn:Em.
      * right. rewrite El. cbn. now apply Nat.leb_le.
      * apply Nat.leb_gt in Em.
        destruct (largestBucket_top _ El Em) as [Hi Hn].
        apply IH. rewrite splice2_length by assumption. lia.
    + left. apply Z.ltb_ge in Ec. lia.
Qed.

Lemma bucketColor_population (bk : list Rgb) :
  bk <> [] ->
  exists c, bucketColor bk = Some c
            /\ c.(population) = Z.of_nat (length bk).
Proof.
  intros Hb. unfold bucketColor.
  destruct bk as [|p bk]; [congruence|]. cbn [length Nat.eqb].
  eexists. split; reflexivity.
Qed.

Lemma colors_of_buckets (buckets : list (list Rgb)) :
  Forall (fun bk : list Rgb => bk <> []) buckets ->
  let colors := dropNull (map bucketColor buckets) in
  length colors = length buckets
  /\ fold_right Z.add 0%Z (map population colors)
     = Z.of_nat (length (concat buckets)).
Proof.
  induction 1 as [|bk rest Hb _ IH]; cbn.
  - auto.
  - destruct (bucketColor_population Hb) as (c & Ec & Hc).
    rewrite Ec. cbn. destruct IH as [IH1 IH2].
    rewrite IH1, IH2, Hc, length_app. split; lia.
Qed.

(** C7. For a non-empty pixel list and [K >= 1], [medianCut] returns
    between 1 and [K] swatches, and their populations add up to the
    number of pixels. *)
Theorem medianCut_count_and_population (pixels : list Rgb) (K : Z) :
  pixels <> [] -> (1 <= K)%Z ->
  let colors := medianCut pixels K in
  (1 <= Z.of_nat (length colors) <= K)%Z
  /\ fold_right Z.add 0%Z (map population colors)
     = Z.of_nat (length pixels).
Proof.
  intros Hp HK. unfold medianCut.
  destruct pixels as [|p ps] eqn:E; [congruence|]. rewrite <- E.
  replace (length pixels =? 0)%nat with false
    by (subst pixels; reflexivity).
  destruct (@splitLoop_invariant (Z.to_nat K) K [pixels] pixels)
    as (H1 & H2 & H3 & H4).
  - constructor; [subst; discriminate | constructor].
  - cbn. now rewrite app_nil_r.
  - cbn. lia.
  - destruct (colors_of_buckets H1) as [L S]. cbn zeta.
    rewrite L, S, (Permutation_length H2). cbn in H4. split; lia.
Qed.

Lemma medianCut_count_and_population_witness :
  let pixels := [mkRgb 10 20 30; mkRgb 200 20 30; mkRgb 90 0 7] in
  let colors := medianCut pixels 2 in
  (pixels <> [] /\ (1 <= 2)%Z)
  /\ (1 <= Z.of_nat (length colors) <= 2)%Z
  /\ fold_right Z.add 0%Z (map population colors)
     = Z.of_nat (length pixels).
Proof.
  intros pixels colors.
  split; [split; [discriminate | lia]
         | apply (@medianCut_count_and_population pixels 2);
           [discriminate | lia]].
Defined.

(** ** Near-duplicate removal *)

Lemma closest_bound (color : Rgb) (filtered : list Swatch) :
  forall index minDist closestIndex,
    (closestIndex < index + length filtered)%nat ->
    (closest color filtered index minDist closestIndex
     < index + length filtered)%nat.
Proof.
  induction filtered as [|e rest IH]; intros index minDist ci H;
    cbn [closest length] in *.
  - exact H.
  - destruct (match minDist with
              | Some m => colorDistance color e <? m
              | None => true
              end).
    + replace (index + S (length rest))%nat
        with (S index + length rest)%nat by lia.
      apply IH. lia.
    + replace (index + S (length rest))%nat
        with (S index + length rest)%nat by lia.
      apply IH. lia.
Qed.

(** The index the merge writes to is inside [filtered]. *)
Lemma closest_lt (color : Rgb) (filtered : list Swatch) :
  filtered <> [] ->
  (closest color filtered 0 None 0 < length filtered)%nat.
Proof.
  intros H. apply (@closest_bound color filtered 0%nat None 0%nat).
  destruct filtered; [congruence | cbn; lia].
Qed.

Lemma setNth_length {A} (x : A) (l : list A) :
  forall i, length (setNth i x l) = length l.
Proof.
  induction l as [|y l IH]; intros [|i]; cbn; auto.
Qed.

Lemma dedupStep_fresh (t : Q) (filtered : list Swatch) (color : Swatch) :
  existsb (fun existing : Swatch => colorDistance color existing <? t)
          filtered = false ->
  dedupStep t filtered color = filtered ++ [color].
Proof. intros H. unfold dedupStep. now rewrite H. Qed.

Lemma dedupStep_merge_length (t : Q) (filtered : list Swatch)
    (color : Swatch) :
  existsb (fun existing : Swatch => colorDistance color existing <? t)
          filtered = true ->
  length (dedupStep t filtered color) = length filtered.
Proof.
  intros H. unfold dedupStep. rewrite H. cbn [negb].
  destruct (nth_error filtered (closest color filtered 0 None 0)); [|reflexivity].
  destruct (_ >? _); apply setNth_length.
Qed.

Lemma dedup_fold_length (t : Q) (colors : list Swatch) :
  forall filtered,
    (length (fold_left (dedupStep t) colors filtered)
     <= length filtered + length colors)%nat.
Proof.
  induction colors as [|c colors IH]; intros filtered; cbn [fold_left length].
  - lia.
  - specialize (IH (dedupStep t filtered c)).
    destruct (existsb (fun existing : Swatch => colorDistance c existing <? t)
                filtered) eqn:E.
    + rewrite (dedupStep_merge_length _ _ _ E) in IH. lia.
    + rewrite (dedupStep_fresh _ _ _ E) in *. rewrite length_app in IH.
      cbn [length] in IH. lia.
Qed.

(** On a separated list every colour is pushed. *)
Lemma dedup_fold_separated (t : Q) (colors : list Swatch) :
  forall filtered,
    (forall a c : Swatch, In a filtered -> In c colors ->
                          (colorDistance c a <? t) = false) ->
    separated t colors ->
    fold_left (dedupStep t) colors filtered = filtered ++ colors.
Proof.
  induction colors as [|c colors IH]; intros filtered Hx Hs; cbn [fold_left].
  - now rewrite app_nil_r.
  - inversion Hs as [|? ? Hc Hs']; subst.
    rewrite dedupStep_fresh.
    + rewrite IH; [now rewrite <- app_assoc | | assumption].
      intros a c' Ha Hc'. apply in_app_or in Ha as [Ha | [<- | []]].
      * apply Hx; [assumption | now right].
      * rewrite Forall_forall in Hc. now apply Hc.
    + apply not_true_is_false. intros E.
      apply existsb_exists in E as (a & Ha & E).
      rewrite Hx in E; [discriminate | assumption | now left].
Qed.

(** A run that returns its input has pushed every colour. *)
Lemma dedup_fold_fixed (t : Q) (colors : list Swatch) :
  forall filtered,
    fold_left (dedupStep t) colors filtered = filtered ++ colors ->
    (forall a c : Swatch, In a filtered -> In c colors ->
                          (colorDistance c a <? t) = false)
    /\ separated t colors.
Proof.
  induction colors as [|c colors IH]; intros filtered H; cbn [fold_left] in H.
  - split; [intros a c _ [] | constructor].
  - destruct (existsb (fun existing : Swatch => colorDistance c existing <? t)
                filtered) eqn:E.
    + exfalso.
      pose proof (dedup_fold_length t colors (dedupStep t filtered c)) as L.
      rewrite H, (dedupStep_merge_length _ _ _ E), length_app in L.
      cbn [length] in L. lia.
    + rewrite (dedupStep_fresh _ _ _ E) in H.
      replace (filtered ++ c :: colors) with ((filtered ++ [c]) ++ colors) in H
        by now rewrite <- app_assoc.
      apply IH in H as [Hx Hs]. split.
      * intros a c' Ha [<- | Hc'].
        -- apply not_true_is_false. intros D.
           assert (X : existsb (fun existing : Swatch =>
                                  colorDistance c existing <? t) filtered
                       = true)
             by (apply existsb_exists; eauto).
           congruence.
        -- apply Hx; [apply in_or_app; now left | assumption].
      * constructor; [|assumption].
        apply Forall_forall. intros c' Hc'.
        apply Hx; [apply in_or_app; right; now left | assumption].
Qed.

(** C4, as the code has it.  A second run of [removeDuplicates] returns
    the first run's output exactly when that output is separated: no
    entry within the threshold of an earlier one.  (A merge that swaps in
    the more saturated colour can move an entry next to another, so the
    first output need not be separated.) *)
Theorem removeDuplicates_second_run (xs : list Swatch) (t : Q) :
  removeDuplicates (removeDuplicates xs t) t = removeDuplicates xs t
  <-> separated t (removeDuplicates xs t).
Proof.
  unfold removeDuplicates at 1. split.
  - intros H. now apply (dedup_fold_fixed t _ []).
  - intros H. apply (@dedup_fold_separated t _ []); [|assumption].
    intros a c [].
Qed.

(** C4, as stated, fails: the third colour replaces the first entry and
    lands within 30 of the second. *)
Lemma removeDuplicates_not_idempotent :
  let xs := [ mkSwatch (mkRgb 100 100 100) 1 false false;
              mkSwatch (mkRgb 100 116 100) 1 false false;
              mkSwatch (mkRgb 100 108 100) 1 false false ] in
  removeDuplicates (removeDuplicates xs 30) 30 <> removeDuplicates xs 30.
Proof. vm_compute. discriminate. Qed.

(** ** Vibrant pass *)

Lemma vibrantIsDuplicate_iff (existingPalette : list Swatch) (avg : Swatch) :
  vibrantIsDuplicate existingPalette avg = true
  <-> (exists e : Swatch,
         In e existingPalette /\ colorDistance avg e < 35)
      \/ (exists e : Swatch,
            In e existingPalette
            /\ isSimilarHue (rgbToHsl e.(r) e.(g) e.(b))
                            (rgbToHsl avg.(r) avg.(g) avg.(b)) 25 = true
            /\ (rgbToHsl avg.(r) avg.(g) avg.(b)).(s)
               <= (rgbToHsl e.(r) e.(g) e.(b)).(s) *! JS.lit 1.15).
Proof.
  unfold vibrantIsDuplicate. rewrite existsb_exists. split.
  - intros (e & He & H).
    destruct (colorDistance avg e <? 35) eqn:D.
    + left. exists e. split; [assumption | now apply ltb_lt].
    + right. exists e. split; [assumption|].
      destruct (isSimilarHue _ _ 25); [|discriminate].
      split; [reflexivity | now apply leb_le].
  - intros [(e & He & D) | (e & He & Hh & Hs)]; exists e; (split; [assumption|]).
    + apply ltb_lt in D. now rewrite D.
    + destruct (colorDistance avg e <? 35); [reflexivity|].
      rewrite Hh. now apply leb_le.
Qed.

(** The saturation the program computes is a double. *)
Lemma getSaturation_double (x y z : Z) :
  JS.fl (getSaturation x y z) = getSaturation x y z.
Proof.
  unfold getSaturation. cbv zeta.
  destruct (_ =? _); [reflexivity|].
  destruct (_ >? _); apply fl_idem.
Qed.

(** The last test of a pass: not a duplicate, and saturated enough. *)
Lemma kept_or_discarded (dup : bool) (sat bound : Q) (avg : Swatch)
    (P : Prop) :
  (dup = true <-> P) ->
  ((if negb dup && (sat >? bound) then [avg] else []) = []
   <-> P \/ sat <= bound)
  /\ ((if negb dup && (sat >? bound) then [avg] else []) <> []
      -> (if negb dup && (sat >? bound) then [avg] else []) = [avg]).
Proof.
  intros Hd. destruct dup; cbn [negb andb].
  - split; [|congruence]. split; [intros _ | reflexivity].
    left. now apply Hd.
  - destruct (sat >? bound) eqn:S.
    + split; [|reflexivity]. split; [discriminate|].
      intros [H | H].
      * apply Hd in H. discriminate H.
      * apply gtb_gt in S. exfalso. lra.
    + split; [|congruence]. split; [intros _ | reflexivity].
      right. now apply ltb_ge.
Qed.

(** C8, as the code has it.  The candidate of a hue slice with at least
    five pixels is discarded exactly when some palette entry is at
    distance below 35, or some palette entry lies within 25 degrees of hue
    and the candidate's saturation is at most that entry's times 1.15, or
    the candidate's own saturation is at most 0.35; otherwise exactly the
    candidate is kept.  Hues and saturations are the doubles the program
    computes, and so are the hue difference and the product with 1.15
    ([-!], [*!]); a candidate whose saturation is 7/20 in exact
    arithmetic can therefore be kept ([vibrant_kept_at_the_bounds]). *)
Theorem vibrant_discard_rule (existingPalette : list Swatch)
    (bucket : list HuePixel) :
  (5 <= length bucket)%nat ->
  let avg := vibrantCandidate bucket in
  (vibrantOfBucket existingPalette bucket = []
   <-> (exists e : Swatch,
          In e existingPalette /\ colorDistance avg e < 35)
       \/ (exists e : Swatch,
             In e existingPalette
             /\ isSimilarHue (rgbToHsl e.(r) e.(g) e.(b))
                             (rgbToHsl avg.(r) avg.(g) avg.(b)) 25 = true
             /\ (rgbToHsl avg.(r) avg.(g) avg.(b)).(s)
                <= (rgbToHsl e.(r) e.(g) e.(b)).(s) *! JS.lit 1.15)
       \/ getSaturation avg.(r) avg.(g) avg.(b) <= 0.35)
  /\ (vibrantOfBucket existingPalette bucket <> []
      -> vibrantOfBucket existingPalette bucket = [avg]).
Proof.
  intros Hlen avg.
  assert (E : vibrantOfBucket existingPalette bucket
              = if negb (vibrantIsDuplicate existingPalette avg)
                   && (getSaturation avg.(r) avg.(g) avg.(b) >? JS.lit 0.35)
                then [avg] else []).
  { unfold vibrantOfBucket.
    now replace (length bucket <? 5)%nat with false
      by (symmetry; apply Nat.ltb_ge; exact Hlen). }
  rewrite E. clear E.
  (* at most 0.35, or at most the double nearest to 0.35: the same for a
     double *)
  assert (B : getSaturation avg.(r) avg.(g) avg.(b) <= JS.lit 0.35
              <-> getSaturation avg.(r) avg.(g) avg.(b) <= 0.35).
  { assert (L35 : JS.lit 0.35 <= 0.35)
      by (apply Qle_bool_imp_le; vm_compute; reflexivity).
    split; intros H.
    - generalize dependent (JS.lit 0.35). intros c. lra.
    - apply fl_le in H. now rewrite getSaturation_double in H. }
  pose proof (@kept_or_discarded
                (vibrantIsDuplicate existingPalette avg)
                (getSaturation avg.(r) avg.(g) avg.(b)) (JS.lit 0.35) avg _
                (vibrantIsDuplicate_iff existingPalette avg)) as K.
  generalize dependent (getSaturation avg.(r) avg.(g) avg.(b)).
  generalize dependent (JS.lit 0.35).
  generalize dependent (vibrantIsDuplicate existingPalette avg).
  intros dup bound sat B K. destruct K as [K1 K2].
  split; [|exact K2]. rewrite K1, B. tauto.
Qed.

Lemma vibrant_discard_rule_witness :
  let e := mkSwatch (mkRgb 80 40 40) 1 false false in
  let bucket :=
    repeat (mkHuePixel (mkRgb 166 74 74) (rgbToHsl 166 74 74)
                       (getSaturation 166 74 74)) 5 in
  let avg := vibrantCandidate bucket in
  (5 <= length bucket)%nat
  /\ (vibrantOfBucket [e] bucket = []
      <-> (exists e' : Swatch, In e' [e] /\ colorDistance avg e' < 35)
          \/ (exists e' : Swatch,
                In e' [e]
                /\ isSimilarHue (rgbToHsl e'.(r) e'.(g) e'.(b))
                                (rgbToHsl avg.(r) avg.(g) avg.(b)) 25 = true
                /\ (rgbToHsl avg.(r) avg.(g) avg.(b)).(s)
                   <= (rgbToHsl e'.(r) e'.(g) e'.(b)).(s) *! JS.lit 1.15)
          \/ getSaturation avg.(r) avg.(g) avg.(b) <= 0.35)
  /\ (vibrantOfBucket [e] bucket <> []
      -> vibrantOfBucket [e] bucket = [avg]).
Proof.
  intros e bucket avg.
  assert (H : (5 <= length bucket)%nat) by (cbn; lia).
  split; [exact H | exact (@vibrant_discard_rule [e] bucket H)].
Defined.

(** The rule is the one on doubles.  The candidate (135, 65, 65) has the
    saturation 7/20, computed as 0.35000000000000003, and is kept; the
    candidate (166, 74, 74) has 1.15 times the saturation of the entry
    (80, 40, 40) of its hue, but the product the program computes is
    smaller than the saturation it computes, and the candidate is kept;
    the candidate (150, 70, 70) is discarded on account of that entry. *)
Lemma vibrant_kept_at_the_bounds :
  let e := mkSwatch (mkRgb 80 40 40) 1 false false in
  (0.35 < getSaturation 135 65 65
   /\ extractVibrantColors (repeat (mkRgb 135 65 65) 5) []
      = [mkSwatch (mkRgb 135 65 65) 5 true false])
  /\ ((rgbToHsl 80 40 40).(s) *! JS.lit 1.15 < (rgbToHsl 166 74 74).(s)
      /\ extractVibrantColors (repeat (mkRgb 166 74 74) 5) [e]
         = [mkSwatch (mkRgb 166 74 74) 5 true false])
  /\ extractVibrantColors (repeat (mkRgb 150 70 70) 5) [e] = [].
Proof.
  cbv zeta. split; [split|split; [split|]].
  - apply Qlt_alt. vm_compute. reflexivity.
  - vm_compute. reflexivity.
  - apply Qlt_alt. vm_compute. reflexivity.
  - vm_compute. reflexivity.
  - vm_compute. reflexivity.
Qed.

(** C8, as stated, fails: the palette entry has the candidate's hue and
    85.5% of its saturation, yet the candidate is kept, because 1.15 times
    the entry's saturation stays below the candidate's. *)
Lemma vibrant_85_percent_kept :
  let e := mkSwatch (mkRgb 157 43 43) 10 false false in
  let avg := mkSwatch (mkRgb 200 40 40) 5 true false in
  (isSimilarHue (rgbToHsl e.(r) e.(g) e.(b))
                (rgbToHsl avg.(r) avg.(g) avg.(b)) 25 = true
   /\ 0.85 * getSaturation avg.(r) avg.(g) avg.(b)
      <= getSaturation e.(r) e.(g) e.(b))
  /\ extractVibrantColors (repeat (mkRgb 200 40 40) 5) [e] = [avg].
Proof.
  cbv zeta. split; [split|].
  - vm_compute. reflexivity.
  - apply Qle_bool_imp_le. vm_compute. reflexivity.
  - vm_compute. reflexivity.
Qed.

(** ** Luminance and contrast *)

Lemma iroot_bits_ge (k n : Z) (bits : nat) :
  forall acc, (acc <= JS.iroot_bits k n bits acc)%Z.
Proof.
  induction bits as [|bits IH]; intros acc; cbn [JS.iroot_bits].
  - lia.
  - cbv zeta.
    assert (0 <= 2 ^ Z.of_nat bits)%Z by (apply Z.pow_nonneg; lia).
    destruct (_ <=? n)%Z; etransitivity; [| apply IH | | apply IH]; lia.
Qed.

(** The two rounded functions are what their definitions say. *)

Lemma iroot_bits_spec (k n : Z) (bits : nat) :
  forall acc,
    (acc ^ k <= n < (acc + 2 ^ Z.of_nat bits) ^ k)%Z ->
    (JS.iroot_bits k n bits acc ^ k <= n
     < (JS.iroot_bits k n bits acc + 1) ^ k)%Z.
Proof.
  induction bits as [|bits IH]; intros acc H; cbn [JS.iroot_bits].
  - exact H.
  - cbv zeta. rewrite Nat2Z.inj_succ, Z.pow_succ_r in H by lia.
    destruct ((acc + 2 ^ Z.of_nat bits) ^ k <=? n)%Z eqn:E.
    + apply Z.leb_le in E. apply IH.
      replace (acc + 2 ^ Z.of_nat bits + 2 ^ Z.of_nat bits)%Z
        with (acc + 2 * 2 ^ Z.of_nat bits)%Z by lia.
      lia.
    + apply Z.leb_gt in E. apply IH. lia.
Qed.

Lemma iroot_spec (k n : Z) :
  (0 < k)%Z -> (0 <= n)%Z ->
  (JS.iroot k n ^ k <= n < (JS.iroot k n + 1) ^ k)%Z.
Proof.
  intros Hk Hn. unfold JS.iroot. apply iroot_bits_spec.
  rewrite Z.pow_0_l by lia. split; [exact Hn|].
  assert (Hq : (0 <= Z.log2 n / k)%Z)
    by (apply Z.div_pos; [apply Z.log2_nonneg | lia]).
  rewrite Z.add_0_l, Nat2Z.inj_succ, Z2Nat.id by exact Hq.
  rewrite <- Z.pow_mul_r by lia.
  destruct (Z.eq_dec n 0) as [-> | Hz].
  - apply Z.pow_pos_nonneg; lia.
  - destruct (Z.log2_spec n) as [_ Hlt]; [lia|].
    eapply Z.lt_le_trans; [exact Hlt|].
    apply Z.pow_le_mono_r; [lia|].
    pose proof (Z.mul_succ_div_gt (Z.log2 n) k Hk). lia.
Qed.

Lemma floor_div_bounds (m d : Z) :
  (0 < d)%Z -> ((m / d) * d <= m < (m / d + 1) * d)%Z.
Proof.
  intros Hd. pose proof (Z.div_mod m d). pose proof (Z.mod_pos_bound m d Hd).
  nia.
Qed.

(** [Math.pow(x, 2.4)] of the embedding is [y / 2^64] with
    [(y / 2^64)^5 <= x^12 < ((y + 1) / 2^64)^5]. *)
Lemma Math_pow_2_4_spec (x : Q) :
  0 < x ->
  exists y : Z,
    JS.Math_pow_2_4 x == inject_Z y / inject_Z (2 ^ 64)
    /\ (y ^ 5 * Zpos (Qden x) ^ 12 <= Qnum x ^ 12 * 2 ^ 320
        < (y + 1) ^ 5 * Zpos (Qden x) ^ 12)%Z.
Proof.
  intros Hx. unfold JS.Math_pow_2_4.
  replace (Qle_bool x 0) with false.
  2:{ symmetry. apply not_true_iff_false. rewrite Qle_bool_iff.
      now apply Qlt_not_le. }
  set (D := (Zpos (Qden x) ^ 12)%Z).
  set (M := (Qnum x ^ 12 * 2 ^ (5 * JS.prec))%Z).
  assert (HD : (0 < D)%Z) by (apply Z.pow_pos_nonneg; lia).
  assert (HM : (0 <= M)%Z).
  { apply Z.mul_nonneg_nonneg; [|apply Z.pow_nonneg; lia].
    apply Z.pow_nonneg. unfold Qlt in Hx. cbn in Hx. lia. }
  exists (JS.iroot 5 (M / D)). split.
  - rewrite Qred_correct. apply Qmake_Qdiv.
  - destruct (@iroot_spec 5 (M / D)) as [R1 R2];
      [lia | now apply Z.div_pos |].
    destruct (@floor_div_bounds M D HD) as [F1 F2].
    change (2 ^ 320)%Z with (2 ^ (5 * JS.prec))%Z. fold M.
    split.
    + eapply Z.le_trans; [|exact F1]. apply Z.mul_le_mono_nonneg_r; lia.
    + eapply Z.lt_le_trans; [exact F2|].
      apply Z.mul_le_mono_nonneg_r; lia.
Qed.

Lemma Math_sqrt_spec (x : Q) :
  0 < x ->
  exists y : Z,
    JS.Math_sqrt x == inject_Z y / inject_Z (2 ^ 64)
    /\ (y ^ 2 * Zpos (Qden x) <= Qnum x * 2 ^ 128
        < (y + 1) ^ 2 * Zpos (Qden x))%Z.
Proof.
  intros Hx. unfold JS.Math_sqrt.
  replace (Qle_bool x 0) with false.
  2:{ symmetry. apply not_true_iff_false. rewrite Qle_bool_iff.
      now apply Qlt_not_le. }
  set (M := (Qnum x * 2 ^ (2 * JS.prec))%Z).
  assert (HM : (0 <= M)%Z).
  { apply Z.mul_nonneg_nonneg; [|apply Z.pow_nonneg; lia].
    unfold Qlt in Hx. cbn in Hx. lia. }
  exists (Z.sqrt (M / Zpos (Qden x))). split.
  - rewrite Qred_correct. apply Qmake_Qdiv.
  - destruct (Z.sqrt_spec (M / Zpos (Qden x))) as [R1 R2];
      [apply Z.div_pos; lia|].
    destruct (@floor_div_bounds M (Zpos (Qden x))) as [F1 F2]; [lia|].
    change (2 ^ 128)%Z with (2 ^ (2 * JS.prec))%Z. fold M.
    rewrite !Z.pow_2_r. unfold Z.succ in R2.
    split.
    + eapply Z.le_trans; [|exact F1]. apply Z.mul_le_mono_nonneg_r; lia.
    + eapply Z.lt_le_trans; [exact F2|].
      apply Z.mul_le_mono_nonneg_r; lia.
Qed.

Lemma Math_pow_2_4_nonneg (x : Q) : 0 <= JS.Math_pow_2_4 x.
Proof.
  unfold JS.Math_pow_2_4. destruct (Qle_bool x 0).
  - apply Qle_refl.
  - rewrite Qred_correct. unfold Qle. cbn [Qnum Qden].
    rewrite Z.mul_1_r. cbn [Z.mul]. apply (@iroot_bits_ge _ _ _ 0%Z).
Qed.

Lemma linearize_nonneg (c : Z) : (0 <= c)%Z -> 0 <= linearize c.
Proof.
  intros Hc. unfold linearize. cbv zeta.
  destruct (_ <=? 0.03928).
  - assert (0 <= inject_Z c) by (unfold Qle; cbn; lia).
    apply Qle_shift_div_l; [reflexivity|].
    apply Qle_shift_div_l; [reflexivity|]. lra.
  - apply Math_pow_2_4_nonneg.
Qed.

Lemma lum_nonneg (c : Rgb) : rgb_ok c -> 0 <= lum c.
Proof.
  intros (Hr & Hg & Hb). unfold lum, getLuminance, channel_ok in *.
  assert (0 <= linearize c.(r)) by (apply linearize_nonneg; lia).
  assert (0 <= linearize c.(g)) by (apply linearize_nonneg; lia).
  assert (0 <= linearize c.(b)) by (apply linearize_nonneg; lia).
  lra.
Qed.

Lemma getContrastRatio_lum (a c : Rgb) :
  getContrastRatio a c
  = (Qmax (lum a) (lum c) + 0.05) / (Qmin (lum a) (lum c) + 0.05).
Proof. reflexivity. Qed.

(** Contrast of a darker colour [a] against a lighter colour [c], from
    bounds on the two luminances. *)
Lemma contrast_from_bounds (q lo hi : Q) (a c : Rgb) :
  0 <= lum a -> lum a <= lo -> hi <= lum c -> lo <= hi ->
  0 <= q -> q * (lo + 0.05) <= hi + 0.05 ->
  q <= getContrastRatio a c /\ q <= getContrastRatio c a.
Proof.
  intros H0 Hlo Hhi Hlh Hq Hb.
  assert (Hle : lum a <= lum c) by lra.
  assert (Hk : q * (lum a + 0.05) <= lum c + 0.05).
  { apply Qle_trans with (q * (lo + 0.05)); [nra | lra]. }
  rewrite !getContrastRatio_lum. split.
  - rewrite (Q.max_r _ _ Hle), (Q.min_l _ _ Hle).
    apply Qle_shift_div_l; [lra | exact Hk].
  - rewrite (Q.max_l _ _ Hle), (Q.min_r _ _ Hle).
    apply Qle_shift_div_l; [lra | exact Hk].
Qed.

Lemma lum_white : lum white == 1.
Proof. apply Qeq_bool_eq. vm_compute. reflexivity. Qed.

Lemma lum_black : lum black == 0.
Proof. apply Qeq_bool_eq. vm_compute. reflexivity. Qed.

(** Against white or against black, one of the two contrasts reaches
    4.5: the last [else] of the [onPrimary] choice is never taken. *)
Lemma white_or_black (c : Rgb) :
  rgb_ok c ->
  (getContrastRatio c white >=? 4.5) = false ->
  (getContrastRatio c black >=? 4.5) = true.
Proof.
  intros Hc Hw. pose proof (lum_nonneg Hc) as H0.
  apply not_true_iff_false in Hw. rewrite geb_ge in Hw.
  apply Qnot_le_lt in Hw. apply geb_ge.
  rewrite getContrastRatio_lum in *. rewrite lum_white in Hw.
  rewrite lum_black.
  rewrite (Q.max_l _ _ H0), (Q.min_r _ _ H0).
  apply Qle_shift_div_l; [reflexivity|].
  destruct (Qlt_le_dec 1 (lum c)) as [H1 | H1]; [lra|].
  rewrite (Q.max_r _ _ H1), (Q.min_l _ _ H1) in Hw.
  destruct (Qlt_le_dec (lum c) 0.175) as [H2 | H2]; [|lra].
  exfalso. apply (Qlt_not_le _ _ Hw).
  apply Qle_shift_div_l; lra.
Qed.

(** ** Parsing hex strings *)

Lemma hexValue_range (c : ascii) (d : Z) :
  hexValue c = Some d -> (0 <= d <= 15)%Z.
Proof.
  intros H. destruct c as [[] [] [] [] [] [] [] []]; vm_compute in H;
    try discriminate H; injection H as <-; lia.
Qed.

Lemma parsePair_range (c1 c2 : ascii) (v : Z) :
  parsePair c1 c2 = Some v -> channel_ok v.
Proof.
  unfold parsePair, JS.bind.
  destruct (hexValue c1) as [d1|] eqn:E1; [|discriminate].
  destruct (hexValue c2) as [d2|] eqn:E2; [|discriminate].
  intros E. apply hexValue_range in E1, E2.
  apply (f_equal (fun o => match o with Some x => x | None => 0%Z end)) in E.
  cbv beta iota in E. unfold channel_ok. lia.
Qed.

(** The optional [#] of the pattern. *)
Lemma strip_hash (a : ascii) (rest : string) :
  match String a rest with
  | String "#" tail => tail
  | _ => String a rest
  end = if Ascii.eqb a "#" then rest else String a rest.
Proof.
  destruct a as [[] [] [] [] [] [] [] []]; reflexivity.
Qed.

Lemma hexToRgb_ok (hex : string) (c : Rgb) :
  hexToRgb hex = Some c -> rgb_ok c.
Proof.
  unfold hexToRgb.
  destruct (match hex with String "#" rest => rest | _ => hex end)
    as [|c1 [|c2 [|c3 [|c4 [|c5 [|c6 [|]]]]]]]; try discriminate.
  unfold JS.bind.
  destruct (parsePair c1 c2) eqn:E1; [|discriminate].
  destruct (parsePair c3 c4) eqn:E2; [|discriminate].
  destruct (parsePair c5 c6) eqn:E3; [|discriminate].
  intros [= <-]. unfold rgb_ok. cbn [r g b].
  repeat split; eapply parsePair_range; eassumption.
Qed.

Lemma hexToRgb_truthy (hex : string) (c : Rgb) :
  hexToRgb hex = Some c -> JS.truthy hex = true.
Proof. destruct hex; [discriminate | reflexivity]. Qed.

Lemma lowerChar_hexValue (c : ascii) :
  hexValue (JS.lowerChar c) = hexValue c.
Proof. destruct c as [[] [] [] [] [] [] [] []]; reflexivity. Qed.

Lemma lowerChar_hash (c : ascii) :
  Ascii.eqb (JS.lowerChar c) "#" = Ascii.eqb c "#".
Proof. destruct c as [[] [] [] [] [] [] [] []]; reflexivity. Qed.

Lemma lowerChar_parsePair (c1 c2 : ascii) :
  parsePair (JS.lowerChar c1) (JS.lowerChar c2) = parsePair c1 c2.
Proof. unfold parsePair. now rewrite !lowerChar_hexValue. Qed.

Lemma hexToRgb_body_lower (body : string) :
  match JS.toLowerCase body with
  | String c1 (String c2 (String c3 (String c4 (String c5 (String c6
      EmptyString))))) =>
      r <- parsePair c1 c2 ;; g <- parsePair c3 c4 ;; b <- parsePair c5 c6 ;;
      Some (mkRgb r g b)
  | _ => None
  end
  = match body with
    | String c1 (String c2 (String c3 (String c4 (String c5 (String c6
        EmptyString))))) =>
        r <- parsePair c1 c2 ;; g <- parsePair c3 c4 ;; b <- parsePair c5 c6 ;;
        Some (mkRgb r g b)
    | _ => None
    end.
Proof.
  destruct body as [|c1 [|c2 [|c3 [|c4 [|c5 [|c6 [|]]]]]]];
    cbn [JS.toLowerCase]; try reflexivity.
  now rewrite !lowerChar_parsePair.
Qed.

(** The pattern is case-insensitive. *)
Lemma hexToRgb_lower (hex : string) :
  hexToRgb (JS.toLowerCase hex) = hexToRgb hex.
Proof.
  unfold hexToRgb. destruct hex as [|a rest]; [reflexivity|].
  cbn [JS.toLowerCase]. rewrite !strip_hash, lowerChar_hash.
  destruct (Ascii.eqb a "#").
  - apply hexToRgb_body_lower.
  - apply (hexToRgb_body_lower (String a rest)).
Qed.

(** Two strings equal up to case parse alike. *)
Lemma hexToRgb_same_lower (hex1 hex2 : string) :
  JS.toLowerCase hex1 = JS.toLowerCase hex2 ->
  hexToRgb hex1 = hexToRgb hex2.
Proof.
  intros H. rewrite <- (hexToRgb_lower hex1), H. apply hexToRgb_lower.
Qed.

(** ** The closures of [generateTokens] *)

Lemma rgb_eta (c : Rgb) : mkRgb c.(r) c.(g) c.(b) = c.
Proof. now destruct c. Qed.

Lemma analyze_coherent (c : Swatch) : rgb_ok c -> coherent (analyze c).
Proof.
  intros H. split; [exact H|]. cbn.
  destruct H as (Hr & Hg & Hb). now apply rgbToHex_hexToRgb.
Qed.

Lemma analyzed_coherent (palette : list Swatch) :
  palette_ok palette -> Forall coherent (map analyze palette).
Proof.
  intros H. apply Forall_map. eapply Forall_impl; [|exact H].
  intros c [Hc _]. now apply analyze_coherent.
Qed.

Lemma ofRgb_coherent (c : Rgb) (hex : string) :
  hexToRgb hex = Some c -> coherent (ofRgb c hex).
Proof.
  intros H. split; cbn.
  - eapply hexToRgb_ok, H.
  - now rewrite rgb_eta.
Qed.

Lemma coherent_valid (a : Analyzed) : coherent a -> validHex a.(hex).
Proof. intros [_ H]. unfold validHex. now rewrite H. Qed.

Lemma coherent_hex_lower (palette : list Swatch) (a : Analyzed) :
  palette_ok palette -> In a (map analyze palette) ->
  JS.toLowerCase a.(hex) = a.(hex).
Proof.
  intros Hp Ha. apply in_map_iff in Ha as (c & <- & Hc).
  unfold palette_ok in Hp. rewrite Forall_forall in Hp.
  destruct (Hp c Hc) as [(Hr & Hg & Hb) _]. cbn.
  now apply rgbToHex_lower.
Qed.

Lemma findBest_In (analyzed : list Analyzed) (f : Analyzed -> bool)
    (c : Analyzed) :
  findBest analyzed f = Some c -> In c analyzed /\ f c = true.
Proof.
  unfold findBest. destruct (_ =? 0)%nat; [discriminate|].
  intros H. apply sort_head_In in H. now apply filter_In in H.
Qed.

Lemma resolveLocked_coherent (analyzed : list Analyzed) (lock : string)
    (c : Analyzed) :
  Forall coherent analyzed ->
  resolveLocked analyzed lock = Some c -> coherent c.
Proof.
  intros Ha. unfold resolveLocked.
  destruct (find _ analyzed) as [x|] eqn:F.
  - intros [= <-]. apply find_some in F as [F _].
    rewrite Forall_forall in Ha. now apply Ha.
  - destruct (hexToRgb lock) as [c0|] eqn:P; [|discriminate].
    intros [= <-]. now apply ofRgb_coherent.
Qed.

(** A lock that does not parse resolves to nothing. *)
Lemma resolveLocked_unparseable (analyzed : list Analyzed) (lock : string) :
  Forall coherent analyzed ->
  hexToRgb lock = None ->
  resolveLocked analyzed lock = None.
Proof.
  intros Ha P. unfold resolveLocked. rewrite P.
  destruct (find _ analyzed) as [x|] eqn:F; [|reflexivity].
  apply find_some in F as [F E]. apply String.eqb_eq in E.
  rewrite Forall_forall in Ha. destruct (Ha x F) as [_ Hx].
  rewrite <- (hexToRgb_same_lower _ _ E), Hx in P. discriminate.
Qed.

(** A lock that parses resolves to a colour of that hex, up to case. *)
Lemma resolveLocked_parseable (analyzed : list Analyzed) (lock : string)
    (c0 : Rgb) :
  hexToRgb lock = Some c0 ->
  exists c, resolveLocked analyzed lock = Some c
            /\ JS.toLowerCase c.(hex) = JS.toLowerCase lock
            /\ (c.(hex) = lock \/ In c analyzed).
Proof.
  intros P. unfold resolveLocked. rewrite P.
  destruct (find _ analyzed) as [x|] eqn:F.
  - apply find_some in F as [F E]. apply String.eqb_eq in E.
    exists x. auto.
  - eexists. split; [reflexivity|]. cbn. auto.
Qed.

Lemma isSet_parseable (lock : string) (c : Rgb) :
  hexToRgb lock = Some c -> isSet (Some lock) = Some lock.
Proof.
  intros H. unfold isSet. now rewrite (hexToRgb_truthy _ H).
Qed.

Lemma ensureContrast_cases (candidateHex : option string) (bgRgb : Rgb)
    (minContrast : Q) (fl fd res : string) :
  ensureContrast candidateHex bgRgb minContrast fl fd = Some res ->
  (candidateHex = Some res /\ contrastAtLeast minContrast bgRgb res)
  \/ res = fl \/ res = fd.
Proof.
  unfold ensureContrast.
  assert (F : forall res,
    (lightRgb <- hexToRgb fl ;; darkRgb <- hexToRgb fd ;;
     (if getContrastRatio lightRgb bgRgb >=? minContrast then Some fl
      else if getContrastRatio darkRgb bgRgb >=? minContrast then Some fd
      else Some (if getContrastRatio lightRgb bgRgb
                    >? getContrastRatio darkRgb bgRgb then fl else fd)))
    = Some res -> res = fl \/ res = fd).
  { intros res0. unfold JS.bind.
    destruct (hexToRgb fl); [|discriminate].
    destruct (hexToRgb fd); [|discriminate].
    repeat destruct (_ : bool); intros [= <-]; auto. }
  destruct candidateHex as [candidate|]; [|intros H; right; now apply F].
  destruct (JS.truthy candidate); [|intros H; right; now apply F].
  unfold JS.bind at 1.
  destruct (hexToRgb candidate) as [cr|] eqn:P; [|discriminate].
  destruct (getContrastRatio cr bgRgb >=? minContrast) eqn:C.
  - intros [= <-]. left. split; [reflexivity|].
    exists cr. split; [assumption | now apply geb_ge].
  - intros H. right. now apply F.
Qed.

Lemma ensureContrast_total (candidateHex : option string) (bgRgb : Rgb)
    (minContrast : Q) (fl fd : string) :
  (forall candidate, candidateHex = Some candidate -> validHex candidate) ->
  validHex fl -> validHex fd ->
  exists res, ensureContrast candidateHex bgRgb minContrast fl fd = Some res.
Proof.
  intros Hc Hl Hd. unfold ensureContrast, validHex, JS.bind in *.
  destruct (hexToRgb fl); [|congruence].
  destruct (hexToRgb fd); [|congruence].
  destruct candidateHex as [candidate|].
  - specialize (Hc candidate eq_refl).
    destruct (hexToRgb candidate); [|congruence].
    repeat destruct (_ : bool); eauto.
  - repeat destruct (_ : bool); eauto.
Qed.

(** The guarantee: when the first fallback reaches the minimum, so does
    the result. *)
Lemma ensureContrast_guarantee (candidateHex : option string) (bgRgb : Rgb)
    (minContrast : Q) (fl fd res : string) :
  contrastAtLeast minContrast bgRgb fl ->
  ensureContrast candidateHex bgRgb minContrast fl fd = Some res ->
  contrastAtLeast minContrast bgRgb res.
Proof.
  intros (lr & Pl & Cl) H.
  assert (F : forall res,
    (lightRgb <- hexToRgb fl ;; darkRgb <- hexToRgb fd ;;
     (if getContrastRatio lightRgb bgRgb >=? minContrast then Some fl
      else if getContrastRatio darkRgb bgRgb >=? minContrast then Some fd
      else Some (if getContrastRatio lightRgb bgRgb
                    >? getContrastRatio darkRgb bgRgb then fl else fd)))
    = Some res -> contrastAtLeast minContrast bgRgb res).
  { intros res0. unfold JS.bind. rewrite Pl.
    destruct (hexToRgb fd); [|discriminate].
    apply geb_ge in Cl. rewrite Cl. intros [= <-]. exists lr.
    split; [assumption | now apply geb_ge]. }
  unfold ensureContrast in H.
  destruct candidateHex as [candidate|]; [|now apply F].
  destruct (JS.truthy candidate); [|now apply F].
  unfold JS.bind at 1 in H.
  destruct (hexToRgb candidate) as [cr|] eqn:P; [|discriminate].
  destruct (getContrastRatio cr bgRgb >=? minContrast) eqn:C.
  - injection H as <-. exists cr. split; [assumption | now apply geb_ge].
  - now apply F.
Qed.

Lemma contrastAtLeast_valid (q : Q) (c : Rgb) (token : string) :
  contrastAtLeast q c token -> validHex token.
Proof. intros (x & P & _). unfold validHex. now rewrite P. Qed.

Lemma analyzed_luminance (palette : list Swatch) (x : Analyzed) :
  In x (map analyze palette) -> x.(luminance) = lum x.
Proof. intros H. apply in_map_iff in H as (c & <- & _). reflexivity. Qed.

Lemma useColor_valid (color : option Analyzed) (fallbackHex : string) :
  (forall c, color = Some c -> coherent c) ->
  validHex fallbackHex ->
  validHex (useColor color fallbackHex).
Proof.
  intros Hc Hf. destruct color as [c|]; cbn; [|assumption].
  apply coherent_valid, Hc. reflexivity.
Qed.

Lemma validHex_luminance (hex : string) :
  validHex hex -> exists q, hexLuminance hex = Some q.
Proof.
  unfold validHex, hexLuminance, JS.bind. intros H.
  destruct (hexToRgb hex); [eauto | congruence].
Qed.

Lemma validHex_luminance_or (hex : string) (q0 : Q) :
  validHex hex ->
  exists q, (if JS.truthy hex then hexLuminance hex else Some q0) = Some q.
Proof.
  intros H. destruct (JS.truthy hex); [now apply validHex_luminance | eauto].
Qed.

Lemma orElse_valid (hex fallbackHex : string) :
  validHex hex -> orElse hex fallbackHex = hex.
Proof.
  unfold validHex, orElse. intros H.
  destruct (hexToRgb hex) eqn:P; [|congruence].
  now rewrite (hexToRgb_truthy _ P).
Qed.

Lemma scored_In (f : Analyzed -> Scored) (p : Analyzed -> bool)
    (analyzed : list Analyzed) (x : Scored) :
  In x (sortByScore (map f (List.filter p analyzed))) ->
  exists c, In c analyzed /\ p c = true /\ x = f c.
Proof.
  unfold sortByScore. rewrite sort_In, in_map_iff.
  intros (c & <- & H). apply filter_In in H as [H1 H2]. eauto.
Qed.

Lemma findMostVibrantVariant_ok (color : Rgb) (palette : list Swatch) :
  rgb_ok color -> palette_ok palette ->
  rgb_ok (findMostVibrantVariant color palette).
Proof.
  intros Hc Hp. unfold findMostVibrantVariant.
  set (step := fun (acc : Swatch * Q) (p : Swatch) => _).
  assert (G : forall (ps : list Swatch) (acc : Swatch * Q),
             Forall swatch_ok ps -> rgb_ok (fst acc) ->
             rgb_ok (fst (fold_left step ps acc))).
  { induction ps as [|p ps IH]; intros acc Hl Ha.
    - exact Ha.
    - inversion Hl as [|? ? Hp0 Hl']; subst. destruct Hp0 as [Hp0 _].
      rewrite fold_left_cons. apply IH; [assumption|].
      unfold step. destruct (_ && _); [exact Hp0 | exact Ha]. }
  apply G; [exact Hp | exact Hc].
Qed.

Lemma bind_ext {A B} (m : option A) (k1 k2 : A -> option B) :
  (forall a, m = Some a -> k1 a = k2 a) -> JS.bind m k1 = JS.bind m k2.
Proof. intros H. destruct m; cbn; auto. Qed.

(** ** The two modes, stage by stage *)

Section TokenStages.

Variable Math_log : Q -> Q.
Variable palette : list Swatch.
Hypothesis palette_fine : palette_ok palette.

Lemma analyzed_In_coherent (c : Analyzed) : In c (map analyze palette) -> coherent c.
Proof.
  pose proof (analyzed_coherent palette_fine) as H.
  rewrite Forall_forall in H. apply H.
Qed.

Lemma lightBgCandidate_coherent (lock : option string) (c : Analyzed) :
  lightBgCandidate (map analyze palette) lock = Some c -> coherent c.
Proof.
  unfold lightBgCandidate. destruct (isSet lock).
  - apply resolveLocked_coherent, analyzed_coherent, palette_fine.
  - intros H. apply findBest_In in H as [H _]. now apply analyzed_In_coherent.
Qed.

Lemma lightSurface_spec (bgc : option Analyzed) (bg0 : string) :
  exists c, hexToRgb (lightSurface (map analyze palette) bgc bg0) = Some c
            /\ rgb_ok c /\ 0.85 < lum c.
Proof.
  assert (W : exists c, hexToRgb "#ffffff" = Some c
                        /\ rgb_ok c /\ 0.85 < lum c).
  { exists white. split; [reflexivity|]. split.
    - unfold rgb_ok, channel_ok. cbn. lia.
    - rewrite lum_white. reflexivity. }
  unfold lightSurface.
  destruct (findBest (map analyze palette) _) as [x|] eqn:F; cbn [useColor].
  - destruct (String.eqb x.(hex) bg0); [exact W|].
    apply findBest_In in F as [Hx Hf].
    destruct (analyzed_In_coherent _ Hx) as [Hok Hhex].
    exists (mkRgb x.(r) x.(g) x.(b)). split; [assumption|].
    rewrite rgb_eta. split; [assumption|].
    apply andb_prop in Hf as [Hf _]. apply andb_prop in Hf as [Hf _].
    apply gtb_gt in Hf. now rewrite (analyzed_luminance _ _ Hx) in Hf.
  - destruct (String.eqb _ bg0); exact W.
Qed.

Lemma lightBorder_valid (q : Q) (bg0 surface0 : string) :
  validHex (lightBorder (map analyze palette) q bg0 surface0).
Proof.
  unfold lightBorder. apply useColor_valid; [|discriminate].
  intros c H. apply findBest_In in H as [H _]. now apply analyzed_In_coherent.
Qed.

(** A dark fallback against a light surface. *)
Lemma dark_on_light (token : string) (c surfaceRgb : Rgb) :
  hexToRgb token = Some c -> lum c <= 0.15 -> 0.85 < lum surfaceRgb ->
  contrastAtLeast 4.5 surfaceRgb token.
Proof.
  intros P Hc Hs. exists c. split; [assumption|].
  apply (@contrast_from_bounds 4.5 0.15 0.85 c surfaceRgb); try lra.
  apply lum_nonneg. eapply hexToRgb_ok, P.
Qed.

Lemma candidate_hex_valid (f : Analyzed -> Scored) (p : Analyzed -> bool)
    (o : option Scored) (hex0 : string) :
  option_map (fun c : Scored => c.(hex)) o = Some hex0 ->
  (forall x, o = Some x ->
             In x (sortByScore (map f (List.filter p (map analyze palette))))) ->
  (forall c, coherent c -> coherent (f c)) ->
  validHex hex0.
Proof.
  intros H Ho Hf. destruct o as [x|]; [|discriminate].
  injection H as <-. destruct (scored_In _ _ _ _ (Ho x eq_refl))
    as (c & Hc & _ & ->).
  apply coherent_valid, Hf. now apply analyzed_In_coherent.
Qed.

Lemma lightHeadingText_spec (surfaceRgb : Rgb) :
  0.85 < lum surfaceRgb ->
  exists heading0 text0,
    lightHeadingText (map analyze palette) (Some surfaceRgb) = Some (heading0, text0)
    /\ heading0 <> text0
    /\ contrastAtLeast 4.5 surfaceRgb heading0
    /\ contrastAtLeast 4.5 surfaceRgb text0.
Proof.
  intros Hs.
  assert (F1 : contrastAtLeast 4.5 surfaceRgb "#1a1a1a").
  { apply (@dark_on_light _ (mkRgb 26 26 26)); [reflexivity | | exact Hs].
    apply Qle_bool_imp_le. vm_compute. reflexivity. }
  assert (F2 : contrastAtLeast 4.5 surfaceRgb "#333333").
  { apply (@dark_on_light _ (mkRgb 51 51 51)); [reflexivity | | exact Hs].
    apply Qle_bool_imp_le. vm_compute. reflexivity. }
  assert (F3 : contrastAtLeast 4.5 surfaceRgb "#444444").
  { apply (@dark_on_light _ (mkRgb 68 68 68)); [reflexivity | | exact Hs].
    apply Qle_bool_imp_le. vm_compute. reflexivity. }
  unfold lightHeadingText. cbn [rgbOr].
  set (candidates := lightHeadingCandidates (map analyze palette) (Some surfaceRgb)).
  destruct (@ensureContrast_total (firstHex candidates) surfaceRgb 4.5
              "#1a1a1a" "#000000") as [h0 Eh].
  { intros hex0 H. unfold firstHex in H.
    eapply candidate_hex_valid;
      [exact H | intros x Hx; eapply nth_error_In, Hx
      | intros c Hc; exact Hc]. }
  { discriminate. } { discriminate. }
  rewrite Eh. cbn [JS.bind].
  pose proof (ensureContrast_guarantee _ _ F1 Eh) as Gh.
  set (textCandidate := match find _ candidates with
                        | Some c => Some c
                        | None => nth_error candidates 0
                        end).
  destruct (@ensureContrast_total
              (option_map (fun c : Scored => c.(hex)) textCandidate)
              surfaceRgb 4.5 "#333333" "#111111") as [t0 Et].
  { intros hex0 H.
    eapply candidate_hex_valid; [exact H | |].
    - intros x Hx. unfold textCandidate in Hx.
      destruct (find _ candidates) eqn:Fd.
      + injection Hx as <-. apply find_some in Fd as [Fd _]. exact Fd.
      + eapply nth_error_In, Hx.
    - intros c Hc. exact Hc. }
  { discriminate. } { discriminate. }
  rewrite Et. cbn [JS.bind].
  pose proof (ensureContrast_guarantee _ _ F2 Et) as Gt.
  pose proof (contrastAtLeast_valid Gh) as Vh.
  pose proof (contrastAtLeast_valid Gt) as Vt.
  destruct (validHex_luminance Vh) as [lh Lh].
  destruct (validHex_luminance Vt) as [lt Lt].
  rewrite Lh, Lt.
  destruct (JS.truthy t0 && JS.truthy h0); cbn [JS.bind].
  - destruct (lt <? lh); cbn [JS.bind].
    + destruct (String.eqb t0 h0) eqn:E.
      * eexists _, _. split; [reflexivity|]. split; [discriminate | auto].
      * apply String.eqb_neq in E.
        eexists _, _. split; [reflexivity|]. auto.
    + destruct (String.eqb h0 t0) eqn:E.
      * eexists _, _. split; [reflexivity|]. split; [discriminate | auto].
      * apply String.eqb_neq in E.
        eexists _, _. split; [reflexivity|]. auto.
  - destruct (String.eqb h0 t0) eqn:E.
    + eexists _, _. split; [reflexivity|]. split; [discriminate | auto].
    + apply String.eqb_neq in E.
      eexists _, _. split; [reflexivity|]. auto.
Qed.

Lemma lightMutedText_spec (surfaceRgb : Rgb) (heading0 text0 : string) :
  validHex text0 ->
  exists muted0,
    lightMutedText (map analyze palette) (Some surfaceRgb) heading0 text0
    = Some muted0
    /\ validHex muted0.
Proof.
  intros Vt. unfold lightMutedText.
  destruct (validHex_luminance_or 0 Vt) as [q ->]. cbn [JS.bind rgbOr].
  set (candidates := lightMutedCandidates _ _ _ _ _).
  destruct (@ensureContrast_total (firstHex candidates) surfaceRgb 5.5
              "#555555" "#444444") as [m0 Em].
  { intros hex0 H. unfold firstHex in H.
    eapply candidate_hex_valid; [exact H | |].
    - intros x Hx. eapply nth_error_In, Hx.
    - intros c Hc. exact Hc. }
  { discriminate. } { discriminate. }
  exists m0. split; [assumption|].
  destruct (ensureContrast_cases _ _ _ _ _ Em) as [[_ C] | [-> | ->]];
    [eapply contrastAtLeast_valid, C | discriminate | discriminate].
Qed.

Lemma lightBgValidated_valid (lock : option string)
    (bg0 heading0 text0 muted0 : string) :
  validHex bg0 ->
  validHex (lightBgValidated (map analyze palette) lock bg0 heading0 text0
              muted0).
Proof.
  intros Vb. unfold lightBgValidated.
  destruct (match hexToRgb bg0 with Some _ => _ | None => _ end);
    [|assumption].
  destruct (JS.sort _ _) as [|c cs] eqn:E; [discriminate|].
  apply coherent_valid, analyzed_In_coherent.
  assert (H : In c (c :: cs)) by now left.
  rewrite <- E, sort_In in H. now apply filter_In in H.
Qed.

Lemma relaxedCandidates_head (used : list string) (surfaceRgb : Rgb)
    (q lo hi : Q) (c : Analyzed) :
  nth_error (relaxedCandidates (map analyze palette) used surfaceRgb q lo hi) 0
  = Some c ->
  coherent c.
Proof.
  intros H. apply sort_head_In in H. apply filter_In in H as [H _].
  now apply analyzed_In_coherent.
Qed.

Lemma primaryCandidates_head (f : Analyzed -> Scored) (p : Analyzed -> bool)
    (c : Analyzed) :
  (forall x, coherent x -> coherent (f x)) ->
  option_map cand
    (nth_error (sortByScore (map f (List.filter p (map analyze palette)))) 0)
  = Some c ->
  coherent c.
Proof.
  intros Hf H.
  destruct (nth_error _ 0) as [x|] eqn:E; [|discriminate].
  injection H as <-. apply nth_error_In in E.
  destruct (scored_In _ _ _ _ E) as (y & Hy & _ & ->).
  apply Hf. now apply analyzed_In_coherent.
Qed.

Lemma orCandidate_coherent (a c : option Analyzed) :
  (forall x, a = Some x -> coherent x) ->
  (forall x, c = Some x -> coherent x) ->
  forall x, orCandidate a c = Some x -> coherent x.
Proof. intros Ha Hc x. destruct a; cbn; auto. Qed.

(** The vibrant-variant step keeps the choice coherent. *)
Lemma variant_coherent (chosen : Analyzed) (surfaceRgb : Rgb)
    (extra : Swatch -> bool) (fallbackHex : string) :
  coherent chosen ->
  exists out,
    (if negb chosen.(isVibrant) && negb (String.eqb chosen.(hex) fallbackHex)
     then
       own <- hexToRgb chosen.(hex) ;;
       let moreVibrant :=
         findMostVibrantVariant (mkRgb own.(r) own.(g) own.(b)) palette in
       if (getSaturation moreVibrant.(r) moreVibrant.(g) moreVibrant.(b)
           >? chosen.(saturation) *! JS.lit 1.2)
          && extra moreVibrant
       then Some (analyze moreVibrant)
       else Some chosen
     else Some chosen) = Some out
    /\ coherent out.
Proof.
  intros Hc. destruct (_ && _); [|eauto].
  destruct Hc as [Hok Hhex]. rewrite Hhex. cbn [JS.bind r g b].
  destruct (_ && _); [|eexists; split; [reflexivity | now split]].
  eexists. split; [reflexivity|].
  apply analyze_coherent, findMostVibrantVariant_ok; [|exact palette_fine].
  now rewrite rgb_eta.
Qed.

Lemma lightPrimaryAlgorithmic_spec (surface0 heading0 text0 muted0 : string) :
  validHex surface0 ->
  exists lp,
    lightPrimaryAlgorithmic Math_log palette (map analyze palette) surface0
      heading0 text0 muted0 = Some lp
    /\ coherent lp.
Proof.
  intros Vs. unfold lightPrimaryAlgorithmic.
  rewrite (orElse_valid _ Vs). unfold validHex in Vs.
  destruct (hexToRgb surface0) as [surfaceRgb|]; [|congruence].
  cbn [JS.bind].
  set (chosen := match orCandidate _ _ with
                 | Some c => c
                 | None => ofRgb (mkRgb 0 113 227) "#0071e3"
                 end).
  assert (Hc : coherent chosen).
  { subst chosen. destruct (orCandidate _ _) as [c|] eqn:E.
    - revert c E. apply orCandidate_coherent.
      + apply orCandidate_coherent.
        * intros x. apply primaryCandidates_head.
          intros y Hy. exact Hy.
        * intros x. apply relaxedCandidates_head.
      + intros x. apply relaxedCandidates_head.
    - now apply ofRgb_coherent. }
  apply (@variant_coherent chosen surfaceRgb
           (fun mv : Swatch => getContrastRatio mv surfaceRgb >=? 3)
           "#0071e3" Hc).
Qed.

Lemma lightPrimarySelect_spec (lock : option string)
    (surface0 heading0 text0 muted0 : string) :
  validHex surface0 ->
  exists lp,
    lightPrimarySelect Math_log palette (map analyze palette) lock surface0
      heading0 text0 muted0 = Some (Some lp)
    /\ coherent lp
    /\ (forall lock0 c, isSet lock = Some lock0 ->
                        resolveLocked (map analyze palette) lock0 = Some c ->
                        lp = c).
Proof.
  intros Vs. unfold lightPrimarySelect.
  destruct (isSet lock) as [lock0|].
  - destruct (resolveLocked _ lock0) as [c|] eqn:E.
    + exists c. split; [reflexivity|]. split.
      * eapply resolveLocked_coherent; [|exact E].
        now apply analyzed_coherent.
      * intros ? ? [= <-] H. congruence.
    + destruct (lightPrimaryAlgorithmic_spec heading0 text0 muted0 Vs)
        as (lp & -> & Hc).
      exists lp. cbn. split; [reflexivity|]. split; [assumption|].
      intros ? ? [= <-] H. congruence.
  - destruct (lightPrimaryAlgorithmic_spec heading0 text0 muted0 Vs)
      as (lp & -> & Hc).
    exists lp. cbn. split; [reflexivity|]. split; [assumption|].
    intros ? ? [=].
Qed.

Lemma lightPrimaryTokens_valid (lock : option string) (lp : Analyzed) :
  coherent lp ->
  validHex (fst (lightPrimaryTokens (map analyze palette) lock (Some lp)))
  /\ validHex (snd (lightPrimaryTokens (map analyze palette) lock (Some lp))).
Proof.
  intros Hc. pose proof (coherent_valid Hc) as V.
  unfold lightPrimaryTokens.
  destruct (_ >=? 4.5); [split; [exact V | discriminate]|].
  destruct (_ >=? 4.5); [split; [exact V | discriminate]|].
  destruct (isSet lock).
  - destruct (_ >? _); split; solve [exact V | discriminate].
  - destruct (find _ _) as [better|] eqn:F.
    + apply find_some in F as [F _]. cbn [fst snd]. split.
      * now apply coherent_valid, analyzed_In_coherent.
      * destruct (_ >=? 4.5); discriminate.
    + split; discriminate.
Qed.

(** With a lock in force the primary token is the resolved colour. *)
Lemma lightPrimaryTokens_locked (lock : option string) (lock0 : string)
    (lp : Analyzed) :
  isSet lock = Some lock0 ->
  fst (lightPrimaryTokens (map analyze palette) lock (Some lp)) = lp.(hex).
Proof.
  intros H. unfold lightPrimaryTokens. rewrite H.
  repeat destruct (_ >=? 4.5); reflexivity.
Qed.

(** The light half runs to completion, and what it returns. *)
Lemma lightMode_spec (lockedPrimary lockedLightBg : option string) :
  exists t lp,
    lightMode Math_log palette (map analyze palette) lockedPrimary
      lockedLightBg = Some (t, Some lp)
    /\ validTokenSet t
    /\ t.(heading) <> t.(text)
    /\ (exists surfaceRgb,
          hexToRgb t.(surface) = Some surfaceRgb
          /\ contrastAtLeast 4.5 surfaceRgb t.(heading)
          /\ contrastAtLeast 4.5 surfaceRgb t.(text))
    /\ coherent lp
    /\ (forall lock0 c, isSet lockedPrimary = Some lock0 ->
                        resolveLocked (map analyze palette) lock0 = Some c ->
                        t.(primary) = c.(hex)).
Proof.
  unfold lightMode.
  set (bgc := lightBgCandidate (map analyze palette) lockedLightBg).
  set (bg0 := useColor bgc "#f7f7f7").
  assert (Vb : validHex bg0).
  { apply useColor_valid; [|discriminate].
    intros c. apply lightBgCandidate_coherent. }
  destruct (validHex_luminance_or 0.95 Vb) as [q1 ->]. cbn [JS.bind].
  destruct (lightSurface_spec bgc bg0) as (surfaceRgb & Ps & Hok & Hl).
  set (surface0 := lightSurface (map analyze palette) bgc bg0) in *.
  assert (Vs : validHex surface0) by (unfold validHex; now rewrite Ps).
  destruct (validHex_luminance_or 1 Vs) as [q2 ->]. cbn [JS.bind].
  rewrite (orElse_valid _ Vs), Ps.
  destruct (lightHeadingText_spec Hl) as (h0 & t0 & -> & Hne & Ch & Ct).
  cbn [JS.bind].
  pose proof (contrastAtLeast_valid Ch) as Vh.
  pose proof (contrastAtLeast_valid Ct) as Vt.
  destruct (lightMutedText_spec surfaceRgb h0 Vt) as (m0 & -> & Vm).
  cbn [JS.bind].
  destruct (lightPrimarySelect_spec lockedPrimary h0 t0 m0 Vs)
    as (lp & -> & Hlp & Hlock).
  cbn [JS.bind].
  destruct (lightPrimaryTokens_valid lockedPrimary Hlp) as [Vp Vo].
  destruct (lightPrimaryTokens (map analyze palette) lockedPrimary (Some lp))
    as [primary0 onPrimary0] eqn:Ep.
  cbn [fst snd] in Vp, Vo.
  eexists _, lp. split; [reflexivity|]. cbn.
  split; [|split; [exact Hne | split; [|split; [exact Hlp|]]]].
  - unfold validTokenSet. cbn.
    repeat split; try assumption.
    + now apply lightBgValidated_valid.
    + apply lightBorder_valid.
  - exists surfaceRgb. auto.
  - intros lock0 c Hset Hres.
    rewrite <- (Hlock _ _ Hset Hres).
    pose proof (lightPrimaryTokens_locked lockedPrimary lp Hset) as L.
    rewrite Ep in L. exact L.
Qed.

(** *** Dark mode *)

Lemma darkBgCandidate_coherent (lock : option string) (c : Analyzed) :
  darkBgCandidate (map analyze palette) lock = Some c -> coherent c.
Proof.
  unfold darkBgCandidate. destruct (isSet lock).
  - apply resolveLocked_coherent, analyzed_coherent, palette_fine.
  - intros H. apply findBest_In in H as [H _]. now apply analyzed_In_coherent.
Qed.

Lemma darkSurface_spec (bgc : option Analyzed) (q : Q) (bg0 : string) :
  exists c, hexToRgb (darkSurface (map analyze palette) bgc q bg0) = Some c
            /\ rgb_ok c /\ lum c < 0.05.
Proof.
  assert (W : exists c, hexToRgb "#141414" = Some c
                        /\ rgb_ok c /\ lum c < 0.05).
  { exists (mkRgb 20 20 20). split; [reflexivity|]. split.
    - unfold rgb_ok, channel_ok. cbn. lia.
    - apply ltb_lt. vm_compute. reflexivity. }
  unfold darkSurface.
  destruct (findBest (map analyze palette) _) as [x|] eqn:F; cbn [useColor].
  - destruct (String.eqb x.(hex) bg0); [exact W|].
    apply findBest_In in F as [Hx Hf].
    destruct (analyzed_In_coherent _ Hx) as [Hok Hhex].
    exists (mkRgb x.(r) x.(g) x.(b)). split; [assumption|].
    rewrite rgb_eta. split; [assumption|].
    apply andb_prop in Hf as [Hf _]. apply andb_prop in Hf as [Hf _].
    apply andb_prop in Hf as [_ Hf].
    apply ltb_lt in Hf. now rewrite (analyzed_luminance _ _ Hx) in Hf.
  - destruct (String.eqb _ bg0); exact W.
Qed.

Lemma darkBorder_valid (q : Q) (bg0 surface0 : string) :
  validHex (darkBorder (map analyze palette) q bg0 surface0).
Proof.
  unfold darkBorder. apply useColor_valid; [|discriminate].
  intros c H. apply findBest_In in H as [H _]. now apply analyzed_In_coherent.
Qed.

(** A light fallback against a dark surface. *)
Lemma light_on_dark (token : string) (c surfaceRgb : Rgb) :
  hexToRgb token = Some c -> 0.5 <= lum c ->
  rgb_ok surfaceRgb -> lum surfaceRgb < 0.05 ->
  contrastAtLeast 4.5 surfaceRgb token.
Proof.
  intros P Hc Hok Hs. exists c. split; [assumption|].
  apply (@contrast_from_bounds 4.5 0.05 0.5 surfaceRgb c); try lra.
  now apply lum_nonneg.
Qed.

Lemma darkHeadingText_spec (surfaceRgb : Rgb) :
  rgb_ok surfaceRgb -> lum surfaceRgb < 0.05 ->
  exists heading0 text0,
    darkHeadingText (map analyze palette) (Some surfaceRgb)
    = Some (heading0, text0)
    /\ heading0 <> text0
    /\ contrastAtLeast 4.5 surfaceRgb heading0
    /\ contrastAtLeast 4.5 surfaceRgb text0.
Proof.
  intros Hok Hs.
  assert (F1 : contrastAtLeast 4.5 surfaceRgb "#ffffff").
  { apply (@light_on_dark _ white); [reflexivity | | exact Hok | exact Hs].
    apply Qle_bool_imp_le. vm_compute. reflexivity. }
  assert (F2 : contrastAtLeast 4.5 surfaceRgb "#f0f0f0").
  { apply (@light_on_dark _ (mkRgb 240 240 240));
      [reflexivity | | exact Hok | exact Hs].
    apply Qle_bool_imp_le. vm_compute. reflexivity. }
  assert (F3 : contrastAtLeast 4.5 surfaceRgb "#c0c0c0").
  { apply (@light_on_dark _ (mkRgb 192 192 192));
      [reflexivity | | exact Hok | exact Hs].
    apply Qle_bool_imp_le. vm_compute. reflexivity. }
  unfold darkHeadingText. cbn [rgbOr].
  set (candidates := darkHeadingCandidates (map analyze palette)
                       (Some surfaceRgb)).
  destruct (@ensureContrast_total (firstHex candidates) surfaceRgb 4.5
              "#ffffff" "#e8e8e8") as [h0 Eh].
  { intros hex0 H. unfold firstHex in H.
    eapply candidate_hex_valid; [exact H | |].
    - intros x Hx. eapply nth_error_In, Hx.
    - intros c Hc. exact Hc. }
  { discriminate. } { discriminate. }
  rewrite Eh. cbn [JS.bind].
  pose proof (ensureContrast_guarantee _ _ F1 Eh) as Gh.
  set (textCandidate := match find _ candidates with
                        | Some c => Some c
                        | None => nth_error candidates 0
                        end).
  destruct (@ensureContrast_total
              (option_map (fun c : Scored => c.(hex)) textCandidate)
              surfaceRgb 4.5 "#f0f0f0" "#d4d4d4") as [t0 Et].
  { intros hex0 H.
    eapply candidate_hex_valid; [exact H | |].
    - intros x Hx. unfold textCandidate in Hx.
      destruct (find _ candidates) eqn:Fd.
      + injection Hx as <-. apply find_some in Fd as [Fd _]. exact Fd.
      + eapply nth_error_In, Hx.
    - intros c Hc. exact Hc. }
  { discriminate. } { discriminate. }
  rewrite Et. cbn [JS.bind].
  pose proof (ensureContrast_guarantee _ _ F2 Et) as Gt.
  pose proof (contrastAtLeast_valid Gh) as Vh.
  pose proof (contrastAtLeast_valid Gt) as Vt.
  destruct (validHex_luminance Vh) as [lh Lh].
  destruct (validHex_luminance Vt) as [lt Lt].
  rewrite Lh, Lt.
  destruct (JS.truthy t0 && JS.truthy h0); cbn [JS.bind].
  - destruct (lt >? lh); cbn [JS.bind].
    + destruct (String.eqb t0 h0) eqn:E.
      * eexists _, _. split; [reflexivity|]. split; [discriminate | auto].
      * apply String.eqb_neq in E.
        eexists _, _. split; [reflexivity|]. auto.
    + destruct (String.eqb h0 t0) eqn:E.
      * eexists _, _. split; [reflexivity|]. split; [discriminate | auto].
      * apply String.eqb_neq in E.
        eexists _, _. split; [reflexivity|]. auto.
  - destruct (String.eqb h0 t0) eqn:E.
    + eexists _, _. split; [reflexivity|]. split; [discriminate | auto].
    + apply String.eqb_neq in E.
      eexists _, _. split; [reflexivity|]. auto.
Qed.

Lemma darkMutedText_spec (surfaceRgb : Rgb) (heading0 text0 : string) :
  validHex text0 ->
  exists muted0,
    darkMutedText (map analyze palette) (Some surfaceRgb) heading0 text0
    = Some muted0
    /\ validHex muted0.
Proof.
  intros Vt. unfold darkMutedText.
  destruct (validHex_luminance_or 1 Vt) as [q ->]. cbn [JS.bind rgbOr].
  set (candidates := darkMutedCandidates _ _ _ _ _).
  destruct (@ensureContrast_total (firstHex candidates) surfaceRgb 5.5
              "#d0d0d0" "#b8b8b8") as [m0 Em].
  { intros hex0 H. unfold firstHex in H.
    eapply candidate_hex_valid; [exact H | |].
    - intros x Hx. eapply nth_error_In, Hx.
    - intros c Hc. exact Hc. }
  { discriminate. } { discriminate. }
  exists m0. split; [assumption|].
  destruct (ensureContrast_cases _ _ _ _ _ Em) as [[_ C] | [-> | ->]];
    [eapply contrastAtLeast_valid, C | discriminate | discriminate].
Qed.

Lemma darkBgValidated_valid (lock : option string)
    (bg0 heading0 text0 muted0 : string) :
  validHex bg0 ->
  validHex (darkBgValidated (map analyze palette) lock bg0 heading0 text0
              muted0).
Proof.
  intros Vb. unfold darkBgValidated.
  destruct (match hexToRgb bg0 with Some _ => _ | None => _ end);
    [|assumption].
  destruct (JS.sort _ _) as [|c cs] eqn:E; [discriminate|].
  apply coherent_valid, analyzed_In_coherent.
  assert (H : In c (c :: cs)) by now left.
  rewrite <- E, sort_In in H. now apply filter_In in H.
Qed.

Lemma reuseLightPrimary_coherent (lightPrimary : option Analyzed)
    (surfaceRgb : Rgb) :
  (forall lp, lightPrimary = Some lp -> coherent lp) ->
  forall x, reuseLightPrimary lightPrimary surfaceRgb = Some x -> coherent x.
Proof.
  intros H x. unfold reuseLightPrimary.
  destruct lightPrimary as [lp|]; [|discriminate].
  destruct (hexToRgb lp.(hex)); [|discriminate].
  destruct (_ >=? 2.5); [|discriminate].
  intros [= <-]. now apply H.
Qed.

Lemma darkPrimaryAlgorithmic_spec (lightPrimary : option Analyzed)
    (surface0 heading0 text0 muted0 : string) :
  (forall lp, lightPrimary = Some lp -> coherent lp) ->
  validHex surface0 ->
  exists dp,
    darkPrimaryAlgorithmic Math_log palette (map analyze palette)
      lightPrimary surface0 heading0 text0 muted0 = Some dp
    /\ coherent dp.
Proof.
  intros Hlp Vs. unfold darkPrimaryAlgorithmic.
  rewrite (orElse_valid _ Vs). unfold validHex in Vs.
  destruct (hexToRgb surface0) as [surfaceRgb|]; [|congruence].
  cbn [JS.bind].
  set (chosen := match orCandidate _ _ with
                 | Some c => c
                 | None => ofRgb (mkRgb 64 156 255) "#409cff"
                 end).
  assert (Hc : coherent chosen).
  { subst chosen. destruct (orCandidate _ _) as [c|] eqn:E.
    - revert c E. apply orCandidate_coherent.
      + apply orCandidate_coherent.
        * apply orCandidate_coherent.
          -- intros x. apply primaryCandidates_head.
             intros y Hy. exact Hy.
          -- intros x. apply relaxedCandidates_head.
        * intros x. apply relaxedCandidates_head.
      + now apply reuseLightPrimary_coherent.
    - now apply ofRgb_coherent. }
  apply (@variant_coherent chosen surfaceRgb
           (fun mv : Swatch =>
              (getLuminance mv.(r) mv.(g) mv.(b) >? 0.2)
              && (getContrastRatio mv surfaceRgb >=? 3))
           "#409cff" Hc).
Qed.

Lemma darkPrimarySelect_spec (lock : option string)
    (lightPrimary : option Analyzed)
    (surface0 heading0 text0 muted0 : string) :
  (forall lp, lightPrimary = Some lp -> coherent lp) ->
  validHex surface0 ->
  exists dp,
    darkPrimarySelect Math_log palette (map analyze palette) lock
      lightPrimary surface0 heading0 text0 muted0 = Some (Some dp)
    /\ coherent dp
    /\ (forall lock0 c, isSet lock = Some lock0 ->
                        resolveLocked (map analyze palette) lock0 = Some c ->
                        dp = c).
Proof.
  intros Hlp Vs. unfold darkPrimarySelect.
  destruct (isSet lock) as [lock0|].
  - destruct (resolveLocked _ lock0) as [c|] eqn:E.
    + exists c. split; [reflexivity|]. split.
      * eapply resolveLocked_coherent; [|exact E].
        now apply analyzed_coherent.
      * intros ? ? [= <-] H. congruence.
    + destruct (darkPrimaryAlgorithmic_spec heading0 text0 muted0 Hlp Vs) as (dp & -> & Hc).
      exists dp. cbn. split; [reflexivity|]. split; [assumption|].
      intros ? ? [= <-] H. congruence.
  - destruct (darkPrimaryAlgorithmic_spec heading0 text0 muted0 Hlp Vs) as (dp & -> & Hc).
    exists dp. cbn. split; [reflexivity|]. split; [assumption|].
    intros ? ? [=].
Qed.

Lemma darkPrimaryTokens_valid (dp : Analyzed) :
  coherent dp ->
  fst (darkPrimaryTokens (Some dp)) = dp.(hex)
  /\ validHex (snd (darkPrimaryTokens (Some dp))).
Proof.
  intros Hc. unfold darkPrimaryTokens. cbn [fst snd].
  split; [reflexivity|].
  destruct (_ >=? 4.5); [discriminate|].
  destruct (_ >=? 4.5); [discriminate|].
  destruct (_ >? _); discriminate.
Qed.

(** The dark half runs to completion, and what it returns. *)
Lemma darkMode_spec (lockedPrimary lockedDarkBg : option string)
    (lightPrimary : option Analyzed) :
  (forall lp, lightPrimary = Some lp -> coherent lp) ->
  exists t,
    darkMode Math_log palette (map analyze palette) lockedPrimary
      lockedDarkBg lightPrimary = Some t
    /\ validTokenSet t
    /\ t.(heading) <> t.(text)
    /\ (exists surfaceRgb,
          hexToRgb t.(surface) = Some surfaceRgb
          /\ contrastAtLeast 4.5 surfaceRgb t.(heading)
          /\ contrastAtLeast 4.5 surfaceRgb t.(text))
    /\ (forall lock0 c, isSet lockedPrimary = Some lock0 ->
                        resolveLocked (map analyze palette) lock0 = Some c ->
                        t.(primary) = c.(hex)).
Proof.
  intros Hlight. unfold darkMode.
  set (bgc := darkBgCandidate (map analyze palette) lockedDarkBg).
  set (bg0 := useColor bgc "#0b0b0b").
  assert (Vb : validHex bg0).
  { apply useColor_valid; [|discriminate].
    intros c. apply darkBgCandidate_coherent. }
  destruct (validHex_luminance_or 0.01 Vb) as [q1 ->]. cbn [JS.bind].
  destruct (darkSurface_spec bgc q1 bg0) as (surfaceRgb & Ps & Hok & Hl).
  set (surface0 := darkSurface (map analyze palette) bgc q1 bg0) in *.
  assert (Vs : validHex surface0) by (unfold validHex; now rewrite Ps).
  destruct (validHex_luminance_or 0.02 Vs) as [q2 ->]. cbn [JS.bind].
  rewrite (orElse_valid _ Vs), Ps.
  destruct (darkHeadingText_spec Hok Hl) as (h0 & t0 & -> & Hne & Ch & Ct).
  cbn [JS.bind].
  pose proof (contrastAtLeast_valid Ch) as Vh.
  pose proof (contrastAtLeast_valid Ct) as Vt.
  destruct (darkMutedText_spec surfaceRgb h0 Vt) as (m0 & -> & Vm).
  cbn [JS.bind].
  destruct (darkPrimarySelect_spec lockedPrimary h0 t0 m0 Hlight Vs) as (dp & -> & Hdp & Hlock).
  cbn [JS.bind].
  destruct (darkPrimaryTokens_valid Hdp) as [Ep Vo].
  destruct (darkPrimaryTokens (Some dp)) as [primary0 onPrimary0].
  cbn [fst snd] in Ep, Vo. subst primary0.
  eexists. split; [reflexivity|]. cbn.
  split; [|split; [exact Hne | split]].
  - unfold validTokenSet. cbn.
    repeat split; try assumption.
    + now apply darkBgValidated_valid.
    + apply darkBorder_valid.
    + now apply coherent_valid.
  - exists surfaceRgb. auto.
  - intros lock0 c Hset Hres. now rewrite (Hlock _ _ Hset Hres).
Qed.

(** [generateTokens] runs to completion on every palette of in-range
    swatches, whatever the locks. *)
Lemma generateTokens_spec (lockedPrimary lockedLightBg lockedDarkBg
                           : option string) :
  exists t,
    generateTokens Math_log palette lockedPrimary lockedLightBg lockedDarkBg
    = Some t
    /\ (validTokenSet t.(light) /\ validTokenSet t.(dark))
    /\ (t.(light).(heading) <> t.(light).(text)
        /\ t.(dark).(heading) <> t.(dark).(text))
    /\ ((exists surfaceRgb,
           hexToRgb t.(light).(surface) = Some surfaceRgb
           /\ contrastAtLeast 4.5 surfaceRgb t.(light).(heading)
           /\ contrastAtLeast 4.5 surfaceRgb t.(light).(text))
        /\ (exists surfaceRgb,
              hexToRgb t.(dark).(surface) = Some surfaceRgb
              /\ contrastAtLeast 4.5 surfaceRgb t.(dark).(heading)
              /\ contrastAtLeast 4.5 surfaceRgb t.(dark).(text)))
    /\ (forall lock0 c, isSet lockedPrimary = Some lock0 ->
                        resolveLocked (map analyze palette) lock0 = Some c ->
                        t.(light).(primary) = c.(hex)
                        /\ t.(dark).(primary) = c.(hex)).
Proof.
  unfold generateTokens.
  destruct (lightMode_spec lockedPrimary lockedLightBg)
    as (lt & lp & -> & V1 & N1 & C1 & Hlp & L1).
  cbn [JS.bind].
  destruct (@darkMode_spec lockedPrimary lockedDarkBg (Some lp))
    as (dt & -> & V2 & N2 & C2 & L2).
  { intros ? [= <-]. exact Hlp. }
  cbn [JS.bind]. eexists. split; [reflexivity|]. cbn [light dark].
  split; [now split|]. split; [now split|]. split; [now split|].
  intros lock0 c Hset Hres. split.
  - now apply L1 with lock0.
  - now apply L2 with lock0.
Qed.

(** *** A primary lock that does not parse *)

Lemma lightPrimarySelect_unparseable (lock : string)
    (surface0 heading0 text0 muted0 : string) :
  hexToRgb lock = None ->
  lightPrimarySelect Math_log palette (map analyze palette) (Some lock)
    surface0 heading0 text0 muted0
  = lightPrimarySelect Math_log palette (map analyze palette) None
      surface0 heading0 text0 muted0.
Proof.
  intros P. unfold lightPrimarySelect, isSet.
  destruct (JS.truthy lock); [|reflexivity].
  now rewrite (@resolveLocked_unparseable _ _
                 (analyzed_coherent palette_fine) P).
Qed.

Lemma darkPrimarySelect_unparseable (lock : string)
    (lightPrimary : option Analyzed)
    (surface0 heading0 text0 muted0 : string) :
  hexToRgb lock = None ->
  darkPrimarySelect Math_log palette (map analyze palette) (Some lock)
    lightPrimary surface0 heading0 text0 muted0
  = darkPrimarySelect Math_log palette (map analyze palette) None
      lightPrimary surface0 heading0 text0 muted0.
Proof.
  intros P. unfold darkPrimarySelect, isSet.
  destruct (JS.truthy lock); [|reflexivity].
  now rewrite (@resolveLocked_unparseable _ _
                 (analyzed_coherent palette_fine) P).
Qed.

(** The only other use of the lock, [if (!lockedPrimary)], sits in the
    branch that [white_or_black] rules out. *)
Lemma lightPrimaryTokens_lock_free (lock1 lock2 : option string)
    (lp : Analyzed) :
  coherent lp ->
  lightPrimaryTokens (map analyze palette) lock1 (Some lp)
  = lightPrimaryTokens (map analyze palette) lock2 (Some lp).
Proof.
  intros [Hok _]. unfold lightPrimaryTokens.
  destruct (getContrastRatio lp white >=? 4.5) eqn:W; [reflexivity|].
  now rewrite (white_or_black Hok W).
Qed.

Lemma lightMode_unparseable (lock : string) (lockedLightBg : option string) :
  hexToRgb lock = None ->
  lightMode Math_log palette (map analyze palette) (Some lock) lockedLightBg
  = lightMode Math_log palette (map analyze palette) None lockedLightBg.
Proof.
  intros P. unfold lightMode.
  set (bgc := lightBgCandidate (map analyze palette) lockedLightBg).
  cbv zeta. set (bg0 := useColor bgc "#f7f7f7").
  destruct (lightSurface_spec bgc bg0) as (surfaceRgb & Ps & _ & _).
  set (surface0 := lightSurface (map analyze palette) bgc bg0) in *.
  assert (Vs : validHex surface0) by (unfold validHex; now rewrite Ps).
  apply bind_ext; intros q1 _.
  apply bind_ext; intros q2 _.
  apply bind_ext; intros [h0 t0] _.
  apply bind_ext; intros m0 _.
  rewrite (@lightPrimarySelect_unparseable lock _ _ _ _ P).
  apply bind_ext; intros lpo E.
  destruct (lightPrimarySelect_spec None h0 t0 m0 Vs) as (lp & E' & Hlp & _).
  rewrite E' in E. injection E as <-.
  now rewrite (lightPrimaryTokens_lock_free (Some lock) None Hlp).
Qed.

Lemma darkMode_unparseable (lock : string) (lockedDarkBg : option string)
    (lightPrimary : option Analyzed) :
  hexToRgb lock = None ->
  darkMode Math_log palette (map analyze palette) (Some lock) lockedDarkBg
    lightPrimary
  = darkMode Math_log palette (map analyze palette) None lockedDarkBg
      lightPrimary.
Proof.
  intros P. unfold darkMode.
  set (bgc := darkBgCandidate (map analyze palette) lockedDarkBg).
  cbv zeta. set (bg0 := useColor bgc "#0b0b0b").
  apply bind_ext; intros q1 _.
  set (surface0 := darkSurface (map analyze palette) bgc q1 bg0).
  apply bind_ext; intros q2 _.
  apply bind_ext; intros [h0 t0] _.
  apply bind_ext; intros m0 _.
  now rewrite (@darkPrimarySelect_unparseable lock _ _ _ _ _ P).
Qed.

Lemma generateTokens_unparseable (lock : string)
    (lockedLightBg lockedDarkBg : option string) :
  hexToRgb lock = None ->
  generateTokens Math_log palette (Some lock) lockedLightBg lockedDarkBg
  = generateTokens Math_log palette None lockedLightBg lockedDarkBg.
Proof.
  intros P. unfold generateTokens.
  rewrite (@lightMode_unparseable lock _ P).
  destruct (lightMode _ _ _ _ _) as [[lt lpo]|]; [cbn [JS.bind] | reflexivity].
  now rewrite (@darkMode_unparseable lock _ _ P).
Qed.

End TokenStages.

(** ** Token sets *)

(** C1. For every palette of in-range swatches (the empty one included)
    and every combination of locks, [generateTokens] returns a light and a
    dark token set whose eight fields are all hex colours the program
    itself parses. *)
Theorem generateTokens_complete (Math_log : Q -> Q) (palette : list Swatch)
    (lockedPrimary lockedLightBg lockedDarkBg : option string) :
  palette_ok palette ->
  exists t,
    generateTokens Math_log palette lockedPrimary lockedLightBg lockedDarkBg
    = Some t
    /\ validTokenSet t.(light) /\ validTokenSet t.(dark).
Proof.
  intros Hp.
  destruct (generateTokens_spec Math_log Hp lockedPrimary lockedLightBg
              lockedDarkBg) as (t & E & [V1 V2] & _).
  exists t. auto.
Qed.

(** C2. In both modes, heading and text reach a contrast of 4.5 against
    the surface, for every palette of in-range swatches and every
    combination of locks. *)
Theorem heading_text_contrast (Math_log : Q -> Q) (palette : list Swatch)
    (lockedPrimary lockedLightBg lockedDarkBg : option string) :
  palette_ok palette ->
  exists t,
    generateTokens Math_log palette lockedPrimary lockedLightBg lockedDarkBg
    = Some t
    /\ (exists q, tokenContrast t.(light).(heading) t.(light).(surface)
                  = Some q /\ 4.5 <= q)
    /\ (exists q, tokenContrast t.(light).(text) t.(light).(surface)
                  = Some q /\ 4.5 <= q)
    /\ (exists q, tokenContrast t.(dark).(heading) t.(dark).(surface)
                  = Some q /\ 4.5 <= q)
    /\ (exists q, tokenContrast t.(dark).(text) t.(dark).(surface)
                  = Some q /\ 4.5 <= q).
Proof.
  intros Hp.
  destruct (generateTokens_spec Math_log Hp lockedPrimary lockedLightBg
              lockedDarkBg) as (t & E & _ & _ & [C1 C2] & _).
  exists t. split; [exact E|].
  destruct C1 as (s1 & P1 & (h1 & Ph1 & Ch1) & (t1 & Pt1 & Ct1)).
  destruct C2 as (s2 & P2 & (h2 & Ph2 & Ch2) & (t2 & Pt2 & Ct2)).
  unfold tokenContrast.
  rewrite P1, P2, Ph1, Pt1, Ph2, Pt2. cbn [JS.bind].
  repeat split; eexists; (split; [reflexivity | assumption]).
Qed.

(** C9. In both modes heading and text differ, for every palette of
    in-range swatches and every combination of locks. *)
Theorem heading_text_distinct (Math_log : Q -> Q) (palette : list Swatch)
    (lockedPrimary lockedLightBg lockedDarkBg : option string) :
  palette_ok palette ->
  exists t,
    generateTokens Math_log palette lockedPrimary lockedLightBg lockedDarkBg
    = Some t
    /\ t.(light).(heading) <> t.(light).(text)
    /\ t.(dark).(heading) <> t.(dark).(text).
Proof.
  intros Hp.
  destruct (generateTokens_spec Math_log Hp lockedPrimary lockedLightBg
              lockedDarkBg) as (t & E & _ & [N1 N2] & _).
  exists t. auto.
Qed.

(** C5. A [lockedPrimary] that does not parse is ignored: the result is
    the one of the call without the lock. *)
Theorem unparseable_lock_ignored (Math_log : Q -> Q) (palette : list Swatch)
    (lock : string) (lockedLightBg lockedDarkBg : option string) :
  palette_ok palette ->
  hexToRgb lock = None ->
  exists t,
    generateTokens Math_log palette (Some lock) lockedLightBg lockedDarkBg
    = Some t
    /\ generateTokens Math_log palette None lockedLightBg lockedDarkBg
       = Some t.
Proof.
  intros Hp P.
  destruct (generateTokens_spec Math_log Hp None lockedLightBg lockedDarkBg)
    as (t & E & _).
  exists t. split; [|exact E].
  now rewrite (@generateTokens_unparseable Math_log _ Hp lock _ _ P).
Qed.


Lemma examplePalette_ok : palette_ok examplePalette.
Proof.
  unfold palette_ok, examplePalette.
  repeat constructor; cbn; lia.
Qed.

Lemma generateTokens_complete_witness :
  palette_ok examplePalette
  /\ exists t,
       generateTokens log2_floor examplePalette (Some "#FF0000") None
         (Some "zebra") = Some t
       /\ validTokenSet t.(light) /\ validTokenSet t.(dark).
Proof.
  split; [exact examplePalette_ok|].
  apply (@generateTokens_complete log2_floor examplePalette
           (Some "#FF0000") None (Some "zebra") examplePalette_ok).
Defined.

Lemma heading_text_contrast_witness :
  palette_ok examplePalette
  /\ exists t,
       generateTokens log2_floor examplePalette None None None = Some t
       /\ (exists q, tokenContrast t.(light).(heading) t.(light).(surface)
                     = Some q /\ 4.5 <= q)
       /\ (exists q, tokenContrast t.(light).(text) t.(light).(surface)
                     = Some q /\ 4.5 <= q)
       /\ (exists q, tokenContrast t.(dark).(heading) t.(dark).(surface)
                     = Some q /\ 4.5 <= q)
       /\ (exists q, tokenContrast t.(dark).(text) t.(dark).(surface)
                     = Some q /\ 4.5 <= q).
Proof.
  split; [exact examplePalette_ok|].
  apply (@heading_text_contrast log2_floor examplePalette None None None
           examplePalette_ok).
Defined.

Lemma heading_text_distinct_witness :
  palette_ok examplePalette
  /\ exists t,
       generateTokens log2_floor examplePalette None (Some "#fafafa") None
       = Some t
       /\ t.(light).(heading) <> t.(light).(text)
       /\ t.(dark).(heading) <> t.(dark).(text).
Proof.
  split; [exact examplePalette_ok|].
  apply (@heading_text_distinct log2_floor examplePalette None
           (Some "#fafafa") None examplePalette_ok).
Defined.

Lemma unparseable_lock_ignored_witness :
  (palette_ok examplePalette /\ hexToRgb "#ff00" = None)
  /\ exists t,
       generateTokens log2_floor examplePalette (Some "#ff00") None None
       = Some t
       /\ generateTokens log2_floor examplePalette None None None = Some t.
Proof.
  split; [split; [exact examplePalette_ok | reflexivity]|].
  apply (@unparseable_lock_ignored log2_floor examplePalette "#ff00" None
           None examplePalette_ok).
  reflexivity.
Defined.



(** ** The mid-gray image *)

Lemma largestBucket_max (buckets : list (list Rgb)) :
  forall index mi ms,
    (ms <= snd (largestBucket buckets index mi ms))%nat
    /\ Forall (fun bk : list Rgb =>
                 (length bk <= snd (largestBucket buckets index mi ms))%nat)
              buckets.
Proof.
  induction buckets as [|bk rest IH]; intros index mi ms;
    cbn [largestBucket].
  - split; [cbn; lia | constructor].
  - destruct (ms <? length bk)%nat eqn:E.
    + apply Nat.ltb_lt in E.
      destruct (IH (S index) index (length bk)) as [H1 H2].
      split; [lia | constructor; assumption].
    + apply Nat.ltb_ge in E.
      destruct (IH (S index) mi ms) as [H1 H2].
      split; [lia | constructor; [lia | assumption]].
Qed.

Lemma concat_length_nonempty {A} (buckets : list (list A)) :
  Forall (fun bk : list A => bk <> []) buckets ->
  (length buckets <= length (concat buckets))%nat.
Proof.
  induction 1 as [|bk rest Hb _ IH]; cbn [concat length].
  - lia.
  - rewrite length_app. destruct bk; [congruence | cbn [length]; lia].
Qed.

Lemma concat_length_singletons {A} (buckets : list (list A)) :
  Forall (fun bk : list A => bk <> []) buckets ->
  Forall (fun bk : list A => (length bk <= 1)%nat) buckets ->
  length (concat buckets) = length buckets.
Proof.
  induction 1 as [|bk rest Hb _ IH]; intros H1; cbn [concat length].
  - reflexivity.
  - inversion H1 as [|? ? Hk H1']; subst.
    rewrite length_app, IH by assumption.
    destruct bk as [|x [|y bk]]; [congruence | reflexivity |].
    cbn [length] in Hk. lia.
Qed.

(** The loop stops splitting only at [K] buckets or at single pixels:
    [medianCut] returns [min(N, K)] swatches. *)
Lemma medianCut_length (pixels : list Rgb) (K : Z) :
  pixels <> [] -> (1 <= K)%Z ->
  Z.of_nat (length (medianCut pixels K))
  = Z.min (Z.of_nat (length pixels)) K.
Proof.
  intros Hp HK. unfold medianCut.
  destruct pixels as [|p ps] eqn:E; [congruence|]. rewrite <- E.
  replace (length pixels =? 0)%nat with false
    by (subst pixels; reflexivity).
  destruct (@splitLoop_invariant (Z.to_nat K) K [pixels] pixels)
    as (H1 & H2 & H3 & H4).
  { constructor; [subst; discriminate | constructor]. }
  { cbn. now rewrite app_nil_r. }
  { cbn. lia. }
  destruct (colors_of_buckets H1) as [L _]. cbn zeta. rewrite L.
  pose proof (concat_length_nonempty H1) as G.
  rewrite (Permutation_length H2) in G.
  destruct (@splitLoop_exits (Z.to_nat K) K [pixels]) as [X | X].
  { cbn [length]. lia. }
  - lia.
  - destruct (largestBucket_max
                (splitLoop (Z.to_nat K) K [pixels]) 0 0 0) as [_ M].
    assert (S1 : Forall (fun bk : list Rgb => (length bk <= 1)%nat)
                   (splitLoop (Z.to_nat K) K [pixels])).
    { eapply Forall_impl; [|exact M]. cbn beta. intros bk Hb. lia. }
    pose proof (concat_length_singletons H1 S1) as Q.
    rewrite (Permutation_length H2) in Q. lia.
Qed.

Lemma sum_gray (bucket : list Rgb) :
  Forall (eq gray) bucket ->
  forall acc,
    fold_left
      (fun acc p => mkRgb (acc.(r) + p.(r)) (acc.(g) + p.(g))
                          (acc.(b) + p.(b)))
      bucket acc
    = mkRgb (acc.(r) + 128 * Z.of_nat (length bucket))
            (acc.(g) + 128 * Z.of_nat (length bucket))
            (acc.(b) + 128 * Z.of_nat (length bucket)).
Proof.
  induction 1 as [|p rest <- _ IH]; intros acc; cbn [fold_left length].
  - rewrite !Z.add_0_r. now destruct acc.
  - rewrite IH. cbn [r g b gray]. f_equal; lia.
Qed.

Lemma round_mean_gray (n : Z) :
  (0 < n)%Z -> JS.Math_round (inject_Z (128 * n) / inject_Z n) = 128%Z.
Proof.
  intros Hn. unfold JS.Math_round.
  assert (E : inject_Z (128 * n) / inject_Z n + 0.5 == 128.5).
  { rewrite inject_Z_mult. field. intros X.
    assert (Y : inject_Z 0 < inject_Z n) by (rewrite <- Zlt_Qlt; lia).
    rewrite X in Y. revert Y. apply Qlt_irrefl. }
  rewrite E. reflexivity.
Qed.

Lemma bucketColor_gray (bucket : list Rgb) :
  bucket <> [] -> Forall (eq gray) bucket ->
  bucketColor bucket = Some (graySwatch (Z.of_nat (length bucket))).
Proof.
  intros Hb Hg. unfold bucketColor.
  destruct bucket as [|p rest] eqn:E; [congruence|]. rewrite <- E in *.
  replace (length bucket =? 0)%nat with false by (subst; reflexivity).
  rewrite (sum_gray Hg). cbn [r g b]. rewrite !Z.add_0_l.
  rewrite round_mean_gray by (subst; cbn [length]; lia).
  reflexivity.
Qed.

Lemma colors_gray (buckets : list (list Rgb)) :
  Forall (fun bk : list Rgb => bk <> []) buckets ->
  Forall (Forall (eq gray)) buckets ->
  dropNull (map bucketColor buckets)
  = map (fun bk : list Rgb => graySwatch (Z.of_nat (length bk))) buckets.
Proof.
  induction 1 as [|bk rest Hb _ IH]; intros Hg; cbn [map dropNull].
  - reflexivity.
  - inversion Hg as [|? ? Hk Hg']; subst.
    rewrite (bucketColor_gray Hb Hk), IH by assumption. reflexivity.
Qed.

Lemma dedup_gray (pops : list Z) :
  forall k,
    fold_left (dedupStep 30) (map graySwatch pops) [graySwatch k]
    = [graySwatch (k + fold_right Z.add 0%Z pops)].
Proof.
  induction pops as [|p pops IH]; intros k; cbn [map fold_left fold_right].
  - now rewrite Z.add_0_r.
  - replace (dedupStep 30 [graySwatch k] (graySwatch p))
      with [graySwatch (k + p)] by (vm_compute; reflexivity).
    rewrite IH. now rewrite Z.add_assoc.
Qed.

Lemma removeDuplicates_gray (pops : list Z) :
  pops <> [] ->
  removeDuplicates (map graySwatch pops) 30
  = [graySwatch (fold_right Z.add 0%Z pops)].
Proof.
  intros H. destruct pops as [|p pops]; [congruence|].
  unfold removeDuplicates. cbn [map fold_left fold_right].
  change (dedupStep 30 [] (graySwatch p)) with [graySwatch p].
  apply dedup_gray.
Qed.

Lemma lengths_sum {A} (buckets : list (list A)) :
  fold_right Z.add 0%Z (map (fun bk : list A => Z.of_nat (length bk)) buckets)
  = Z.of_nat (length (concat buckets)).
Proof.
  induction buckets as [|bk rest IH]; cbn [map fold_right concat].
  - reflexivity.
  - rewrite IH, length_app. lia.
Qed.

Lemma gray_saturation :
  (getSaturation gray.(r) gray.(g) gray.(b) <? 0.25) = true
  /\ (getSaturation gray.(r) gray.(g) gray.(b) <? JS.lit 0.45) = true.
Proof. split; vm_compute; reflexivity. Qed.

Lemma vibrantBuckets_gray (pixels : list Rgb) :
  Forall (eq gray) pixels -> vibrantBuckets pixels = repeat [] 18.
Proof.
  intros H. unfold vibrantBuckets. generalize (repeat (@nil HuePixel) 18).
  induction H as [|p rest <- _ IH]; intros acc; cbn [fold_left].
  - reflexivity.
  - rewrite (proj1 gray_saturation). apply IH.
Qed.

Lemma brandRanges_gray (pixels : list Rgb) :
  Forall (eq gray) pixels -> brandRanges pixels = hueRanges.
Proof.
  intros H. unfold brandRanges. generalize hueRanges.
  induction H as [|p rest <- _ IH]; intros acc; cbn [fold_left].
  - reflexivity.
  - rewrite (proj2 gray_saturation). apply IH.
Qed.

Lemma pixelsAfterMedianCut_gray (pixels : list Rgb) (K : Z) :
  Forall (eq gray) pixels -> Forall (eq gray) (pixelsAfterMedianCut pixels K).
Proof.
  intros H. unfold pixelsAfterMedianCut.
  destruct (_ =? 0)%nat; [assumption|].
  destruct (_ && _); [|assumption].
  eapply Permutation_Forall; [|exact H].
  symmetry. apply sort_perm.
Qed.

Lemma repeat_gray (n : nat) : Forall (eq gray) (repeat gray n).
Proof.
  apply Forall_forall. intros x Hx. symmetry. eapply repeat_spec, Hx.
Qed.

(** The de-duplicated quantization of [n] gray pixels. *)
Lemma quantize_gray (n : nat) :
  (1 <= n)%nat ->
  removeDuplicates (medianCut (repeat gray n) 20) 30
  = [graySwatch (Z.of_nat n)].
Proof.
  intros Hn. unfold medianCut.
  replace (length (repeat gray n) =? 0)%nat with false
    by (destruct n; [lia | reflexivity]).
  destruct (@splitLoop_invariant (Z.to_nat 20) 20 [repeat gray n]
              (repeat gray n)) as (H1 & H2 & H3 & H4).
  { constructor; [destruct n; [lia | discriminate] | constructor]. }
  { cbn [concat]. now rewrite app_nil_r. }
  { cbn. lia. }
  set (out := splitLoop (Z.to_nat 20) 20 [repeat gray n]) in *.
  assert (Hg : Forall (Forall (eq gray)) out).
  { apply Forall_forall. intros bk Hbk. apply Forall_forall. intros x Hx.
    assert (Hc : In x (concat out)) by (apply in_concat; eauto).
    apply (Permutation_in _ H2) in Hc.
    symmetry. eapply repeat_spec, Hc. }
  rewrite (colors_gray H1 Hg).
  rewrite <- (map_map (fun bk : list Rgb => Z.of_nat (length bk)) graySwatch).
  rewrite removeDuplicates_gray.
  - rewrite lengths_sum, (Permutation_length H2), repeat_length. reflexivity.
  - cbn [length] in H4. destruct out; [cbn in H4; lia | discriminate].
Qed.

(** C3, as the code has it.  For [n >= 1] gray pixels (128,128,128):
    [medianCut] returns [min(n, 20)] swatches, which [removeDuplicates]
    merges into one swatch of population [n]; neither accent pass adds a
    colour; the light tokens are the fallback constants; the dark tokens
    are the fallback [bg] and [surface], the gray itself as [border], the
    forced pair as heading and text, and the light mode's primary
    [#0071e3] as [primary]. *)
Theorem gray_image_tokens (Math_log : Q -> Q) (n : nat) :
  (1 <= n)%nat ->
  let pixels := repeat gray n in
  let quantized := removeDuplicates (medianCut pixels 20) 30 in
  Z.of_nat (length (medianCut pixels 20)) = Z.min (Z.of_nat n) 20
  /\ quantized = [graySwatch (Z.of_nat n)]
  /\ extractVibrantColors (pixelsAfterMedianCut pixels 20) quantized = []
  /\ extractBrandColors (pixelsAfterMedianCut pixels 20) quantized = []
  /\ assemblePalette pixels = [graySwatch (Z.of_nat n)]
  /\ generateTokens Math_log (assemblePalette pixels) None None None
     = Some (mkTokens
               (mkTokenSet "#f7f7f7" "#ffffff" "#e0e0e0" "#333333" "#1a1a1a"
                           "#555555" "#0071e3" "#ffffff")
               (mkTokenSet "#0b0b0b" "#141414" "#808080" "#c0c0c0" "#ffffff"
                           "#d0d0d0" "#0071e3" "#ffffff")
               []).
Proof.
  intros Hn pixels quantized.
  assert (Hq : quantized = [graySwatch (Z.of_nat n)])
    by (apply quantize_gray; exact Hn).
  assert (Hpx : Forall (eq gray) (pixelsAfterMedianCut pixels 20))
    by (apply pixelsAfterMedianCut_gray, repeat_gray).
  assert (Hv : extractVibrantColors (pixelsAfterMedianCut pixels 20) quantized
               = []).
  { unfold extractVibrantColors. now rewrite (vibrantBuckets_gray Hpx). }
  assert (Hb : extractBrandColors (pixelsAfterMedianCut pixels 20) quantized
               = []).
  { unfold extractBrandColors. now rewrite (brandRanges_gray Hpx). }
  assert (Ha : assemblePalette pixels = [graySwatch (Z.of_nat n)]).
  { unfold assemblePalette. cbv zeta. fold pixels. fold quantized.
    rewrite Hv. cbn [length Nat.ltb Nat.leb]. rewrite Hb.
    cbn [length Nat.ltb Nat.leb]. rewrite Hq. reflexivity. }
  split.
  { rewrite medianCut_length.
    - unfold pixels. now rewrite repeat_length.
    - unfold pixels. destruct n; [lia | discriminate].
    - lia. }
  split; [exact Hq|]. split; [exact Hv|]. split; [exact Hb|].
  split; [exact Ha|].
  rewrite Ha. vm_compute. reflexivity.
Qed.

Lemma gray_image_tokens_witness :
  (1 <= 40)%nat
  /\ assemblePalette (repeat gray 40) = [graySwatch 40]
  /\ generateTokens log2_floor (assemblePalette (repeat gray 40))
       None None None
     = Some (mkTokens
               (mkTokenSet "#f7f7f7" "#ffffff" "#e0e0e0" "#333333" "#1a1a1a"
                           "#555555" "#0071e3" "#ffffff")
               (mkTokenSet "#0b0b0b" "#141414" "#808080" "#c0c0c0" "#ffffff"
                           "#d0d0d0" "#0071e3" "#ffffff")
               []).
Proof.
  split; [lia|].
  assert (H : (1 <= 40)%nat) by lia.
  split; apply (@gray_image_tokens log2_floor 40 H).
Defined.

(** C3, as stated, fails: two gray pixels are quantized to two swatches,
    not one, and the dark primary is the reused light primary [#0071e3],
    not [#409cff] (nor is the dark border the fallback [#2a2a2a]). *)
Lemma gray_image_not_all_fallbacks :
  length (medianCut (repeat gray 2) 20) = 2%nat
  /\ option_map (fun t => (t.(dark).(primary), t.(dark).(border)))
       (generateTokens log2_floor (assemblePalette (repeat gray 2))
          None None None)
     = Some ("#0071e3", "#808080")
  /\ "#0071e3" <> "#409cff".
Proof.
  split; [vm_compute; reflexivity|]. split; [|discriminate].
  vm_compute. reflexivity.
Qed.

(* ================================================================== *)
(** * Further properties *)
(* ================================================================== *)

(** ** The token sets in more detail *)

Section TokenDetails.

Variable Math_log : Q -> Q.
Variable palette : list Swatch.
Hypothesis palette_fine : palette_ok palette.

Lemma lightMutedText_contrast (surfaceRgb : Rgb)
    (heading0 text0 muted0 : string) :
  0.85 < lum surfaceRgb ->
  lightMutedText (map analyze palette) (Some surfaceRgb) heading0 text0
  = Some muted0 ->
  contrastAtLeast 5.5 surfaceRgb muted0.
Proof.
  intros Hs. unfold lightMutedText.
  destruct (if JS.truthy text0 then _ else _) as [q|]; [|discriminate].
  cbn [JS.bind rgbOr]. apply ensureContrast_guarantee.
  exists (mkRgb 85 85 85). split; [reflexivity|].
  assert (L : lum (mkRgb 85 85 85) <= 0.1)
    by (apply Qle_bool_imp_le; vm_compute; reflexivity).
  assert (N : 0 <= lum (mkRgb 85 85 85))
    by (apply lum_nonneg; unfold rgb_ok, channel_ok; cbn; lia).
  revert L N. generalize (mkRgb 85 85 85). intros c L N.
  apply (@contrast_from_bounds 5.5 0.1 0.85 c surfaceRgb); lra.
Qed.

Lemma darkMutedText_contrast (surfaceRgb : Rgb)
    (heading0 text0 muted0 : string) :
  rgb_ok surfaceRgb -> lum surfaceRgb < 0.05 ->
  darkMutedText (map analyze palette) (Some surfaceRgb) heading0 text0
  = Some muted0 ->
  contrastAtLeast 5.5 surfaceRgb muted0.
Proof.
  intros Hok Hs. unfold darkMutedText.
  destruct (if JS.truthy text0 then _ else _) as [q|]; [|discriminate].
  cbn [JS.bind rgbOr]. apply ensureContrast_guarantee.
  exists (mkRgb 208 208 208). split; [reflexivity|].
  assert (L : 0.6 <= lum (mkRgb 208 208 208))
    by (apply Qle_bool_imp_le; vm_compute; reflexivity).
  pose proof (lum_nonneg Hok) as N.
  revert L. generalize (mkRgb 208 208 208). intros c L.
  apply (@contrast_from_bounds 5.5 0.05 0.6 surfaceRgb c); lra.
Qed.

(** The primary pair of the light mode: the branch that looks for a
    better primary is never reached ([white_or_black]). *)
Lemma lightPrimaryTokens_contrast (lock : option string) (lp : Analyzed) :
  coherent lp ->
  let po := lightPrimaryTokens (map analyze palette) lock (Some lp) in
  fst po = lp.(hex)
  /\ (snd po = "#ffffff" \/ snd po = "#000000")
  /\ exists q, tokenContrast (fst po) (snd po) = Some q /\ 4.5 <= q.
Proof.
  intros [Hok Hhex]. cbv zeta. unfold lightPrimaryTokens.
  destruct (getContrastRatio lp white >=? 4.5) eqn:W.
  - cbn [fst snd]. split; [reflexivity|]. split; [now left|].
    unfold tokenContrast. rewrite Hhex, rgb_eta. cbn [JS.bind].
    change (hexToRgb "#ffffff") with (Some white). cbn [JS.bind].
    eexists. split; [reflexivity|]. now apply geb_ge.
  - pose proof (white_or_black Hok W) as B. rewrite B.
    cbn [fst snd]. split; [reflexivity|]. split; [now right|].
    unfold tokenContrast. rewrite Hhex, rgb_eta. cbn [JS.bind].
    change (hexToRgb "#000000") with (Some black). cbn [JS.bind].
    eexists. split; [reflexivity|]. now apply geb_ge.
Qed.

Lemma darkPrimaryTokens_contrast (dp : Analyzed) :
  coherent dp ->
  let po := darkPrimaryTokens (Some dp) in
  fst po = dp.(hex)
  /\ (snd po = "#ffffff" \/ snd po = "#000000")
  /\ exists q, tokenContrast (fst po) (snd po) = Some q /\ 4.5 <= q.
Proof.
  intros [Hok Hhex]. cbv zeta. unfold darkPrimaryTokens.
  destruct (getContrastRatio dp white >=? 4.5) eqn:W.
  - cbn [fst snd]. split; [reflexivity|]. split; [now left|].
    unfold tokenContrast. rewrite Hhex, rgb_eta. cbn [JS.bind].
    change (hexToRgb "#ffffff") with (Some white). cbn [JS.bind].
    eexists. split; [reflexivity|]. now apply geb_ge.
  - pose proof (white_or_black Hok W) as B. rewrite B.
    cbn [fst snd]. split; [reflexivity|]. split; [now right|].
    unfold tokenContrast. rewrite Hhex, rgb_eta. cbn [JS.bind].
    change (hexToRgb "#000000") with (Some black). cbn [JS.bind].
    eexists. split; [reflexivity|]. now apply geb_ge.
Qed.

(** The light half, with every intermediate value named. *)
Lemma lightMode_shape (lockedPrimary lockedLightBg : option string) :
  let analyzed := map analyze palette in
  let bgc := lightBgCandidate analyzed lockedLightBg in
  let bg0 := useColor bgc "#f7f7f7" in
  let surface0 := lightSurface analyzed bgc bg0 in
  exists surfaceRgb q2 h0 t0 m0 lp,
    hexToRgb surface0 = Some surfaceRgb
    /\ rgb_ok surfaceRgb /\ 0.85 < lum surfaceRgb
    /\ validHex bg0
    /\ lightHeadingText analyzed (Some surfaceRgb) = Some (h0, t0)
    /\ contrastAtLeast 4.5 surfaceRgb h0
    /\ contrastAtLeast 4.5 surfaceRgb t0
    /\ lightMutedText analyzed (Some surfaceRgb) h0 t0 = Some m0
    /\ coherent lp
    /\ lightMode Math_log palette analyzed lockedPrimary lockedLightBg
       = Some (mkTokenSet
                 (lightBgValidated analyzed lockedLightBg bg0 h0 t0 m0)
                 surface0 (lightBorder analyzed q2 bg0 surface0) t0 h0 m0
                 (fst (lightPrimaryTokens analyzed lockedPrimary (Some lp)))
                 (snd (lightPrimaryTokens analyzed lockedPrimary (Some lp))),
               Some lp).
Proof.
  cbv zeta. unfold lightMode.
  set (bgc := lightBgCandidate (map analyze palette) lockedLightBg).
  set (bg0 := useColor bgc "#f7f7f7").
  assert (Vb : validHex bg0).
  { apply useColor_valid; [|discriminate].
    intros c. now apply lightBgCandidate_coherent. }
  destruct (validHex_luminance_or 0.95 Vb) as [q1 ->]. cbn [JS.bind].
  destruct (lightSurface_spec palette_fine bgc bg0)
    as (surfaceRgb & Ps & Hok & Hl).
  set (surface0 := lightSurface (map analyze palette) bgc bg0) in *.
  assert (Vs : validHex surface0) by (unfold validHex; now rewrite Ps).
  destruct (validHex_luminance_or 1 Vs) as [q2 ->]. cbn [JS.bind].
  rewrite (orElse_valid _ Vs), Ps.
  destruct (lightHeadingText_spec palette_fine Hl)
    as (h0 & t0 & Eht & Hne & Ch & Ct).
  rewrite Eht. cbn [JS.bind].
  pose proof (contrastAtLeast_valid Ct) as Vt.
  destruct (lightMutedText_spec palette_fine surfaceRgb h0 Vt)
    as (m0 & Em & Vm).
  rewrite Em. cbn [JS.bind].
  destruct (lightPrimarySelect_spec Math_log palette_fine lockedPrimary h0 t0
              m0 Vs) as (lp & -> & Hlp & _).
  cbn [JS.bind].
  exists surfaceRgb, q2, h0, t0, m0, lp.
  split; [reflexivity|]. repeat (split; [assumption|]).
  destruct (lightPrimaryTokens (map analyze palette) lockedPrimary (Some lp));
    reflexivity.
Qed.

(** The dark half, with every intermediate value named. *)
Lemma darkMode_shape (lockedPrimary lockedDarkBg : option string)
    (lightPrimary : option Analyzed) :
  (forall lp, lightPrimary = Some lp -> coherent lp) ->
  let analyzed := map analyze palette in
  let bgc := darkBgCandidate analyzed lockedDarkBg in
  let bg0 := useColor bgc "#0b0b0b" in
  exists q1 surfaceRgb q2 h0 t0 m0 dp,
    let surface0 := darkSurface analyzed bgc q1 bg0 in
    hexToRgb surface0 = Some surfaceRgb
    /\ rgb_ok surfaceRgb /\ lum surfaceRgb < 0.05
    /\ validHex bg0
    /\ darkHeadingText analyzed (Some surfaceRgb) = Some (h0, t0)
    /\ contrastAtLeast 4.5 surfaceRgb h0
    /\ contrastAtLeast 4.5 surfaceRgb t0
    /\ darkMutedText analyzed (Some surfaceRgb) h0 t0 = Some m0
    /\ coherent dp
    /\ darkMode Math_log palette analyzed lockedPrimary lockedDarkBg
         lightPrimary
       = Some (mkTokenSet
                 (darkBgValidated analyzed lockedDarkBg bg0 h0 t0 m0)
                 surface0 (darkBorder analyzed q2 bg0 surface0) t0 h0 m0
                 (fst (darkPrimaryTokens (Some dp)))
                 (snd (darkPrimaryTokens (Some dp)))).
Proof.
  intros Hlight. cbv zeta. unfold darkMode.
  set (bgc := darkBgCandidate (map analyze palette) lockedDarkBg).
  set (bg0 := useColor bgc "#0b0b0b").
  assert (Vb : validHex bg0).
  { apply useColor_valid; [|discriminate].
    intros c. now apply darkBgCandidate_coherent. }
  destruct (validHex_luminance_or 0.01 Vb) as [q1 ->]. cbn [JS.bind].
  destruct (darkSurface_spec palette_fine bgc q1 bg0)
    as (surfaceRgb & Ps & Hok & Hl).
  set (surface0 := darkSurface (map analyze palette) bgc q1 bg0) in *.
  assert (Vs : validHex surface0) by (unfold validHex; now rewrite Ps).
  destruct (validHex_luminance_or 0.02 Vs) as [q2 ->]. cbn [JS.bind].
  rewrite (orElse_valid _ Vs), Ps.
  destruct (darkHeadingText_spec palette_fine Hok Hl)
    as (h0 & t0 & Eht & Hne & Ch & Ct).
  rewrite Eht. cbn [JS.bind].
  pose proof (contrastAtLeast_valid Ct) as Vt.
  destruct (darkMutedText_spec palette_fine surfaceRgb h0 Vt)
    as (m0 & Em & Vm).
  rewrite Em. cbn [JS.bind].
  destruct (darkPrimarySelect_spec Math_log palette_fine lockedPrimary h0 t0
              m0 Hlight Vs) as (dp & -> & Hdp & _).
  cbn [JS.bind].
  exists q1, surfaceRgb, q2, h0, t0, m0, dp.
  fold surface0. cbv zeta.
  repeat (split; [assumption|]).
  destruct (darkPrimaryTokens (Some dp)); reflexivity.
Qed.

Lemma failsOn_false (token : string) (tokenRgb bgRgb : Rgb) (q : Q) :
  hexToRgb token = Some tokenRgb ->
  failsOn token bgRgb q = false ->
  q <= getContrastRatio tokenRgb bgRgb.
Proof.
  intros P. unfold failsOn. rewrite P. apply ltb_ge.
Qed.

(** A background the validation has looked at passes the three tests, or
    is the fallback. *)
Lemma bgValidated_cases (sorted : list Analyzed) (needs : bool)
    (test : Analyzed -> bool) (cmp : Analyzed -> Analyzed -> Q)
    (bg0 fallbackHex heading0 text0 muted0 : string)
    (bgRgb headingRgb textRgb mutedRgb : Rgb) :
  hexToRgb bg0 = Some bgRgb ->
  hexToRgb heading0 = Some headingRgb ->
  hexToRgb text0 = Some textRgb ->
  hexToRgb muted0 = Some mutedRgb ->
  needs = failsOn heading0 bgRgb 4.5 || failsOn text0 bgRgb 4.5
          || failsOn muted0 bgRgb 3.0 ->
  sorted = JS.sort cmp (List.filter test (map analyze palette)) ->
  (forall c : Analyzed,
     test c = true ->
     failsOn heading0 c 4.5 = false /\ failsOn text0 c 4.5 = false
     /\ failsOn muted0 c 3.0 = false) ->
  let bg1 := if needs
             then match sorted with
                  | c :: _ => c.(hex)
                  | [] => fallbackHex
                  end
             else bg0 in
  bg1 = fallbackHex
  \/ exists c, hexToRgb bg1 = Some c
               /\ 4.5 <= getContrastRatio headingRgb c
               /\ 4.5 <= getContrastRatio textRgb c
               /\ 3.0 <= getContrastRatio mutedRgb c.
Proof.
  intros Pb Ph Pt Pm -> -> Htest. cbv zeta.
  destruct (failsOn heading0 bgRgb 4.5) eqn:F1;
    [|destruct (failsOn text0 bgRgb 4.5) eqn:F2;
      [|destruct (failsOn muted0 bgRgb 3.0) eqn:F3]];
    cbn [orb].
  4: { right. exists bgRgb. split; [assumption|].
       split; [eapply failsOn_false; eassumption|].
       split; eapply failsOn_false; eassumption. }
  all: destruct (JS.sort cmp _) as [|c cs] eqn:E; [now left|]; right;
    assert (H : In c (c :: cs)) by (now left);
    rewrite <- E, sort_In in H; apply filter_In in H as [Hc Hf];
    destruct (analyzed_In_coherent palette_fine _ Hc) as [_ Hhex];
    destruct (Htest c Hf) as (T1 & T2 & T3);
    exists (mkRgb c.(r) c.(g) c.(b)); (split; [assumption|]);
    rewrite rgb_eta;
    (split; [eapply failsOn_false; eassumption|]);
    split; eapply failsOn_false; eassumption.
Qed.

Lemma lightBgValidated_cases (bg0 heading0 text0 muted0 : string)
    (headingRgb textRgb mutedRgb : Rgb) :
  validHex bg0 ->
  hexToRgb heading0 = Some headingRgb ->
  hexToRgb text0 = Some textRgb ->
  hexToRgb muted0 = Some mutedRgb ->
  let bg1 := lightBgValidated (map analyze palette) None bg0 heading0 text0
               muted0 in
  bg1 = "#f7f7f7"
  \/ exists c, hexToRgb bg1 = Some c
               /\ 4.5 <= getContrastRatio headingRgb c
               /\ 4.5 <= getContrastRatio textRgb c
               /\ 3.0 <= getContrastRatio mutedRgb c.
Proof.
  intros Vb Ph Pt Pm. unfold validHex in Vb.
  destruct (hexToRgb bg0) as [bgRgb|] eqn:Pb; [|congruence].
  unfold lightBgValidated. rewrite Pb. cbn [isSet].
  eapply bgValidated_cases; try eassumption; try reflexivity.
  intros c Hc. cbv beta in Hc.
  destruct (c.(luminance) <? 0.65); [discriminate|].
  destruct (failsOn heading0 c 4.5); [discriminate|].
  destruct (failsOn text0 c 4.5); [discriminate|].
  destruct (failsOn muted0 c 3.0); [discriminate|]. auto.
Qed.

Lemma darkBgValidated_cases (bg0 heading0 text0 muted0 : string)
    (headingRgb textRgb mutedRgb : Rgb) :
  validHex bg0 ->
  hexToRgb heading0 = Some headingRgb ->
  hexToRgb text0 = Some textRgb ->
  hexToRgb muted0 = Some mutedRgb ->
  let bg1 := darkBgValidated (map analyze palette) None bg0 heading0 text0
               muted0 in
  bg1 = "#0b0b0b"
  \/ exists c, hexToRgb bg1 = Some c
               /\ 4.5 <= getContrastRatio headingRgb c
               /\ 4.5 <= getContrastRatio textRgb c
               /\ 3.0 <= getContrastRatio mutedRgb c.
Proof.
  intros Vb Ph Pt Pm. unfold validHex in Vb.
  destruct (hexToRgb bg0) as [bgRgb|] eqn:Pb; [|congruence].
  unfold darkBgValidated. rewrite Pb. cbn [isSet].
  eapply bgValidated_cases; try eassumption; try reflexivity.
  intros c Hc. cbv beta in Hc.
  destruct (c.(luminance) >? 0.15); [discriminate|].
  destruct (failsOn heading0 c 4.5); [discriminate|].
  destruct (failsOn text0 c 4.5); [discriminate|].
  destruct (failsOn muted0 c 3.0); [discriminate|]. auto.
Qed.

(** With a lock in force the background is not validated. *)
Lemma lightBgValidated_locked (lock : option string) (lock0 : string)
    (bg0 heading0 text0 muted0 : string) :
  isSet lock = Some lock0 ->
  lightBgValidated (map analyze palette) lock bg0 heading0 text0 muted0 = bg0.
Proof.
  intros H. unfold lightBgValidated. rewrite H.
  now destruct (hexToRgb bg0).
Qed.

Lemma darkBgValidated_locked (lock : option string) (lock0 : string)
    (bg0 heading0 text0 muted0 : string) :
  isSet lock = Some lock0 ->
  darkBgValidated (map analyze palette) lock bg0 heading0 text0 muted0 = bg0.
Proof.
  intros H. unfold darkBgValidated. rewrite H.
  now destruct (hexToRgb bg0).
Qed.

(** What the light half returns. *)
Lemma lightMode_facts (lockedPrimary lockedLightBg : option string) :
  exists t lp surfaceRgb,
    lightMode Math_log palette (map analyze palette) lockedPrimary
      lockedLightBg = Some (t, Some lp)
    /\ coherent lp
    /\ (hexToRgb t.(surface) = Some surfaceRgb
        /\ rgb_ok surfaceRgb /\ 0.85 < lum surfaceRgb)
    /\ (contrastAtLeast 4.5 surfaceRgb t.(heading)
        /\ contrastAtLeast 4.5 surfaceRgb t.(text)
        /\ contrastAtLeast 5.5 surfaceRgb t.(mutedText))
    /\ (t.(primary) = lp.(hex)
        /\ (t.(onPrimary) = "#ffffff" \/ t.(onPrimary) = "#000000")
        /\ exists q, tokenContrast t.(primary) t.(onPrimary) = Some q
                     /\ 4.5 <= q)
    /\ (validHex t.(bg) /\ validHex t.(border))
    /\ t.(bg) = lightBgValidated (map analyze palette) lockedLightBg
                  (useColor
                     (lightBgCandidate (map analyze palette) lockedLightBg)
                     "#f7f7f7")
                  t.(heading) t.(text) t.(mutedText).
Proof.
  destruct (lightMode_shape lockedPrimary lockedLightBg)
    as (surfaceRgb & q2 & h0 & t0 & m0 & lp & Ps & Hok & Hl & Vb & Eht & Ch
        & Ct & Em & Hlp & E).
  cbv zeta in E.
  eexists _, lp, surfaceRgb. split; [exact E|]. cbn [bg surface border text
    heading mutedText primary onPrimary].
  split; [exact Hlp|].
  split; [split; [exact Ps | split; [exact Hok | exact Hl]]|].
  split; [split; [exact Ch | split; [exact Ct|]]|].
  { eapply lightMutedText_contrast; eassumption. }
  split; [apply (lightPrimaryTokens_contrast lockedPrimary Hlp)|].
  split; [|reflexivity].
  split; [now apply lightBgValidated_valid | now apply lightBorder_valid].
Qed.

(** What the dark half returns. *)
Lemma darkMode_facts (lockedPrimary lockedDarkBg : option string)
    (lightPrimary : option Analyzed) :
  (forall lp, lightPrimary = Some lp -> coherent lp) ->
  exists t dp surfaceRgb,
    darkMode Math_log palette (map analyze palette) lockedPrimary
      lockedDarkBg lightPrimary = Some t
    /\ coherent dp
    /\ (hexToRgb t.(surface) = Some surfaceRgb
        /\ rgb_ok surfaceRgb /\ lum surfaceRgb < 0.05)
    /\ (contrastAtLeast 4.5 surfaceRgb t.(heading)
        /\ contrastAtLeast 4.5 surfaceRgb t.(text)
        /\ contrastAtLeast 5.5 surfaceRgb t.(mutedText))
    /\ (t.(primary) = dp.(hex)
        /\ (t.(onPrimary) = "#ffffff" \/ t.(onPrimary) = "#000000")
        /\ exists q, tokenContrast t.(primary) t.(onPrimary) = Some q
                     /\ 4.5 <= q)
    /\ (validHex t.(bg) /\ validHex t.(border))
    /\ t.(bg) = darkBgValidated (map analyze palette) lockedDarkBg
                  (useColor
                     (darkBgCandidate (map analyze palette) lockedDarkBg)
                     "#0b0b0b")
                  t.(heading) t.(text) t.(mutedText).
Proof.
  intros Hlight.
  destruct (darkMode_shape lockedPrimary lockedDarkBg Hlight)
    as (q1 & surfaceRgb & q2 & h0 & t0 & m0 & dp & Ps & Hok & Hl & Vb & Eht
        & Ch & Ct & Em & Hdp & E).
  cbv zeta in E.
  eexists _, dp, surfaceRgb. split; [exact E|]. cbn [bg surface border text
    heading mutedText primary onPrimary].
  split; [exact Hdp|].
  split; [split; [exact Ps | split; [exact Hok | exact Hl]]|].
  split; [split; [exact Ch | split; [exact Ct|]]|].
  { eapply darkMutedText_contrast; eassumption. }
  split; [apply (darkPrimaryTokens_contrast Hdp)|].
  split; [|reflexivity].
  split; [now apply darkBgValidated_valid | now apply darkBorder_valid].
Qed.

End TokenDetails.

(** Opens [generateTokens] on a palette of in-range swatches: names the
    two token sets and what is known about them. *)
Ltac open_generateTokens Math_log Hp lockedPrimary lockedLightBg
                         lockedDarkBg :=
  destruct (lightMode_facts Math_log Hp lockedPrimary lockedLightBg)
    as (lt & lp & sl & El & Hlp & (Psl & Hokl & Hll) & (Chl & Ctl & Cml)
        & (Epl & Hol & Cpl) & (Vbl & Vol) & Ebl);
  destruct (@darkMode_facts Math_log _ Hp lockedPrimary lockedDarkBg
              (Some lp))
    as (dt & dp & sd & Ed & Hdp & (Psd & Hokd & Hld) & (Chd & Ctd & Cmd)
        & (Epd & Hod & Cpd) & (Vbd & Vod) & Ebd);
  [intros ? [= <-]; exact Hlp|];
  exists (mkTokens lt dt []); split;
  [unfold generateTokens; rewrite El; cbn [JS.bind]; rewrite Ed; reflexivity|];
  cbn [light dark].

Lemma contrastAtLeast_token (q : Q) (surfaceRgb : Rgb)
    (token surface0 : string) :
  hexToRgb surface0 = Some surfaceRgb ->
  contrastAtLeast q surfaceRgb token ->
  exists q', tokenContrast token surface0 = Some q' /\ q <= q'.
Proof.
  intros Ps (c & Pc & Hc). unfold tokenContrast. rewrite Pc, Ps.
  cbn [JS.bind]. eauto.
Qed.

(** X1. In both modes the muted text reaches a contrast of 5.5 against
    the surface, for every palette of in-range swatches and every
    combination of locks. *)
Theorem muted_text_contrast (Math_log : Q -> Q) (palette : list Swatch)
    (lockedPrimary lockedLightBg lockedDarkBg : option string) :
  palette_ok palette ->
  exists t,
    generateTokens Math_log palette lockedPrimary lockedLightBg lockedDarkBg
    = Some t
    /\ (exists q, tokenContrast t.(light).(mutedText) t.(light).(surface)
                  = Some q /\ 5.5 <= q)
    /\ (exists q, tokenContrast t.(dark).(mutedText) t.(dark).(surface)
                  = Some q /\ 5.5 <= q).
Proof.
  intros Hp.
  open_generateTokens Math_log Hp lockedPrimary lockedLightBg lockedDarkBg.
  split; eapply contrastAtLeast_token; eassumption.
Qed.

Lemma muted_text_contrast_witness :
  palette_ok examplePalette
  /\ exists t,
       generateTokens log2_floor examplePalette None None None = Some t
       /\ (exists q, tokenContrast t.(light).(mutedText) t.(light).(surface)
                     = Some q /\ 5.5 <= q)
       /\ (exists q, tokenContrast t.(dark).(mutedText) t.(dark).(surface)
                     = Some q /\ 5.5 <= q).
Proof.
  split; [exact examplePalette_ok|].
  apply (@muted_text_contrast log2_floor examplePalette None None None
           examplePalette_ok).
Defined.

(** X2. In both modes [onPrimary] is white or black, and it reaches a
    contrast of 4.5 against [primary], for every palette of in-range
    swatches and every combination of locks (a locked primary
    included). *)
Theorem on_primary_contrast (Math_log : Q -> Q) (palette : list Swatch)
    (lockedPrimary lockedLightBg lockedDarkBg : option string) :
  palette_ok palette ->
  exists t,
    generateTokens Math_log palette lockedPrimary lockedLightBg lockedDarkBg
    = Some t
    /\ (t.(light).(onPrimary) = "#ffffff"
        \/ t.(light).(onPrimary) = "#000000")
    /\ (t.(dark).(onPrimary) = "#ffffff" \/ t.(dark).(onPrimary) = "#000000")
    /\ (exists q, tokenContrast t.(light).(primary) t.(light).(onPrimary)
                  = Some q /\ 4.5 <= q)
    /\ (exists q, tokenContrast t.(dark).(primary) t.(dark).(onPrimary)
                  = Some q /\ 4.5 <= q).
Proof.
  intros Hp.
  open_generateTokens Math_log Hp lockedPrimary lockedLightBg lockedDarkBg.
  auto.
Qed.

Lemma on_primary_contrast_witness :
  palette_ok examplePalette
  /\ exists t,
       generateTokens log2_floor examplePalette (Some "#ffee00") None None
       = Some t
       /\ (t.(light).(onPrimary) = "#ffffff"
           \/ t.(light).(onPrimary) = "#000000")
       /\ (t.(dark).(onPrimary) = "#ffffff"
           \/ t.(dark).(onPrimary) = "#000000")
       /\ (exists q, tokenContrast t.(light).(primary) t.(light).(onPrimary)
                     = Some q /\ 4.5 <= q)
       /\ (exists q, tokenContrast t.(dark).(primary) t.(dark).(onPrimary)
                     = Some q /\ 4.5 <= q).
Proof.
  split; [exact examplePalette_ok|].
  apply (@on_primary_contrast log2_floor examplePalette (Some "#ffee00") None
           None examplePalette_ok).
Defined.

(** X3. The light surface always has a luminance above 0.85 and the dark
    surface one below 0.05, whatever the palette and the locks. *)
Theorem surface_luminance (Math_log : Q -> Q) (palette : list Swatch)
    (lockedPrimary lockedLightBg lockedDarkBg : option string) :
  palette_ok palette ->
  exists t,
    generateTokens Math_log palette lockedPrimary lockedLightBg lockedDarkBg
    = Some t
    /\ (exists q, hexLuminance t.(light).(surface) = Some q /\ 0.85 < q)
    /\ (exists q, hexLuminance t.(dark).(surface) = Some q /\ q < 0.05).
Proof.
  intros Hp.
  open_generateTokens Math_log Hp lockedPrimary lockedLightBg lockedDarkBg.
  unfold hexLuminance. rewrite Psl, Psd. cbn [JS.bind].
  split; eexists; (split; [reflexivity | assumption]).
Qed.

Lemma surface_luminance_witness :
  palette_ok examplePalette
  /\ exists t,
       generateTokens log2_floor examplePalette None (Some "#101010") None
       = Some t
       /\ (exists q, hexLuminance t.(light).(surface) = Some q /\ 0.85 < q)
       /\ (exists q, hexLuminance t.(dark).(surface) = Some q /\ q < 0.05).
Proof.
  split; [exact examplePalette_ok|].
  apply (@surface_luminance log2_floor examplePalette None (Some "#101010")
           None examplePalette_ok).
Defined.

Lemma locked_bg (palette : list Swatch) (lock : string) (c0 : Rgb)
    (fallbackHex : string) :
  palette_ok palette ->
  hexToRgb lock = Some c0 ->
  let bg0 := useColor (resolveLocked (map analyze palette) lock)
               fallbackHex in
  JS.toLowerCase bg0 = JS.toLowerCase lock
  /\ (JS.toLowerCase lock = lock -> bg0 = lock).
Proof.
  intros Hp P. cbv zeta.
  destruct (@resolveLocked_parseable (map analyze palette) lock c0 P)
    as (c & -> & Hlow & Hc).
  cbn [useColor]. split; [exact Hlow|].
  intros Hl. destruct Hc as [Hc | Hc]; [exact Hc|].
  now rewrite <- (@coherent_hex_lower palette c Hp Hc), Hlow.
Qed.

(** X4. A locked background that parses is taken as it is: the [bg]
    token of that mode equals the lock up to letter case, and equals it
    verbatim when the lock is written in lower case.  It is not replaced
    by the contrast validation. *)
Theorem locked_background_honoured (Math_log : Q -> Q)
    (palette : list Swatch) (lock : string) (c0 : Rgb)
    (lockedPrimary : option string) :
  palette_ok palette ->
  hexToRgb lock = Some c0 ->
  (forall lockedDarkBg, exists t,
     generateTokens Math_log palette lockedPrimary (Some lock) lockedDarkBg
     = Some t
     /\ JS.toLowerCase t.(light).(bg) = JS.toLowerCase lock
     /\ (JS.toLowerCase lock = lock -> t.(light).(bg) = lock))
  /\ (forall lockedLightBg, exists t,
        generateTokens Math_log palette lockedPrimary lockedLightBg
          (Some lock) = Some t
        /\ JS.toLowerCase t.(dark).(bg) = JS.toLowerCase lock
        /\ (JS.toLowerCase lock = lock -> t.(dark).(bg) = lock)).
Proof.
  intros Hp P. pose proof (@isSet_parseable lock c0 P) as S. split.
  - intros lockedDarkBg.
    open_generateTokens Math_log Hp lockedPrimary (Some lock) lockedDarkBg.
    rewrite Ebl, (lightBgValidated_locked _ _ _ _ _ _ S).
    unfold lightBgCandidate. rewrite S.
    now apply locked_bg with c0.
  - intros lockedLightBg.
    open_generateTokens Math_log Hp lockedPrimary lockedLightBg (Some lock).
    rewrite Ebd, (darkBgValidated_locked _ _ _ _ _ _ S).
    unfold darkBgCandidate. rewrite S.
    now apply locked_bg with c0.
Qed.

Lemma locked_background_honoured_witness :
  (palette_ok examplePalette
   /\ hexToRgb "#EEEEEE" = Some (mkRgb 238 238 238))
  /\ (forall lockedDarkBg, exists t,
        generateTokens log2_floor examplePalette None (Some "#EEEEEE")
          lockedDarkBg = Some t
        /\ JS.toLowerCase t.(light).(bg) = JS.toLowerCase "#EEEEEE"
        /\ (JS.toLowerCase "#EEEEEE" = "#EEEEEE"
            -> t.(light).(bg) = "#EEEEEE"))
  /\ (forall lockedLightBg, exists t,
        generateTokens log2_floor examplePalette None lockedLightBg
          (Some "#EEEEEE") = Some t
        /\ JS.toLowerCase t.(dark).(bg) = JS.toLowerCase "#EEEEEE"
        /\ (JS.toLowerCase "#EEEEEE" = "#EEEEEE"
            -> t.(dark).(bg) = "#EEEEEE")).
Proof.
  split; [split; [exact examplePalette_ok | reflexivity]|].
  apply (@locked_background_honoured log2_floor examplePalette "#EEEEEE"
           (mkRgb 238 238 238) None examplePalette_ok).
  reflexivity.
Defined.

(** X5. A background lock that is not empty and does not parse is not
    ignored: it forces the fallback background of its mode, ["#f7f7f7"]
    or ["#0b0b0b"], and switches the contrast validation off. *)
Theorem unparseable_background_lock (Math_log : Q -> Q)
    (palette : list Swatch) (lock : string)
    (lockedPrimary : option string) :
  palette_ok palette ->
  JS.truthy lock = true ->
  hexToRgb lock = None ->
  (forall lockedDarkBg, exists t,
     generateTokens Math_log palette lockedPrimary (Some lock) lockedDarkBg
     = Some t
     /\ t.(light).(bg) = "#f7f7f7")
  /\ (forall lockedLightBg, exists t,
        generateTokens Math_log palette lockedPrimary lockedLightBg
          (Some lock) = Some t
        /\ t.(dark).(bg) = "#0b0b0b").
Proof.
  intros Hp T P.
  assert (S : isSet (Some lock) = Some lock) by (cbn; now rewrite T).
  pose proof (@resolveLocked_unparseable (map analyze palette) lock
                (analyzed_coherent Hp) P) as R.
  split.
  - intros lockedDarkBg.
    open_generateTokens Math_log Hp lockedPrimary (Some lock) lockedDarkBg.
    rewrite Ebl, (lightBgValidated_locked _ _ _ _ _ _ S).
    unfold lightBgCandidate. now rewrite S, R.
  - intros lockedLightBg.
    open_generateTokens Math_log Hp lockedPrimary lockedLightBg (Some lock).
    rewrite Ebd, (darkBgValidated_locked _ _ _ _ _ _ S).
    unfold darkBgCandidate. now rewrite S, R.
Qed.

Lemma unparseable_background_lock_witness :
  (palette_ok examplePalette /\ JS.truthy "zebra" = true
   /\ hexToRgb "zebra" = None)
  /\ (forall lockedDarkBg, exists t,
        generateTokens log2_floor examplePalette None (Some "zebra")
          lockedDarkBg = Some t
        /\ t.(light).(bg) = "#f7f7f7")
  /\ (forall lockedLightBg, exists t,
        generateTokens log2_floor examplePalette None lockedLightBg
          (Some "zebra") = Some t
        /\ t.(dark).(bg) = "#0b0b0b").
Proof.
  split; [split; [exact examplePalette_ok | split; reflexivity]|].
  apply (@unparseable_background_lock log2_floor examplePalette "zebra" None
           examplePalette_ok); reflexivity.
Defined.

Lemma bg_contrasts (bg1 heading0 text0 muted0 fallbackHex : string)
    (headingRgb textRgb mutedRgb : Rgb) :
  hexToRgb heading0 = Some headingRgb ->
  hexToRgb text0 = Some textRgb ->
  hexToRgb muted0 = Some mutedRgb ->
  (bg1 = fallbackHex
   \/ exists c, hexToRgb bg1 = Some c
                /\ 4.5 <= getContrastRatio headingRgb c
                /\ 4.5 <= getContrastRatio textRgb c
                /\ 3.0 <= getContrastRatio mutedRgb c) ->
  bg1 = fallbackHex
  \/ (exists q, tokenContrast heading0 bg1 = Some q /\ 4.5 <= q)
     /\ (exists q, tokenContrast text0 bg1 = Some q /\ 4.5 <= q)
     /\ (exists q, tokenContrast muted0 bg1 = Some q /\ 3.0 <= q).
Proof.
  intros Ph Pt Pm [H | (c & Pc & C1 & C2 & C3)]; [now left | right].
  unfold tokenContrast. rewrite Ph, Pt, Pm, Pc. cbn [JS.bind].
  repeat split; eexists; (split; [reflexivity | assumption]).
Qed.

(** X6. A background that is not locked has been validated: in its mode
    it reaches a contrast of 4.5 against heading and text and of 3.0
    against the muted text, or else it is the last-resort fallback,
    ["#f7f7f7"] or ["#0b0b0b"]. *)
Theorem unlocked_background_validated (Math_log : Q -> Q)
    (palette : list Swatch) (lockedPrimary : option string) :
  palette_ok palette ->
  (forall lockedDarkBg, exists t,
     generateTokens Math_log palette lockedPrimary None lockedDarkBg = Some t
     /\ (t.(light).(bg) = "#f7f7f7"
         \/ (exists q, tokenContrast t.(light).(heading) t.(light).(bg)
                       = Some q /\ 4.5 <= q)
            /\ (exists q, tokenContrast t.(light).(text) t.(light).(bg)
                          = Some q /\ 4.5 <= q)
            /\ (exists q, tokenContrast t.(light).(mutedText) t.(light).(bg)
                          = Some q /\ 3.0 <= q)))
  /\ (forall lockedLightBg, exists t,
        generateTokens Math_log palette lockedPrimary lockedLightBg None
        = Some t
        /\ (t.(dark).(bg) = "#0b0b0b"
            \/ (exists q, tokenContrast t.(dark).(heading) t.(dark).(bg)
                          = Some q /\ 4.5 <= q)
               /\ (exists q, tokenContrast t.(dark).(text) t.(dark).(bg)
                             = Some q /\ 4.5 <= q)
               /\ (exists q, tokenContrast t.(dark).(mutedText) t.(dark).(bg)
                             = Some q /\ 3.0 <= q))).
Proof.
  intros Hp. split.
  - intros lockedDarkBg.
    open_generateTokens Math_log Hp lockedPrimary (@None string) lockedDarkBg.
    destruct Chl as (hr & Ph & _). destruct Ctl as (tr & Pt & _).
    destruct Cml as (mr & Pm & _).
    apply bg_contrasts with hr tr mr; try assumption.
    rewrite Ebl. apply lightBgValidated_cases; try assumption.
    apply useColor_valid; [|discriminate].
    intros c. now apply lightBgCandidate_coherent.
  - intros lockedLightBg.
    open_generateTokens Math_log Hp lockedPrimary lockedLightBg (@None string).
    destruct Chd as (hr & Ph & _). destruct Ctd as (tr & Pt & _).
    destruct Cmd as (mr & Pm & _).
    apply bg_contrasts with hr tr mr; try assumption.
    rewrite Ebd. apply darkBgValidated_cases; try assumption.
    apply useColor_valid; [|discriminate].
    intros c. now apply darkBgCandidate_coherent.
Qed.

Lemma unlocked_background_validated_witness :
  palette_ok examplePalette
  /\ (forall lockedDarkBg, exists t,
        generateTokens log2_floor examplePalette None None lockedDarkBg
        = Some t
        /\ (t.(light).(bg) = "#f7f7f7"
            \/ (exists q, tokenContrast t.(light).(heading) t.(light).(bg)
                          = Some q /\ 4.5 <= q)
               /\ (exists q, tokenContrast t.(light).(text) t.(light).(bg)
                             = Some q /\ 4.5 <= q)
               /\ (exists q, tokenContrast t.(light).(mutedText)
                               t.(light).(bg) = Some q /\ 3.0 <= q)))
  /\ (forall lockedLightBg, exists t,
        generateTokens log2_floor examplePalette None lockedLightBg None
        = Some t
        /\ (t.(dark).(bg) = "#0b0b0b"
            \/ (exists q, tokenContrast t.(dark).(heading) t.(dark).(bg)
                          = Some q /\ 4.5 <= q)
               /\ (exists q, tokenContrast t.(dark).(text) t.(dark).(bg)
                             = Some q /\ 4.5 <= q)
               /\ (exists q, tokenContrast t.(dark).(mutedText)
                               t.(dark).(bg) = Some q /\ 3.0 <= q))).
Proof.
  split; [exact examplePalette_ok|].
  apply (@unlocked_background_validated log2_floor examplePalette None
           examplePalette_ok).
Defined.

(** ** The contrast report of the previews *)

(** On a token set whose fields all parse, [getContrastChecks] does not
    throw and returns the six checks in order. *)
Lemma getContrastChecks_valid (t : TokenSet)
    (bgRgb surfaceRgb headingRgb textRgb mutedRgb primaryRgb onPrimaryRgb
     : Rgb) :
  hexToRgb t.(bg) = Some bgRgb ->
  hexToRgb t.(surface) = Some surfaceRgb ->
  hexToRgb t.(heading) = Some headingRgb ->
  hexToRgb t.(text) = Some textRgb ->
  hexToRgb t.(mutedText) = Some mutedRgb ->
  hexToRgb t.(primary) = Some primaryRgb ->
  hexToRgb t.(onPrimary) = Some onPrimaryRgb ->
  let r1 := getContrastRatio headingRgb bgRgb in
  let r2 := getContrastRatio textRgb bgRgb in
  let r3 := getContrastRatio mutedRgb bgRgb in
  let r4 := getContrastRatio headingRgb surfaceRgb in
  let r5 := getContrastRatio textRgb surfaceRgb in
  let r6 := getContrastRatio primaryRgb onPrimaryRgb in
  getContrastChecks t
  = Some [ Contrast.mkCheck "heading/bg" r1 4.5 (r1 >=? 4.5) false;
           Contrast.mkCheck "text/bg" r2 4.5 (r2 >=? 4.5) false;
           Contrast.mkCheck "mutedText/bg" r3 3.0 (r3 >=? 3.0)
             ((r3 >=? 3.0) && (r3 <? 4.5));
           Contrast.mkCheck "heading/surface" r4 4.5 (r4 >=? 4.5) false;
           Contrast.mkCheck "text/surface" r5 4.5 (r5 >=? 4.5) false;
           Contrast.mkCheck "onPrimary/primary" r6 4.5 (r6 >=? 4.5) false ].
Proof.
  intros Pb Ps Ph Pt Pm Pp Po. cbv zeta.
  unfold getContrastChecks, pushCheck.
  rewrite Pb, Ps, Ph, Pt, Pm, Pp, Po.
  rewrite (hexToRgb_truthy _ Ph), (hexToRgb_truthy _ Pt),
    (hexToRgb_truthy _ Pm), (hexToRgb_truthy _ Pp), (hexToRgb_truthy _ Po).
  reflexivity.
Qed.

(** X7. For the tokens [generateTokens] returns, [getContrastChecks] does
    not throw; in each mode it reports the six checks, in the order
    heading/bg, text/bg, mutedText/bg, heading/surface, text/surface,
    onPrimary/primary; and the two surface checks and the primary check
    pass in both modes. *)
Theorem generated_tokens_contrast_report (Math_log : Q -> Q)
    (palette : list Swatch)
    (lockedPrimary lockedLightBg lockedDarkBg : option string) :
  palette_ok palette ->
  exists t,
    generateTokens Math_log palette lockedPrimary lockedLightBg lockedDarkBg
    = Some t
    /\ exists lightChecks darkChecks,
         getContrastChecks t.(light) = Some lightChecks
         /\ getContrastChecks t.(dark) = Some darkChecks
         /\ map Contrast.label lightChecks
            = ["heading/bg"; "text/bg"; "mutedText/bg"; "heading/surface";
               "text/surface"; "onPrimary/primary"]
         /\ map Contrast.label darkChecks
            = ["heading/bg"; "text/bg"; "mutedText/bg"; "heading/surface";
               "text/surface"; "onPrimary/primary"]
         /\ forall k,
              In k (lightChecks ++ darkChecks) ->
              In (Contrast.label k)
                 ["heading/surface"; "text/surface"; "onPrimary/primary"] ->
              Contrast.pass k = true.
Proof.
  intros Hp.
  open_generateTokens Math_log Hp lockedPrimary lockedLightBg lockedDarkBg.
  destruct Chl as (hl & Phl & Chl). destruct Ctl as (tl & Ptl & Ctl).
  destruct Cml as (ml & Pml & _).
  destruct Cpl as (ql & Eql & Cpl). unfold tokenContrast in Eql.
  destruct (hexToRgb lt.(primary)) as [pl|] eqn:Ppl; [|discriminate].
  destruct (hexToRgb lt.(onPrimary)) as [ol|] eqn:Pol; [|discriminate].
  cbn [JS.bind] in Eql. injection Eql as <-.
  unfold validHex in Vbl.
  destruct (hexToRgb lt.(bg)) as [bl|] eqn:Pbl; [|congruence].
  destruct Chd as (hd & Phd & Chd). destruct Ctd as (td & Ptd & Ctd).
  destruct Cmd as (md & Pmd & _).
  destruct Cpd as (qd & Eqd & Cpd). unfold tokenContrast in Eqd.
  destruct (hexToRgb dt.(primary)) as [pd|] eqn:Ppd; [|discriminate].
  destruct (hexToRgb dt.(onPrimary)) as [od|] eqn:Pod; [|discriminate].
  cbn [JS.bind] in Eqd. injection Eqd as <-.
  unfold validHex in Vbd.
  destruct (hexToRgb dt.(bg)) as [bd|] eqn:Pbd; [|congruence].
  eexists _, _.
  split; [exact (getContrastChecks_valid lt Pbl Psl Phl Ptl Pml Ppl Pol)|].
  split; [exact (getContrastChecks_valid dt Pbd Psd Phd Ptd Pmd Ppd Pod)|].
  split; [reflexivity|]. split; [reflexivity|].
  apply geb_ge in Chl, Ctl, Cpl, Chd, Ctd, Cpd.
  intros k Hk Hlabel. cbn [app In] in Hk.
  repeat (destruct Hk as [<- | Hk];
          [cbn [Contrast.label Contrast.pass In] in *;
           first [assumption
                 | exfalso; repeat (destruct Hlabel as [Hlabel | Hlabel];
                                    [discriminate Hlabel|]);
                   exact Hlabel]
          |]).
  destruct Hk.
Qed.

Lemma generated_tokens_contrast_report_witness :
  palette_ok examplePalette
  /\ exists t,
       generateTokens log2_floor examplePalette None None None = Some t
       /\ exists lightChecks darkChecks,
            getContrastChecks t.(light) = Some lightChecks
            /\ getContrastChecks t.(dark) = Some darkChecks
            /\ map Contrast.label lightChecks
               = ["heading/bg"; "text/bg"; "mutedText/bg"; "heading/surface";
                  "text/surface"; "onPrimary/primary"]
            /\ map Contrast.label darkChecks
               = ["heading/bg"; "text/bg"; "mutedText/bg"; "heading/surface";
                  "text/surface"; "onPrimary/primary"]
            /\ forall k,
                 In k (lightChecks ++ darkChecks) ->
                 In (Contrast.label k)
                    ["heading/surface"; "text/surface";
                     "onPrimary/primary"] ->
                 Contrast.pass k = true.
Proof.
  split; [exact examplePalette_ok|].
  apply (@generated_tokens_contrast_report log2_floor examplePalette None
           None None examplePalette_ok).
Defined.

(** ** The pipeline keeps colours in range *)

Lemma round_mean_range (sum n : Z) :
  (0 < n)%Z -> (0 <= sum <= 255 * n)%Z ->
  channel_ok (JS.Math_round (inject_Z sum / inject_Z n)).
Proof.
  intros Hn [H0 H1]. unfold channel_ok, JS.Math_round.
  assert (Pn : 0 < inject_Z n) by (change 0 with (inject_Z 0);
                                   rewrite <- Zlt_Qlt; lia).
  assert (L : 0 <= inject_Z sum / inject_Z n).
  { apply Qle_shift_div_l; [exact Pn|]. rewrite Qmult_0_l.
    change 0 with (inject_Z 0). rewrite <- Zle_Qle. exact H0. }
  assert (U : inject_Z sum / inject_Z n <= 255).
  { apply Qle_shift_div_r; [exact Pn|].
    change 255 with (inject_Z 255). rewrite <- inject_Z_mult, <- Zle_Qle.
    exact H1. }
  split.
  - change 0%Z with (Qfloor 0). apply Qfloor_resp_le. lra.
  - change 255%Z with (Qfloor 255.5). apply Qfloor_resp_le. lra.
Qed.

Lemma sum_rgb_bounds (bucket : list Rgb) :
  Forall rgb_ok bucket ->
  forall acc,
    let sum :=
      fold_left
        (fun acc p => mkRgb (acc.(r) + p.(r)) (acc.(g) + p.(g))
                            (acc.(b) + p.(b)))
        bucket acc in
    (acc.(r) <= sum.(r) <= acc.(r) + 255 * Z.of_nat (length bucket))%Z
    /\ (acc.(g) <= sum.(g) <= acc.(g) + 255 * Z.of_nat (length bucket))%Z
    /\ (acc.(b) <= sum.(b) <= acc.(b) + 255 * Z.of_nat (length bucket))%Z.
Proof.
  induction 1 as [|p rest Hp _ IH]; intros acc; cbn [fold_left length].
  - cbv zeta. lia.
  - specialize (IH (mkRgb (acc.(r) + p.(r)) (acc.(g) + p.(g))
                          (acc.(b) + p.(b)))).
    cbv zeta in *. cbn [r g b] in IH.
    destruct Hp as (Hr & Hg & Hb). unfold channel_ok in *. lia.
Qed.

Lemma bucketColor_ok (bucket : list Rgb) (c : Swatch) :
  Forall rgb_ok bucket ->
  bucketColor bucket = Some c ->
  rgb_ok c /\ (1 <= c.(population))%Z.
Proof.
  intros Hb. unfold bucketColor.
  destruct bucket as [|p rest] eqn:E; [discriminate|]. rewrite <- E in *.
  replace (length bucket =? 0)%nat with false by (subst; reflexivity).
  intros [= <-]. cbn [rgb population r g b].
  assert (Hn : (0 < Z.of_nat (length bucket))%Z) by (subst; cbn; lia).
  pose proof (sum_rgb_bounds Hb (mkRgb 0 0 0)) as S. cbv zeta in S.
  cbn [r g b] in S. destruct S as (Sr & Sg & Sb).
  split; [|lia]. unfold rgb_ok. cbn [r g b].
  repeat split; apply round_mean_range; lia.
Qed.

Lemma colors_of_buckets_ok (buckets : list (list Rgb)) :
  Forall (Forall rgb_ok) buckets ->
  Forall (fun c : Swatch => rgb_ok c /\ (1 <= c.(population))%Z)
         (dropNull (map bucketColor buckets)).
Proof.
  induction 1 as [|bk rest Hb _ IH]; cbn [map dropNull].
  - constructor.
  - destruct (bucketColor bk) as [c|] eqn:E; [|exact IH].
    constructor; [|exact IH]. now apply bucketColor_ok with bk.
Qed.

Lemma concat_Forall {A} (P : A -> Prop) (buckets : list (list A)) :
  Forall P (concat buckets) -> Forall (Forall P) buckets.
Proof.
  induction buckets as [|bk rest IH]; cbn [concat]; intros H.
  - constructor.
  - apply Forall_app in H as [H1 H2]. constructor; auto.
Qed.

Lemma medianCut_ok (pixels : list Rgb) (K : Z) :
  Forall rgb_ok pixels ->
  Forall (fun c : Swatch => rgb_ok c /\ (1 <= c.(population))%Z)
         (medianCut pixels K).
Proof.
  intros Hp. unfold medianCut.
  destruct pixels as [|p ps] eqn:E; [constructor|]. rewrite <- E in *.
  replace (length pixels =? 0)%nat with false by (subst; reflexivity).
  destruct (@splitLoop_invariant (Z.to_nat K) K [pixels] pixels)
    as (_ & H2 & _).
  - constructor; [subst; discriminate | constructor].
  - cbn. now rewrite app_nil_r.
  - cbn. lia.
  - apply colors_of_buckets_ok, concat_Forall.
    rewrite Forall_forall in *. intros x Hx. apply Hp.
    eapply Permutation_in; eassumption.
Qed.

(** X8. Every swatch [medianCut] returns for pixels with channels in
    0..255 has its channels in 0..255 again (the rounded mean of a bucket
    does not leave the range), stands for at least one pixel, and carries
    no accent flag. *)
Theorem medianCut_swatches_in_range (pixels : list Rgb) (K : Z) :
  Forall rgb_ok pixels ->
  Forall (fun c : Swatch =>
            rgb_ok c /\ (1 <= c.(population))%Z
            /\ c.(isVibrant) = false /\ c.(isBrandColor) = false)
         (medianCut pixels K).
Proof.
  intros Hp. pose proof (medianCut_ok K Hp) as H.
  assert (F : Forall (fun c : Swatch =>
                        c.(isVibrant) = false /\ c.(isBrandColor) = false)
                     (medianCut pixels K)).
  { unfold medianCut. destruct (length pixels =? 0)%nat; [constructor|].
    induction (splitLoop (Z.to_nat K) K [pixels]) as [|bk rest IH];
      cbn [map dropNull]; [constructor|].
    unfold bucketColor at 1.
    destruct (length bk =? 0)%nat; [exact IH|].
    constructor; [now split | exact IH]. }
  rewrite Forall_forall in *. intros c Hc.
  destruct (H c Hc) as [H1 H2]. destruct (F c Hc) as [F1 F2]. auto.
Qed.

Lemma medianCut_swatches_in_range_witness :
  let pixels := [mkRgb 10 20 30; mkRgb 200 20 30; mkRgb 90 0 7] in
  Forall rgb_ok pixels
  /\ Forall (fun c : Swatch =>
               rgb_ok c /\ (1 <= c.(population))%Z
               /\ c.(isVibrant) = false /\ c.(isBrandColor) = false)
            (medianCut pixels 2).
Proof.
  intros pixels.
  assert (H : Forall rgb_ok pixels)
    by (repeat constructor; cbn; lia).
  split; [exact H | apply (@medianCut_swatches_in_range pixels 2 H)].
Defined.

(** *** Near-duplicate removal *)

Lemma setNth_sum (x : Swatch) (filtered : list Swatch) :
  forall i e,
    nth_error filtered i = Some e ->
    fold_right Z.add 0%Z (map population (setNth i x filtered))
    = (fold_right Z.add 0%Z (map population filtered)
       - e.(population) + x.(population))%Z.
Proof.
  induction filtered as [|y ys IH]; intros [|i] e H; cbn in H;
    try discriminate.
  - injection H as <-. cbn. lia.
  - cbn [setNth map fold_right]. rewrite (IH _ _ H). lia.
Qed.

Lemma setNth_Forall {A} (P : A -> Prop) (x : A) (l : list A) :
  forall i, Forall P l -> P x -> Forall P (setNth i x l).
Proof.
  induction l as [|y ys IH]; intros [|i] Hl Hx; cbn [setNth]; auto;
    inversion Hl; subst; constructor; auto.
Qed.

Lemma duplicate_has_closest (t : Q) (filtered : list Swatch)
    (color : Swatch) :
  existsb (fun existing : Swatch => colorDistance color existing <? t)
          filtered = true ->
  exists e, nth_error filtered (closest color filtered 0 None 0) = Some e.
Proof.
  intros H.
  assert (Hne : filtered <> []) by (destruct filtered; [discriminate H|
                                                       discriminate]).
  pose proof (closest_lt color Hne) as L.
  destruct (nth_error filtered _) as [e|] eqn:E; [eauto|].
  apply nth_error_None in E. lia.
Qed.

Lemma sum_app (xs ys : list Swatch) :
  fold_right Z.add 0%Z (map population (xs ++ ys))
  = (fold_right Z.add 0%Z (map population xs)
     + fold_right Z.add 0%Z (map population ys))%Z.
Proof.
  induction xs as [|x xs IH]; cbn; [reflexivity|]. rewrite IH. lia.
Qed.

Lemma dedupStep_sum (t : Q) (filtered : list Swatch) (color : Swatch) :
  fold_right Z.add 0%Z (map population (dedupStep t filtered color))
  = (fold_right Z.add 0%Z (map population filtered)
     + color.(population))%Z.
Proof.
  destruct (existsb (fun existing : Swatch =>
                       colorDistance color existing <? t) filtered) eqn:E.
  - destruct (duplicate_has_closest _ _ _ E) as [e He].
    unfold dedupStep. rewrite E, He. cbn [negb].
    destruct (_ >? _); rewrite (setNth_sum _ _ _ He);
      cbn [population]; lia.
  - rewrite (dedupStep_fresh _ _ _ E), sum_app. cbn. lia.
Qed.

Lemma dedup_fold_sum (t : Q) (colors : list Swatch) :
  forall filtered,
    fold_right Z.add 0%Z
      (map population (fold_left (dedupStep t) colors filtered))
    = (fold_right Z.add 0%Z (map population filtered)
       + fold_right Z.add 0%Z (map population colors))%Z.
Proof.
  induction colors as [|c colors IH]; intros filtered; cbn [fold_left].
  - cbn. lia.
  - rewrite IH, dedupStep_sum. cbn. lia.
Qed.

Lemma dedupStep_length_ge (t : Q) (filtered : list Swatch)
    (color : Swatch) :
  (1 <= length (dedupStep t filtered color))%nat
  /\ (length filtered <= length (dedupStep t filtered color))%nat.
Proof.
  destruct (existsb (fun existing : Swatch =>
                       colorDistance color existing <? t) filtered) eqn:E.
  - rewrite (dedupStep_merge_length _ _ _ E).
    destruct filtered; [discriminate E | cbn; lia].
  - rewrite (dedupStep_fresh _ _ _ E), length_app. cbn. lia.
Qed.

Lemma dedup_fold_length_ge (t : Q) (colors : list Swatch) :
  forall filtered,
    (length filtered <= length (fold_left (dedupStep t) colors filtered))%nat.
Proof.
  induction colors as [|c colors IH]; intros filtered; cbn [fold_left].
  - lia.
  - specialize (IH (dedupStep t filtered c)).
    pose proof (dedupStep_length_ge t filtered c). lia.
Qed.

Lemma removeDuplicates_nonempty (colors : list Swatch) (t : Q) :
  colors <> [] -> removeDuplicates colors t <> [].
Proof.
  destruct colors as [|c colors]; [congruence|]. intros _.
  unfold removeDuplicates. cbn [fold_left]. intros E.
  pose proof (dedup_fold_length_ge t colors (dedupStep t [] c)) as L.
  rewrite E in L. cbn in L. lia.
Qed.

(** X9. [removeDuplicates] merges, it does not drop: the populations of
    its output add up to those of its input, the output is no longer
    than the input, and it is empty only for an empty input. *)
Theorem removeDuplicates_conserves_population (colors : list Swatch)
    (threshold : Q) :
  fold_right Z.add 0%Z (map population (removeDuplicates colors threshold))
  = fold_right Z.add 0%Z (map population colors)
  /\ (length (removeDuplicates colors threshold) <= length colors)%nat
  /\ (removeDuplicates colors threshold = [] <-> colors = []).
Proof.
  unfold removeDuplicates. split; [|split].
  - rewrite dedup_fold_sum. cbn. lia.
  - apply (dedup_fold_length threshold colors []).
  - split.
    + intros E. destruct colors as [|c colors]; [reflexivity|].
      exfalso.
      apply (@removeDuplicates_nonempty (c :: colors) threshold);
        [discriminate | exact E].
    + intros ->. reflexivity.
Qed.

(** The colours and flags of the output are those of input entries. *)
Lemma dedupStep_origin (P : Rgb -> bool -> bool -> Prop) (t : Q)
    (filtered : list Swatch) (color : Swatch) :
  Forall (fun x : Swatch => P x x.(isVibrant) x.(isBrandColor)) filtered ->
  P color color.(isVibrant) color.(isBrandColor) ->
  Forall (fun x : Swatch => P x x.(isVibrant) x.(isBrandColor))
         (dedupStep t filtered color).
Proof.
  intros Hf Hc. unfold dedupStep.
  destruct (negb _).
  - apply Forall_app. split; [exact Hf | now constructor].
  - destruct (nth_error filtered _) as [e|] eqn:E; [|exact Hf].
    assert (He : P e e.(isVibrant) e.(isBrandColor)).
    { apply nth_error_In in E. rewrite Forall_forall in Hf. now apply Hf. }
    destruct (_ >? _); apply setNth_Forall; assumption.
Qed.

Lemma dedup_fold_origin (P : Rgb -> bool -> bool -> Prop) (t : Q)
    (colors : list Swatch) :
  forall filtered,
    Forall (fun x : Swatch => P x x.(isVibrant) x.(isBrandColor)) filtered ->
    Forall (fun x : Swatch => P x x.(isVibrant) x.(isBrandColor)) colors ->
    Forall (fun x : Swatch => P x x.(isVibrant) x.(isBrandColor))
           (fold_left (dedupStep t) colors filtered).
Proof.
  induction colors as [|c colors IH]; intros filtered Hf Hc;
    cbn [fold_left]; [exact Hf|].
  inversion Hc; subst. apply IH; [|assumption].
  now apply dedupStep_origin.
Qed.

(** X10. [removeDuplicates] invents no colour: every entry of the output
    has the channels and the two accent flags of some entry of the input
    (only its population is a sum). *)
Theorem removeDuplicates_keeps_colours (colors : list Swatch)
    (threshold : Q) (x : Swatch) :
  In x (removeDuplicates colors threshold) ->
  exists c : Swatch,
    In c colors
    /\ mkRgb x.(r) x.(g) x.(b) = mkRgb c.(r) c.(g) c.(b)
    /\ x.(isVibrant) = c.(isVibrant)
    /\ x.(isBrandColor) = c.(isBrandColor).
Proof.
  intros Hx.
  pose proof (@dedup_fold_origin
                (fun rgb0 v br =>
                   exists c : Swatch,
                     In c colors
                     /\ mkRgb rgb0.(r) rgb0.(g) rgb0.(b)
                        = mkRgb c.(r) c.(g) c.(b)
                     /\ v = c.(isVibrant) /\ br = c.(isBrandColor))
                threshold colors [] (Forall_nil _)) as H.
  cbv beta in H. unfold removeDuplicates in Hx.
  assert (H0 : Forall
                 (fun y : Swatch =>
                    exists c : Swatch,
                      In c colors
                      /\ mkRgb y.(r) y.(g) y.(b) = mkRgb c.(r) c.(g) c.(b)
                      /\ y.(isVibrant) = c.(isVibrant)
                      /\ y.(isBrandColor) = c.(isBrandColor)) colors).
  { apply Forall_forall. intros c Hc. exists c. auto. }
  specialize (H H0). rewrite Forall_forall in H. now apply H.
Qed.

Lemma removeDuplicates_keeps_colours_witness :
  let colors := [ mkSwatch (mkRgb 100 100 100) 1 false false;
                  mkSwatch (mkRgb 100 116 100) 2 true false ] in
  let x := mkSwatch (mkRgb 100 116 100) 3 true false in
  In x (removeDuplicates colors 40)
  /\ exists c : Swatch,
       In c colors
       /\ mkRgb x.(r) x.(g) x.(b) = mkRgb c.(r) c.(g) c.(b)
       /\ x.(isVibrant) = c.(isVibrant)
       /\ x.(isBrandColor) = c.(isBrandColor).
Proof.
  intros colors x.
  assert (H : In x (removeDuplicates colors 40))
    by (vm_compute; left; reflexivity).
  split; [exact H | apply (@removeDuplicates_keeps_colours colors 40 x H)].
Defined.

Lemma removeDuplicates_ok (colors : list Swatch) (t : Q) :
  palette_ok colors -> palette_ok (removeDuplicates colors t).
Proof.
  intros Hc. unfold palette_ok, removeDuplicates.
  assert (G : forall colors filtered,
             Forall swatch_ok filtered -> Forall swatch_ok colors ->
             Forall swatch_ok (fold_left (dedupStep t) colors filtered)).
  { clear colors Hc.
    induction colors as [|c colors IH]; intros filtered Hf Hc;
      cbn [fold_left]; [exact Hf|].
    inversion Hc as [|? ? Hc0 Hc']; subst. apply IH; [|assumption].
    unfold dedupStep. destruct (negb _).
    - apply Forall_app. split; [exact Hf | now constructor].
    - destruct (nth_error filtered _) as [e|] eqn:E; [|exact Hf].
      assert (He : swatch_ok e).
      { apply nth_error_In in E. rewrite Forall_forall in Hf.
        now apply Hf. }
      destruct Hc0 as [Hc1 Hc2]. destruct He as [He1 He2].
      destruct (_ >? _); apply setNth_Forall; try assumption;
        split; cbn [rgb population]; try assumption; lia. }
  apply G; [constructor | exact Hc].
Qed.

(** *** The accent passes *)

Lemma pushAt_length {A} (x : A) (buckets : list (list A)) :
  forall i, length (pushAt i x buckets) = length buckets.
Proof.
  induction buckets as [|bk rest IH]; intros [|i]; cbn; auto.
Qed.

Lemma pushAt_Forall {A} (P : A -> Prop) (x : A) (buckets : list (list A)) :
  forall i, Forall (Forall P) buckets -> P x ->
            Forall (Forall P) (pushAt i x buckets).
Proof.
  induction buckets as [|bk rest IH]; intros [|i] Hb Hx; cbn [pushAt];
    auto; inversion Hb; subst; constructor; auto.
  apply Forall_app. split; [assumption | now constructor].
Qed.

Lemma pushAt_concat_length {A} (x : A) (buckets : list (list A)) :
  forall i, (length (concat (pushAt i x buckets))
             <= S (length (concat buckets)))%nat.
Proof.
  induction buckets as [|bk rest IH]; intros [|i]; cbn [pushAt concat].
  - cbn. lia.
  - cbn. lia.
  - rewrite !length_app. cbn [length]. lia.
  - rewrite !length_app. specialize (IH i). lia.
Qed.

Lemma vibrantBuckets_spec (pixels : list Rgb) :
  Forall rgb_ok pixels ->
  length (vibrantBuckets pixels) = 18%nat
  /\ Forall (Forall (fun p : HuePixel => rgb_ok p)) (vibrantBuckets pixels)
  /\ (length (concat (vibrantBuckets pixels)) <= length pixels)%nat.
Proof.
  intros Hp. unfold vibrantBuckets.
  set (step := fun (hueBuckets : list (list HuePixel)) (p : Rgb) => _).
  assert (G : forall (ps : list Rgb) (buckets : list (list HuePixel)),
             Forall rgb_ok ps ->
             Forall (Forall (fun p : HuePixel => rgb_ok p)) buckets ->
             length (fold_left step ps buckets) = length buckets
             /\ Forall (Forall (fun p : HuePixel => rgb_ok p))
                       (fold_left step ps buckets)
             /\ (length (concat (fold_left step ps buckets))
                 <= length (concat buckets) + length ps)%nat).
  { induction ps as [|p ps IH]; intros buckets Hps Hb; cbn [fold_left].
    - split; [reflexivity | split; [exact Hb | lia]].
    - inversion Hps as [|? ? Hp0 Hps']; subst.
      assert (S : length (step buckets p) = length buckets
                  /\ Forall (Forall (fun q : HuePixel => rgb_ok q))
                            (step buckets p)
                  /\ (length (concat (step buckets p))
                      <= S (length (concat buckets)))%nat).
      { unfold step. destruct (_ <? 0.25); [auto|].
        destruct (_ || _); [auto|].
        split; [apply pushAt_length|].
        split; [now apply pushAt_Forall | apply pushAt_concat_length]. }
      destruct S as (S1 & S2 & S3).
      destruct (IH (step buckets p) Hps' S2) as (I1 & I2 & I3).
      split; [congruence|]. split; [exact I2|]. cbn [length]. lia. }
  destruct (G pixels (repeat [] 18) Hp) as (G1 & G2 & G3).
  - repeat constructor.
  - split; [exact G1 | split; [exact G2 | exact G3]].
Qed.

Lemma sum_chan_bounds (ch : Channel) (ps : list HuePixel) :
  Forall (fun p : HuePixel => rgb_ok p) ps ->
  forall acc,
    (acc <= fold_left (fun s (p : HuePixel) => (s + chan ch p)%Z) ps acc
     <= acc + 255 * Z.of_nat (length ps))%Z.
Proof.
  induction 1 as [|p rest Hp _ IH]; intros acc; cbn [fold_left length].
  - lia.
  - specialize (IH (acc + chan ch p)%Z).
    assert (C : channel_ok (chan ch p)).
    { destruct Hp as (Hr & Hg & Hb). now destruct ch. }
    unfold channel_ok in C. lia.
Qed.

Lemma averageChannel_ok (ch : Channel) (topPixels : list HuePixel) :
  topPixels <> [] ->
  Forall (fun p : HuePixel => rgb_ok p) topPixels ->
  channel_ok (averageChannel ch topPixels).
Proof.
  intros Hne Hp. unfold averageChannel.
  pose proof (sum_chan_bounds ch Hp 0) as S.
  apply round_mean_range; [|lia].
  destruct topPixels; [congruence | cbn; lia].
Qed.

Lemma firstn_incl {A} (n : nat) (l : list A) (x : A) :
  In x (firstn n l) -> In x l.
Proof.
  intros H. rewrite <- (firstn_skipn n l). apply in_or_app. now left.
Qed.

Lemma top_of_sorted (n : nat) (bucket : list HuePixel) :
  (0 < n)%nat -> bucket <> [] ->
  Forall (fun p : HuePixel => rgb_ok p) bucket ->
  JS.slice_to n (sortBySat bucket) <> []
  /\ Forall (fun p : HuePixel => rgb_ok p) (JS.slice_to n (sortBySat bucket)).
Proof.
  intros Hn Hne Hb. unfold JS.slice_to, sortBySat. split.
  - intros E. apply (f_equal (@length _)) in E.
    rewrite length_firstn, sort_length in E. cbn [length] in E.
    destruct bucket; [congruence | cbn in E; lia].
  - apply Forall_forall. intros x Hx. apply firstn_incl in Hx.
    apply sort_In in Hx. rewrite Forall_forall in Hb. now apply Hb.
Qed.

Lemma vibrantCandidate_ok (bucket : list HuePixel) :
  bucket <> [] ->
  Forall (fun p : HuePixel => rgb_ok p) bucket ->
  rgb_ok (vibrantCandidate bucket).
Proof.
  intros Hne Hb. unfold vibrantCandidate. cbv zeta.
  set (n := Z.to_nat (Z.max 5 _)).
  assert (Hn : (0 < n)%nat) by (unfold n; lia).
  destruct (top_of_sorted Hn Hne Hb) as [T1 T2].
  unfold rgb_ok. cbn [rgb r g b].
  repeat split; now apply averageChannel_ok.
Qed.

Lemma vibrantCandidate_population (bucket : list HuePixel) :
  (vibrantCandidate bucket).(population) = Z.of_nat (length bucket).
Proof.
  unfold vibrantCandidate, sortBySat. cbn [population].
  now rewrite sort_length.
Qed.

Lemma existsb_false {A} (f : A -> bool) (l : list A) (x : A) :
  existsb f l = false -> In x l -> f x = false.
Proof.
  intros H Hx. apply not_true_is_false. intros E.
  assert (X : existsb f l = true) by (apply existsb_exists; eauto).
  congruence.
Qed.

Lemma vibrantOfBucket_spec (existingPalette : list Swatch)
    (bucket : list HuePixel) :
  Forall (fun p : HuePixel => rgb_ok p) bucket ->
  Forall (fun v : Swatch =>
            rgb_ok v /\ (5 <= v.(population))%Z
            /\ v.(isVibrant) = true /\ v.(isBrandColor) = false
            /\ 0.35 < getSaturation v.(r) v.(g) v.(b)
            /\ forall e : Swatch, In e existingPalette ->
                                  35 <= colorDistance v e)
         (vibrantOfBucket existingPalette bucket)
  /\ fold_right Z.add 0%Z
       (map population (vibrantOfBucket existingPalette bucket))
     = (if (length (vibrantOfBucket existingPalette bucket) =? 0)%nat
        then 0 else Z.of_nat (length bucket))%Z.
Proof.
  intros Hb. unfold vibrantOfBucket.
  destruct (length bucket <? 5)%nat eqn:L; [split; [constructor|reflexivity]|].
  apply Nat.ltb_ge in L. cbv zeta.
  destruct (vibrantIsDuplicate existingPalette (vibrantCandidate bucket))
    eqn:D; cbn [negb andb]; [split; [constructor|reflexivity]|].
  destruct (_ >? JS.lit 0.35) eqn:S; [|split; [constructor|reflexivity]].
  pose proof (vibrantCandidate_population bucket) as Pop.
  split; [|cbn [map fold_right length Nat.eqb]; rewrite Pop; lia].
  constructor; [|constructor].
  split; [apply vibrantCandidate_ok;
          [destruct bucket; [cbn in L; lia | discriminate] | exact Hb]|].
  split; [rewrite Pop; lia|]. split; [reflexivity|]. split; [reflexivity|].
  split; [apply gtb_gt in S;
          exact (@lit_lt_double _ _ (getSaturation_double _ _ _) S)|].
  intros e He. unfold vibrantIsDuplicate in D.
  pose proof (existsb_false _ _ e D He) as F. cbv beta zeta in F.
  destruct (colorDistance (vibrantCandidate bucket) e <? 35) eqn:C;
    [discriminate F|].
  now apply ltb_ge.
Qed.

Lemma flat_map_spec {A} (P : Swatch -> Prop) (f : A -> list Swatch)
    (size : A -> nat) (l : list A) :
  (forall x, In x l ->
     Forall P (f x)
     /\ (length (f x) <= 1)%nat
     /\ (fold_right Z.add 0%Z (map population (f x))
         <= Z.of_nat (size x))%Z) ->
  Forall P (flat_map f l)
  /\ (length (flat_map f l) <= length l)%nat
  /\ (fold_right Z.add 0%Z (map population (flat_map f l))
      <= Z.of_nat (fold_right Nat.add 0%nat (map size l)))%Z.
Proof.
  induction l as [|x xs IH]; intros H; cbn [flat_map map fold_right length].
  - split; [constructor | split; [lia | cbn; lia]].
  - destruct (H x (or_introl eq_refl)) as (H1 & H2 & H3).
    destruct IH as (I1 & I2 & I3); [intros y Hy; apply H; now right|].
    split; [apply Forall_app; now split|].
    rewrite length_app, sum_app. split; lia.
Qed.

Lemma concat_length_sum {A} (buckets : list (list A)) :
  fold_right Nat.add 0%nat (map (@length A) buckets)
  = length (concat buckets).
Proof.
  induction buckets as [|bk rest IH]; cbn; [reflexivity|].
  rewrite length_app. lia.
Qed.

Lemma vibrant_pass_ok (pixels : list Rgb) (existingPalette : list Swatch) :
  Forall rgb_ok pixels ->
  palette_ok (extractVibrantColors pixels existingPalette).
Proof.
  intros Hp. destruct (vibrantBuckets_spec Hp) as (_ & B2 & _).
  unfold palette_ok, extractVibrantColors. apply Forall_forall.
  intros v Hv. apply in_flat_map in Hv as (bucket & Hb & Hv).
  rewrite Forall_forall in B2.
  destruct (vibrantOfBucket_spec existingPalette (B2 _ Hb)) as [V _].
  rewrite Forall_forall in V. destruct (V v Hv) as (H1 & H2 & _).
  split; [exact H1 | lia].
Qed.

(** X11. The vibrant pass on pixels with channels in 0..255 returns at
    most 18 colours (one per hue slice); each has its channels in 0..255,
    is flagged vibrant and not brand, stands for at least five pixels,
    has a saturation above 0.35 and lies at distance 35 or more from
    every colour of the existing palette; and their populations together
    do not exceed the number of pixels.  The saturation is the double
    [getSaturation] computes: the colour (135, 65, 65), of saturation
    7/20 in exact arithmetic, is computed at 0.35000000000000003 and
    returned ([vibrant_kept_at_the_bounds]). *)
Theorem extractVibrantColors_spec (pixels : list Rgb)
    (existingPalette : list Swatch) :
  Forall rgb_ok pixels ->
  let vibrantColors := extractVibrantColors pixels existingPalette in
  (length vibrantColors <= 18)%nat
  /\ Forall (fun v : Swatch =>
               rgb_ok v /\ (5 <= v.(population))%Z
               /\ v.(isVibrant) = true /\ v.(isBrandColor) = false
               /\ 0.35 < getSaturation v.(r) v.(g) v.(b)
               /\ forall e : Swatch, In e existingPalette ->
                                     35 <= colorDistance v e)
            vibrantColors
  /\ (fold_right Z.add 0%Z (map population vibrantColors)
      <= Z.of_nat (length pixels))%Z.
Proof.
  intros Hp. cbv zeta. unfold extractVibrantColors.
  destruct (vibrantBuckets_spec Hp) as (B1 & B2 & B3).
  destruct (@flat_map_spec _
              (fun v : Swatch =>
                 rgb_ok v /\ (5 <= v.(population))%Z
                 /\ v.(isVibrant) = true /\ v.(isBrandColor) = false
                 /\ 0.35 < getSaturation v.(r) v.(g) v.(b)
                 /\ forall e : Swatch, In e existingPalette ->
                                       35 <= colorDistance v e)
              (vibrantOfBucket existingPalette) (@length HuePixel)
              (vibrantBuckets pixels)) as (F1 & F2 & F3).
  - intros bucket Hbk. rewrite Forall_forall in B2.
    destruct (vibrantOfBucket_spec existingPalette (B2 _ Hbk)) as [V1 V2].
    split; [exact V1|]. rewrite V2.
    unfold vibrantOfBucket. destruct (length bucket <? 5)%nat; [cbn; lia|].
    cbv zeta. destruct (_ && _); cbn; lia.
  - rewrite concat_length_sum in F3. split; [lia|]. split; [exact F1 | lia].
Qed.

Lemma extractVibrantColors_spec_witness :
  let pixels := repeat (mkRgb 135 65 65) 5 in
  let existingPalette := [mkSwatch (mkRgb 30 30 36) 40 false false] in
  let vibrantColors := extractVibrantColors pixels existingPalette in
  Forall rgb_ok pixels
  /\ (length vibrantColors <= 18)%nat
  /\ Forall (fun v : Swatch =>
               rgb_ok v /\ (5 <= v.(population))%Z
               /\ v.(isVibrant) = true /\ v.(isBrandColor) = false
               /\ 0.35 < getSaturation v.(r) v.(g) v.(b)
               /\ forall e : Swatch, In e existingPalette ->
                                     35 <= colorDistance v e)
            vibrantColors
  /\ (fold_right Z.add 0%Z (map population vibrantColors)
      <= Z.of_nat (length pixels))%Z.
Proof.
  intros pixels existingPalette vibrantColors.
  assert (H : Forall rgb_ok pixels) by (repeat constructor; cbn; lia).
  split; [exact H
         | apply (@extractVibrantColors_spec pixels existingPalette H)].
Defined.

(** In this example the pass returns the one candidate, (135, 65, 65). *)
Lemma extractVibrantColors_example :
  extractVibrantColors (repeat (mkRgb 135 65 65) 5)
    [mkSwatch (mkRgb 30 30 36) 40 false false]
  = [mkSwatch (mkRgb 135 65 65) 5 true false].
Proof. vm_compute. reflexivity. Qed.

Lemma pushRange_spec (hue : Q) (x : HuePixel) (ranges : list HueRange) :
  Forall (fun rg : HueRange =>
            Forall (fun p : HuePixel => rgb_ok p) rg.(pixels)) ranges ->
  rgb_ok x ->
  length (pushRange hue x ranges) = length ranges
  /\ Forall (fun rg : HueRange =>
               Forall (fun p : HuePixel => rgb_ok p) rg.(pixels))
            (pushRange hue x ranges)
  /\ (fold_right Nat.add 0%nat
        (map (fun rg : HueRange => length rg.(pixels))
             (pushRange hue x ranges))
      <= S (fold_right Nat.add 0%nat
              (map (fun rg : HueRange => length rg.(pixels)) ranges)))%nat.
Proof.
  intros Hr Hx. induction Hr as [|rg rest Hrg Hrest IH]; cbn [pushRange].
  - split; [reflexivity | split; [constructor | cbn; lia]].
  - destruct (_ && _).
    + split; [reflexivity|]. split.
      * constructor; [|exact Hrest]. cbn [pixels].
        apply Forall_app. split; [exact Hrg | now constructor].
      * cbn [map fold_right pixels]. rewrite length_app. cbn [length]. lia.
    + destruct IH as (I1 & I2 & I3). cbn [length map fold_right].
      split; [congruence|]. split; [now constructor | lia].
Qed.

Lemma brandRanges_spec (pixels0 : list Rgb) :
  Forall rgb_ok pixels0 ->
  length (brandRanges pixels0) = 7%nat
  /\ Forall (fun rg : HueRange =>
               Forall (fun p : HuePixel => rgb_ok p) rg.(pixels))
            (brandRanges pixels0)
  /\ (fold_right Nat.add 0%nat
        (map (fun rg : HueRange => length rg.(pixels)) (brandRanges pixels0))
      <= length pixels0)%nat.
Proof.
  intros Hp. unfold brandRanges.
  set (step := fun (ranges : list HueRange) (p : Rgb) => _).
  set (size := fun ranges : list HueRange =>
                 fold_right Nat.add 0%nat
                   (map (fun rg : HueRange => length rg.(pixels)) ranges)).
  assert (G : forall (ps : list Rgb) (ranges : list HueRange),
             Forall rgb_ok ps ->
             Forall (fun rg : HueRange =>
                       Forall (fun p : HuePixel => rgb_ok p) rg.(pixels))
                    ranges ->
             length (fold_left step ps ranges) = length ranges
             /\ Forall (fun rg : HueRange =>
                          Forall (fun p : HuePixel => rgb_ok p) rg.(pixels))
                       (fold_left step ps ranges)
             /\ (size (fold_left step ps ranges)
                 <= size ranges + length ps)%nat).
  { induction ps as [|p ps IH]; intros ranges Hps Hr; cbn [fold_left].
    - split; [reflexivity | split; [exact Hr | lia]].
    - inversion Hps as [|? ? Hp0 Hps']; subst.
      assert (S : length (step ranges p) = length ranges
                  /\ Forall (fun rg : HueRange =>
                               Forall (fun q : HuePixel => rgb_ok q)
                                      rg.(pixels)) (step ranges p)
                  /\ (size (step ranges p) <= S (size ranges))%nat).
      { unfold step. destruct (_ <? JS.lit 0.45); [auto|].
        destruct (_ || _); [auto|].
        now apply pushRange_spec. }
      destruct S as (S1 & S2 & S3).
      destruct (IH (step ranges p) Hps' S2) as (I1 & I2 & I3).
      split; [congruence|]. split; [exact I2|]. cbn [length]. lia. }
  destruct (G pixels0 hueRanges Hp) as (G1 & G2 & G3).
  - repeat constructor.
  - split; [exact G1 | split; [exact G2 | exact G3]].
Qed.

Lemma brandOfRange_spec (existingPalette : list Swatch) (range : HueRange) :
  Forall (fun p : HuePixel => rgb_ok p) range.(pixels) ->
  Forall (fun v : Swatch =>
            rgb_ok v /\ (1 <= v.(population))%Z
            /\ v.(isVibrant) = true /\ v.(isBrandColor) = true
            /\ 0.40 < getSaturation v.(r) v.(g) v.(b)
            /\ forall e : Swatch, In e existingPalette ->
                                  30 <= colorDistance v e)
         (brandOfRange existingPalette range)
  /\ (length (brandOfRange existingPalette range) <= 1)%nat
  /\ (fold_right Z.add 0%Z
        (map population (brandOfRange existingPalette range))
      <= Z.of_nat (length range.(pixels)))%Z.
Proof.
  intros Hb. unfold brandOfRange.
  destruct (length range.(pixels) =? 0)%nat eqn:L;
    [split; [constructor | cbn; lia]|].
  apply Nat.eqb_neq in L. cbv zeta.
  set (avg := mkSwatch _ _ true true).
  destruct (brandIsDuplicate existingPalette avg) eqn:D; cbn [negb andb];
    [split; [constructor | cbn; lia]|].
  destruct (_ >? JS.lit 0.40) eqn:S; [|split; [constructor | cbn; lia]].
  split; [|cbn; lia].
  constructor; [|constructor].
  assert (Hne : range.(pixels) <> [])
    by (destruct range.(pixels); [cbn in L; congruence | discriminate]).
  destruct (@top_of_sorted 3 range.(pixels)) as [T1 T2];
    [lia | exact Hne | exact Hb |].
  split.
  { unfold rgb_ok, avg. cbn [rgb r g b].
    repeat split; now apply averageChannel_ok. }
  split; [unfold avg; cbn [population]; lia|].
  split; [reflexivity|]. split; [reflexivity|].
  split; [apply gtb_gt in S;
          exact (@lit_lt_double _ _ (getSaturation_double _ _ _) S)|].
  intros e He. unfold brandIsDuplicate in D.
  pose proof (existsb_false _ _ e D He) as F. cbv beta zeta in F.
  destruct (colorDistance avg e <? 30) eqn:C; [discriminate F|].
  now apply ltb_ge.
Qed.

Lemma brand_pass_ok (pixels0 : list Rgb) (existingPalette : list Swatch) :
  Forall rgb_ok pixels0 ->
  palette_ok (extractBrandColors pixels0 existingPalette).
Proof.
  intros Hp. destruct (brandRanges_spec Hp) as (_ & B2 & _).
  unfold palette_ok, extractBrandColors. apply Forall_forall.
  intros v Hv. apply in_flat_map in Hv as (range & Hb & Hv).
  rewrite Forall_forall in B2.
  destruct (brandOfRange_spec existingPalette range (B2 _ Hb)) as [V _].
  rewrite Forall_forall in V. destruct (V v Hv) as (H1 & H2 & _).
  split; [exact H1 | lia].
Qed.

(** X12. The brand pass on pixels with channels in 0..255 returns at most
    7 colours (one per hue range); each has its channels in 0..255, is
    flagged both vibrant and brand, stands for at least one pixel, has a
    saturation above 0.40 and lies at distance 30 or more from every
    colour of the existing palette; and their populations together do
    not exceed the number of pixels.  The saturation is the double
    [getSaturation] computes: the colour (57, 57, 133), of saturation 2/5
    in exact arithmetic, is computed at 0.4000000000000001 and returned
    ([brand_kept_at_the_bound]). *)
Theorem extractBrandColors_spec (pixels0 : list Rgb)
    (existingPalette : list Swatch) :
  Forall rgb_ok pixels0 ->
  let brandColors := extractBrandColors pixels0 existingPalette in
  (length brandColors <= 7)%nat
  /\ Forall (fun v : Swatch =>
               rgb_ok v /\ (1 <= v.(population))%Z
               /\ v.(isVibrant) = true /\ v.(isBrandColor) = true
               /\ 0.40 < getSaturation v.(r) v.(g) v.(b)
               /\ forall e : Swatch, In e existingPalette ->
                                     30 <= colorDistance v e)
            brandColors
  /\ (fold_right Z.add 0%Z (map population brandColors)
      <= Z.of_nat (length pixels0))%Z.
Proof.
  intros Hp. cbv zeta. unfold extractBrandColors.
  destruct (brandRanges_spec Hp) as (B1 & B2 & B3).
  destruct (@flat_map_spec _
              (fun v : Swatch =>
                 rgb_ok v /\ (1 <= v.(population))%Z
                 /\ v.(isVibrant) = true /\ v.(isBrandColor) = true
                 /\ 0.40 < getSaturation v.(r) v.(g) v.(b)
                 /\ forall e : Swatch, In e existingPalette ->
                                       30 <= colorDistance v e)
              (brandOfRange existingPalette)
              (fun rg : HueRange => length rg.(pixels))
              (brandRanges pixels0)) as (F1 & F2 & F3).
  - intros range Hrg. rewrite Forall_forall in B2.
    apply brandOfRange_spec. now apply B2.
  - split; [lia|]. split; [exact F1 | lia].
Qed.

Lemma extractBrandColors_spec_witness :
  let pixels0 := [mkRgb 17 49 93; mkRgb 97 65 173] in
  let existingPalette := [mkSwatch (mkRgb 30 30 36) 40 false false] in
  let brandColors := extractBrandColors pixels0 existingPalette in
  Forall rgb_ok pixels0
  /\ (length brandColors <= 7)%nat
  /\ Forall (fun v : Swatch =>
               rgb_ok v /\ (1 <= v.(population))%Z
               /\ v.(isVibrant) = true /\ v.(isBrandColor) = true
               /\ 0.40 < getSaturation v.(r) v.(g) v.(b)
               /\ forall e : Swatch, In e existingPalette ->
                                     30 <= colorDistance v e)
            brandColors
  /\ (fold_right Z.add 0%Z (map population brandColors)
      <= Z.of_nat (length pixels0))%Z.
Proof.
  intros pixels0 existingPalette brandColors.
  assert (H : Forall rgb_ok pixels0) by (repeat constructor; cbn; lia).
  split; [exact H
         | apply (@extractBrandColors_spec pixels0 existingPalette H)].
Defined.

(** The average of the pixels (17, 49, 93) and (97, 65, 173) is
    (57, 57, 133); its saturation is 2/5 in exact arithmetic and above
    0.40 as the program computes it, and the brand pass returns it. *)
Lemma brand_kept_at_the_bound :
  JS.lit 0.40 < getSaturation 57 57 133
  /\ extractBrandColors [mkRgb 17 49 93; mkRgb 97 65 173]
       [mkSwatch (mkRgb 30 30 36) 40 false false]
     = [mkSwatch (mkRgb 57 57 133) 2 true true].
Proof.
  split; [apply Qlt_alt|]; vm_compute; reflexivity.
Qed.

(** *** Sorting by a key *)

Section SortOrder.
Variable A : Type.
Variable key : A -> Q.

Lemma insert_descending (x : A) (l : list A) :
  descendingBy key l ->
  descendingBy key (JS.insert (fun a b : A => key b - key a) x l).
Proof.
  unfold descendingBy.
  induction 1 as [|y l Hy Hl IH]; cbn [JS.insert].
  - constructor; constructor.
  - destruct (Qle_bool (key y - key x) 0) eqn:E.
    + apply Qle_bool_iff in E.
      constructor; [|now constructor].
      constructor; [lra|].
      eapply Forall_impl; [|exact Hy]. cbv beta. intros z Hz. lra.
    + assert (Hxy : key x <= key y).
      { destruct (Qlt_le_dec (key x) (key y)) as [H | H]; [lra|].
        assert (X : Qle_bool (key y - key x) 0 = true)
          by (apply Qle_bool_iff; lra).
        congruence. }
      constructor; [|exact IH].
      eapply Permutation_Forall;
        [symmetry; apply insert_perm | now constructor].
Qed.

Lemma sort_descending (l : list A) :
  descendingBy key (JS.sort (fun a b : A => key b - key a) l).
Proof.
  induction l as [|x l IH]; cbn [JS.sort fold_right].
  - constructor.
  - now apply insert_descending.
Qed.

Lemma firstn_descending (l : list A) :
  forall n, descendingBy key l -> descendingBy key (firstn n l).
Proof.
  unfold descendingBy.
  induction l as [|x l IH]; intros [|n] H; cbn [firstn];
    try constructor; inversion H as [|? ? Hx Hl]; subst.
  - apply Forall_forall. intros y Hy. apply firstn_incl in Hy.
    rewrite Forall_forall in Hx. now apply Hx.
  - now apply IH.
Qed.

End SortOrder.

(** *** The palette of [processImage] *)

Lemma pixelsAfterMedianCut_ok (pixels : list Rgb) (K : Z) :
  Forall rgb_ok pixels ->
  Forall rgb_ok (pixelsAfterMedianCut pixels K)
  /\ length (pixelsAfterMedianCut pixels K) = length pixels.
Proof.
  intros Hp. unfold pixelsAfterMedianCut.
  destruct (length pixels =? 0)%nat; [auto|].
  destruct (_ && _); [|auto]. unfold sortByChannel. split.
  - eapply Permutation_Forall; [symmetry; apply sort_perm | exact Hp].
  - apply sort_length.
Qed.

Lemma accents_ok (P : Swatch -> Prop) (accents : list Swatch) :
  (forall v, P v -> rgb_ok v /\ (1 <= v.(population))%Z) ->
  Forall P accents -> palette_ok accents.
Proof.
  intros HP H. unfold palette_ok. eapply Forall_impl; [|exact H].
  intros v Hv. destruct (HP v Hv) as [H1 H2]. split; [exact H1 | lia].
Qed.

Lemma assemblePalette_ok (pixels : list Rgb) :
  Forall rgb_ok pixels -> palette_ok (assemblePalette pixels).
Proof.
  intros Hp. unfold assemblePalette. cbv zeta.
  destruct (pixelsAfterMedianCut_ok 20 Hp) as [Hq _].
  set (sorted := pixelsAfterMedianCut pixels 20) in *.
  set (p1 := removeDuplicates (medianCut pixels 20) 30).
  assert (H1 : palette_ok p1).
  { apply removeDuplicates_ok.
    apply accents_ok with (fun c : Swatch =>
                             rgb_ok c /\ (1 <= c.(population))%Z);
      [auto | now apply medianCut_ok]. }
  set (p2 := if (0 <? length (extractVibrantColors sorted p1))%nat
             then removeDuplicates (p1 ++ extractVibrantColors sorted p1) 45
             else p1).
  assert (H2 : palette_ok p2).
  { unfold p2.
    destruct (0 <? length (extractVibrantColors sorted p1))%nat;
      [|exact H1].
    apply removeDuplicates_ok, Forall_app. split; [exact H1|].
    now apply vibrant_pass_ok. }
  set (p3 := if (0 <? length (extractBrandColors sorted p2))%nat
             then removeDuplicates (p2 ++ extractBrandColors sorted p2) 40
             else p2).
  assert (H3 : palette_ok p3).
  { unfold p3.
    destruct (0 <? length (extractBrandColors sorted p2))%nat;
      [|exact H2].
    apply removeDuplicates_ok, Forall_app. split; [exact H2|].
    now apply brand_pass_ok. }
  unfold JS.slice_to, palette_ok. apply Forall_forall. intros x Hx.
  apply firstn_incl, sort_In in Hx.
  unfold palette_ok in H3. rewrite Forall_forall in H3. now apply H3.
Qed.

Lemma medianCut_nonempty (pixels : list Rgb) (K : Z) :
  pixels <> [] -> medianCut pixels K <> [].
Proof.
  intros Hp. unfold medianCut.
  destruct pixels as [|p ps] eqn:E; [congruence|]. rewrite <- E in *.
  replace (length pixels =? 0)%nat with false by (subst; reflexivity).
  destruct (@splitLoop_invariant (Z.to_nat K) K [pixels] pixels)
    as (H1 & _ & _ & H4).
  - constructor; [subst; discriminate | constructor].
  - cbn. now rewrite app_nil_r.
  - cbn. lia.
  - destruct (colors_of_buckets H1) as [L _]. cbv zeta in L.
    intros X. rewrite X in L. cbn [length] in *. lia.
Qed.

Lemma assemblePalette_nonempty (pixels : list Rgb) :
  pixels <> [] -> assemblePalette pixels <> [].
Proof.
  intros Hp. unfold assemblePalette. cbv zeta.
  set (sorted := pixelsAfterMedianCut pixels 20).
  set (p1 := removeDuplicates (medianCut pixels 20) 30).
  assert (H1 : p1 <> [])
    by (apply removeDuplicates_nonempty, medianCut_nonempty, Hp).
  set (p2 := if (0 <? length (extractVibrantColors sorted p1))%nat
             then removeDuplicates (p1 ++ extractVibrantColors sorted p1) 45
             else p1).
  assert (H2 : p2 <> []).
  { unfold p2.
    destruct (0 <? length (extractVibrantColors sorted p1))%nat;
      [|exact H1].
    apply removeDuplicates_nonempty. intros E.
    apply app_eq_nil in E as [E _]. contradiction. }
  set (p3 := if (0 <? length (extractBrandColors sorted p2))%nat
             then removeDuplicates (p2 ++ extractBrandColors sorted p2) 40
             else p2).
  assert (H3 : p3 <> []).
  { unfold p3.
    destruct (0 <? length (extractBrandColors sorted p2))%nat;
      [|exact H2].
    apply removeDuplicates_nonempty. intros E.
    apply app_eq_nil in E as [E _]. contradiction. }
  intros E. apply (f_equal (@length _)) in E.
  unfold JS.slice_to in E. rewrite length_firstn, sort_length in E.
  cbn [length] in E. destruct p3; [congruence | cbn in E; lia].
Qed.

(** X13. The palette [processImage] assembles from pixels with channels
    in 0..255 has at most 16 entries, all with channels in 0..255 and a
    non-negative population; it is empty only when there is no pixel;
    and it is ordered by population times class boost (2.5 for brand,
    2.0 for vibrant, 1 otherwise), largest first. *)
Theorem assemblePalette_spec (pixels : list Rgb) :
  Forall rgb_ok pixels ->
  let palette := assemblePalette pixels in
  palette_ok palette
  /\ (length palette <= 16)%nat
  /\ (palette = [] <-> pixels = [])
  /\ descendingBy rank palette.
Proof.
  intros Hp. cbv zeta. split; [now apply assemblePalette_ok|]. split; [|split].
  - unfold assemblePalette, JS.slice_to. cbv zeta.
    rewrite length_firstn. lia.
  - split.
    + intros E. destruct pixels as [|p ps]; [reflexivity|]. exfalso.
      apply (@assemblePalette_nonempty (p :: ps)); [discriminate | exact E].
    + intros ->. vm_compute. reflexivity.
  - unfold assemblePalette, JS.slice_to. cbv zeta.
    apply firstn_descending. apply (sort_descending rank).
Qed.

Lemma assemblePalette_spec_witness :
  let pixels := [mkRgb 10 20 30; mkRgb 200 20 30; mkRgb 90 0 7] in
  let palette := assemblePalette pixels in
  Forall rgb_ok pixels
  /\ palette_ok palette
  /\ (length palette <= 16)%nat
  /\ (palette = [] <-> pixels = [])
  /\ descendingBy rank palette.
Proof.
  intros pixels palette.
  assert (H : Forall rgb_ok pixels) by (repeat constructor; cbn; lia).
  split; [exact H | apply (@assemblePalette_spec pixels H)].
Defined.

Lemma colors_population_pos (buckets : list (list Rgb)) :
  Forall (fun bk : list Rgb => bk <> []) buckets ->
  Forall (fun c : Swatch => (1 <= c.(population))%Z)
         (dropNull (map bucketColor buckets)).
Proof.
  induction 1 as [|bk rest Hb _ IH]; cbn [map dropNull]; [constructor|].
  destruct (bucketColor_population Hb) as (c & -> & Hc).
  constructor; [|exact IH]. rewrite Hc.
  destruct bk; [congruence | cbn; lia].
Qed.

Lemma all_ones (colors : list Swatch) :
  Forall (fun c : Swatch => (1 <= c.(population))%Z) colors ->
  fold_right Z.add 0%Z (map population colors) = Z.of_nat (length colors) ->
  Forall (fun c : Swatch => c.(population) = 1%Z) colors.
Proof.
  intros H. induction H as [|c rest Hc Hrest IH]; intros E; [constructor|].
  cbn [map fold_right length] in E.
  assert (S : (Z.of_nat (length rest)
               <= fold_right Z.add 0%Z (map population rest))%Z).
  { clear IH E. induction Hrest as [|d rest' Hd _ IH']; cbn; [lia|].
    cbn in IH'. lia. }
  constructor; [lia | apply IH; lia].
Qed.

(** X14. For a non-empty list of [N] pixels and [K >= 1], [medianCut]
    returns exactly [min(N, K)] swatches: the loop stops short of [K]
    only when every bucket is down to one pixel.  So with at most [K]
    pixels every pixel becomes a swatch of its own, of population 1. *)
Theorem medianCut_exact_count (pixels : list Rgb) (K : Z) :
  pixels <> [] -> (1 <= K)%Z ->
  Z.of_nat (length (medianCut pixels K))
  = Z.min (Z.of_nat (length pixels)) K
  /\ ((Z.of_nat (length pixels) <= K)%Z ->
      Forall (fun c : Swatch => c.(population) = 1%Z) (medianCut pixels K)).
Proof.
  intros Hp HK. pose proof (medianCut_length Hp HK) as L.
  split; [exact L|]. intros HN. revert L. unfold medianCut.
  destruct pixels as [|p ps] eqn:E; [congruence|]. rewrite <- E in *.
  replace (length pixels =? 0)%nat with false by (subst; reflexivity).
  destruct (@splitLoop_invariant (Z.to_nat K) K [pixels] pixels)
    as (H1 & H2 & _).
  - constructor; [subst; discriminate | constructor].
  - cbn. now rewrite app_nil_r.
  - cbn. lia.
  - destruct (colors_of_buckets H1) as [_ S]. cbv zeta in *.
    rewrite (Permutation_length H2) in S. intros L.
    apply all_ones; [now apply colors_population_pos | lia].
Qed.

Lemma medianCut_exact_count_witness :
  let pixels := [mkRgb 10 20 30; mkRgb 200 20 30; mkRgb 90 0 7] in
  (pixels <> [] /\ (1 <= 20)%Z)
  /\ Z.of_nat (length (medianCut pixels 20))
     = Z.min (Z.of_nat (length pixels)) 20
  /\ ((Z.of_nat (length pixels) <= 20)%Z ->
      Forall (fun c : Swatch => c.(population) = 1%Z) (medianCut pixels 20)).
Proof.
  intros pixels.
  split; [split; [discriminate | lia]
         | apply (@medianCut_exact_count pixels 20); [discriminate | lia]].
Defined.

(** *** Reading the canvas *)

(** X15. On the data of an image (four entries per pixel)
    [extractPixels] returns, in order, exactly the pixels whose alpha is
    128 or more, without the alpha. *)
Theorem extractPixels_opaque (image : list (Rgb * Z)) :
  extractPixels (rgbaData image)
  = map fst (List.filter (fun pa : Rgb * Z => (128 <=? snd pa)%Z) image).
Proof.
  induction image as [|[p a] image IH]; [reflexivity|].
  cbn [rgbaData flat_map fst snd app extractPixels List.filter].
  fold (rgbaData image). rewrite IH, rgb_eta.
  destruct (a <? 128)%Z eqn:E1, (128 <=? a)%Z eqn:E2; try reflexivity; lia.
Qed.

Lemma extractPixels_ok (data : list Z) :
  Forall channel_ok data -> Forall rgb_ok (extractPixels data).
Proof.
  revert data.
  fix IH 1. intros [|x [|y [|z [|a rest]]]] H; try constructor.
  cbn [extractPixels].
  inversion H as [|? ? Hx H1]; subst. inversion H1 as [|? ? Hy H2]; subst.
  inversion H2 as [|? ? Hz H3]; subst. inversion H3 as [|? ? Ha H4]; subst.
  destruct (a <? 128)%Z.
  - now apply IH.
  - constructor; [|now apply IH].
    split; [exact Hx | split; [exact Hy | exact Hz]].
Qed.

(** *** The size of the processing canvas *)

Lemma Math_round_inject_Z (z : Z) : JS.Math_round (inject_Z z) = z.
Proof.
  unfold JS.Math_round.
  pose proof (Qfloor_le (inject_Z z + 0.5)) as L.
  pose proof (Qlt_floor (inject_Z z + 0.5)) as U.
  set (f := Qfloor (inject_Z z + 0.5)) in *.
  rewrite inject_Z_plus in U.
  assert (L' : inject_Z f < inject_Z (z + 1))
    by (rewrite inject_Z_plus; change (inject_Z 1) with 1; lra).
  assert (U' : inject_Z z < inject_Z (f + 1))
    by (rewrite inject_Z_plus; change (inject_Z 1) with 1 in *; lra).
  rewrite <- Zlt_Qlt in L', U'. lia.
Qed.

(** [Math.round] of a quotient of integers: the integer [k] with
    [k - 1/2 <= n / d < k + 1/2]. *)
Lemma Math_round_quotient (n d : Z) :
  (0 < d)%Z ->
  let k := JS.Math_round (inject_Z n / inject_Z d) in
  (2 * k * d - d <= 2 * n < 2 * k * d + d)%Z.
Proof.
  intros Hd k. unfold JS.Math_round in k.
  pose proof (Qfloor_le (inject_Z n / inject_Z d + 0.5)) as L.
  pose proof (Qlt_floor (inject_Z n / inject_Z d + 0.5)) as U.
  fold k in L, U.
  assert (D : 0 < inject_Z d)
    by (change 0 with (inject_Z 0); rewrite <- Zlt_Qlt; exact Hd).
  rewrite inject_Z_plus in U. change (inject_Z 1) with 1 in U.
  assert (X : inject_Z n == inject_Z n / inject_Z d * inject_Z d)
    by (field; lra).
  set (q := inject_Z n / inject_Z d) in *.
  assert (L2 : inject_Z (2 * k * d - d) <= inject_Z (2 * n)).
  { unfold Zminus. rewrite inject_Z_plus, inject_Z_opp, !inject_Z_mult.
    change (inject_Z 2) with 2. rewrite X. nra. }
  assert (U2 : inject_Z (2 * n) < inject_Z (2 * k * d + d)).
  { rewrite inject_Z_plus, !inject_Z_mult. change (inject_Z 2) with 2.
    rewrite X. nra. }
  rewrite <- Zle_Qle in L2. rewrite <- Zlt_Qlt in U2. lia.
Qed.

(** X16. The processing canvas of an image of positive size.  An image
    with both sides at most 200 keeps its size.  Otherwise the longer
    side becomes exactly 200 and the other side is the quotient
    [200 * side / longer] rounded to the nearest integer, upwards from a
    half: the integer [k] with [k - 1/2 <= 200 * side / longer < k + 1/2].
    So both sides are between 0 and 200, and the shorter side of a very
    elongated image is 0. *)
Theorem canvasSize_spec (width height : Z) :
  (0 < width)%Z -> (0 < height)%Z ->
  let w := fst (canvasSize width height) in
  let h := snd (canvasSize width height) in
  ((0 <= w <= 200)%Z /\ (0 <= h <= 200)%Z)
  /\ ((width <= 200)%Z /\ (height <= 200)%Z -> w = width /\ h = height)
  /\ ((200 < width)%Z /\ (height < width)%Z ->
      w = 200%Z
      /\ (2 * h * width - width <= 2 * (200 * height)
          < 2 * h * width + width)%Z)
  /\ ((200 < height)%Z /\ (width <= height)%Z ->
      h = 200%Z
      /\ (2 * w * height - height <= 2 * (200 * width)
          < 2 * w * height + height)%Z).
Proof.
  intros Hw Hh. cbv zeta. unfold canvasSize. cbv zeta.
  assert (Q200 : forall z : Z, (inject_Z z >? 200) = true <-> (200 < z)%Z).
  { intros z. rewrite gtb_gt. change 200 with (inject_Z 200).
    now rewrite <- Zlt_Qlt. }
  assert (Sc : forall side longer : Z,
             (0 < longer)%Z ->
             inject_Z side * 200 / inject_Z longer
             == inject_Z (200 * side) / inject_Z longer).
  { intros side longer Hl. rewrite inject_Z_mult.
    change (inject_Z 200) with 200.
    assert (0 < inject_Z longer)
      by (change 0 with (inject_Z 0); rewrite <- Zlt_Qlt; exact Hl).
    field. lra. }
  destruct (inject_Z width >? inject_Z height) eqn:E1.
  - apply gtb_gt in E1. rewrite <- Zlt_Qlt in E1.
    destruct (inject_Z width >? 200) eqn:E2.
    + apply Q200 in E2. cbn [fst snd].
      change (JS.Math_round 200) with 200%Z.
      unfold JS.Math_round.
      rewrite (@Qfloor_comp _ (inject_Z (200 * height) / inject_Z width + 0.5))
        by (rewrite (Sc _ _ Hw); reflexivity).
      pose proof (@Math_round_quotient (200 * height) width Hw) as R.
      cbv zeta in R. unfold JS.Math_round in R.
      set (k := Qfloor _) in *.
      assert (K : (0 <= k <= 200)%Z) by nia.
      split; [lia|]. split; [lia|].
      split; [intros _; split; [reflexivity | exact R] | lia].
    + apply not_true_iff_false in E2. rewrite Q200 in E2.
      cbn [fst snd]. rewrite !Math_round_inject_Z. lia.
  - apply not_true_iff_false in E1. rewrite gtb_gt, <- Zlt_Qlt in E1.
    destruct (inject_Z height >? 200) eqn:E2.
    + apply Q200 in E2. cbn [fst snd].
      change (JS.Math_round 200) with 200%Z.
      unfold JS.Math_round.
      rewrite (@Qfloor_comp _ (inject_Z (200 * width) / inject_Z height + 0.5))
        by (rewrite (Sc _ _ Hh); reflexivity).
      pose proof (@Math_round_quotient (200 * width) height Hh) as R.
      cbv zeta in R. unfold JS.Math_round in R.
      set (k := Qfloor _) in *.
      assert (K : (0 <= k <= 200)%Z) by nia.
      split; [lia|]. split; [lia|]. split; [lia|].
      intros _. split; [reflexivity | exact R].
    + apply not_true_iff_false in E2. rewrite Q200 in E2.
      cbn [fst snd]. rewrite !Math_round_inject_Z. lia.
Qed.

Lemma canvasSize_spec_witness :
  let w := fst (canvasSize 1600 900) in
  let h := snd (canvasSize 1600 900) in
  ((0 < 1600)%Z /\ (0 < 900)%Z)
  /\ ((0 <= w <= 200)%Z /\ (0 <= h <= 200)%Z)
  /\ ((1600 <= 200)%Z /\ (900 <= 200)%Z -> w = 1600%Z /\ h = 900%Z)
  /\ ((200 < 1600)%Z /\ (900 < 1600)%Z ->
      w = 200%Z
      /\ (2 * h * 1600 - 1600 <= 2 * (200 * 900) < 2 * h * 1600 + 1600)%Z)
  /\ ((200 < 900)%Z /\ (1600 <= 900)%Z ->
      h = 200%Z
      /\ (2 * w * 900 - 900 <= 2 * (200 * 1600) < 2 * w * 900 + 900)%Z).
Proof.
  intros w h.
  split; [split; lia | apply (@canvasSize_spec 1600 900); lia].
Defined.

(** A 1600 by 900 image is processed at 200 by 113 (112.5 rounds up), a
    900 by 1600 image at 113 by 200, and a 1000 by 2 image at 200 by 0. *)
Lemma canvasSize_examples :
  canvasSize 1600 900 = (200, 113)%Z
  /\ canvasSize 900 1600 = (113, 200)%Z
  /\ canvasSize 1000 2 = (200, 0)%Z
  /\ canvasSize 120 80 = (120, 80)%Z.
Proof. repeat split; vm_compute; reflexivity. Qed.

(** *** Where the embedding divides exactly

    The quotients that are rounded to an integer at once, the share
    [length * 0.05] and the differences a [sort] compares are exact in
    the embedding.  On doubles they give the same integer, and the same
    order. *)

Lemma fl_error_rel (x : Q) : 0 < x -> JS.fl x <= x + x * 2 ^ (- 53).
Proof.
  intros Hx. pose proof (@fl_error x ltac:(lra)) as E.
  apply Qabs_Qle_condition in E. destruct E as [_ E].
  destruct (@ilog2_spec x ltac:(lra)) as [L _]. rewrite Qabs_pos in L by lra.
  assert (P : 2 ^ (JS.ilog2 x - 53) == 2 ^ JS.ilog2 x * 2 ^ (- 53)).
  { rewrite <- pow2_plus. now replace (JS.ilog2 x + - 53)%Z
      with (JS.ilog2 x - 53)%Z by lia. }
  rewrite P in E. pose proof (pow2_pos (- 53)) as P53.
  set (c := 2 ^ (- 53)) in *. set (t := 2 ^ JS.ilog2 x) in *. nra.
Qed.

(** [Math.round(sum / length)], and the scaled side of the canvas. *)
Lemma Math_round_quotient_double (n d : Z) :
  (0 <= n)%Z -> (0 < d)%Z -> (n <= 256 * d)%Z -> (d <= 2 ^ 40)%Z ->
  JS.Math_round (inject_Z n /! inject_Z d)
  = JS.Math_round (inject_Z n / inject_Z d).
Proof.
  intros Hn Hd Hq Hsz.
  pose proof (@Math_round_quotient n d Hd) as R. cbv zeta in R.
  set (k := JS.Math_round (inject_Z n / inject_Z d)) in *.
  assert (K : (0 <= k <= 257)%Z) by nia.
  assert (D : 0 < inject_Z d)
    by (change 0 with (inject_Z 0); rewrite <- Zlt_Qlt; exact Hd).
  assert (Dsz : inject_Z d <= 2 ^ 40).
  { rewrite <- pow2_inject by lia. rewrite <- Zle_Qle. exact Hsz. }
  set (q := inject_Z n / inject_Z d).
  assert (X : inject_Z n == q * inject_Z d) by (unfold q; field; lra).
  assert (Q0 : 0 <= q).
  { unfold q. apply Qle_shift_div_l; [exact D|].
    assert (0 <= inject_Z n)
      by (change 0 with (inject_Z 0); rewrite <- Zle_Qle; exact Hn).
    lra. }
  assert (Q1 : q <= 256).
  { unfold q. apply Qle_shift_div_r; [exact D|].
    change 256 with (inject_Z 256). rewrite <- inject_Z_mult, <- Zle_Qle.
    exact Hq. }
  (* the bounds of [k], in rationals *)
  destruct R as [R0 R1].
  assert (L : inject_Z k - (1 # 2) <= q).
  { rewrite Zle_Qle in R0. unfold Zminus in R0.
    rewrite inject_Z_plus, inject_Z_opp, !inject_Z_mult in R0.
    change (inject_Z 2) with 2 in R0. rewrite X in R0. nra. }
  assert (U : q + (1 # 2) * / inject_Z d <= inject_Z k + (1 # 2)).
  { assert (R1' : (2 * n + 1 <= 2 * k * d + d)%Z) by lia.
    rewrite Zle_Qle in R1'.
    rewrite !inject_Z_plus, !inject_Z_mult in R1'.
    change (inject_Z 2) with 2 in R1'. change (inject_Z 1) with 1 in R1'.
    rewrite X in R1'.
    assert (I : / inject_Z d * inject_Z d == 1) by (field; lra).
    assert (Ipos : 0 < / inject_Z d) by (apply Qinv_lt_0_compat; exact D).
    set (i := / inject_Z d) in *. set (dd := inject_Z d) in *. nra. }
  unfold JS.Math_round at 1. unfold JS.div. fold q.
  apply Qfloor_unique.
  - assert (E : JS.fl (inject_Z k - (1 # 2)) == inject_Z k - (1 # 2)).
    { assert (F : inject_Z k - (1 # 2) == inject_Z (2 * k - 1) * 2 ^ (- 1)).
      { unfold Zminus. rewrite inject_Z_plus, inject_Z_opp, inject_Z_mult.
        change (inject_Z 2) with 2. change (inject_Z 1) with 1.
        change (2 ^ (- 1)) with (1 # 2). ring. }
      rewrite (fl_morph F), F. apply fl_exact. lia. }
    assert (JS.fl (inject_Z k - (1 # 2)) <= JS.fl q) by (now apply fl_le).
    lra.
  - rewrite inject_Z_plus. change (inject_Z 1) with 1.
    destruct (Qeq_dec q 0) as [Z | N].
    + rewrite (fl_zero Z).
      assert (0 <= inject_Z k)
        by (change 0 with (inject_Z 0); rewrite <- Zle_Qle; lia).
      lra.
    + assert (Qpos : 0 < q).
      { destruct (Qlt_le_dec 0 q) as [P | P]; [exact P|].
        exfalso. apply N. apply Qle_antisym; assumption. }
      pose proof (fl_error_rel Qpos) as E.
      (* [q * 2^-53 <= 2^-45 < 1 / (2 d)] *)
      assert (I : / inject_Z d * inject_Z d == 1) by (field; lra).
      assert (Ipos : 0 < / inject_Z d) by (apply Qinv_lt_0_compat; exact D).
      assert (Ige : 2 ^ (- 40) <= / inject_Z d).
      { assert (C : 2 ^ 40 * 2 ^ (- 40) == 1) by apply pow2_cancel.
        pose proof (pow2_pos (- 40)) as P40.
        set (i := / inject_Z d) in *. set (dd := inject_Z d) in *.
        set (a := 2 ^ 40) in *. set (b := 2 ^ (- 40)) in *.
        destruct (Qlt_le_dec i b) as [T | T]; [exfalso | exact T].
        assert (i * dd < b * a).
        { apply Qle_lt_trans with (i * a).
          - apply Qmult_le_l; [exact Ipos | exact Dsz].
          - apply Qmult_lt_r; [unfold a; apply pow2_pos | exact T]. }
        nra. }
      assert (V : q * 2 ^ (- 53) <= 2 ^ (- 45)).
      { assert (E45 : 2 ^ (- 45) == 256 * 2 ^ (- 53)) by reflexivity.
        rewrite E45. apply Qmult_le_r; [apply pow2_pos | exact Q1]. }
      assert (W : 2 ^ (- 45) < (1 # 2) * 2 ^ (- 40))
        by (apply Qlt_alt; vm_compute; reflexivity).
      set (i := / inject_Z d) in *. nra.
Qed.

(** The mean of a channel over [n] pixels, as [bucketColor] and
    [averageChannel] round it. *)
Lemma mean_on_doubles (sum n : Z) :
  (0 < n <= 2 ^ 40)%Z -> (0 <= sum <= 255 * n)%Z ->
  JS.Math_round (inject_Z sum /! inject_Z n)
  = JS.Math_round (inject_Z sum / inject_Z n).
Proof.
  intros [N0 N1] [S0 S1]. apply Math_round_quotient_double; lia.
Qed.

(** The scaled side of the canvas, [(side * maxSize) / longer]. *)
Lemma canvas_side_on_doubles (side longer : Z) :
  (0 < side <= longer)%Z -> (longer <= 2 ^ 40)%Z ->
  JS.Math_round (inject_Z side *! 200 /! inject_Z longer)
  = JS.Math_round (inject_Z side * 200 / inject_Z longer).
Proof.
  intros [H0 H1] H2.
  assert (P : inject_Z side *! 200 == inject_Z (side * 200)).
  { unfold JS.mul. change 200 with (inject_Z 200) at 1.
    rewrite <- inject_Z_mult. apply fl_Z. lia. }
  assert (D : 0 < inject_Z longer)
    by (change 0 with (inject_Z 0); rewrite <- Zlt_Qlt; lia).
  assert (E1 : inject_Z side *! 200 / inject_Z longer
               == inject_Z (side * 200) / inject_Z longer)
    by (now rewrite P).
  assert (E2 : inject_Z side * 200 / inject_Z longer
               == inject_Z (side * 200) / inject_Z longer)
    by (rewrite inject_Z_mult; reflexivity).
  unfold JS.div at 1. rewrite (fl_morph E1). fold (JS.div (inject_Z (side * 200)) (inject_Z longer)).
  unfold JS.Math_round at 2. rewrite (Qfloor_comp _ (inject_Z (side * 200) / inject_Z longer + 0.5))
    by (now rewrite E2).
  apply Math_round_quotient_double; lia.
Qed.

(** [Math.floor(bucket.length * 0.05)] *)
Lemma Math_floor_share_double (n : Z) :
  (0 <= n <= 2 ^ 40)%Z ->
  JS.Math_floor (inject_Z n *! JS.lit 0.05) = JS.Math_floor (inject_Z n * 0.05).
Proof.
  intros [Hn Hsz]. unfold JS.Math_floor at 1, JS.mul.
  set (c := JS.lit 0.05).
  assert (C0 : 0.05 <= c) by (apply Qle_bool_imp_le; vm_compute; reflexivity).
  assert (C1 : c <= 0.05 + 2 ^ (- 58))
    by (apply Qle_bool_imp_le; vm_compute; reflexivity).
  assert (N0 : 0 <= inject_Z n)
    by (change 0 with (inject_Z 0); rewrite <- Zle_Qle; exact Hn).
  assert (N1 : inject_Z n <= 2 ^ 40).
  { rewrite <- pow2_inject by lia. rewrite <- Zle_Qle. exact Hsz. }
  unfold JS.Math_floor.
  set (k := Qfloor (inject_Z n * 0.05)).
  pose proof (Qfloor_le (inject_Z n * 0.05)) as L.
  pose proof (Qlt_floor (inject_Z n * 0.05)) as U. fold k in L, U.
  (* in integers: [20 k <= n <= 20 k + 19] *)
  assert (Z0 : (20 * k <= n)%Z).
  { rewrite Zle_Qle, inject_Z_mult. change (inject_Z 20) with 20. lra. }
  assert (Z1 : (n < 20 * (k + 1))%Z).
  { rewrite Zlt_Qlt, inject_Z_mult. change (inject_Z 20) with 20. lra. }
  assert (Z2 : inject_Z n + 1 <= 20 * inject_Z (k + 1)).
  { change 1 with (inject_Z 1). change 20 with (inject_Z 20).
    rewrite <- inject_Z_plus, <- inject_Z_mult, <- Zle_Qle. lia. }
  assert (K0 : (0 <= k)%Z) by lia.
  assert (Rk : JS.fl (inject_Z k) == inject_Z k) by (apply fl_Z; lia).
  apply Qfloor_unique.
  - rewrite <- Rk. apply fl_le.
    apply Qle_trans with (inject_Z n * 0.05); [exact L|].
    set (nn := inject_Z n) in *. nra.
  - destruct (Qeq_dec (inject_Z n * c) 0) as [Z | N].
    + rewrite (fl_zero Z). rewrite inject_Z_plus. change (inject_Z 1) with 1.
      assert (0 <= inject_Z k)
        by (change 0 with (inject_Z 0); rewrite <- Zle_Qle; lia).
      lra.
    + assert (P : 0 < inject_Z n * c).
      { destruct (Qlt_le_dec 0 (inject_Z n * c)) as [P | P]; [exact P|].
        exfalso. apply N. apply Qle_antisym; [exact P|].
        apply Qmult_le_0_compat; lra. }
      pose proof (fl_error_rel P) as E.
      assert (B1 : inject_Z n * c <= inject_Z n * 0.05 + 2 ^ (- 18)).
      { assert (E18 : 2 ^ (- 18) == 2 ^ 40 * 2 ^ (- 58)) by reflexivity.
        rewrite E18. pose proof (pow2_pos (- 58)) as P58.
        set (e := 2 ^ (- 58)) in *. set (N40 := 2 ^ 40) in *.
        set (nn := inject_Z n) in *. nra. }
      assert (B2 : inject_Z n * c * 2 ^ (- 53) <= 2 ^ (- 16)).
      { assert (B3 : inject_Z n * c <= 2 ^ 37).
        { assert (T : 2 ^ 40 * (0.05 + 2 ^ (- 58)) <= 2 ^ 37)
            by (apply Qle_bool_imp_le; vm_compute; reflexivity).
          set (N40 := 2 ^ 40) in *. set (e := 2 ^ (- 58)) in *.
          set (nn := inject_Z n) in *. nra. }
        assert (E16 : 2 ^ (- 16) == 2 ^ 37 * 2 ^ (- 53)) by reflexivity.
        rewrite E16. apply Qmult_le_r; [apply pow2_pos | exact B3]. }
      assert (V18 : 2 ^ (- 18) + 2 ^ (- 16) < 0.05)
        by (apply Qlt_alt; vm_compute; reflexivity).
      lra.
Qed.

(** The sign of a difference survives the rounding: a comparator
    [(a, b) => b.key - a.key] orders doubles as the exact difference
    does. *)
Lemma sub_sign (x y : Q) : Qle_bool (x -! y) 0 = Qle_bool (x - y) 0.
Proof.
  unfold JS.sub. destruct (Qle_bool (x - y) 0) eqn:E.
  - apply Qle_bool_iff in E. apply Qle_bool_iff.
    change 0 with (JS.fl 0). now apply fl_le.
  - apply not_true_iff_false in E. rewrite Qle_bool_iff in E.
    apply Qnot_le_lt in E. apply fl_pos in E.
    apply not_true_iff_false. rewrite Qle_bool_iff. lra.
Qed.

(** ** The session *)

Lemma getContrastChecks_total (t : TokenSet) :
  validTokenSet t -> exists checks, getContrastChecks t = Some checks.
Proof.
  unfold validTokenSet, validHex.
  intros (Vb & Vs & _ & Vt & Vh & Vm & Vp & Vo).
  destruct (hexToRgb t.(bg)) as [c1|] eqn:P1; [|congruence].
  destruct (hexToRgb t.(surface)) as [c2|] eqn:P2; [|congruence].
  destruct (hexToRgb t.(text)) as [c3|] eqn:P3; [|congruence].
  destruct (hexToRgb t.(heading)) as [c4|] eqn:P4; [|congruence].
  destruct (hexToRgb t.(mutedText)) as [c5|] eqn:P5; [|congruence].
  destruct (hexToRgb t.(primary)) as [c6|] eqn:P6; [|congruence].
  destruct (hexToRgb t.(onPrimary)) as [c7|] eqn:P7; [|congruence].
  eexists. exact (getContrastChecks_valid t P1 P2 P4 P3 P5 P6 P7).
Qed.

(** [computeAndRender] does not throw on a palette of in-range swatches:
    it leaves palette and locks alone and stores the tokens. *)
Lemma computeAndRender_ok (Math_log : Q -> Q) (s : Session) :
  palette_ok s.(extractedPalette) ->
  (s.(extractedPalette) = [] /\ computeAndRender Math_log s = Some s)
  \/ (s.(extractedPalette) <> []
      /\ exists t,
           generateTokens Math_log s.(extractedPalette) s.(lockedPrimaryHex)
             s.(lockedLightBgHex) s.(lockedDarkBgHex) = Some t
           /\ computeAndRender Math_log s
              = Some (mkSession s.(extractedPalette) s.(lockedPrimaryHex)
                        s.(lockedLightBgHex) s.(lockedDarkBgHex) (Some t))).
Proof.
  intros Hp. unfold computeAndRender.
  destruct s.(extractedPalette) as [|c cs] eqn:E; [left; auto|].
  right. split; [discriminate|]. rewrite <- E in *.
  replace (length s.(extractedPalette) =? 0)%nat with false
    by (rewrite E; reflexivity).
  destruct (generateTokens_spec Math_log Hp s.(lockedPrimaryHex)
              s.(lockedLightBgHex) s.(lockedDarkBgHex))
    as (t & Et & [V1 V2] & _).
  exists t. split; [exact Et|]. rewrite Et. cbn [JS.bind].
  destruct (getContrastChecks_total V1) as [l1 ->].
  destruct (getContrastChecks_total V2) as [l2 ->].
  reflexivity.
Qed.

(** X17. From image data to tokens: for canvas data with entries in
    0..255, [processImage] does not throw; it clears the three locks and
    stores a palette of at most 16 in-range swatches; with at least one
    opaque pixel it stores complete token sets for both modes; with none
    (a fully transparent image) the palette is empty and the previous
    tokens stay in place. *)
Theorem processImage_result (Math_log : Q -> Q) (data : list Z)
    (s : Session) :
  Forall channel_ok data ->
  exists s',
    processImage Math_log data s = Some s'
    /\ (s'.(lockedPrimaryHex) = None /\ s'.(lockedLightBgHex) = None
        /\ s'.(lockedDarkBgHex) = None)
    /\ (s'.(extractedPalette) = assemblePalette (extractPixels data)
        /\ palette_ok s'.(extractedPalette)
        /\ (length s'.(extractedPalette) <= 16)%nat)
    /\ (extractPixels data = [] ->
        s'.(extractedPalette) = [] /\ s'.(currentTokens) = s.(currentTokens))
    /\ (extractPixels data <> [] ->
        exists t, s'.(currentTokens) = Some t
                  /\ generateTokens Math_log s'.(extractedPalette) None None
                       None = Some t
                  /\ validTokenSet t.(light) /\ validTokenSet t.(dark)).
Proof.
  intros Hd. pose proof (extractPixels_ok Hd) as Hpx.
  pose proof (assemblePalette_ok Hpx) as Hp.
  assert (L : (length (assemblePalette (extractPixels data)) <= 16)%nat).
  { unfold assemblePalette, JS.slice_to. cbv zeta.
    rewrite length_firstn. lia. }
  unfold processImage.
  set (s0 := mkSession (assemblePalette (extractPixels data)) None None None
               s.(currentTokens)).
  destruct (@computeAndRender_ok Math_log s0 Hp)
    as [[E ->] | (Hne & t & Et & ->)]; subst s0;
    cbn [extractedPalette lockedPrimaryHex lockedLightBgHex lockedDarkBgHex]
      in *.
  - eexists. split; [reflexivity|]. cbn.
    split; [auto|]. split; [auto|]. split; [auto|].
    intros Hx. exfalso. revert E. now apply assemblePalette_nonempty.
  - eexists. split; [reflexivity|]. cbn.
    split; [auto|]. split; [auto|]. split.
    + intros Hx. exfalso. apply Hne. rewrite Hx. vm_compute. reflexivity.
    + intros _. exists t. split; [reflexivity|]. split; [exact Et|].
      destruct (generateTokens_spec Math_log Hp None None None)
        as (t' & Et' & [V1 V2] & _).
      rewrite Et in Et'. injection Et' as <-. now split.
Qed.

Lemma processImage_result_witness :
  let data := [250; 250; 250; 255; 30; 30; 36; 255; 255; 0; 0; 10]%Z in
  let s := mkSession [] (Some "#123456") None None None in
  Forall channel_ok data
  /\ exists s',
       processImage log2_floor data s = Some s'
       /\ (s'.(lockedPrimaryHex) = None /\ s'.(lockedLightBgHex) = None
           /\ s'.(lockedDarkBgHex) = None)
       /\ (s'.(extractedPalette) = assemblePalette (extractPixels data)
           /\ palette_ok s'.(extractedPalette)
           /\ (length s'.(extractedPalette) <= 16)%nat)
       /\ (extractPixels data = [] ->
           s'.(extractedPalette) = []
           /\ s'.(currentTokens) = s.(currentTokens))
       /\ (extractPixels data <> [] ->
           exists t, s'.(currentTokens) = Some t
                     /\ generateTokens log2_floor s'.(extractedPalette) None
                          None None = Some t
                     /\ validTokenSet t.(light) /\ validTokenSet t.(dark)).
Proof.
  intros data s.
  assert (H : Forall channel_ok data)
    by (repeat constructor; unfold channel_ok; lia).
  split; [exact H | apply (@processImage_result log2_floor data s H)].
Defined.

Lemma swatchHex_resolves (palette : list Swatch) (c : Swatch) :
  palette_ok palette -> In c palette ->
  exists x, resolveLocked (map analyze palette) (swatchHex c) = Some x
            /\ x.(hex) = swatchHex c
            /\ isSet (Some (swatchHex c)) = Some (swatchHex c).
Proof.
  intros Hp Hc.
  assert (Hok : rgb_ok c).
  { unfold palette_ok in Hp. rewrite Forall_forall in Hp.
    now destruct (Hp c Hc). }
  destruct Hok as (Hr & Hg & Hb).
  pose proof (rgbToHex_hexToRgb Hr Hg Hb) as P.
  pose proof (rgbToHex_lower Hr Hg Hb) as Low.
  fold (swatchHex c) in P, Low.
  destruct (@resolveLocked_parseable (map analyze palette) (swatchHex c) _ P)
    as (x & R & Hlow & Hx).
  exists x. split; [exact R|]. split.
  - destruct Hx as [Hx | Hx]; [exact Hx|].
    now rewrite <- (@coherent_hex_lower palette x Hp Hx), Hlow.
  - now apply isSet_parseable with (mkRgb c.(r) c.(g) c.(b)).
Qed.

(** X18. Clicking a palette swatch while no primary is locked locks it:
    the click does not throw, and in the stored tokens the primary of
    both modes is the swatch's hex, verbatim.  Clicking the same swatch
    again unlocks: the stored tokens are again those of the palette
    without a primary lock. *)
Theorem click_swatch_toggles_primary (Math_log : Q -> Q) (s : Session)
    (c : Swatch) :
  palette_ok s.(extractedPalette) ->
  In c s.(extractedPalette) ->
  s.(lockedPrimaryHex) = None ->
  exists s1 t1 s2,
    clickSwatch Math_log (swatchHex c) s = Some s1
    /\ s1.(lockedPrimaryHex) = Some (swatchHex c)
    /\ s1.(currentTokens) = Some t1
    /\ t1.(light).(primary) = swatchHex c
    /\ t1.(dark).(primary) = swatchHex c
    /\ clickSwatch Math_log (swatchHex c) s1 = Some s2
    /\ s2.(lockedPrimaryHex) = None
    /\ s2.(currentTokens)
       = generateTokens Math_log s.(extractedPalette) None
           s.(lockedLightBgHex) s.(lockedDarkBgHex).
Proof.
  intros Hp Hc Hnone.
  assert (Hne : s.(extractedPalette) <> [])
    by (intros E; rewrite E in Hc; destruct Hc).
  destruct (@swatchHex_resolves _ _ Hp Hc) as (x & R & Hx & S).
  unfold clickSwatch at 1. rewrite Hnone. cbn [toggleLock].
  set (s0 := mkSession _ (Some (swatchHex c)) _ _ _).
  destruct (@computeAndRender_ok Math_log s0 Hp)
    as [[E _] | (_ & t1 & Et1 & ->)]; [contradiction|].
  cbn [extractedPalette lockedPrimaryHex lockedLightBgHex lockedDarkBgHex s0]
    in *.
  destruct (generateTokens_spec Math_log Hp (Some (swatchHex c))
              s.(lockedLightBgHex) s.(lockedDarkBgHex))
    as (t & Et & _ & _ & _ & Hlock).
  rewrite Et1 in Et. injection Et as <-.
  destruct (Hlock _ _ S R) as [L1 L2].
  pose (s3 := mkSession s.(extractedPalette) None s.(lockedLightBgHex)
                s.(lockedDarkBgHex) (Some t1)).
  destruct (@computeAndRender_ok Math_log s3 Hp)
    as [[E _] | (_ & t2 & Et2 & E3)]; [contradiction|].
  cbn [extractedPalette lockedPrimaryHex lockedLightBgHex lockedDarkBgHex s3]
    in *.
  eexists _, t1, _. split; [reflexivity|].
  unfold clickSwatch.
  cbn [extractedPalette lockedPrimaryHex lockedLightBgHex lockedDarkBgHex
       currentTokens toggleLock].
  rewrite String.eqb_refl.
  split; [reflexivity|]. split; [reflexivity|].
  split; [now rewrite L1|]. split; [now rewrite L2|].
  split; [exact E3|]. cbn [lockedPrimaryHex currentTokens].
  split; [reflexivity|]. now rewrite Et2.
Qed.

Lemma click_swatch_toggles_primary_witness :
  let c := mkSwatch (mkRgb 255 0 0) 3 true true in
  let s := mkSession examplePalette None None None None in
  (palette_ok s.(extractedPalette) /\ In c s.(extractedPalette)
   /\ s.(lockedPrimaryHex) = None)
  /\ exists s1 t1 s2,
       clickSwatch log2_floor (swatchHex c) s = Some s1
       /\ s1.(lockedPrimaryHex) = Some (swatchHex c)
       /\ s1.(currentTokens) = Some t1
       /\ t1.(light).(primary) = swatchHex c
       /\ t1.(dark).(primary) = swatchHex c
       /\ clickSwatch log2_floor (swatchHex c) s1 = Some s2
       /\ s2.(lockedPrimaryHex) = None
       /\ s2.(currentTokens)
          = generateTokens log2_floor s.(extractedPalette) None
              s.(lockedLightBgHex) s.(lockedDarkBgHex).
Proof.
  intros c s.
  assert (H1 : palette_ok s.(extractedPalette)) by exact examplePalette_ok.
  assert (H2 : In c s.(extractedPalette))
    by (right; right; left; reflexivity).
  split; [split; [exact H1 | split; [exact H2 | reflexivity]]|].
  apply (@click_swatch_toggles_primary log2_floor s c H1 H2). reflexivity.
Defined.

(** ** Saved palettes *)

Lemma findIndex_spec (id0 : string) (palettes : list Storage.SavedPalette) :
  match Storage.findIndex id0 palettes with
  | Some index =>
      exists before p after,
        palettes = before ++ p :: after
        /\ length before = index
        /\ p.(Storage.id) = id0
        /\ Forall (fun q => q.(Storage.id) <> id0) before
  | None => Forall (fun q => q.(Storage.id) <> id0) palettes
  end.
Proof.
  induction palettes as [|p rest IH]; cbn [Storage.findIndex].
  - constructor.
  - destruct (String.eqb p.(Storage.id) id0) eqn:E.
    + apply String.eqb_eq in E. exists [], p, rest. auto.
    + apply String.eqb_neq in E.
      destruct (Storage.findIndex id0 rest) as [index|]; cbn [option_map].
      * destruct IH as (before & q & after & -> & L & Hq & Hb).
        exists (p :: before), q, after. cbn [length app].
        split; [reflexivity|]. split; [now rewrite L|].
        split; [exact Hq | now constructor].
      * now constructor.
Qed.

Lemma removeAt_middle {A} (before after : list A) (x : A) :
  Storage.removeAt (length before) (before ++ x :: after) = before ++ after.
Proof.
  unfold Storage.removeAt.
  induction before as [|y before IH]; cbn [length app firstn skipn].
  - reflexivity.
  - cbn [skipn] in IH. now rewrite IH.
Qed.

(** X19. [deletePalette] on a store that accepts the write removes the
    first saved palette with the given id and nothing else, keeping the
    order of the others; with no palette of that id the store is left
    untouched. *)
Theorem deletePalette_removes_first (id0 : string) (store : Storage.Store) :
  let palettes := Storage.getSavedPalettes store in
  (Forall (fun q => q.(Storage.id) <> id0) palettes
   /\ Storage.deletePalette true id0 store = store)
  \/ exists before p after,
       palettes = before ++ p :: after
       /\ p.(Storage.id) = id0
       /\ Forall (fun q => q.(Storage.id) <> id0) before
       /\ Storage.getSavedPalettes (Storage.deletePalette true id0 store)
          = before ++ after.
Proof.
  cbv zeta. unfold Storage.deletePalette.
  pose proof (findIndex_spec id0 (Storage.getSavedPalettes store)) as F.
  destruct (Storage.findIndex id0 (Storage.getSavedPalettes store))
    as [index|].
  - right. destruct F as (before & p & after & E & L & Hp & Hb).
    exists before, p, after. split; [exact E|]. split; [exact Hp|].
    split; [exact Hb|]. cbn [Storage.savePalettes Storage.getSavedPalettes].
    rewrite E, <- L. apply removeAt_middle.
  - left. auto.
Qed.

(** X20. [savePalette] on a store that accepts the write puts the new
    palette first and keeps at most [MAX_SAVED = 5] palettes: the stored
    list is the first five of the new palette followed by the old list.
    The new record holds the palette without the brand flag, and the
    default name when the given name is empty. *)
Theorem savePalette_keeps_newest_five (newId : string) (now : Z)
    (defaultName name : string) (palette : list Swatch) (tokens : option Tokens)
    (store : Storage.Store) :
  let result :=
    Storage.savePalette newId now defaultName true name palette tokens
      store in
  let saved := Storage.getSavedPalettes (snd result) in
  saved = firstn 5 (fst result :: Storage.getSavedPalettes store)
  /\ (1 <= length saved <= 5)%nat
  /\ (fst result).(Storage.id) = newId
  /\ (fst result).(Storage.name)
     = (if JS.truthy name then name else defaultName)
  /\ map (fun c : Swatch => (c.(r), c.(g), c.(b), c.(population),
                             c.(isVibrant), c.(isBrandColor)))
         (fst result).(Storage.palette)
     = map (fun c : Swatch => (c.(r), c.(g), c.(b), c.(population),
                               c.(isVibrant), false)) palette.
Proof.
  cbv zeta. unfold Storage.savePalette. cbv zeta.
  set (new := Storage.mkSaved _ _ _ _ _).
  set (old := Storage.getSavedPalettes store).
  set (kept := if (Storage.MAX_SAVED <? length (new :: old))%nat
               then firstn Storage.MAX_SAVED (new :: old) else new :: old).
  assert (E : kept = firstn 5 (new :: old)).
  { unfold kept. change Storage.MAX_SAVED with 5%nat.
    destruct (5 <? length (new :: old))%nat eqn:L; [reflexivity|].
    apply Nat.ltb_ge in L. symmetry. now apply firstn_all2. }
  cbn [fst snd Storage.savePalettes Storage.getSavedPalettes].
  rewrite E. split; [reflexivity|]. split.
  - rewrite length_firstn. cbn [length]. lia.
  - unfold new. cbn [Storage.id Storage.name Storage.palette].
    split; [reflexivity|]. split; [reflexivity|].
    rewrite map_map. apply map_ext. intros c. unfold Storage.savedSwatch.
    cbn [rgb r g b population isVibrant isBrandColor].
    now rewrite orb_false_r.
Qed.

(** X21. Saving a palette and deleting it again by its id restores the
    list of saved palettes, provided fewer than five were saved before
    (with five, the oldest has been dropped by the save).  This holds
    even when the id was already in use: the delete removes the first
    match, which is the new palette. *)
Theorem save_then_delete (newId : string) (now : Z)
    (defaultName name : string) (palette : list Swatch) (tokens : option Tokens)
    (store : Storage.Store) :
  (length (Storage.getSavedPalettes store) < 5)%nat ->
  Storage.getSavedPalettes
    (Storage.deletePalette true newId
       (snd (Storage.savePalette newId now defaultName true name palette
               tokens store)))
  = Storage.getSavedPalettes store.
Proof.
  intros L. unfold Storage.savePalette. cbv zeta.
  cbn [snd Storage.savePalettes].
  set (new := Storage.mkSaved _ _ _ _ _).
  change Storage.MAX_SAVED with 5%nat.
  replace (5 <? length (new :: Storage.getSavedPalettes store))%nat
    with false by (symmetry; apply Nat.ltb_ge; cbn [length]; lia).
  unfold Storage.deletePalette.
  cbn [Storage.getSavedPalettes Storage.findIndex].
  unfold new at 1. cbn [Storage.id]. rewrite String.eqb_refl.
  reflexivity.
Qed.

Lemma save_then_delete_witness :
  let store : Storage.Store := None in
  (length (Storage.getSavedPalettes store) < 5)%nat
  /\ Storage.getSavedPalettes
       (Storage.deletePalette true "pal_1_abc"
          (snd (Storage.savePalette "pal_1_abc" 1 "Palette 1" true ""
                  examplePalette None
                  store)))
     = Storage.getSavedPalettes store.
Proof.
  intros store.
  split; [cbn; lia | apply (@save_then_delete "pal_1_abc" 1 "Palette 1" ""
                              examplePalette _ store); cbn; lia].
Defined.

(** ** Luminance and contrast, in general *)

Lemma linearize_le_1 (c : Z) : channel_ok c -> linearize c <= 1.
Proof.
  intros [H0 H1].
  assert (A : forallb (fun n => Qle_bool (linearize (Z.of_nat n)) 1)
                (seq 0 256) = true) by (vm_compute; reflexivity).
  rewrite forallb_forall in A.
  specialize (A (Z.to_nat c)). rewrite Z2Nat.id in A by exact H0.
  apply Qle_bool_imp_le, A, in_seq. lia.
Qed.

Lemma lum_le_1 (c : Rgb) : rgb_ok c -> lum c <= 1.
Proof.
  intros (Hr & Hg & Hb). unfold lum, getLuminance.
  pose proof (linearize_le_1 Hr). pose proof (linearize_le_1 Hg).
  pose proof (linearize_le_1 Hb). lra.
Qed.

(** X22. The relative luminance of a colour with channels in 0..255 lies
    between 0 and 1. *)
Theorem luminance_range (x y z : Z) :
  channel_ok x -> channel_ok y -> channel_ok z ->
  0 <= getLuminance x y z <= 1.
Proof.
  intros Hx Hy Hz.
  assert (Hok : rgb_ok (mkRgb x y z))
    by (split; [exact Hx | split; [exact Hy | exact Hz]]).
  split.
  - apply (lum_nonneg Hok).
  - apply (lum_le_1 Hok).
Qed.

Lemma luminance_range_witness :
  (channel_ok 12 /\ channel_ok 200 /\ channel_ok 255)
  /\ 0 <= getLuminance 12 200 255 <= 1.
Proof.
  assert (H1 : channel_ok 12) by (unfold channel_ok; lia).
  assert (H2 : channel_ok 200) by (unfold channel_ok; lia).
  assert (H3 : channel_ok 255) by (unfold channel_ok; lia).
  split; [auto | apply (@luminance_range 12 200 255 H1 H2 H3)].
Defined.

(** X23. The contrast ratio of two colours with channels in 0..255 lies
    between 1 and 21, does not depend on the order of its arguments, and
    is 1 for a colour against itself. *)
Theorem contrast_ratio_range (a c : Rgb) :
  rgb_ok a -> rgb_ok c ->
  1 <= getContrastRatio a c <= 21
  /\ getContrastRatio a c == getContrastRatio c a
  /\ getContrastRatio a a == 1.
Proof.
  intros Ha Hc.
  pose proof (lum_nonneg Ha) as A0. pose proof (lum_le_1 Ha) as A1.
  pose proof (lum_nonneg Hc) as C0. pose proof (lum_le_1 Hc) as C1.
  rewrite !getContrastRatio_lum.
  split; [|split].
  - destruct (Qlt_le_dec (lum a) (lum c)) as [H | H].
    + assert (H' : lum a <= lum c) by lra.
      rewrite (Q.max_r _ _ H'), (Q.min_l _ _ H'). split.
      * apply Qle_shift_div_l; lra.
      * apply Qle_shift_div_r; lra.
    + rewrite (Q.max_l _ _ H), (Q.min_r _ _ H). split.
      * apply Qle_shift_div_l; lra.
      * apply Qle_shift_div_r; lra.
  - now rewrite (Q.max_comm (lum a)), (Q.min_comm (lum a)).
  - rewrite Q.max_id, Q.min_id. field. lra.
Qed.

Lemma contrast_ratio_range_witness :
  (rgb_ok white /\ rgb_ok black)
  /\ 1 <= getContrastRatio white black <= 21
  /\ getContrastRatio white black == getContrastRatio black white
  /\ getContrastRatio white white == 1.
Proof.
  assert (H1 : rgb_ok white) by (repeat split; cbn; lia).
  assert (H2 : rgb_ok black) by (repeat split; cbn; lia).
  split; [auto | apply (@contrast_ratio_range white black H1 H2)].
Defined.

(** ** Parsing, then formatting *)

Lemma hexValue_hexChar (c : ascii) (d : Z) :
  hexValue c = Some d -> hexChar d = JS.lowerChar c.
Proof.
  intros H. destruct c as [[] [] [] [] [] [] [] []]; vm_compute in H;
    try discriminate H; injection H as <-; reflexivity.
Qed.

Lemma hexPair_digits (d1 d2 : Z) :
  (0 <= d1 <= 15)%Z -> (0 <= d2 <= 15)%Z ->
  hexPair (16 * d1 + d2) = String (hexChar d1) (String (hexChar d2) "").
Proof.
  intros H1 H2.
  assert (A : forallb (fun n1 =>
                forallb (fun n2 =>
                  String.eqb
                    (hexPair (16 * Z.of_nat n1 + Z.of_nat n2))
                    (String (hexChar (Z.of_nat n1))
                       (String (hexChar (Z.of_nat n2)) "")))
                  (seq 0 16)) (seq 0 16) = true)
    by (vm_compute; reflexivity).
  rewrite forallb_forall in A.
  specialize (A (Z.to_nat d1)). rewrite forallb_forall in A.
  specialize (A ltac:(apply in_seq; lia) (Z.to_nat d2)
                ltac:(apply in_seq; lia)).
  rewrite !Z2Nat.id in A by lia. now apply String.eqb_eq.
Qed.

Lemma parsePair_hexPair (c1 c2 : ascii) (v : Z) :
  parsePair c1 c2 = Some v ->
  hexPair v = String (JS.lowerChar c1) (String (JS.lowerChar c2) "").
Proof.
  unfold parsePair, JS.bind.
  destruct (hexValue c1) as [d1|] eqn:E1; [|discriminate].
  destruct (hexValue c2) as [d2|] eqn:E2; [|discriminate].
  intros E.
  apply (f_equal (fun o => match o with Some x => x | None => 0%Z end)) in E.
  cbv beta iota in E. subst v.
  rewrite hexPair_digits by (eapply hexValue_range; eassumption).
  now rewrite (hexValue_hexChar _ E1), (hexValue_hexChar _ E2).
Qed.

Lemma hexToRgb_body (body : string) (c : Rgb) :
  match body with
  | String c1 (String c2 (String c3 (String c4 (String c5 (String c6
      EmptyString))))) =>
      r <- parsePair c1 c2 ;; g <- parsePair c3 c4 ;; b <- parsePair c5 c6 ;;
      Some (mkRgb r g b)
  | _ => None
  end = Some c ->
  rgbToHex c.(r) c.(g) c.(b) = String "#" (JS.toLowerCase body).
Proof.
  destruct body as [|c1 [|c2 [|c3 [|c4 [|c5 [|c6 [|]]]]]]]; try discriminate.
  unfold JS.bind.
  destruct (parsePair c1 c2) as [v1|] eqn:E1; [|discriminate].
  destruct (parsePair c3 c4) as [v2|] eqn:E2; [|discriminate].
  destruct (parsePair c5 c6) as [v3|] eqn:E3; [|discriminate].
  intros [= <-]. unfold rgbToHex. cbn [r g b].
  rewrite (parsePair_hexPair _ _ E1), (parsePair_hexPair _ _ E2),
    (parsePair_hexPair _ _ E3).
  reflexivity.
Qed.

(** X24. Formatting a parsed colour normalises the string: when
    [hexToRgb] reads [hex0], [rgbToHex] of the result is [hex0] in lower
    case, with a [#] put in front when [hex0] had none. *)
Theorem hexToRgb_then_rgbToHex (hex0 : string) (c : Rgb) :
  hexToRgb hex0 = Some c ->
  rgbToHex c.(r) c.(g) c.(b) = JS.toLowerCase hex0
  \/ rgbToHex c.(r) c.(g) c.(b) = String "#" (JS.toLowerCase hex0).
Proof.
  unfold hexToRgb. destruct hex0 as [|a rest]; [discriminate|].
  rewrite strip_hash. destruct (Ascii.eqb a "#") eqn:E.
  - apply Ascii.eqb_eq in E. subst a. intros H. left.
    exact (@hexToRgb_body rest c H).
  - intros H. right. exact (@hexToRgb_body (String a rest) c H).
Qed.

Lemma hexToRgb_then_rgbToHex_witness :
  hexToRgb "1A2b3C" = Some (mkRgb 26 43 60)
  /\ (rgbToHex 26 43 60 = JS.toLowerCase "1A2b3C"
      \/ rgbToHex 26 43 60 = String "#" (JS.toLowerCase "1A2b3C")).
Proof.
  split; [reflexivity|].
  apply (@hexToRgb_then_rgbToHex "1A2b3C" (mkRgb 26 43 60)). reflexivity.
Defined.

(** ** Hue, saturation, lightness *)

(** A channel as the program scales it: [c / 255], a double. *)
Lemma unit_channel (c : Z) :
  channel_ok c -> 0 <= inject_Z c /! 255 <= 1.
Proof.
  intros [H0 H1].
  assert (A : inject_Z 0 <= inject_Z c) by (rewrite <- Zle_Qle; exact H0).
  assert (B : inject_Z c <= inject_Z 255) by (rewrite <- Zle_Qle; exact H1).
  change (inject_Z 0) with 0 in A. change (inject_Z 255) with 255 in B.
  apply fl_between; [double | double | |].
  - apply Qle_shift_div_l; lra.
  - apply Qle_shift_div_r; lra.
Qed.

(** Two different channel values are at least 1/256 apart. *)
Lemma channel_step (c : Z) :
  (0 <= c < 255)%Z ->
  (1 # 256) <= inject_Z (c + 1) /! 255 - inject_Z c /! 255.
Proof.
  intros [H0 H1].
  assert (A : forallb (fun n =>
                Qle_bool (1 # 256)
                  (inject_Z (Z.of_nat n + 1) /! 255
                   - inject_Z (Z.of_nat n) /! 255))
                (seq 0 255) = true) by (vm_compute; reflexivity).
  rewrite forallb_forall in A.
  specialize (A (Z.to_nat c)). rewrite Z2Nat.id in A by exact H0.
  apply Qle_bool_imp_le, A, in_seq. lia.
Qed.

Lemma channel_le (c1 c2 : Z) :
  (c1 <= c2)%Z -> inject_Z c1 /! 255 <= inject_Z c2 /! 255.
Proof.
  intros H. apply fl_le. apply Qmult_le_r; [reflexivity|].
  rewrite <- Zle_Qle. exact H.
Qed.

Lemma channel_gap (c1 c2 : Z) :
  channel_ok c1 -> channel_ok c2 ->
  inject_Z c1 /! 255 < inject_Z c2 /! 255 ->
  (1 # 256) <= inject_Z c2 /! 255 - inject_Z c1 /! 255.
Proof.
  intros [A0 A1] [B0 B1] H.
  assert (L : (c1 < c2)%Z).
  { destruct (Z_lt_le_dec c1 c2) as [L | L]; [exact L|].
    apply channel_le in L. lra. }
  pose proof (@channel_step (c2 - 1) ltac:(lia)) as S.
  replace (c2 - 1 + 1)%Z with c2 in S by lia.
  pose proof (@channel_le c1 (c2 - 1) ltac:(lia)). lra.
Qed.

Lemma eqb_false_lt (x y : Q) : y <= x -> (x =? y) = false -> y < x.
Proof.
  intros Hle E. destruct (Qlt_le_dec y x) as [H | H]; [exact H|].
  assert (X : (x =? y) = true)
    by (apply Qeq_bool_iff; apply Qle_antisym; assumption).
  congruence.
Qed.

Lemma ratio_bounds (n d : Q) :
  0 < d -> - d <= n -> n <= d -> -1 <= n / d <= 1.
Proof.
  intros Hd Hl Hu. split.
  - apply Qle_shift_div_l; [exact Hd | lra].
  - apply Qle_shift_div_r; [exact Hd | lra].
Qed.

Lemma extremes (R G B : Q) :
  0 <= R <= 1 -> 0 <= G <= 1 -> 0 <= B <= 1 ->
  let max := Qmax (Qmax R G) B in
  let min := Qmin (Qmin R G) B in
  (R <= max /\ G <= max /\ B <= max)
  /\ (min <= R /\ min <= G /\ min <= B)
  /\ max <= 1 /\ 0 <= min.
Proof.
  intros [X0 X1] [Y0 Y1] [Z0 Z1]. cbv zeta.
  split; [|split; [|split]].
  - split; [|split].
    + eapply Qle_trans; [apply Q.le_max_l | apply Q.le_max_l].
    + eapply Qle_trans; [apply Q.le_max_r | apply Q.le_max_l].
    + apply Q.le_max_r.
  - split; [|split].
    + eapply Qle_trans; [apply Q.le_min_l | apply Q.le_min_l].
    + eapply Qle_trans; [apply Q.le_min_l | apply Q.le_min_r].
    + apply Q.le_min_r.
  - apply Q.max_lub; [apply Q.max_lub|]; assumption.
  - apply Q.min_glb; [apply Q.min_glb|]; assumption.
Qed.

(** The difference [d = max - min], rounded. *)
Lemma chroma_bounds (max min : Q) :
  0 <= min -> min < max -> max <= 1 -> 0 < max -! min /\ max -! min <= 1.
Proof.
  intros H0 Hlt H1. unfold JS.sub. split.
  - apply fl_pos. lra.
  - apply (@fl_between 0 1); [double | double | lra | lra].
Qed.

(** The saturation of a lightness [l = (max + min) / 2]. *)
Lemma saturation_bounds (max min : Q) :
  0 <= min -> min < max -> max <= 1 ->
  0 <= (if (max +! min) /! 2 >? 0.5
        then (max -! min) /! (2 -! max -! min)
        else (max -! min) /! (max +! min)) <= 1.
Proof.
  intros H0 Hlt H1.
  destruct (chroma_bounds H0 Hlt H1) as [D0 D1].
  assert (A : max -! min <= 2 -! max -! min).
  { unfold JS.sub at 1 2. apply fl_le.
    assert (1 <= 2 -! max)
      by (apply (@fl_between 1 2); [double | double | lra | lra]).
    lra. }
  assert (B : max -! min <= max +! min)
    by (apply fl_le; lra).
  destruct (_ >? 0.5); unfold JS.div at 1.
  - apply (@fl_between 0 1); [double | double | |].
    + apply Qle_shift_div_l; lra.
    + apply Qle_shift_div_r; lra.
  - apply (@fl_between 0 1); [double | double | |].
    + apply Qle_shift_div_l; lra.
    + apply Qle_shift_div_r; lra.
Qed.

Lemma lightness_bounds (max min : Q) :
  0 <= min -> min <= max -> max <= 1 -> 0 <= (max +! min) /! 2 <= 1.
Proof.
  intros H0 Hle H1.
  assert (A : 0 <= max +! min /\ max +! min <= 2)
    by (apply fl_between; [double | double | lra | lra]).
  apply fl_between; [double | double | |].
  - apply Qle_shift_div_l; lra.
  - apply Qle_shift_div_r; lra.
Qed.

(** The quotient [(x - y) / d] of the hue, for two of the channels. *)
Lemma hue_ratio (max min x y : Q) :
  0 <= min -> min < max -> max <= 1 ->
  min <= x <= max -> min <= y <= max ->
  -1 <= (x -! y) /! (max -! min) <= 1.
Proof.
  intros H0 Hlt H1 Hx Hy.
  destruct (chroma_bounds H0 Hlt H1) as [D0 D1].
  assert (U : x -! y <= max -! min) by (apply fl_le; lra).
  assert (L : - (max -! min) <= x -! y).
  { unfold JS.sub. rewrite <- fl_opp. apply fl_le. lra. }
  apply fl_between; [double | double | |];
    now apply ratio_bounds.
Qed.

Lemma hue_ratio_nonneg (max min x y : Q) :
  0 <= min -> min < max -> max <= 1 ->
  y <= x -> 0 <= (x -! y) /! (max -! min).
Proof.
  intros H0 Hlt H1 Hxy.
  destruct (chroma_bounds H0 Hlt H1) as [D0 D1].
  assert (L : 0 <= x -! y).
  { change 0 with (JS.fl 0). apply fl_le. lra. }
  change 0 with (JS.fl 0). apply fl_le.
  apply Qle_shift_div_l; lra.
Qed.

Lemma hue_ratio_neg (max min x y : Q) :
  0 <= min -> min < max -> max <= 1 ->
  (1 # 256) <= y - x -> (x -! y) /! (max -! min) <= - (1 # 256).
Proof.
  intros H0 Hlt H1 Hxy.
  destruct (chroma_bounds H0 Hlt H1) as [D0 D1].
  assert (L : x -! y <= - (1 # 256)).
  { assert (E : JS.fl (- (1 # 256)) == - (1 # 256)) by double.
    rewrite <- E. apply fl_le. lra. }
  assert (E : JS.fl (- (1 # 256)) == - (1 # 256)) by double.
  rewrite <- E. apply fl_le.
  apply Qle_shift_div_r; [exact D0|]. nra.
Qed.

(** From the quotient to the angle. *)
Lemma hue_angle (q o : Q) :
  0 <= q + o -> q + o <= 6 - (1 # 256) ->
  0 <= (q +! o) /! 6 *! 360 <= 360 - (45 # 256).
Proof.
  intros L U.
  assert (A : 0 <= q +! o /\ q +! o <= 6 - (1 # 256))
    by (apply fl_between; [double | double | exact L | exact U]).
  assert (B : 0 <= (q +! o) /! 6 /\ (q +! o) /! 6 <= 1 - (1 # 2048)).
  { apply fl_between; [double | double | |].
    - apply Qle_shift_div_l; lra.
    - apply Qle_shift_div_r; lra. }
  apply fl_between; [double | double | lra | lra].
Qed.

(** The hue is an angle in [0, 360), and stays a little below 360. *)
Lemma rgbToHsl_hue (x y z : Z) :
  channel_ok x -> channel_ok y -> channel_ok z ->
  0 <= (rgbToHsl x y z).(h) <= 360 - (45 # 256).
Proof.
  intros Hx Hy Hz. unfold rgbToHsl. cbv zeta.
  pose proof (unit_channel Hx) as HR. pose proof (unit_channel Hy) as HG.
  pose proof (unit_channel Hz) as HB.
  pose proof (@channel_gap y z Hy Hz) as Gap.
  set (R := inject_Z x /! 255) in *. set (G := inject_Z y /! 255) in *.
  set (B := inject_Z z /! 255) in *.
  unfold JS.Math_max, JS.Math_min.
  destruct (extremes HR HG HB)
    as ((MR & MG & MB) & (mR & mG & mB) & M1 & m0).
  set (max := Qmax (Qmax R G) B) in *. set (min := Qmin (Qmin R G) B) in *.
  destruct (max =? min) eqn:E; cbn [h].
  - split; apply Qle_bool_imp_le; vm_compute; reflexivity.
  - assert (D : min < max) by (apply eqb_false_lt; [lra | exact E]).
    destruct (max =? R).
    + destruct (G <? B) eqn:C.
      * apply ltb_lt in C.
        pose proof (@hue_ratio max min G B m0 D M1) as Q1.
        pose proof (@hue_ratio_neg max min G B m0 D M1) as Q2.
        apply hue_angle; lra.
      * apply ltb_ge in C.
        pose proof (@hue_ratio max min G B m0 D M1) as Q1.
        pose proof (@hue_ratio_nonneg max min G B m0 D M1) as Q2.
        apply hue_angle; lra.
    + destruct (max =? G).
      * pose proof (@hue_ratio max min B R m0 D M1) as Q1.
        apply hue_angle; lra.
      * pose proof (@hue_ratio max min R G m0 D M1) as Q1.
        apply hue_angle; lra.
Qed.

(** X25. For channels in 0..255 [rgbToHsl] returns a hue in [0, 360) and
    a saturation and a lightness in [0, 1].  So the hue slice
    [floor(h / 20)] of the vibrant pass is one of the 18 slices, and the
    hue falls in one of the seven ranges of the brand pass. *)
Theorem rgbToHsl_range (x y z : Z) :
  channel_ok x -> channel_ok y -> channel_ok z ->
  let hsl := rgbToHsl x y z in
  (0 <= hsl.(h) /\ hsl.(h) < 360)
  /\ 0 <= hsl.(s) <= 1
  /\ 0 <= hsl.(l) <= 1.
Proof.
  intros Hx Hy Hz. cbv zeta. split.
  { destruct (rgbToHsl_hue Hx Hy Hz) as [H0 H1]. split; [exact H0 | lra]. }
  unfold rgbToHsl. cbv zeta.
  pose proof (unit_channel Hx) as HR. pose proof (unit_channel Hy) as HG.
  pose proof (unit_channel Hz) as HB.
  set (R := inject_Z x /! 255) in *. set (G := inject_Z y /! 255) in *.
  set (B := inject_Z z /! 255) in *.
  unfold JS.Math_max, JS.Math_min.
  destruct (extremes HR HG HB)
    as ((MR & MG & MB) & (mR & mG & mB) & M1 & m0).
  set (max := Qmax (Qmax R G) B) in *. set (min := Qmin (Qmin R G) B) in *.
  assert (L : 0 <= (max +! min) /! 2 <= 1)
    by (apply lightness_bounds; lra).
  destruct (max =? min) eqn:E; cbn [s l].
  - split; [|exact L].
    split; [apply Qle_refl | apply Qle_bool_imp_le; reflexivity].
  - assert (D : min < max) by (apply eqb_false_lt; [lra | exact E]).
    split; [now apply saturation_bounds | exact L].
Qed.

Lemma rgbToHsl_range_witness :
  let hsl := rgbToHsl 200 40 40 in
  (channel_ok 200 /\ channel_ok 40 /\ channel_ok 40)
  /\ (0 <= hsl.(h) /\ hsl.(h) < 360)
  /\ 0 <= hsl.(s) <= 1
  /\ 0 <= hsl.(l) <= 1.
Proof.
  intros hsl.
  assert (H1 : channel_ok 200) by (unfold channel_ok; lia).
  assert (H2 : channel_ok 40) by (unfold channel_ok; lia).
  split; [auto | apply (@rgbToHsl_range 200 40 40 H1 H2 H2)].
Defined.

(** Saturations that exact arithmetic puts on a bound, or makes equal,
    as the program computes them.  (35, 21, 21) and (39, 39, 65) have the
    saturation 1/4, computed above and below 0.25; (21, 14, 14) and
    (33, 22, 22) have the saturation 1/5, computed at two different
    doubles.  So the first is no candidate for heading or text, the
    second is not looked at by the vibrant pass, and of the last two
    [removeDuplicates] keeps (33, 22, 22), whichever comes first. *)
Lemma saturation_at_the_bounds :
  0.25 < getSaturation 35 21 21
  /\ getSaturation 39 39 65 < 0.25
  /\ getSaturation 21 14 14 < getSaturation 33 22 22
  /\ getSaturation 145 55 55 < JS.lit 0.45
  /\ JS.lit 0.35 < getSaturation 135 65 65
  /\ JS.lit 0.40 < getSaturation 57 57 133.
Proof. repeat split; apply Qlt_alt; vm_compute; reflexivity. Qed.

Lemma removeDuplicates_at_a_tie :
  let c1 := mkSwatch (mkRgb 21 14 14) 1 false false in
  let c2 := mkSwatch (mkRgb 33 22 22) 1 false false in
  removeDuplicates [c1; c2] 30 = [mkSwatch (mkRgb 33 22 22) 2 false false]
  /\ removeDuplicates [c2; c1] 30
     = [mkSwatch (mkRgb 33 22 22) 2 false false].
Proof. split; vm_compute; reflexivity. Qed.

Lemma heading_candidates_at_the_bound :
  map (fun c : Scored => c.(hex))
      (lightHeadingCandidates
         (map analyze [mkSwatch (mkRgb 35 21 21) 1 false false;
                       mkSwatch (mkRgb 36 24 24) 1 false false])
         (Some white))
  = ["#241818"].
Proof. vm_compute. reflexivity. Qed.

(** *** No pixel is lost between the hue slices *)

(** The two tests of the vibrant pass, and of the brand pass. *)
Lemma vibrantAdmits_tests (p : Rgb) :
  vibrantAdmits p
  = negb (getSaturation p.(r) p.(g) p.(b) <? 0.25)
    && negb (((rgbToHsl p.(r) p.(g) p.(b)).(l) <? JS.lit 0.10)
             || ((rgbToHsl p.(r) p.(g) p.(b)).(l) >? JS.lit 0.90)).
Proof.
  unfold vibrantAdmits, lightness.
  now rewrite negb_orb, !ltb_negb, gtb_negb, andb_assoc.
Qed.

Lemma brandAdmits_tests (p : Rgb) :
  brandAdmits p
  = negb (getSaturation p.(r) p.(g) p.(b) <? JS.lit 0.45)
    && negb (((rgbToHsl p.(r) p.(g) p.(b)).(l) <? JS.lit 0.12)
             || ((rgbToHsl p.(r) p.(g) p.(b)).(l) >? JS.lit 0.88)).
Proof.
  unfold brandAdmits, lightness.
  now rewrite negb_orb, !ltb_negb, gtb_negb, andb_assoc.
Qed.

(** The hue the program computes is a double. *)
Lemma hue_double (p : Rgb) : JS.fl (hue p) = hue p.
Proof.
  unfold hue, rgbToHsl. cbv zeta.
  destruct (_ =? _); cbn [h]; apply fl_idem.
Qed.

Lemma hue_range (p : Rgb) : rgb_ok p -> 0 <= hue p /\ hue p < 360.
Proof.
  intros (Hr & Hg & Hb). destruct (rgbToHsl_hue Hr Hg Hb) as [H0 H1].
  unfold hue. split; [exact H0 | lra].
Qed.

(** The slice of a hue: [floor(h / 20)], whether the quotient is rounded
    or not. *)
Lemma hue_slice (p : Rgb) :
  rgb_ok p ->
  exists i : nat,
    (i < 18)%nat
    /\ Z.to_nat (Z.rem (JS.Math_floor (hue p /! 20)) 18) = i
    /\ forall j : nat,
         hueWithin (20 * inject_Z (Z.of_nat j))
                   (20 * inject_Z (Z.of_nat j + 1)) p
         = (j =? i)%nat.
Proof.
  intros Hp. destruct (hue_range Hp) as [H0 H1].
  rewrite floor_div20; [|apply hue_double | exact H0 |].
  2:{ apply Qle_trans with 360; [lra|].
      apply Qle_bool_imp_le. vm_compute. reflexivity. }
  unfold JS.Math_floor.
  pose proof (Qfloor_le (hue p / 20)) as L.
  pose proof (Qlt_floor (hue p / 20)) as U.
  set (k := Qfloor (hue p / 20)) in *.
  assert (Hh : hue p == 20 * (hue p / 20)) by field.
  rewrite inject_Z_plus in U. change (inject_Z 1) with 1 in U.
  assert (K0 : (0 <= k)%Z).
  { destruct (Z_lt_le_dec k 0) as [T | T]; [exfalso | exact T].
    pose proof (@inject_Z_succ_le k 0 T) as X. change (inject_Z 0) with 0 in X.
    lra. }
  assert (K1 : (k < 18)%Z).
  { destruct (Z_lt_le_dec k 18) as [T | T]; [exact T | exfalso].
    assert (18 <= inject_Z k).
    { change 18 with (inject_Z 18). rewrite <- Zle_Qle. exact T. }
    lra. }
  exists (Z.to_nat k). split; [lia|]. split.
  { rewrite Z.rem_small by lia. reflexivity. }
  intros j. unfold hueWithin.
  rewrite inject_Z_plus. change (inject_Z 1) with 1.
  destruct (Nat.eqb_spec j (Z.to_nat k)) as [-> | N].
  - rewrite Z2Nat.id by exact K0.
    apply andb_true_iff. split; [apply leb_le | apply ltb_lt]; lra.
  - apply andb_false_iff.
    destruct (Z_lt_le_dec (Z.of_nat j) k) as [T | T].
    + right. apply ltb_ge.
      pose proof (@inject_Z_succ_le (Z.of_nat j) k T). lra.
    + left. apply leb_gt.
      pose proof (@inject_Z_succ_le k (Z.of_nat j) ltac:(lia)). lra.
Qed.

Lemma pushAt_map_seq {A} (g : nat -> list A) (x : A) (n : nat) :
  forall start i : nat,
    pushAt i x (map g (seq start n))
    = map (fun j => g j ++ (if (j =? start + i)%nat then [x] else []))
          (seq start n).
Proof.
  induction n as [|n IH]; intros start i; cbn [seq map pushAt].
  - now destruct i.
  - destruct i as [|i]; cbn [pushAt].
    + rewrite Nat.add_0_r, Nat.eqb_refl. f_equal.
      apply map_ext_in. intros j Hj. apply in_seq in Hj.
      replace (j =? start)%nat with false
        by (symmetry; apply Nat.eqb_neq; lia).
      now rewrite app_nil_r.
    + replace (start =? start + S i)%nat with false
        by (symmetry; apply Nat.eqb_neq; lia).
      rewrite app_nil_r. f_equal. rewrite IH.
      apply map_ext. intros j.
      now replace (S start + i)%nat with (start + S i)%nat by lia.
Qed.

(** The hue slices of the vibrant pass, slice by slice. *)
Lemma vibrantBuckets_slices (pixels0 : list Rgb) :
  Forall rgb_ok pixels0 ->
  vibrantBuckets pixels0
  = map (fun i : nat =>
           map huePixel
             (List.filter
                (fun p => vibrantAdmits p
                          && hueWithin (20 * inject_Z (Z.of_nat i))
                                       (20 * inject_Z (Z.of_nat i + 1)) p)
                pixels0))
        (seq 0 18).
Proof.
  intros Hp. unfold vibrantBuckets.
  set (step := fun (hueBuckets : list (list HuePixel)) (p : Rgb) => _).
  set (sel := fun (i : nat) (p : Rgb) =>
                vibrantAdmits p
                && hueWithin (20 * inject_Z (Z.of_nat i))
                             (20 * inject_Z (Z.of_nat i + 1)) p).
  set (F := fun ps : list Rgb =>
              map (fun i : nat => map huePixel (List.filter (sel i) ps))
                  (seq 0 18)).
  change (fold_left step pixels0 (F []) = F pixels0).
  assert (G : forall ps done : list Rgb,
             Forall rgb_ok ps ->
             fold_left step ps (F done) = F (done ++ ps)).
  { induction ps as [|p ps IH]; intros done Hps; cbn [fold_left].
    - now rewrite app_nil_r.
    - inversion Hps as [|? ? Hp0 Hps']; subst.
      replace (done ++ p :: ps) with ((done ++ [p]) ++ ps)
        by (now rewrite <- app_assoc).
      rewrite <- (IH (done ++ [p]) Hps'). f_equal.
      (* one pixel *)
      assert (E : F (done ++ [p])
                  = map (fun i : nat =>
                           map huePixel (List.filter (sel i) done)
                           ++ (if sel i p then [huePixel p] else []))
                        (seq 0 18)).
      { unfold F. apply map_ext. intros i.
        rewrite filter_app, map_app. cbn [List.filter].
        now destruct (sel i p). }
      rewrite E. unfold step.
      pose proof (vibrantAdmits_tests p) as T.
      destruct (_ <? 0.25); cbn [negb andb] in T.
      { unfold F. apply map_ext. intros i. unfold sel. rewrite T.
        cbn [andb]. now rewrite app_nil_r. }
      destruct (_ || _); cbn [negb] in T.
      { unfold F. apply map_ext. intros i. unfold sel. rewrite T.
        cbn [andb]. now rewrite app_nil_r. }
      destruct (hue_slice Hp0) as (i0 & Hi & Ei & Hj).
      fold (hue p). rewrite Ei. fold (huePixel p).
      unfold F. rewrite pushAt_map_seq. apply map_ext. intros j.
      unfold sel. rewrite T, Hj. cbn [andb plus]. reflexivity. }
  rewrite (G pixels0 [] Hp). reflexivity.
Qed.

(** [pushRange] on ranges in ascending order: the pixel goes to the one
    range that holds its hue, if there is one. *)
Lemma pushRange_map (hue0 : Q) (x : HuePixel)
    (acc : HueRange -> list HuePixel) (ranges : list HueRange) :
  ForallOrdPairs (fun a b : HueRange => a.(max) <= b.(min)) ranges ->
  pushRange hue0 x
    (map (fun rg : HueRange =>
            mkHueRange rg.(name) rg.(min) rg.(max) (acc rg)) ranges)
  = map (fun rg : HueRange =>
           mkHueRange rg.(name) rg.(min) rg.(max)
             (acc rg ++ (if (hue0 >=? rg.(min)) && (hue0 <? rg.(max))
                         then [x] else [])))
        ranges.
Proof.
  induction 1 as [|rg rest Hrg Hrest IH]; cbn [map pushRange min max name].
  - reflexivity.
  - cbn [pixels]. destruct ((hue0 >=? rg.(min)) && (hue0 <? rg.(max))) eqn:E.
    + f_equal. apply map_ext_in. intros rg' Hin.
      rewrite Forall_forall in Hrg. specialize (Hrg rg' Hin).
      apply andb_true_iff in E. destruct E as [_ E]. apply ltb_lt in E.
      replace (hue0 >=? rg'.(min)) with false
        by (symmetry; apply geb_lt; lra).
      cbn [andb]. now rewrite app_nil_r.
    + rewrite app_nil_r. f_equal. exact IH.
Qed.

Lemma hueRanges_ascending :
  ForallOrdPairs (fun a b : HueRange => a.(max) <= b.(min)) hueRanges.
Proof.
  unfold hueRanges.
  repeat (constructor;
          [repeat (constructor;
                   [cbn [min max]; apply Qle_bool_imp_le; reflexivity|]);
           constructor|]).
  constructor.
Qed.

(** The hue ranges of the brand pass, range by range. *)
Lemma brandRanges_ranges (pixels0 : list Rgb) :
  brandRanges pixels0
  = map (fun rg : HueRange =>
           mkHueRange rg.(name) rg.(min) rg.(max)
             (map huePixel
                (List.filter
                   (fun p => brandAdmits p && hueWithin rg.(min) rg.(max) p)
                   pixels0)))
        hueRanges.
Proof.
  unfold brandRanges.
  set (step := fun (ranges : list HueRange) (p : Rgb) => _).
  set (sel := fun (rg : HueRange) (p : Rgb) =>
                brandAdmits p && hueWithin rg.(min) rg.(max) p).
  set (F := fun ps : list Rgb =>
              map (fun rg : HueRange =>
                     mkHueRange rg.(name) rg.(min) rg.(max)
                       (map huePixel (List.filter (sel rg) ps)))
                  hueRanges).
  change (fold_left step pixels0 (F []) = F pixels0).
  assert (G : forall ps done : list Rgb,
             fold_left step ps (F done) = F (done ++ ps)).
  { induction ps as [|p ps IH]; intros done; cbn [fold_left].
    - now rewrite app_nil_r.
    - replace (done ++ p :: ps) with ((done ++ [p]) ++ ps)
        by (now rewrite <- app_assoc).
      rewrite <- (IH (done ++ [p])). f_equal.
      assert (E : F (done ++ [p])
                  = map (fun rg : HueRange =>
                           mkHueRange rg.(name) rg.(min) rg.(max)
                             (map huePixel (List.filter (sel rg) done)
                              ++ (if sel rg p then [huePixel p] else [])))
                        hueRanges).
      { unfold F. apply map_ext. intros rg.
        rewrite filter_app, map_app. cbn [List.filter].
        now destruct (sel rg p). }
      rewrite E. unfold step.
      pose proof (brandAdmits_tests p) as T.
      destruct (_ <? JS.lit 0.45); cbn [negb andb] in T.
      { unfold F. apply map_ext. intros rg. unfold sel. rewrite T.
        cbn [andb]. now rewrite app_nil_r. }
      destruct (_ || _); cbn [negb] in T.
      { unfold F. apply map_ext. intros rg. unfold sel. rewrite T.
        cbn [andb]. now rewrite app_nil_r. }
      fold (hue p). fold (huePixel p). unfold F.
      rewrite (pushRange_map (hue p) (huePixel p)
                 (fun rg => map huePixel (List.filter (sel rg) done))
                 hueRanges_ascending).
      apply map_ext. intros rg. unfold sel, hueWithin. rewrite T.
      cbn [andb]. reflexivity. }
  rewrite (G pixels0 []). reflexivity.
Qed.

Lemma hue_in_range (hue0 : Q) :
  0 <= hue0 -> hue0 < 360 ->
  exists rg, In rg hueRanges
             /\ ((rg.(min) <=? hue0) && (hue0 <? rg.(max))) = true.
Proof.
  intros H0 H1. unfold hueRanges.
  assert (T : forall lo hi : Q, lo <= hue0 -> hue0 < hi ->
                                ((lo <=? hue0) && (hue0 <? hi)) = true).
  { intros lo hi L U. apply andb_true_iff.
    split; [now apply leb_le | now apply ltb_lt]. }
  destruct (Qlt_le_dec hue0 30);
    [exists (mkHueRange "red" 0 30 []); split; [cbn [In]; auto | now apply T]|].
  destruct (Qlt_le_dec hue0 60);
    [exists (mkHueRange "orange" 30 60 []);
     split; [cbn [In]; auto | now apply T]|].
  destruct (Qlt_le_dec hue0 90);
    [exists (mkHueRange "yellow" 60 90 []);
     split; [cbn [In]; auto 6 | now apply T]|].
  destruct (Qlt_le_dec hue0 180);
    [exists (mkHueRange "green" 90 180 []);
     split; [cbn [In]; auto 7 | now apply T]|].
  destruct (Qlt_le_dec hue0 270);
    [exists (mkHueRange "blue" 180 270 []);
     split; [cbn [In]; auto 8 | now apply T]|].
  destruct (Qlt_le_dec hue0 330);
    [exists (mkHueRange "purple" 270 330 []);
     split; [cbn [In]; auto 9 | now apply T]|].
  exists (mkHueRange "red2" 330 360 []).
  split; [cbn [In]; auto 10 | now apply T].
Qed.

(** X26. The accent passes lose no pixel when they sort pixels by hue.
    The vibrant pass looks at the pixels with saturation at least 0.25
    and lightness from 0.10 to 0.90: its slice [i] (of 18) holds, in the
    order of the image, exactly those of them whose hue lies in
    [[20 i, 20 (i + 1))].  The brand pass looks at the pixels with
    saturation at least 0.45 and lightness from 0.12 to 0.88: each of its
    seven ranges holds, in the order of the image, exactly those of them
    whose hue lies in the range.  Every pixel has its hue in one of the
    slices and in one of the ranges.  (Hue, saturation and lightness are
    the doubles the program computes, and 0.10, 0.90, ... the doubles of
    the program text; the slice index [floor(h / 20)] never reaches 18
    and the search for a range never comes back empty.) *)
Theorem accent_slices_complete (pixels0 : list Rgb) :
  Forall rgb_ok pixels0 ->
  vibrantBuckets pixels0
  = map (fun i : nat =>
           map huePixel
             (List.filter
                (fun p => vibrantAdmits p
                          && hueWithin (20 * inject_Z (Z.of_nat i))
                                       (20 * inject_Z (Z.of_nat i + 1)) p)
                pixels0))
        (seq 0 18)
  /\ brandRanges pixels0
     = map (fun rg : HueRange =>
              mkHueRange rg.(name) rg.(min) rg.(max)
                (map huePixel
                   (List.filter
                      (fun p => brandAdmits p
                                && hueWithin rg.(min) rg.(max) p)
                      pixels0)))
           hueRanges
  /\ forall p : Rgb, In p pixels0 ->
       (exists i : nat,
          (i < 18)%nat
          /\ hueWithin (20 * inject_Z (Z.of_nat i))
                       (20 * inject_Z (Z.of_nat i + 1)) p = true)
       /\ (exists rg : HueRange,
             In rg hueRanges /\ hueWithin rg.(min) rg.(max) p = true).
Proof.
  intros Hp.
  split; [now apply vibrantBuckets_slices|].
  split; [apply brandRanges_ranges|].
  intros p Hin. rewrite Forall_forall in Hp. specialize (Hp p Hin).
  split.
  - destruct (hue_slice Hp) as (i & Hi & _ & Hj).
    exists i. split; [exact Hi|]. rewrite Hj. apply Nat.eqb_refl.
  - destruct (hue_range Hp) as [H0 H1].
    destruct (hue_in_range H0 H1) as (rg & Hrg & Hw).
    exists rg. split; [exact Hrg | exact Hw].
Qed.

Lemma accent_slices_complete_witness :
  let pixels0 := [mkRgb 0 0 255; mkRgb 128 128 128; mkRgb 250 10 20;
                  mkRgb 0 30 90; mkRgb 143 77 11; mkRgb 39 39 65;
                  mkRgb 145 55 55] in
  Forall rgb_ok pixels0
  /\ vibrantBuckets pixels0
     = map (fun i : nat =>
              map huePixel
                (List.filter
                   (fun p => vibrantAdmits p
                             && hueWithin (20 * inject_Z (Z.of_nat i))
                                          (20 * inject_Z (Z.of_nat i + 1)) p)
                   pixels0))
           (seq 0 18)
  /\ brandRanges pixels0
     = map (fun rg : HueRange =>
              mkHueRange rg.(name) rg.(min) rg.(max)
                (map huePixel
                   (List.filter
                      (fun p => brandAdmits p
                                && hueWithin rg.(min) rg.(max) p)
                      pixels0)))
           hueRanges
  /\ forall p : Rgb, In p pixels0 ->
       (exists i : nat,
          (i < 18)%nat
          /\ hueWithin (20 * inject_Z (Z.of_nat i))
                       (20 * inject_Z (Z.of_nat i + 1)) p = true)
       /\ (exists rg : HueRange,
             In rg hueRanges /\ hueWithin rg.(min) rg.(max) p = true).
Proof.
  intros pixels0.
  assert (H : Forall rgb_ok pixels0) by (repeat constructor; cbn; lia).
  split; [exact H | apply (@accent_slices_complete pixels0 H)].
Defined.

(** The pixels at the bounds go where the program puts them: (0, 30, 90)
    has the hue 220 in exact arithmetic and 219.99999999999997 as the
    program computes it, and is in slice 10; (143, 77, 11), of hue 30
    and computed hue 29.999999999999993, is in the range [red];
    (39, 39, 65), of saturation 1/4 and computed saturation
    0.24999999999999994, is left out by the vibrant pass and
    (145, 55, 55), of saturation 9/20 and computed saturation
    0.44999999999999996, by the brand pass. *)
Lemma accent_slices_at_the_bounds :
  map (map pixel) (vibrantBuckets [mkRgb 0 30 90])
  = repeat [] 10 ++ [[mkRgb 0 30 90]] ++ repeat [] 7
  /\ map (fun rg : HueRange => (rg.(name), map pixel rg.(pixels)))
         (brandRanges [mkRgb 143 77 11])
     = [("red", [mkRgb 143 77 11]); ("orange", []); ("yellow", []);
        ("green", []); ("blue", []); ("purple", []); ("red2", [])]
  /\ vibrantAdmits (mkRgb 39 39 65) = false
  /\ brandAdmits (mkRgb 145 55 55) = false.
Proof. repeat split; vm_compute; reflexivity. Qed.

(** ** The background swatches of the previews *)

Lemma tokenRgb_valid (t : TokenSet) (field : TokenSet -> string) (c : Rgb) :
  hexToRgb (field t) = Some c -> tokenRgb (Some t) field = Some c.
Proof.
  intros P. unfold tokenRgb. now rewrite (hexToRgb_truthy _ P).
Qed.

Lemma sort_ext {A} (cmp1 cmp2 : A -> A -> Q) (l : list A) :
  (forall x y, Qle_bool (cmp1 x y) 0 = Qle_bool (cmp2 x y) 0) ->
  JS.sort cmp1 l = JS.sort cmp2 l.
Proof.
  intros H. induction l as [|x l IH]; cbn [JS.sort fold_right];
    [reflexivity|].
  fold (JS.sort cmp1 l). fold (JS.sort cmp2 l). rewrite IH.
  generalize (JS.sort cmp2 l). intros m.
  induction m as [|y m IHm]; cbn [JS.insert]; [reflexivity|].
  rewrite H, IHm. reflexivity.
Qed.

(** The test of the two filters, for tokens that parse. *)
Lemma bgTest_true (outside : bool) (headingRgb textRgb mutedRgb : Rgb)
    (fallbackText : Rgb) (c : Analyzed) :
  (if outside then false
   else
     let bgRgb := mkRgb c.(r) c.(g) c.(b) in
     if tooLow (Some headingRgb) bgRgb 4.5 then false
     else if tooLow (Some textRgb) bgRgb 4.5 then false
     else if tooLow (Some mutedRgb) bgRgb 3.0 then false
     else if isNull (Some headingRgb) && isNull (Some textRgb)
             && isNull (Some mutedRgb)
          then getContrastRatio bgRgb fallbackText >=? 4.5
     else true) = true
  <-> outside = false
      /\ 4.5 <= getContrastRatio headingRgb (mkRgb c.(r) c.(g) c.(b))
      /\ 4.5 <= getContrastRatio textRgb (mkRgb c.(r) c.(g) c.(b))
      /\ 3.0 <= getContrastRatio mutedRgb (mkRgb c.(r) c.(g) c.(b)).
Proof.
  cbv zeta. cbn [tooLow isNull andb].
  destruct outside; [split; [discriminate | intros [H _]; discriminate H]|].
  destruct (getContrastRatio headingRgb _ <? 4.5) eqn:E1.
  { split; [discriminate|]. intros (_ & H & _). apply ltb_lt in E1.
    exfalso. revert E1. now apply Qle_not_lt. }
  destruct (getContrastRatio textRgb _ <? 4.5) eqn:E2.
  { split; [discriminate|]. intros (_ & _ & H & _). apply ltb_lt in E2.
    exfalso. revert E2. now apply Qle_not_lt. }
  destruct (getContrastRatio mutedRgb _ <? 3.0) eqn:E3.
  { split; [discriminate|]. intros (_ & _ & _ & H). apply ltb_lt in E3.
    exfalso. revert E3. now apply Qle_not_lt. }
  apply ltb_ge in E1, E2, E3. split; auto.
Qed.

Lemma offered_iff (palette : list Swatch) (t : TokenSet)
    (outside : Analyzed -> bool) (fallbackText : Rgb)
    (cmp : Analyzed -> Analyzed -> Q) (c : Analyzed) :
  palette_ok palette -> validTokenSet t ->
  In c (JS.sort cmp
          (List.filter (fun c : Analyzed =>
             if outside c then false
             else
               let bgRgb := mkRgb c.(r) c.(g) c.(b) in
               if tooLow (tokenRgb (Some t) heading) bgRgb 4.5 then false
               else if tooLow (tokenRgb (Some t) text) bgRgb 4.5 then false
               else if tooLow (tokenRgb (Some t) mutedText) bgRgb 3.0
                    then false
               else if isNull (tokenRgb (Some t) heading)
                       && isNull (tokenRgb (Some t) text)
                       && isNull (tokenRgb (Some t) mutedText)
                    then getContrastRatio bgRgb fallbackText >=? 4.5
               else true) (map analyze palette)))
  <-> In c (map analyze palette)
      /\ outside c = false
      /\ (exists q, tokenContrast t.(heading) c.(hex) = Some q /\ 4.5 <= q)
      /\ (exists q, tokenContrast t.(text) c.(hex) = Some q /\ 4.5 <= q)
      /\ (exists q, tokenContrast t.(mutedText) c.(hex) = Some q
                    /\ 3.0 <= q).
Proof.
  intros Hp (_ & _ & _ & Vt & Vh & Vm & _). unfold validHex in *.
  destruct (hexToRgb t.(heading)) as [hr|] eqn:Ph; [|congruence].
  destruct (hexToRgb t.(text)) as [tr|] eqn:Pt; [|congruence].
  destruct (hexToRgb t.(mutedText)) as [mr|] eqn:Pm; [|congruence].
  rewrite (tokenRgb_valid t heading Ph), (tokenRgb_valid t text Pt),
    (tokenRgb_valid t mutedText Pm).
  rewrite sort_In, filter_In, bgTest_true.
  unfold tokenContrast. rewrite Ph, Pt, Pm. cbn [JS.bind].
  split.
  - intros (Hc & Ho & C1 & C2 & C3).
    destruct (analyzed_In_coherent Hp _ Hc) as [_ Hhex]. rewrite Hhex.
    cbn [JS.bind]. split; [exact Hc|]. split; [exact Ho|].
    repeat split; eexists; (split; [reflexivity | assumption]).
  - intros (Hc & Ho & (q1 & E1 & C1) & (q2 & E2 & C2) & (q3 & E3 & C3)).
    destruct (analyzed_In_coherent Hp _ Hc) as [_ Hhex].
    rewrite Hhex in E1, E2, E3. cbn [JS.bind] in E1, E2, E3.
    injection E1 as <-. injection E2 as <-. injection E3 as <-. auto.
Qed.

(** X27. The background swatches offered under the previews, for the
    tokens [generateTokens] returns: a palette colour is offered for the
    light mode exactly when its luminance is at least 0.65 and it has a
    contrast of at least 4.5 with that mode's heading and text and of at
    least 3.0 with its muted text; for the dark mode, exactly when its
    luminance is at most 0.15 and the same three contrasts hold.  The
    light candidates come lightest first, the dark ones darkest first. *)
Theorem offered_backgrounds (Math_log : Q -> Q) (palette : list Swatch)
    (lockedPrimary lockedLightBg lockedDarkBg : option string) :
  palette_ok palette ->
  exists t,
    generateTokens Math_log palette lockedPrimary lockedLightBg lockedDarkBg
    = Some t
    /\ (forall c : Analyzed,
          In c (filterLightBgCandidates (map analyze palette)
                  (Some t.(light)))
          <-> In c (map analyze palette)
              /\ 0.65 <= c.(luminance)
              /\ (exists q, tokenContrast t.(light).(heading) c.(hex)
                            = Some q /\ 4.5 <= q)
              /\ (exists q, tokenContrast t.(light).(text) c.(hex)
                            = Some q /\ 4.5 <= q)
              /\ (exists q, tokenContrast t.(light).(mutedText) c.(hex)
                            = Some q /\ 3.0 <= q))
    /\ (forall c : Analyzed,
          In c (filterDarkBgCandidates (map analyze palette)
                  (Some t.(dark)))
          <-> In c (map analyze palette)
              /\ c.(luminance) <= 0.15
              /\ (exists q, tokenContrast t.(dark).(heading) c.(hex)
                            = Some q /\ 4.5 <= q)
              /\ (exists q, tokenContrast t.(dark).(text) c.(hex)
                            = Some q /\ 4.5 <= q)
              /\ (exists q, tokenContrast t.(dark).(mutedText) c.(hex)
                            = Some q /\ 3.0 <= q))
    /\ descendingBy luminance
         (filterLightBgCandidates (map analyze palette) (Some t.(light)))
    /\ descendingBy (fun c : Analyzed => - c.(luminance))
         (filterDarkBgCandidates (map analyze palette) (Some t.(dark))).
Proof.
  intros Hp.
  destruct (generateTokens_spec Math_log Hp lockedPrimary lockedLightBg
              lockedDarkBg) as (t & E & [V1 V2] & _).
  exists t. split; [exact E|].
  split; [|split; [|split]].
  - intros c. unfold filterLightBgCandidates. cbv zeta.
    rewrite <- (ltb_ge c.(luminance) 0.65).
    apply (@offered_iff palette t.(light)
             (fun c : Analyzed => c.(luminance) <? 0.65) (mkRgb 29 29 31)
             _ c Hp V1).
  - intros c. unfold filterDarkBgCandidates. cbv zeta.
    rewrite <- (ltb_ge 0.15 c.(luminance)).
    apply (@offered_iff palette t.(dark)
             (fun c : Analyzed => c.(luminance) >? 0.15) (mkRgb 245 245 247)
             _ c Hp V2).
  - unfold filterLightBgCandidates. cbv zeta.
    apply (sort_descending luminance).
  - unfold filterDarkBgCandidates. cbv zeta.
    rewrite (@sort_ext _ _
               (fun a b : Analyzed => - b.(luminance) - - a.(luminance))).
    + apply (sort_descending (fun c : Analyzed => - c.(luminance))).
    + intros x y. cbv beta.
      destruct (Qle_bool (x.(luminance) - y.(luminance)) 0) eqn:A.
      * apply Qle_bool_iff in A. symmetry. apply Qle_bool_iff. lra.
      * symmetry. apply not_true_iff_false. intros X.
        apply Qle_bool_iff in X.
        assert (Y : Qle_bool (x.(luminance) - y.(luminance)) 0 = true)
          by (apply Qle_bool_iff; lra).
        congruence.
Qed.

Lemma offered_backgrounds_witness :
  palette_ok examplePalette
  /\ exists t,
       generateTokens log2_floor examplePalette None None None = Some t
       /\ (forall c : Analyzed,
             In c (filterLightBgCandidates (map analyze examplePalette)
                     (Some t.(light)))
             <-> In c (map analyze examplePalette)
                 /\ 0.65 <= c.(luminance)
                 /\ (exists q, tokenContrast t.(light).(heading) c.(hex)
                               = Some q /\ 4.5 <= q)
                 /\ (exists q, tokenContrast t.(light).(text) c.(hex)
                               = Some q /\ 4.5 <= q)
                 /\ (exists q, tokenContrast t.(light).(mutedText) c.(hex)
                               = Some q /\ 3.0 <= q))
       /\ (forall c : Analyzed,
             In c (filterDarkBgCandidates (map analyze examplePalette)
                     (Some t.(dark)))
             <-> In c (map analyze examplePalette)
                 /\ c.(luminance) <= 0.15
                 /\ (exists q, tokenContrast t.(dark).(heading) c.(hex)
                               = Some q /\ 4.5 <= q)
                 /\ (exists q, tokenContrast t.(dark).(text) c.(hex)
                               = Some q /\ 4.5 <= q)
                 /\ (exists q, tokenContrast t.(dark).(mutedText) c.(hex)
                               = Some q /\ 3.0 <= q))
       /\ descendingBy luminance
            (filterLightBgCandidates (map analyze examplePalette)
               (Some t.(light)))
       /\ descendingBy (fun c : Analyzed => - c.(luminance))
            (filterDarkBgCandidates (map analyze examplePalette)
               (Some t.(dark))).
Proof.
  split; [exact examplePalette_ok|].
  apply (@offered_backgrounds log2_floor examplePalette None None None
           examplePalette_ok).
Defined.

(** ** A saved palette gives the same tokens *)

(** [generateTokens] reads the channels, the population and the vibrant
    flag of a swatch, never the brand flag, which is all that
    [savePalette] drops.  The lemmas below carry this through every
    stage. *)

Lemma savedSwatch_plain (c : Rgb) : Storage.savedSwatch (plain c) = plain c.
Proof. now destruct c. Qed.

Lemma savedAnalyzed_ofRgb (c : Rgb) (hex0 : string) :
  savedAnalyzed (ofRgb c hex0) = ofRgb c hex0.
Proof. now destruct c. Qed.

Lemma analyze_saved (palette : list Swatch) :
  map analyze (map Storage.savedSwatch palette)
  = map savedAnalyzed (map analyze palette).
Proof. rewrite !map_map. apply map_ext. reflexivity. Qed.

Section MapCommute.
Variables A B : Type.
Variable g : A -> B.

Lemma filter_map_commute (f : B -> bool) (f' : A -> bool) (l : list A) :
  (forall x, f (g x) = f' x) ->
  List.filter f (map g l) = map g (List.filter f' l).
Proof.
  intros H. induction l as [|x l IH]; cbn [map List.filter]; [reflexivity|].
  rewrite H, IH. now destruct (f' x).
Qed.

Lemma find_map_commute (f : B -> bool) (f' : A -> bool) (l : list A) :
  (forall x, f (g x) = f' x) ->
  find f (map g l) = option_map g (find f' l).
Proof.
  intros H. induction l as [|x l IH]; cbn [map find]; [reflexivity|].
  rewrite H, IH. now destruct (f' x).
Qed.

Lemma sort_map_commute (cmp : B -> B -> Q) (cmp' : A -> A -> Q)
    (l : list A) :
  (forall x y, cmp (g x) (g y) = cmp' x y) ->
  JS.sort cmp (map g l) = map g (JS.sort cmp' l).
Proof.
  intros H. induction l as [|x l IH]; cbn [map JS.sort fold_right];
    [reflexivity|].
  fold (JS.sort cmp (map g l)). fold (JS.sort cmp' l). rewrite IH.
  generalize (JS.sort cmp' l). intros m.
  induction m as [|y m IHm]; cbn [map JS.insert]; [reflexivity|].
  rewrite H. destruct (Qle_bool (cmp' x y) 0); cbn [map]; [reflexivity|].
  now rewrite IHm.
Qed.

Lemma nth_error_map_commute (l : list A) (n : nat) :
  nth_error (map g l) n = option_map g (nth_error l n).
Proof.
  revert n. induction l as [|x l IH]; intros [|n]; cbn; auto.
Qed.

End MapCommute.

Lemma findBest_saved (analyzed : list Analyzed) (f f' : Analyzed -> bool) :
  (forall x, f (savedAnalyzed x) = f' x) ->
  findBest (map savedAnalyzed analyzed) f
  = option_map savedAnalyzed (findBest analyzed f').
Proof.
  intros H. unfold findBest.
  rewrite (filter_map_commute savedAnalyzed f f' analyzed H), length_map.
  destruct (_ =? 0)%nat; [reflexivity|].
  rewrite (sort_map_commute savedAnalyzed _
             (fun a b : Analyzed =>
                inject_Z (b.(population) - a.(population))))
    by reflexivity.
  apply nth_error_map_commute.
Qed.

Lemma resolveLocked_saved (analyzed : list Analyzed) (lock : string) :
  resolveLocked (map savedAnalyzed analyzed) lock
  = option_map savedAnalyzed (resolveLocked analyzed lock).
Proof.
  unfold resolveLocked.
  rewrite (find_map_commute savedAnalyzed _
             (fun c : Analyzed =>
                String.eqb (JS.toLowerCase c.(hex)) (JS.toLowerCase lock)))
    by reflexivity.
  destruct (find _ analyzed); [reflexivity|].
  destruct (hexToRgb lock); [|reflexivity].
  cbn [option_map]. now rewrite savedAnalyzed_ofRgb.
Qed.

Lemma useColor_saved (color : option Analyzed) (fallbackHex : string) :
  useColor (option_map savedAnalyzed color) fallbackHex
  = useColor color fallbackHex.
Proof. now destruct color. Qed.

Lemma lightBgCandidate_saved (analyzed : list Analyzed)
    (lock : option string) :
  lightBgCandidate (map savedAnalyzed analyzed) lock
  = option_map savedAnalyzed (lightBgCandidate analyzed lock).
Proof.
  unfold lightBgCandidate. destruct (isSet lock).
  - apply resolveLocked_saved.
  - now apply findBest_saved.
Qed.

Lemma darkBgCandidate_saved (analyzed : list Analyzed)
    (lock : option string) :
  darkBgCandidate (map savedAnalyzed analyzed) lock
  = option_map savedAnalyzed (darkBgCandidate analyzed lock).
Proof.
  unfold darkBgCandidate. destruct (isSet lock).
  - apply resolveLocked_saved.
  - now apply findBest_saved.
Qed.

Lemma lightSurface_saved (analyzed : list Analyzed)
    (bgc : option Analyzed) (bg0 : string) :
  lightSurface (map savedAnalyzed analyzed) (option_map savedAnalyzed bgc)
    bg0
  = lightSurface analyzed bgc bg0.
Proof.
  unfold lightSurface.
  erewrite findBest_saved; [now rewrite useColor_saved|].
  intros x. cbv beta. now destruct bgc.
Qed.

Lemma darkSurface_saved (analyzed : list Analyzed)
    (bgc : option Analyzed) (q : Q) (bg0 : string) :
  darkSurface (map savedAnalyzed analyzed) (option_map savedAnalyzed bgc) q
    bg0
  = darkSurface analyzed bgc q bg0.
Proof.
  unfold darkSurface.
  erewrite findBest_saved; [now rewrite useColor_saved|].
  intros x. cbv beta. now destruct bgc.
Qed.

Lemma lightBorder_saved (analyzed : list Analyzed) (q : Q)
    (bg0 surface0 : string) :
  lightBorder (map savedAnalyzed analyzed) q bg0 surface0
  = lightBorder analyzed q bg0 surface0.
Proof.
  unfold lightBorder.
  erewrite findBest_saved; [now rewrite useColor_saved|]. reflexivity.
Qed.

Lemma darkBorder_saved (analyzed : list Analyzed) (q : Q)
    (bg0 surface0 : string) :
  darkBorder (map savedAnalyzed analyzed) q bg0 surface0
  = darkBorder analyzed q bg0 surface0.
Proof.
  unfold darkBorder.
  erewrite findBest_saved; [now rewrite useColor_saved|]. reflexivity.
Qed.

(** Candidates: filter, score, sort. *)
Lemma candidates_saved (analyzed : list Analyzed)
    (f f' : Analyzed -> bool) (sc sc' : Analyzed -> Scored) :
  (forall x, f (savedAnalyzed x) = f' x) ->
  (forall x, sc (savedAnalyzed x) = savedScored (sc' x)) ->
  sortByScore (map sc (List.filter f (map savedAnalyzed analyzed)))
  = map savedScored (sortByScore (map sc' (List.filter f' analyzed))).
Proof.
  intros Hf Hs. unfold sortByScore.
  rewrite (filter_map_commute savedAnalyzed f f' analyzed Hf).
  rewrite map_map, (map_ext _ (fun x => savedScored (sc' x)) Hs),
    <- (map_map sc' savedScored).
  now apply sort_map_commute.
Qed.

Lemma firstHex_saved (l : list Scored) :
  firstHex (map savedScored l) = firstHex l.
Proof.
  unfold firstHex. rewrite nth_error_map_commute.
  now destruct (nth_error l 0).
Qed.

(** The choice of the text candidate. *)
Lemma textCandidate_saved (l : list Scored) :
  option_map (fun c : Scored => c.(hex))
    match find (fun c => differs c (nth_error (map savedScored l) 0))
               (map savedScored l) with
    | Some c => Some c
    | None => nth_error (map savedScored l) 0
    end
  = option_map (fun c : Scored => c.(hex))
      match find (fun c => differs c (nth_error l 0)) l with
      | Some c => Some c
      | None => nth_error l 0
      end.
Proof.
  rewrite nth_error_map_commute.
  rewrite (find_map_commute savedScored _
             (fun c => differs c (nth_error l 0))).
  - destruct (find _ l); [reflexivity|]. now destruct (nth_error l 0).
  - intros x. now destruct (nth_error l 0).
Qed.

Lemma lightHeadingText_saved (analyzed : list Analyzed)
    (surfaceRgb : option Rgb) :
  lightHeadingText (map savedAnalyzed analyzed) surfaceRgb
  = lightHeadingText analyzed surfaceRgb.
Proof.
  unfold lightHeadingText, lightHeadingCandidates.
  rewrite (@candidates_saved analyzed _
             (fun c : Analyzed =>
                if c.(saturation) >? 0.25 then false
                else match surfaceRgb with
                     | None => c.(luminance) <? 0.2
                     | Some surfaceRgb =>
                         getContrastRatio c surfaceRgb >=? 4.5
                     end) _
             (fun c : Analyzed =>
                mkScored c ((1 - c.(luminance)) * 2 - c.(saturation) * 2)))
    by reflexivity.
  now rewrite firstHex_saved, textCandidate_saved.
Qed.

Lemma darkHeadingText_saved (analyzed : list Analyzed)
    (surfaceRgb : option Rgb) :
  darkHeadingText (map savedAnalyzed analyzed) surfaceRgb
  = darkHeadingText analyzed surfaceRgb.
Proof.
  unfold darkHeadingText, darkHeadingCandidates.
  rewrite (@candidates_saved analyzed _
             (fun c : Analyzed =>
                if c.(saturation) >? 0.25 then false
                else match surfaceRgb with
                     | None => c.(luminance) >? 0.7
                     | Some surfaceRgb =>
                         getContrastRatio c surfaceRgb >=? 4.5
                     end) _
             (fun c : Analyzed =>
                mkScored c (c.(luminance) * 2 - c.(saturation) * 2)))
    by reflexivity.
  now rewrite firstHex_saved, textCandidate_saved.
Qed.

Lemma lightMutedText_saved (analyzed : list Analyzed)
    (surfaceRgb : option Rgb) (heading0 text0 : string) :
  lightMutedText (map savedAnalyzed analyzed) surfaceRgb heading0 text0
  = lightMutedText analyzed surfaceRgb heading0 text0.
Proof.
  unfold lightMutedText. apply bind_ext. intros q _.
  unfold lightMutedCandidates.
  rewrite (@candidates_saved analyzed _
             (fun c : Analyzed =>
                if c.(saturation) >? 0.25 then false
                else match surfaceRgb with
                     | None => (c.(luminance) >? 0.2)
                               && (c.(luminance) <? 0.5)
                     | Some surfaceRgb =>
                         let contrast := getContrastRatio c surfaceRgb in
                         (contrast >=? 4) && (contrast <? 7)
                         && (c.(luminance) >? q)
                         && negb (String.eqb c.(hex) heading0)
                         && negb (String.eqb c.(hex) text0)
                     end) _
             (fun c : Analyzed =>
                mkScored c ((1 - JS.Math_abs (c.(luminance) - 0.4))
                            - c.(saturation))))
    by reflexivity.
  now rewrite firstHex_saved.
Qed.

Lemma darkMutedText_saved (analyzed : list Analyzed)
    (surfaceRgb : option Rgb) (heading0 text0 : string) :
  darkMutedText (map savedAnalyzed analyzed) surfaceRgb heading0 text0
  = darkMutedText analyzed surfaceRgb heading0 text0.
Proof.
  unfold darkMutedText. apply bind_ext. intros q _.
  unfold darkMutedCandidates.
  rewrite (@candidates_saved analyzed _
             (fun c : Analyzed =>
                if c.(saturation) >? 0.25 then false
                else match surfaceRgb with
                     | None => (c.(luminance) >? 0.3)
                               && (c.(luminance) <? 0.6)
                     | Some surfaceRgb =>
                         let contrast := getContrastRatio c surfaceRgb in
                         (contrast >=? 4) && (contrast <? 10)
                         && (c.(luminance) <? q)
                         && negb (String.eqb c.(hex) heading0)
                         && negb (String.eqb c.(hex) text0)
                     end) _
             (fun c : Analyzed =>
                mkScored c ((1 - JS.Math_abs (c.(luminance) - 0.5))
                            - c.(saturation))))
    by reflexivity.
  now rewrite firstHex_saved.
Qed.

Lemma head_hex_saved (l : list Analyzed) (fallbackHex : string) :
  match map savedAnalyzed l with
  | c :: _ => c.(hex)
  | [] => fallbackHex
  end
  = match l with c :: _ => c.(hex) | [] => fallbackHex end.
Proof. now destruct l. Qed.

Lemma lightBgValidated_saved (analyzed : list Analyzed)
    (lock : option string) (bg0 heading0 text0 muted0 : string) :
  lightBgValidated (map savedAnalyzed analyzed) lock bg0 heading0 text0
    muted0
  = lightBgValidated analyzed lock bg0 heading0 text0 muted0.
Proof.
  unfold lightBgValidated.
  destruct (match hexToRgb bg0 with Some _ => _ | None => _ end);
    [|reflexivity].
  rewrite (filter_map_commute savedAnalyzed _
             (fun c : Analyzed =>
                if c.(luminance) <? 0.65 then false
                else if failsOn heading0 c 4.5 then false
                else if failsOn text0 c 4.5 then false
                else if failsOn muted0 c 3.0 then false
                else true) analyzed) by reflexivity.
  rewrite (sort_map_commute savedAnalyzed _
             (fun a b : Analyzed => b.(luminance) - a.(luminance)))
    by reflexivity.
  apply head_hex_saved.
Qed.

Lemma darkBgValidated_saved (analyzed : list Analyzed)
    (lock : option string) (bg0 heading0 text0 muted0 : string) :
  darkBgValidated (map savedAnalyzed analyzed) lock bg0 heading0 text0
    muted0
  = darkBgValidated analyzed lock bg0 heading0 text0 muted0.
Proof.
  unfold darkBgValidated.
  destruct (match hexToRgb bg0 with Some _ => _ | None => _ end);
    [|reflexivity].
  rewrite (filter_map_commute savedAnalyzed _
             (fun c : Analyzed =>
                if c.(luminance) >? 0.15 then false
                else if failsOn heading0 c 4.5 then false
                else if failsOn text0 c 4.5 then false
                else if failsOn muted0 c 3.0 then false
                else true) analyzed) by reflexivity.
  rewrite (sort_map_commute savedAnalyzed _
             (fun a b : Analyzed => a.(luminance) - b.(luminance)))
    by reflexivity.
  apply head_hex_saved.
Qed.

Lemma vibrantFlag_saved (palette : list Swatch) (c : Analyzed) :
  vibrantFlag (map Storage.savedSwatch palette) (savedAnalyzed c)
  = vibrantFlag palette c.
Proof.
  unfold vibrantFlag.
  rewrite (find_map_commute Storage.savedSwatch _
             (fun p : Swatch =>
                String.eqb (JS.toLowerCase (rgbToHex p.(r) p.(g) p.(b)))
                           (JS.toLowerCase c.(hex)))) by reflexivity.
  destruct (find _ palette) as [p|]; [|reflexivity].
  cbn [option_map Storage.savedSwatch isVibrant]. apply orb_false_r.
Qed.

Lemma withVibrant_saved (c : Analyzed) (v : bool) :
  withVibrant (savedAnalyzed c) v = savedAnalyzed (withVibrant c v).
Proof.
  unfold withVibrant, savedAnalyzed, Storage.savedSwatch.
  cbn [swatch rgb r g b population isVibrant isBrandColor hex luminance
       saturation].
  now rewrite orb_false_r.
Qed.

Section SavedPrimary.

Variable Math_log : Q -> Q.
Variable palette : list Swatch.

Lemma lightPrimaryScore_saved (surfaceRgb : Rgb) (c : Analyzed) :
  lightPrimaryScore Math_log (map Storage.savedSwatch palette) surfaceRgb
    (savedAnalyzed c)
  = savedScored (lightPrimaryScore Math_log palette surfaceRgb c).
Proof.
  unfold lightPrimaryScore. cbv zeta.
  rewrite vibrantFlag_saved, withVibrant_saved. reflexivity.
Qed.

Lemma darkPrimaryScore_saved (surfaceRgb : Rgb) (c : Analyzed) :
  darkPrimaryScore Math_log (map Storage.savedSwatch palette) surfaceRgb
    (savedAnalyzed c)
  = savedScored (darkPrimaryScore Math_log palette surfaceRgb c).
Proof.
  unfold darkPrimaryScore. cbv zeta.
  rewrite vibrantFlag_saved, withVibrant_saved. reflexivity.
Qed.

Lemma relaxedCandidates_saved (analyzed : list Analyzed)
    (used : list string) (surfaceRgb : Rgb) (q lo hi : Q) :
  relaxedCandidates (map savedAnalyzed analyzed) used surfaceRgb q lo hi
  = map savedAnalyzed (relaxedCandidates analyzed used surfaceRgb q lo hi).
Proof.
  unfold relaxedCandidates.
  rewrite (filter_map_commute savedAnalyzed _
             (fun c : Analyzed =>
                if c.(saturation) <? JS.lit 0.15 then false
                else if includes used c.(hex) then false
                else if getContrastRatio c surfaceRgb <? q then false
                else if (c.(luminance) <? lo) || (c.(luminance) >? hi)
                     then false
                else true) analyzed) by reflexivity.
  now apply sort_map_commute.
Qed.

Lemma orCandidate_saved (a c : option Analyzed) :
  orCandidate (option_map savedAnalyzed a) (option_map savedAnalyzed c)
  = option_map savedAnalyzed (orCandidate a c).
Proof. now destruct a. Qed.

Lemma findMostVibrantVariant_saved (color : Rgb) :
  findMostVibrantVariant color (map Storage.savedSwatch palette)
  = Storage.savedSwatch (findMostVibrantVariant color palette).
Proof.
  unfold findMostVibrantVariant.
  set (step := fun (acc : Swatch * Q) (p : Swatch) => _).
  assert (G : forall (ps : list Swatch) (acc : Swatch * Q),
             fold_left step (map Storage.savedSwatch ps)
               (Storage.savedSwatch (fst acc), snd acc)
             = (Storage.savedSwatch (fst (fold_left step ps acc)),
                snd (fold_left step ps acc))).
  { induction ps as [|p ps IH]; intros acc; [reflexivity|].
    rewrite map_cons, !fold_left_cons, <- IH. f_equal.
    unfold step. cbn [fst snd].
    change (rgbToHsl (Storage.savedSwatch p).(r) (Storage.savedSwatch p).(g)
              (Storage.savedSwatch p).(b))
      with (rgbToHsl p.(r) p.(g) p.(b)).
    now destruct (_ && _). }
  set (s0 := (rgbToHsl color.(r) color.(g) color.(b)).(s)).
  pose proof (G palette (plain color, s0)) as H. cbn [fst snd] in H.
  rewrite savedSwatch_plain in H. now rewrite H.
Qed.

(** The vibrant-variant step at the end of the two algorithmic
    choices. *)
Lemma variant_saved (chosen : Analyzed) (extra : Swatch -> bool)
    (fallbackHex : string) :
  (forall p : Swatch, extra (Storage.savedSwatch p) = extra p) ->
  (if negb (savedAnalyzed chosen).(isVibrant)
      && negb (String.eqb (savedAnalyzed chosen).(hex) fallbackHex)
   then
     own <- hexToRgb (savedAnalyzed chosen).(hex) ;;
     let moreVibrant :=
       findMostVibrantVariant (mkRgb own.(r) own.(g) own.(b))
         (map Storage.savedSwatch palette) in
     if (getSaturation moreVibrant.(r) moreVibrant.(g) moreVibrant.(b)
         >? (savedAnalyzed chosen).(saturation) *! JS.lit 1.2)
        && extra moreVibrant
     then Some (analyze moreVibrant)
     else Some (savedAnalyzed chosen)
   else Some (savedAnalyzed chosen))
  = option_map savedAnalyzed
      (if negb chosen.(isVibrant)
          && negb (String.eqb chosen.(hex) fallbackHex)
       then
         own <- hexToRgb chosen.(hex) ;;
         let moreVibrant :=
           findMostVibrantVariant (mkRgb own.(r) own.(g) own.(b)) palette in
         if (getSaturation moreVibrant.(r) moreVibrant.(g) moreVibrant.(b)
             >? chosen.(saturation) *! JS.lit 1.2)
            && extra moreVibrant
         then Some (analyze moreVibrant)
         else Some chosen
       else Some chosen).
Proof.
  intros Hextra.
  change (savedAnalyzed chosen).(hex) with chosen.(hex).
  change (savedAnalyzed chosen).(saturation) with chosen.(saturation).
  change (savedAnalyzed chosen).(isVibrant)
    with (chosen.(isVibrant) || false).
  rewrite orb_false_r.
  destruct (_ && _); [|reflexivity].
  destruct (hexToRgb chosen.(hex)) as [own|]; [|reflexivity].
  cbn [JS.bind]. cbv zeta. rewrite findMostVibrantVariant_saved.
  set (mv := findMostVibrantVariant _ palette).
  rewrite Hextra.
  change (getSaturation (Storage.savedSwatch mv).(r)
            (Storage.savedSwatch mv).(g) (Storage.savedSwatch mv).(b))
    with (getSaturation mv.(r) mv.(g) mv.(b)).
  now destruct (_ && _).
Qed.

Lemma head_cand_saved (l : list Scored) :
  option_map cand (nth_error (map savedScored l) 0)
  = option_map savedAnalyzed (option_map cand (nth_error l 0)).
Proof.
  rewrite nth_error_map_commute. now destruct (nth_error l 0).
Qed.

Lemma lightPrimaryAlgorithmic_saved (analyzed : list Analyzed)
    (surface0 heading0 text0 muted0 : string) :
  lightPrimaryAlgorithmic Math_log (map Storage.savedSwatch palette)
    (map savedAnalyzed analyzed) surface0 heading0 text0 muted0
  = option_map savedAnalyzed
      (lightPrimaryAlgorithmic Math_log palette analyzed surface0 heading0
         text0 muted0).
Proof.
  unfold lightPrimaryAlgorithmic. cbv zeta.
  destruct (hexToRgb (orElse surface0 "#ffffff")) as [surfaceRgb|];
    [|reflexivity].
  cbn [JS.bind].
  set (used := List.filter JS.truthy [heading0; text0; muted0]).
  rewrite (@candidates_saved analyzed _
             (fun c : Analyzed =>
                if c.(saturation) <? JS.lit 0.20 then false
                else if includes used c.(hex) then false
                else if getContrastRatio c surfaceRgb <? 2.5 then false
                else true) _
             (lightPrimaryScore Math_log palette surfaceRgb))
    by (try reflexivity; apply lightPrimaryScore_saved).
  rewrite head_cand_saved, !relaxedCandidates_saved,
    !nth_error_map_commute, !orCandidate_saved.
  set (found := orCandidate _ _).
  replace (match option_map savedAnalyzed found with
           | Some c => c
           | None => ofRgb (mkRgb 0 113 227) "#0071e3"
           end)
    with (savedAnalyzed match found with
                        | Some c => c
                        | None => ofRgb (mkRgb 0 113 227) "#0071e3"
                        end)
    by (destruct found; reflexivity).
  apply (@variant_saved _
           (fun mv : Swatch => getContrastRatio mv surfaceRgb >=? 3)).
  reflexivity.
Qed.

Lemma reuseLightPrimary_saved (lightPrimary : option Analyzed)
    (surfaceRgb : Rgb) :
  reuseLightPrimary (option_map savedAnalyzed lightPrimary) surfaceRgb
  = option_map savedAnalyzed (reuseLightPrimary lightPrimary surfaceRgb).
Proof.
  unfold reuseLightPrimary. destruct lightPrimary as [lp|]; [|reflexivity].
  cbn [option_map]. change (savedAnalyzed lp).(hex) with lp.(hex).
  destruct (hexToRgb lp.(hex)); [|reflexivity].
  now destruct (_ >=? 2.5).
Qed.

Lemma darkPrimaryAlgorithmic_saved (analyzed : list Analyzed)
    (lightPrimary : option Analyzed)
    (surface0 heading0 text0 muted0 : string) :
  darkPrimaryAlgorithmic Math_log (map Storage.savedSwatch palette)
    (map savedAnalyzed analyzed) (option_map savedAnalyzed lightPrimary)
    surface0 heading0 text0 muted0
  = option_map savedAnalyzed
      (darkPrimaryAlgorithmic Math_log palette analyzed lightPrimary
         surface0 heading0 text0 muted0).
Proof.
  unfold darkPrimaryAlgorithmic. cbv zeta.
  destruct (hexToRgb (orElse surface0 "#141414")) as [surfaceRgb|];
    [|reflexivity].
  cbn [JS.bind].
  set (used := List.filter JS.truthy [heading0; text0; muted0]).
  rewrite (@candidates_saved analyzed _
             (fun c : Analyzed =>
                if c.(saturation) <? JS.lit 0.20 then false
                else if includes used c.(hex) then false
                else if getContrastRatio c surfaceRgb <? 2.5 then false
                else true) _
             (darkPrimaryScore Math_log palette surfaceRgb))
    by (try reflexivity; apply darkPrimaryScore_saved).
  rewrite head_cand_saved, !relaxedCandidates_saved,
    !nth_error_map_commute, reuseLightPrimary_saved, !orCandidate_saved.
  set (found := orCandidate _ _).
  replace (match option_map savedAnalyzed found with
           | Some c => c
           | None => ofRgb (mkRgb 64 156 255) "#409cff"
           end)
    with (savedAnalyzed match found with
                        | Some c => c
                        | None => ofRgb (mkRgb 64 156 255) "#409cff"
                        end)
    by (destruct found; reflexivity).
  apply (@variant_saved _
           (fun mv : Swatch =>
              (getLuminance mv.(r) mv.(g) mv.(b) >? 0.2)
              && (getContrastRatio mv surfaceRgb >=? 3))).
  reflexivity.
Qed.

Lemma lightPrimarySelect_saved (analyzed : list Analyzed)
    (lock : option string) (surface0 heading0 text0 muted0 : string) :
  lightPrimarySelect Math_log (map Storage.savedSwatch palette)
    (map savedAnalyzed analyzed) lock surface0 heading0 text0 muted0
  = option_map (option_map savedAnalyzed)
      (lightPrimarySelect Math_log palette analyzed lock surface0 heading0
         text0 muted0).
Proof.
  unfold lightPrimarySelect.
  assert (A : JS.bind
                (lightPrimaryAlgorithmic Math_log
                   (map Storage.savedSwatch palette)
                   (map savedAnalyzed analyzed) surface0 heading0 text0
                   muted0) (fun c => Some (Some c))
              = option_map (option_map savedAnalyzed)
                  (JS.bind
                     (lightPrimaryAlgorithmic Math_log palette analyzed
                        surface0 heading0 text0 muted0)
                     (fun c => Some (Some c)))).
  { rewrite lightPrimaryAlgorithmic_saved.
    now destruct (lightPrimaryAlgorithmic _ _ _ _ _ _ _). }
  destruct (isSet lock) as [lock0|]; [|exact A].
  rewrite resolveLocked_saved.
  destruct (resolveLocked analyzed lock0); [reflexivity | exact A].
Qed.

Lemma darkPrimarySelect_saved (analyzed : list Analyzed)
    (lock : option string) (lightPrimary : option Analyzed)
    (surface0 heading0 text0 muted0 : string) :
  darkPrimarySelect Math_log (map Storage.savedSwatch palette)
    (map savedAnalyzed analyzed) lock (option_map savedAnalyzed lightPrimary)
    surface0 heading0 text0 muted0
  = option_map (option_map savedAnalyzed)
      (darkPrimarySelect Math_log palette analyzed lock lightPrimary
         surface0 heading0 text0 muted0).
Proof.
  unfold darkPrimarySelect.
  assert (A : JS.bind
                (darkPrimaryAlgorithmic Math_log
                   (map Storage.savedSwatch palette)
                   (map savedAnalyzed analyzed)
                   (option_map savedAnalyzed lightPrimary) surface0 heading0
                   text0 muted0) (fun c => Some (Some c))
              = option_map (option_map savedAnalyzed)
                  (JS.bind
                     (darkPrimaryAlgorithmic Math_log palette analyzed
                        lightPrimary surface0 heading0 text0 muted0)
                     (fun c => Some (Some c)))).
  { rewrite darkPrimaryAlgorithmic_saved.
    now destruct (darkPrimaryAlgorithmic _ _ _ _ _ _ _ _). }
  destruct (isSet lock) as [lock0|]; [|exact A].
  rewrite resolveLocked_saved.
  destruct (resolveLocked analyzed lock0); [reflexivity | exact A].
Qed.

Lemma lightPrimaryTokens_saved (analyzed : list Analyzed)
    (lock : option string) (lightPrimary : option Analyzed) :
  lightPrimaryTokens (map savedAnalyzed analyzed) lock
    (option_map savedAnalyzed lightPrimary)
  = lightPrimaryTokens analyzed lock lightPrimary.
Proof.
  unfold lightPrimaryTokens. destruct lightPrimary as [lp|]; [|reflexivity].
  cbn [option_map].
  change (getContrastRatio (savedAnalyzed lp) white)
    with (getContrastRatio lp white).
  change (getContrastRatio (savedAnalyzed lp) black)
    with (getContrastRatio lp black).
  destruct (_ >=? 4.5); [reflexivity|].
  destruct (_ >=? 4.5); [reflexivity|].
  destruct (isSet lock); [reflexivity|].
  rewrite (find_map_commute savedAnalyzed _
             (fun c : Analyzed =>
                let cWhite := getContrastRatio c white in
                let cBlack := getContrastRatio c black in
                ((cWhite >=? 4.5) || (cBlack >=? 4.5))
                && (c.(saturation) >? JS.lit 0.2))) by reflexivity.
  now destruct (find _ analyzed).
Qed.

Lemma darkPrimaryTokens_saved (darkPrimary : option Analyzed) :
  darkPrimaryTokens (option_map savedAnalyzed darkPrimary)
  = darkPrimaryTokens darkPrimary.
Proof. now destruct darkPrimary. Qed.

Lemma lightMode_saved (analyzed : list Analyzed)
    (lockedPrimary lockedLightBg : option string) :
  lightMode Math_log (map Storage.savedSwatch palette)
    (map savedAnalyzed analyzed) lockedPrimary lockedLightBg
  = option_map (fun tl : TokenSet * option Analyzed =>
                  (fst tl, option_map savedAnalyzed (snd tl)))
      (lightMode Math_log palette analyzed lockedPrimary lockedLightBg).
Proof.
  unfold lightMode. cbv zeta.
  rewrite lightBgCandidate_saved, useColor_saved.
  set (bgc := lightBgCandidate analyzed lockedLightBg).
  set (bg0 := useColor bgc "#f7f7f7").
  destruct (if JS.truthy bg0 then _ else _) as [q1|]; [|reflexivity].
  cbn [JS.bind]. rewrite lightSurface_saved.
  set (surface0 := lightSurface analyzed bgc bg0).
  destruct (if JS.truthy surface0 then _ else _) as [q2|]; [|reflexivity].
  cbn [JS.bind]. rewrite lightBorder_saved, lightHeadingText_saved.
  destruct (lightHeadingText analyzed _) as [[h0 t0]|]; [|reflexivity].
  cbn [JS.bind]. rewrite lightMutedText_saved.
  destruct (lightMutedText analyzed _ h0 t0) as [m0|]; [|reflexivity].
  cbn [JS.bind]. rewrite lightBgValidated_saved, lightPrimarySelect_saved.
  destruct (lightPrimarySelect Math_log palette analyzed lockedPrimary
              surface0 h0 t0 m0) as [lp|]; [|reflexivity].
  cbn [JS.bind option_map]. rewrite lightPrimaryTokens_saved.
  now destruct (lightPrimaryTokens analyzed lockedPrimary lp).
Qed.

Lemma darkMode_saved (analyzed : list Analyzed)
    (lockedPrimary lockedDarkBg : option string)
    (lightPrimary : option Analyzed) :
  darkMode Math_log (map Storage.savedSwatch palette)
    (map savedAnalyzed analyzed) lockedPrimary lockedDarkBg
    (option_map savedAnalyzed lightPrimary)
  = darkMode Math_log palette analyzed lockedPrimary lockedDarkBg
      lightPrimary.
Proof.
  unfold darkMode. cbv zeta.
  rewrite darkBgCandidate_saved, useColor_saved.
  set (bgc := darkBgCandidate analyzed lockedDarkBg).
  set (bg0 := useColor bgc "#0b0b0b").
  destruct (if JS.truthy bg0 then _ else _) as [q1|]; [|reflexivity].
  cbn [JS.bind]. rewrite darkSurface_saved.
  set (surface0 := darkSurface analyzed bgc q1 bg0).
  destruct (if JS.truthy surface0 then _ else _) as [q2|]; [|reflexivity].
  cbn [JS.bind]. rewrite darkBorder_saved, darkHeadingText_saved.
  destruct (darkHeadingText analyzed _) as [[h0 t0]|]; [|reflexivity].
  cbn [JS.bind]. rewrite darkMutedText_saved.
  destruct (darkMutedText analyzed _ h0 t0) as [m0|]; [|reflexivity].
  cbn [JS.bind]. rewrite darkBgValidated_saved, darkPrimarySelect_saved.
  destruct (darkPrimarySelect Math_log palette analyzed lockedPrimary
              lightPrimary surface0 h0 t0 m0) as [dp|]; [|reflexivity].
  cbn [JS.bind option_map]. now rewrite darkPrimaryTokens_saved.
Qed.

Lemma generateTokens_saved
    (lockedPrimary lockedLightBg lockedDarkBg : option string) :
  generateTokens Math_log (map Storage.savedSwatch palette) lockedPrimary
    lockedLightBg lockedDarkBg
  = generateTokens Math_log palette lockedPrimary lockedLightBg lockedDarkBg.
Proof.
  unfold generateTokens. cbv zeta.
  rewrite analyze_saved, lightMode_saved.
  destruct (lightMode Math_log palette (map analyze palette) lockedPrimary
              lockedLightBg) as [[lt lp]|]; [|reflexivity].
  cbn [option_map JS.bind fst snd]. now rewrite darkMode_saved.
Qed.

End SavedPrimary.

Lemma savedSwatch_ok (palette : list Swatch) :
  palette_ok palette -> palette_ok (map Storage.savedSwatch palette).
Proof.
  intros H. apply Forall_map. eapply Forall_impl; [|exact H].
  intros c Hc. exact Hc.
Qed.

(** X28. Saving and loading a palette reproduces its tokens.  The record
    [savePalette] builds holds the palette without the brand flag;
    [loadPalette] of that record does not throw, clears the three locks
    and stores the tokens that [generateTokens] gives for the original
    palette without locks: [generateTokens] never reads the brand flag.
    (The stored record is taken to come back from [JSON.parse] as it was
    written.) *)
Theorem load_saved_palette (Math_log : Q -> Q) (palette : list Swatch)
    (newId : string) (now : Z) (defaultName name : string)
    (accepted : bool) (tokens : option Tokens) (store : Storage.Store)
    (s : Session) :
  palette_ok palette -> palette <> [] ->
  let saved :=
    fst (Storage.savePalette newId now defaultName accepted name palette
           tokens store) in
  exists s',
    loadPalette Math_log saved s = Some s'
    /\ s'.(extractedPalette) = map Storage.savedSwatch palette
    /\ (s'.(lockedPrimaryHex) = None /\ s'.(lockedLightBgHex) = None
        /\ s'.(lockedDarkBgHex) = None)
    /\ s'.(currentTokens) = generateTokens Math_log palette None None None
    /\ exists t, s'.(currentTokens) = Some t.
Proof.
  intros Hp Hne. cbv zeta. unfold Storage.savePalette. cbv zeta.
  cbn [fst]. unfold loadPalette. cbn [Storage.palette].
  set (s0 := mkSession (map Storage.savedSwatch palette) None None None
               s.(currentTokens)).
  destruct (@computeAndRender_ok Math_log s0 (savedSwatch_ok Hp))
    as [[E _] | (_ & t & Et & ->)].
  - exfalso. cbn [extractedPalette s0] in E. apply Hne.
    destruct palette; [reflexivity | discriminate E].
  - cbn [extractedPalette lockedPrimaryHex lockedLightBgHex lockedDarkBgHex
         s0] in *.
    rewrite generateTokens_saved in Et.
    eexists. split; [reflexivity|]. cbn.
    split; [reflexivity|]. split; [auto|]. split; [now rewrite Et|].
    now exists t.
Qed.

Lemma load_saved_palette_witness :
  let saved :=
    fst (Storage.savePalette "pal_1_abc" 1 "Palette 1" true "" examplePalette
           None None) in
  let s := mkSession [] (Some "#123456") None None None in
  (palette_ok examplePalette /\ examplePalette <> [])
  /\ exists s',
       loadPalette log2_floor saved s = Some s'
       /\ s'.(extractedPalette) = map Storage.savedSwatch examplePalette
       /\ (s'.(lockedPrimaryHex) = None /\ s'.(lockedLightBgHex) = None
           /\ s'.(lockedDarkBgHex) = None)
       /\ s'.(currentTokens)
          = generateTokens log2_floor examplePalette None None None
       /\ exists t, s'.(currentTokens) = Some t.
Proof.
  intros saved s.
  split; [split; [exact examplePalette_ok | discriminate]|].
  apply (@load_saved_palette log2_floor examplePalette "pal_1_abc" 1
           "Palette 1" "" true _ None s examplePalette_ok).
  discriminate.
Defined.

(** ** Locking a background from the preview *)

Lemma generateTokens_locked_bg (Math_log : Q -> Q) (palette : list Swatch)
    (lockedPrimary : option string) (lock : string) (c0 : Rgb) :
  palette_ok palette ->
  hexToRgb lock = Some c0 ->
  JS.toLowerCase lock = lock ->
  (forall lockedDarkBg, exists t,
     generateTokens Math_log palette lockedPrimary (Some lock) lockedDarkBg
     = Some t
     /\ t.(light).(bg) = lock)
  /\ (forall lockedLightBg, exists t,
        generateTokens Math_log palette lockedPrimary lockedLightBg
          (Some lock) = Some t
        /\ t.(dark).(bg) = lock).
Proof.
  intros Hp P Low. pose proof (@isSet_parseable lock c0 P) as S. split.
  - intros lockedDarkBg.
    open_generateTokens Math_log Hp lockedPrimary (Some lock) lockedDarkBg.
    rewrite Ebl, (lightBgValidated_locked _ _ _ _ _ _ S).
    unfold lightBgCandidate. rewrite S.
    now apply (@locked_bg palette lock c0 "#f7f7f7" Hp P).
  - intros lockedLightBg.
    open_generateTokens Math_log Hp lockedPrimary lockedLightBg (Some lock).
    rewrite Ebd, (darkBgValidated_locked _ _ _ _ _ _ S).
    unfold darkBgCandidate. rewrite S.
    now apply (@locked_bg palette lock c0 "#0b0b0b" Hp P).
Qed.

(** X29. Clicking a background swatch of a preview while that mode has
    no background lock locks it: the click does not throw, and in the
    stored tokens the [bg] of that mode is the swatch's hex, verbatim,
    whether or not it passes the contrast tests by then.  Clicking the
    same swatch again removes the lock. *)
Theorem click_background_swatch (Math_log : Q -> Q) (s : Session)
    (c : Analyzed) (lightMode : bool) :
  palette_ok s.(extractedPalette) ->
  In c (map analyze s.(extractedPalette)) ->
  (if lightMode then s.(lockedLightBgHex) else s.(lockedDarkBgHex)) = None ->
  exists s1 t1 s2,
    clickBgSwatch Math_log lightMode c.(hex) s = Some s1
    /\ (if lightMode then s1.(lockedLightBgHex) else s1.(lockedDarkBgHex))
       = Some c.(hex)
    /\ s1.(currentTokens) = Some t1
    /\ (if lightMode then t1.(light).(bg) else t1.(dark).(bg)) = c.(hex)
    /\ clickBgSwatch Math_log lightMode c.(hex) s1 = Some s2
    /\ s2.(lockedPrimaryHex) = s.(lockedPrimaryHex)
    /\ s2.(lockedLightBgHex) = s.(lockedLightBgHex)
    /\ s2.(lockedDarkBgHex) = s.(lockedDarkBgHex).
Proof.
  intros Hp Hc Hnone.
  assert (Hne : s.(extractedPalette) <> []).
  { intros E. rewrite E in Hc. destruct Hc. }
  destruct (analyzed_In_coherent Hp _ Hc) as [_ P].
  pose proof (@coherent_hex_lower _ c Hp Hc) as Low.
  destruct (@generateTokens_locked_bg Math_log _ s.(lockedPrimaryHex)
              c.(hex) _ Hp P Low) as [GL GD].
  destruct lightMode; cbv iota in Hnone |- *.
  - destruct (GL s.(lockedDarkBgHex)) as (t & Et & Ebg).
    pose (s0 := mkSession s.(extractedPalette) s.(lockedPrimaryHex)
                  (Some c.(hex)) s.(lockedDarkBgHex) s.(currentTokens)).
    destruct (@computeAndRender_ok Math_log s0 Hp)
      as [[E _] | (_ & t1 & Et1 & E1)]; [contradiction|].
    cbn [extractedPalette lockedPrimaryHex lockedLightBgHex lockedDarkBgHex
         s0] in Et1, E1.
    rewrite Et in Et1. injection Et1 as <-.
    pose (s3 := mkSession s.(extractedPalette) s.(lockedPrimaryHex) None
                  s.(lockedDarkBgHex) (Some t)).
    destruct (@computeAndRender_ok Math_log s3 Hp)
      as [[E _] | (_ & t2 & Et2 & E3)]; [contradiction|].
    cbn [extractedPalette lockedPrimaryHex lockedLightBgHex lockedDarkBgHex
         s3] in Et2, E3.
    unfold clickBgSwatch. rewrite Hnone. cbn [toggleLock].
    eexists _, t, _. split; [exact E1|].
    cbn [extractedPalette lockedPrimaryHex lockedLightBgHex lockedDarkBgHex
         currentTokens toggleLock].
    rewrite String.eqb_refl.
    split; [reflexivity|]. split; [reflexivity|]. split; [exact Ebg|].
    split; [exact E3|]. cbn. auto.
  - destruct (GD s.(lockedLightBgHex)) as (t & Et & Ebg).
    pose (s0 := mkSession s.(extractedPalette) s.(lockedPrimaryHex)
                  s.(lockedLightBgHex) (Some c.(hex)) s.(currentTokens)).
    destruct (@computeAndRender_ok Math_log s0 Hp)
      as [[E _] | (_ & t1 & Et1 & E1)]; [contradiction|].
    cbn [extractedPalette lockedPrimaryHex lockedLightBgHex lockedDarkBgHex
         s0] in Et1, E1.
    rewrite Et in Et1. injection Et1 as <-.
    pose (s3 := mkSession s.(extractedPalette) s.(lockedPrimaryHex)
                  s.(lockedLightBgHex) None (Some t)).
    destruct (@computeAndRender_ok Math_log s3 Hp)
      as [[E _] | (_ & t2 & Et2 & E3)]; [contradiction|].
    cbn [extractedPalette lockedPrimaryHex lockedLightBgHex lockedDarkBgHex
         s3] in Et2, E3.
    unfold clickBgSwatch. rewrite Hnone. cbn [toggleLock].
    eexists _, t, _. split; [exact E1|].
    cbn [extractedPalette lockedPrimaryHex lockedLightBgHex lockedDarkBgHex
         currentTokens toggleLock].
    rewrite String.eqb_refl.
    split; [reflexivity|]. split; [reflexivity|]. split; [exact Ebg|].
    split; [exact E3|]. cbn. auto.
Qed.

Lemma click_background_swatch_witness :
  let c := analyze (mkSwatch (mkRgb 250 250 250) 120 false false) in
  let s := mkSession examplePalette None None None None in
  (palette_ok s.(extractedPalette)
   /\ In c (map analyze s.(extractedPalette))
   /\ s.(lockedLightBgHex) = None)
  /\ exists s1 t1 s2,
       clickBgSwatch log2_floor true c.(hex) s = Some s1
       /\ s1.(lockedLightBgHex) = Some c.(hex)
       /\ s1.(currentTokens) = Some t1
       /\ t1.(light).(bg) = c.(hex)
       /\ clickBgSwatch log2_floor true c.(hex) s1 = Some s2
       /\ s2.(lockedPrimaryHex) = s.(lockedPrimaryHex)
       /\ s2.(lockedLightBgHex) = s.(lockedLightBgHex)
       /\ s2.(lockedDarkBgHex) = s.(lockedDarkBgHex).
Proof.
  intros c s.
  assert (H1 : palette_ok s.(extractedPalette)) by exact examplePalette_ok.
  assert (H2 : In c (map analyze s.(extractedPalette)))
    by (left; reflexivity).
  split; [split; [exact H1 | split; [exact H2 | reflexivity]]|].
  apply (@click_background_swatch log2_floor s c true H1 H2). reflexivity.
Defined.
